(** * scrtdd: double-difference relocation, waveform and cross-correlation core

    A shallow embedding of the parts of [src/apps/scrtdd/hypodd.cpp],
    [src/libs/hdd/utils.cpp] and [src/libs/core/rtddmsg.h] that the
    specification makes claims about, with the theorems that settle them.

    Conventions of the embedding
    - [int] is [Z]; every place where the C++ would leave the range of a
      32-bit [int], or convert a non-finite [double] to [int], is made
      explicit: the conversion [toInt] is partial, [wrap] is the value
      that the 32 bits of an [int] hold after an overflow, and [cvttsd2si]
      is the conversion as the compiled code performs it.
    - [double] is the type [double] below: a rational, or one of the three
      non-finite values; the special values and the way comparisons treat
      them are inside the model. Its arithmetic comes in two forms. The
      operations [add], [sub], [mul] and [div] are exact. The operations
      [add64], [sub64], [mul64] and [div64] round the exact result to
      binary64 (to nearest, ties to even, overflow to an infinity); they
      are used where a sample position or a number of samples is computed
      from seconds and frequencies ([trim], [S2Nratio], [resample], the
      number of lags of [xcorr]), where the last bit of a product decides
      the index, for the threshold of the quality check, for the means and
      medians of utils.cpp and for the travel times of dt.ct. The sums of
      the correlation coefficient, the differential times and the geometry
      of the ellipsoids are kept exact: the theorems on them are about
      which operations are made and about comparisons, not about the last
      bit of a result.
    - containers: [std::map] and [std::multimap] are key-ordered association
      lists, [std::set<string>] is a [gset string], the memory cache
      [map<string,GenericRecordPtr>] is a [gmap string].
    - functions of the SeisComP libraries (record stream, inventory, geodesy,
      [std::sqrt]) are parameters of the sections that use them. *)

From Stdlib Require Import ZArith QArith Qabs Qround Qminmax Qpower Bool List Sorted Lia Lqa.
From stdpp Require Import base option list gmap strings pretty.
Import ListNotations.

Local Open Scope Z_scope.

(* ===================================================================== *)
(** * 1. The numeric model *)
(* ===================================================================== *)

Module Dbl.

(** A C++ [double]: not-a-number, an infinity with its sign, or a finite
    value kept as an exact rational. *)
Inductive double : Type :=
| NaN : double
| Inf (negative : bool) : double
| Fin (q : Q) : double.

Definition Qltb (a b : Q) : bool := (Qnum a * QDen b <? Qnum b * QDen a)%Z.
Definition Qleb (a b : Q) : bool := (Qnum a * QDen b <=? Qnum b * QDen a)%Z.
Definition Qeqb (a b : Q) : bool := (Qnum a * QDen b =? Qnum b * QDen a)%Z.

Definition of_Z (z : Z) : double := Fin (inject_Z z).

Definition isfinite (x : double) : bool :=
  match x with Fin _ => true | _ => false end.

Definition isnan (x : double) : bool :=
  match x with NaN => true | _ => false end.

(** [a < b] of C++: false as soon as one side is NaN. *)
Definition ltb (a b : double) : bool :=
  match a, b with
  | NaN, _ | _, NaN => false
  | Inf sa, Inf sb => sa && negb sb
  | Inf sa, Fin _ => sa
  | Fin _, Inf sb => negb sb
  | Fin p, Fin q => Qltb p q
  end.

(** [a <= b] of C++. *)
Definition leb (a b : double) : bool :=
  match a, b with
  | NaN, _ | _, NaN => false
  | Inf sa, Inf sb => sa || negb sb
  | Inf sa, Fin _ => sa
  | Fin _, Inf sb => negb sb
  | Fin p, Fin q => Qleb p q
  end.

Definition gtb (a b : double) : bool := ltb b a.
Definition geb (a b : double) : bool := leb b a.

(** [a == b] and [a != b] of C++. *)
Definition eqb (a b : double) : bool :=
  match a, b with
  | NaN, _ | _, NaN => false
  | Inf sa, Inf sb => Bool.eqb sa sb
  | Fin p, Fin q => Qeqb p q
  | _, _ => false
  end.

Definition neb (a b : double) : bool := negb (eqb a b).

Definition opp (a : double) : double :=
  match a with
  | NaN => NaN
  | Inf s => Inf (negb s)
  | Fin q => Fin (- q)
  end.

Definition add (a b : double) : double :=
  match a, b with
  | NaN, _ | _, NaN => NaN
  | Inf sa, Inf sb => if Bool.eqb sa sb then Inf sa else NaN
  | Inf sa, Fin _ => Inf sa
  | Fin _, Inf sb => Inf sb
  | Fin p, Fin q => Fin (p + q)
  end.

Definition sub (a b : double) : double := add a (opp b).

Definition mul (a b : double) : double :=
  match a, b with
  | NaN, _ | _, NaN => NaN
  | Inf sa, Inf sb => Inf (xorb sa sb)
  | Inf sa, Fin q =>
      if Qeqb q 0 then NaN else Inf (xorb sa (Qltb q 0))
  | Fin p, Inf sb =>
      if Qeqb p 0 then NaN else Inf (xorb (Qltb p 0) sb)
  | Fin p, Fin q => Fin (p * q)
  end.

(** Division; the rational zero stands for the positive zero of IEEE 754. *)
Definition div (a b : double) : double :=
  match a, b with
  | NaN, _ | _, NaN => NaN
  | Inf _, Inf _ => NaN
  | Inf sa, Fin q => Inf (xorb sa (Qltb q 0))
  | Fin _, Inf _ => Fin 0
  | Fin p, Fin q =>
      if Qeqb q 0
      then (if Qeqb p 0 then NaN else Inf (Qltb p 0))
      else Fin (p / q)
  end.

Definition abs (a : double) : double :=
  match a with
  | NaN => NaN
  | Inf _ => Inf false
  | Fin q => Fin (Qabs q)
  end.

(** [std::max(a, b)] is [(a < b) ? b : a] and [std::min(a, b)] is
    [(b < a) ? b : a]. *)
Definition max (a b : double) : double := if ltb a b then b else a.
Definition min (a b : double) : double := if ltb b a then b else a.

(** Truncation toward zero of a rational. *)
Definition Qtrunc (q : Q) : Z := Z.quot (Qnum q) (QDen q).

Definition INT_MIN : Z := - 2 ^ 31.
Definition INT_MAX : Z := 2 ^ 31 - 1.

(** Conversion [double -> int]: the value truncated toward zero; undefined
    ([None]) for NaN, the infinities and values outside the range of [int]. *)
Definition toInt (a : double) : option Z :=
  match a with
  | Fin q =>
      let z := Qtrunc q in
      if (INT_MIN <=? z) && (z <=? INT_MAX) then Some z else None
  | _ => None
  end.

(** [std::round]: to the nearest integer, halves away from zero. *)
Definition round (a : double) : double :=
  match a with
  | Fin q =>
      if Qltb q 0 then Fin (inject_Z (- Qfloor (- q + (1 # 2))))
      else Fin (inject_Z (Qfloor (q + (1 # 2))))
  | _ => a
  end.

(** The conversion [double -> int] of the compiled code (the instruction
    [cvttsd2si] of x86-64): the value truncated toward zero, and [INT_MIN]
    for NaN, the infinities and the values outside the range of [int],
    which the C++ standard leaves undefined. *)
Definition cvttsd2si (a : double) : Z :=
  match toInt a with
  | Some z => z
  | None => INT_MIN
  end.

(** The 32 bits of an [int] after an operation whose result in [Z] is [z]:
    the two's complement value, which is [z] itself when [z] is in the
    range of [int]. *)
Definition wrap (z : Z) : Z := (z + 2 ^ 31) mod 2 ^ 32 - 2 ^ 31.

(** ** Rounding to binary64 *)

(** [(n / d) / 2 ^ e] as a fraction, for positive [n] and [d]. *)
Definition scaled (n d e : Z) : Z * Z :=
  if 0 <=? e then (n, d * 2 ^ e) else (n * 2 ^ (- e), d).

(** The integer nearest to [num / den], the even one of the two in a tie. *)
Definition rne (num den : Z) : Z :=
  let fl := num / den in
  let r2 := 2 * (num mod den) in
  if r2 <? den then fl
  else if den <? r2 then fl + 1
  else if Z.even fl then fl else fl + 1.

(** The exponent [e] with [2 ^ e <= n / d < 2 ^ (e + 1)]. *)
Definition exponent (n d : Z) : Z :=
  let e := Z.log2 n - Z.log2 d in
  if fst (scaled n d e) <? snd (scaled n d e) then e - 1 else e.

(** The binary64 number nearest to [q]: 53 bits from the exponent of [q]
    down, or down from the exponent -1022 for the subnormal numbers, and
    an infinity from [2 ^ 1024 - 2 ^ 970] on. *)
Definition round64 (q : Q) : double :=
  let n := Z.abs (Qnum q) in
  let d := Z.pos (Qden q) in
  if n =? 0 then Fin 0
  else
    let p := Z.max (exponent n d) (-1022) - 52 in
    let m := rne (fst (scaled n d p)) (snd (scaled n d p)) in
    if (0 <=? p) && (2 ^ 1024 <=? m * 2 ^ p) then Inf (Qnum q <? 0)
    else Fin (Qred ((Z.sgn (Qnum q) * m * 2 ^ Z.max p 0)
                    # Z.to_pos (2 ^ Z.max (- p) 0))).

(** A result of the exact arithmetic, rounded. *)
Definition rounded (a : double) : double :=
  match a with
  | Fin q => round64 q
  | _ => a
  end.

Definition add64 (a b : double) : double := rounded (add a b).
Definition sub64 (a b : double) : double := rounded (sub a b).
Definition mul64 (a b : double) : double := rounded (mul a b).
Definition div64 (a b : double) : double := rounded (div a b).

(** The parts of a rounded number, by which the theorems on [round64]
    are stated: [2 ^ e] as a rational, the fraction [n / d], the exponent
    of the last bit that is kept of [n / d], the integer that the kept
    bits make, and the magnitude of the rounded number before the test on
    the overflow. *)
Definition pow2 (e : Z) : Q := (2 ^ e)%Q.
Definition frac (n d : Z) : Q := (inject_Z n / inject_Z d)%Q.
Definition quantum (n d : Z) : Z := Z.max (exponent n d) (-1022) - 52.
Definition mantissa (n d : Z) : Z :=
  rne (fst (scaled n d (quantum n d))) (snd (scaled n d (quantum n d))).
Definition magnitude (n d : Z) : Q := (inject_Z (mantissa n d) * pow2 (quantum n d))%Q.
Definition mag (q : Q) : Q := magnitude (Z.abs (Qnum q)) (Z.pos (Qden q)).

(** A binary64 number: a number that rounding leaves as it is; the
    special values are binary64 values too. *)
Definition binary64 (x : double) : Prop :=
  match x with
  | Fin q => exists r, round64 q = Fin r /\ (r == q)%Q
  | _ => True
  end.

(** The value with its fraction in lowest terms, to state results. *)
Definition canon (a : double) : double :=
  match a with Fin q => Fin (Qred q) | _ => a end.

(** The same number: equality of values, with NaN the same as NaN. It is
    used to compare two results, not to model [==]. *)
Definition same (a b : double) : Prop :=
  match a, b with
  | NaN, NaN => True
  | Inf sa, Inf sb => sa = sb
  | Fin p, Fin q => p == q
  | _, _ => False
  end.

End Dbl.

Abbreviation double := Dbl.double.

(* ===================================================================== *)
(** * 2. The disk cache record length ([nextPowerOf2], [writeTrace]) *)
(* ===================================================================== *)

Module DiskCache.
Import Dbl.

(** The loop of [nextPowerOf2<int>]:
    [while (b < a) { b <<= 1; if (b > max) return -1; } return b;]
    on the 32 bits of [b]. After 32 turns the bits of [b] are shifted out
    and [b] is 0 for good: the loop has returned by then or never does,
    which is the result [None] when the fuel is 33 or more. *)
Fixpoint nextPowerOf2_loop (fuel : nat) (a b max : Z) : option Z :=
  if b <? a then
    match fuel with
    | O => None
    | S fuel' =>
        let b' := wrap (Z.shiftl b 1) in
        if b' >? max then Some (-1) else nextPowerOf2_loop fuel' a b' max
    end
  else Some b.

(** [nextPowerOf2<int>(a, min, max)]; [None] when the loop never ends. *)
Definition nextPowerOf2 (a min max : Z) : option Z :=
  nextPowerOf2_loop 33 a min max.

Definition MINRECLEN : Z := 128.
Definition MAXRECLEN : Z := 1048576.

(** What [writeTrace] does with the output stream. *)
Inductive written : Type :=
| Record_written (reclen : Z)   (* setOutputRecordLength(reclen); write *)
| Nothing_written.

(** [writeTrace], for a trace whose data holds [size] samples of [bytes]
    bytes each; [size * bytes + 64] is computed in [int]. *)
Definition writeTrace (size bytes : Z) : option written :=
  let reclen := wrap (wrap (size * bytes) + 64) in
  match nextPowerOf2 reclen MINRECLEN MAXRECLEN with
  | None => None
  | Some reclen =>
      if reclen >? 0 then Some (Record_written reclen)
      else Some Nothing_written
  end.

(** The claimed record length: the next power of two greater than or equal
    to [payload + 64], clamped to [[128, 1048576]]. *)
Definition spec_record_length (payload : Z) : Z :=
  Z.min MAXRECLEN (Z.max MINRECLEN (2 ^ Z.log2_up (payload + 64))).

End DiskCache.

(* ===================================================================== *)
(** * 3. Ellipsoids and octants ([Ellipsoid], [HddEllipsoid]) *)
(* ===================================================================== *)

Module Ellipsoid.

(** [struct Ellipsoid]: axes in km, origin, orientation in degrees. *)
Record t : Type := mk {
  axis_a : double; axis_b : double; axis_c : double;
  lat : double; lon : double; depth : double;
  orientation : double
}.

End Ellipsoid.

Module HddEllipsoid.
Import Dbl.

(** The geodesy and the trigonometry come from SeisComP's [Math::Geo] and
    from libm. *)
Section Geo.

Variable delazi : double -> double -> double -> double -> double * double * double.
Variable deg2km : double -> double.
Variable cos : double -> double.
Variable sin : double -> double.

(** [Ellipsoid::isInside]. *)
Definition Ellipsoid_isInside (this : Ellipsoid.t) (lat lon depth : double) : bool :=
  let '(distance, az, _) :=
    delazi lat lon (Ellipsoid.lat this) (Ellipsoid.lon this) in
  let distance := deg2km distance in
  let az := add az (Ellipsoid.orientation this) in
  let dist_x := mul distance (cos az) in
  let dist_y := mul distance (sin az) in
  let dist_z := abs (sub depth (Ellipsoid.depth this)) in
  let one := add (add (div (mul dist_x dist_x) (Ellipsoid.axis_a this))
                      (div (mul dist_y dist_y) (Ellipsoid.axis_b this)))
                 (div (mul dist_z dist_z) (Ellipsoid.axis_c this)) in
  leb one (of_Z 1).

End Geo.

(** The constructor [HddEllipsoid(axis_len, lat, lon, depth)]. *)
Definition new (axis_len lat lon depth : double) : Ellipsoid.t :=
  let a := div axis_len (of_Z 2) in
  Ellipsoid.mk a a axis_len lat lon depth (of_Z 0).

(** [set<int>{...}.count(quadrant) != 0]. *)
Definition count (s : list Z) (quadrant : Z) : bool :=
  existsb (Z.eqb quadrant) s.

(** [HddEllipsoid::isInQuadrant]; [None] is the [std::invalid_argument]
    thrown for a quadrant outside 1..8. *)
Definition isInQuadrant (_ellipsoid : Ellipsoid.t)
    (lat lon depth : double) (quadrant : Z) : option bool :=
  if (quadrant <? 1) || (quadrant >? 8) then None
  else if ltb depth (Ellipsoid.depth _ellipsoid) && count [1;2;3;4] quadrant then Some false
  else if gtb depth (Ellipsoid.depth _ellipsoid) && count [5;6;7;8] quadrant then Some false
  else if ltb lon (Ellipsoid.lon _ellipsoid) && count [1;4;5;8] quadrant then Some false
  else if gtb lon (Ellipsoid.lon _ellipsoid) && count [2;3;6;7] quadrant then Some false
  else if ltb lat (Ellipsoid.lat _ellipsoid) && count [1;2;5;6] quadrant then Some false
  else if gtb lat (Ellipsoid.lat _ellipsoid) && count [3;4;7;8] quadrant then Some false
  else Some true.

Section Geo.

Variable delazi : double -> double -> double -> double -> double * double * double.
Variable deg2km : double -> double.
Variable cos : double -> double.
Variable sin : double -> double.

(** [HddEllipsoid::isInside] and [HddEllipsoid::isOutside]; [&&] does not
    evaluate its right side when the left one is false. *)
Definition isInside (_ellipsoid : Ellipsoid.t)
    (lat lon depth : double) (quadrant : Z) : option bool :=
  match isInQuadrant _ellipsoid lat lon depth quadrant with
  | None => None
  | Some q => Some (q && Ellipsoid_isInside delazi deg2km cos sin _ellipsoid lat lon depth)
  end.

Definition isOutside (_ellipsoid : Ellipsoid.t)
    (lat lon depth : double) (quadrant : Z) : option bool :=
  match isInQuadrant _ellipsoid lat lon depth quadrant with
  | None => None
  | Some q => Some (q && negb (Ellipsoid_isInside delazi deg2km cos sin _ellipsoid lat lon depth))
  end.

End Geo.

(** The labelling that the specification states: within a depth stratum the
    octants are numbered clockwise from the NE corner (NE, SE, SW, NW), 1-4
    for the points shallower than the origin, 5-8 for the deeper ones. *)
Definition spec_octant_clockwise (north east shallower : bool) : Z :=
  (match north, east with
   | true, true => 1 | false, true => 2 | false, false => 3 | true, false => 4
   end) + (if shallower then 0 else 4).

(** The labelling of the diagram in the source: 1/5 NE, 2/6 NW, 3/7 SW,
    4/8 SE, which runs counter-clockwise on a map. *)
Definition compass_octant (north east : bool) : Z :=
  match north, east with
  | true, true => 1 | true, false => 2 | false, false => 3 | false, true => 4
  end.

(** The reference ellipsoid of the examples: origin at latitude 46,
    longitude 7, depth 5 km. *)
Definition origin_46_7_5 : Ellipsoid.t :=
  new (of_Z 20) (of_Z 46) (of_Z 7) (of_Z 5).

End HddEllipsoid.

(* ===================================================================== *)
(** * 4. Traces and the signal-to-noise ratio ([S2Nratio]) *)
(* ===================================================================== *)

(** [Core::Time]: seconds since the epoch. *)
Abbreviation Time := Q (only parsing).

(** [Core::TimeWindow]. *)
Module TimeWindow.
Record t : Type := mk { startTime : Time; endTime : Time }.
Definition length (tw : t) : double := Dbl.Fin (endTime tw - startTime tw).
Definition of_length (start : Time) (len : Q) : t := mk start (start + len).
End TimeWindow.

(** [GenericRecord]: what the core reads of a waveform trace. *)
Module GenericRecord.
Record t : Type := mk {
  startTime : Time;
  samplingFrequency : double;
  data : list double
}.
Definition size (tr : t) : Z := Z.of_nat (List.length (data tr)).
End GenericRecord.

Module SNR.
Import Dbl.

(** The two ways out of [S2Nratio]: the logged error with its [-1], or the
    ratio. *)
Inductive result : Type :=
| Windows_exceed_boundaries    (* SEISCOMP_ERROR(...); return -1; *)
| Ratio (snr : double).

(** The lambda [secToSample] of [S2Nratio]:
    [std::min(std::max(std::round(sec * freq), 0.), size-1.)]. *)
Definition secToSample (freq : double) (size : Z) (sec : double) : double :=
  min (max (round (mul64 sec freq)) (of_Z 0)) (sub (of_Z size) (of_Z 1)).

(** [data[i]]; [None] outside the array. *)
Definition at_ (data : list double) (i : Z) : option double :=
  if i <? 0 then None else data !! Z.to_nat i.

(** [m = -1.0; for (int i = start; i < end; i++) m = std::max(std::abs(data[i]), m);]
    with [n] the number of turns left. *)
Fixpoint maxAbs (data : list double) (i : Z) (n : nat) (m : double) : option double :=
  match n with
  | O => Some m
  | S n' =>
      match at_ data i with
      | None => None
      | Some x => maxAbs data (i + 1) n' (max (abs x) m)
      end
  end.

Definition min4 (a b c d : Z) : Z := Z.min (Z.min (Z.min a b) c) d.
Definition max4 (a b c d : Z) : Z := Z.max (Z.max (Z.max a b) c) d.

(** [HypoDD::S2Nratio]. The four sample positions are converted to [int]
    as the compiled code converts them, so that a position that is NaN
    becomes [INT_MIN]; the time span from the start of the trace to the
    pick is the binary64 number nearest to it. [None] is a read outside
    the samples. *)
Definition S2Nratio (tr : GenericRecord.t) (pickTime : Time)
    (noiseOffsetStart noiseOffsetEnd signalOffsetStart signalOffsetEnd : double)
    : option result :=
  let data := GenericRecord.data tr in
  let size := GenericRecord.size tr in
  let freq := GenericRecord.samplingFrequency tr in
  let dataStartTime := GenericRecord.startTime tr in
  let pickOffset := round64 (pickTime - dataStartTime) in
  let noiseStart := cvttsd2si (secToSample freq size (add64 noiseOffsetStart pickOffset)) in
  let noiseEnd := cvttsd2si (secToSample freq size (add64 noiseOffsetEnd pickOffset)) in
  let signalStart := cvttsd2si (secToSample freq size (add64 signalOffsetStart pickOffset)) in
  let signalEnd := cvttsd2si (secToSample freq size (add64 signalOffsetEnd pickOffset)) in
  if (min4 noiseStart noiseEnd signalStart signalEnd <? 0) ||
     (max4 noiseStart noiseEnd signalStart signalEnd >=? size)
  then Some Windows_exceed_boundaries
  else
    noiseMax ← maxAbs data noiseStart (Z.to_nat (noiseEnd - noiseStart)) (of_Z (-1));
    signalMax ← maxAbs data signalStart (Z.to_nat (signalEnd - signalStart)) (of_Z (-1));
    Some (Ratio (div64 signalMax noiseMax)).

(** Four samples at 1 Hz starting at time 0. *)
Definition four_samples : GenericRecord.t :=
  GenericRecord.mk 0%Q (of_Z 1) [of_Z 1; of_Z (-5); of_Z 2; of_Z 8].

End SNR.

(* ===================================================================== *)
(** * 5. Cross-correlation of two traces ([HypoDD::xcorr], trace version) *)
(* ===================================================================== *)

Module XCorr.
Import Dbl.

(** The variables that the lag loop updates. *)
Record loop_state : Type := mk_state {
  coeffOut : double;
  delayOut : double;
  localMaxs : list double;       (* in push_back order *)
  notDecreasing : bool;
  prevCoeff : double
}.

(** The state before the first lag: [delayOut = 0.], [coeffOut = nan],
    no local maximum, [notDecreasing = false], [prevCoeff = -1]. *)
Definition initial : loop_state :=
  mk_state NaN (of_Z 0) [] false (of_Z (-1)).

(** The inner loop over [idxS], from [idxS] on, with
    [shift = (smpsLsize - smpsSsize) / 2 + delay]; the accumulator is
    [(numer, denomL, denomS)]. A term whose [idxL] is outside the longer
    trace is skipped. *)
Fixpoint sums (smpsS : list double) (idxS : Z) (smpsL : list double)
    (shift : Z) (acc : double * double * double) : double * double * double :=
  match smpsS with
  | [] => acc
  | s :: rest =>
      let idxL := idxS + shift in
      if (idxL <? 0) || (idxL >=? Z.of_nat (List.length smpsL))
      then sums rest (idxS + 1) smpsL shift acc
      else
        let l := nth (Z.to_nat idxL) smpsL NaN in
        let '(numer, denomL, denomS) := acc in
        sums rest (idxS + 1) smpsL shift
             (add numer (mul s l), add denomL (mul l l), add denomS (mul s s))
  end.

Section WithSqrt.

(** [std::sqrt]. *)
Variable sqrt : double -> double.

(** The coefficient of one lag: [numer / std::sqrt(denomS * denomL)]. *)
Definition coeffAt (smpsS smpsL : list double) (delay : Z) : double :=
  let smpsSsize := Z.of_nat (List.length smpsS) in
  let smpsLsize := Z.of_nat (List.length smpsL) in
  let '(numer, denomL, denomS) :=
    sums smpsS 0 smpsL (Z.quot (smpsLsize - smpsSsize) 2 + delay)
         (of_Z 0, of_Z 0, of_Z 0) in
  let denom := sqrt (mul denomS denomL) in
  div numer denom.

(** What one turn of the lag loop does once [coeff] is known. *)
Definition walk (freq : double) (st : loop_state) (delay : Z) (coeff : double)
    : loop_state :=
  let better := gtb coeff (coeffOut st) || negb (isfinite (coeffOut st)) in
  mk_state
    (if better then coeff else coeffOut st)
    (if better then div (of_Z delay) freq else delayOut st)
    (if ltb coeff (prevCoeff st) && notDecreasing st
     then localMaxs st ++ [prevCoeff st] else localMaxs st)
    (geb coeff (prevCoeff st))
    coeff.

(** The lags that the loop visits:
    [for (int delay = -maxDelaySmps; delay < maxDelaySmps; delay++)]. *)
Definition delays (maxDelaySmps : Z) : list Z :=
  seqZ (- maxDelaySmps) (maxDelaySmps - (- maxDelaySmps)).

(** The whole lag loop. *)
Definition lagLoop (freq : double) (smpsS smpsL : list double)
    (maxDelaySmps : Z) : loop_state :=
  fold_left (fun st delay => walk freq st delay (coeffAt smpsS smpsL delay))
            (delays maxDelaySmps) initial.

(** The same loop from any state, over any lags and with any coefficient
    function: the form in which its invariants are proved. *)
Definition lagLoopFrom (freq : double) (f : Z -> double) (ds : list Z)
    (st : loop_state) : loop_state :=
  fold_left (fun st delay => walk freq st delay (f delay)) ds st.

(** The loop of the quality check, from [numMax] on: [true] when it leaves
    through the [break], that is when cycle skipping is detected. *)
Fixpoint cycleSkipping (threshold : double) (localMaxs : list double)
    (numMax : Z) : bool :=
  match localMaxs with
  | [] => false
  | CCslm :: rest =>
      let numMax := if isfinite CCslm && geb CCslm threshold
                    then numMax + 1 else numMax in
      if numMax >? 1 then true else cycleSkipping threshold rest numMax
  end.

(** [threshold = coeffOut - ((1.0 - coeffOut) / 2.0)]. *)
Definition threshold (coeffOut : double) : double :=
  sub64 coeffOut (div64 (sub64 (of_Z 1) coeffOut) (of_Z 2)).

(** The quality check at the end of [xcorr]: the coefficient it leaves in
    [coeffOut]. *)
Definition qualityChecked (qualityCheck : bool) (st : loop_state) : double :=
  if qualityCheck && isfinite (coeffOut st)
  then if cycleSkipping (threshold (coeffOut st)) (localMaxs st) 0
       then NaN else coeffOut st
  else coeffOut st.

(** [HypoDD::xcorr(tr1, tr2, maxDelay, qualityCheck, delayOut, coeffOut)]:
    the returned [bool] with the two outputs [(delayOut, coeffOut)]. [None]
    is undefined behaviour: [maxDelay * freq] is no [int], or its negation
    overflows. The index [idxS + (smpsLsize - smpsSsize) / 2 + delay] is
    computed in [Z]. *)
Definition xcorr (tr1 tr2 : GenericRecord.t) (maxDelay : double)
    (qualityCheck : bool) : option (bool * (double * double)) :=
  if neb (GenericRecord.samplingFrequency tr1) (GenericRecord.samplingFrequency tr2)
  then Some (false, (of_Z 0, NaN))
  else
    let freq := GenericRecord.samplingFrequency tr1 in
    maxDelaySmps ← toInt (mul64 maxDelay freq);
    if maxDelaySmps =? INT_MIN then None
    else
      let swap := GenericRecord.size tr1 >? GenericRecord.size tr2 in
      let trShorter := if swap then tr2 else tr1 in
      let trLonger := if swap then tr1 else tr2 in
      let st := lagLoop freq (GenericRecord.data trShorter)
                        (GenericRecord.data trLonger) maxDelaySmps in
      let delayOut := if swap then opp (delayOut st) else delayOut st in
      Some (true, (delayOut, qualityChecked qualityCheck st)).

End WithSqrt.

(** The result of [xcorr] with the sign of its lag changed. *)
Definition negated (r : option (bool * (double * double)))
    : option (bool * (double * double)) :=
  match r with
  | Some (b, (d, c)) => Some (b, (opp d, c))
  | None => None
  end.

(** A result with its two numbers in lowest terms. *)
Definition canon_result (r : option (bool * (double * double)))
    : option (bool * (double * double)) :=
  match r with
  | Some (b, (d, c)) => Some (b, (canon d, canon c))
  | None => None
  end.

(** The lags that the specification states: every integer of [[-K, K]]. *)
Definition spec_delays (K : Z) : list Z := seqZ (- K) (2 * K + 1).

(** A square root for the examples: exact on the squares of the multiples
    of 2^-53, rounded down to that grid elsewhere. *)
Definition sqrt_grid (x : double) : double :=
  match x with
  | NaN => NaN
  | Inf true => NaN
  | Inf false => Inf false
  | Fin q =>
      if Qltb q 0 then NaN
      else Fin (Z.sqrt (Qnum q * 2 ^ 106 / QDen q) # 2 ^ 53)
  end.

(** The series of coefficients that the loop walks through. *)
Definition series (sqrt : double -> double) (smpsS smpsL : list double)
    (maxDelaySmps : Z) : list double :=
  map (coeffAt sqrt smpsS smpsL) (delays maxDelaySmps).

(** The value that the loop compares the coefficient at position [i] of a
    series with: its predecessor, and [-1] for the first. *)
Definition before (cs : list double) (i : nat) : double :=
  match i with
  | O => of_Z (-1)
  | S j => nth j cs NaN
  end.

(** The values that the walk pushes to [localMaxs] when it runs through the
    coefficients [cs] from a state with the given [prevCoeff] and
    [notDecreasing]. *)
Fixpoint recorded (prev : double) (nd : bool) (cs : list double) : list double :=
  match cs with
  | [] => []
  | c :: rest =>
      (if ltb c prev && nd then [prev] else []) ++ recorded c (geb c prev) rest
  end.

(** The local maxima that are followed by a smaller coefficient, in the
    order of the series: the coefficients that are not below the one
    before them, [prev] before the first, and above the one after them. *)
Fixpoint peaks (prev : double) (cs : list double) : list double :=
  match cs with
  | [] => []
  | c :: rest =>
      (match rest with
       | c' :: _ => if geb c prev && ltb c' c then [c] else []
       | [] => []
       end) ++ peaks c rest
  end.

Definition not_infinite (c : double) : Prop :=
  match c with Inf _ => False | _ => True end.

(** What the inner loop keeps true of its three sums on finite samples:
    they are finite, the two sums of squares are not negative, and the
    numerator is zero as soon as one of the sums of squares is. *)
Definition sound_sums (acc : double * double * double) : Prop :=
  exists n dl ds, acc = (Fin n, Fin dl, Fin ds) /\
    (0 <= dl)%Q /\ (0 <= ds)%Q /\ (dl == 0 -> n == 0)%Q /\ (ds == 0 -> n == 0)%Q.

(** [m] is the greatest of the values [seen], NaN aside: NaN itself when
    there is nothing but NaN. *)
Definition greatest (m : double) (seen : list double) : Prop :=
  (forall c, In c seen -> isnan c = false -> leb c m = true) /\
  (m = NaN /\ (forall c, In c seen -> c = NaN) \/ In m seen /\ isfinite m = true).

(** The shape [1 2 1] against a trace that holds it twice: both places
    give the coefficient 1. *)
Definition shape_121 : list double := map of_Z [1; 2; 1].
Definition twice_121 : list double := map of_Z [1; 2; 1; 0; 1; 2; 1; 0; 0].

(** The same shape against a trace that holds it twice, the second time
    at the last lag that the loop visits. *)
Definition late_121 : list double := map of_Z [0; 1; 2; 1; 0; 1; 2; 1; 0].

(** One sample against three, at 1 Hz, with a maximal delay of 1 s. *)
Definition one_sample : GenericRecord.t :=
  GenericRecord.mk 0 (of_Z 1) (map of_Z [1]).
Definition three_samples : GenericRecord.t :=
  GenericRecord.mk 0 (of_Z 1) (map of_Z [-1; -1; 1]).

End XCorr.

(* ===================================================================== *)
(** * 6. The catalog *)
(* ===================================================================== *)

(** [std::map<unsigned, V>] and [std::multimap<K, V>]: association lists in
    key order, and in insertion order among equal keys. *)
Module StdMap.

Section Keyed.
Context {K V : Type}.
Variable lt : K -> K -> bool.

(** [multimap::emplace]: the new element goes to the upper bound of its
    key, after the elements whose key is not greater. *)
Fixpoint emplace (k : K) (v : V) (m : list (K * V)) : list (K * V) :=
  match m with
  | [] => [(k, v)]
  | (k', v') :: rest =>
      if lt k k' then (k, v) :: m else (k', v') :: emplace k v rest
  end.

(** [m[k] = v] on a [std::map]. *)
Fixpoint assign (k : K) (v : V) (m : list (K * V)) : list (K * V) :=
  match m with
  | [] => [(k, v)]
  | (k', v') :: rest =>
      if lt k k' then (k, v) :: m
      else if lt k' k then (k', v') :: assign k v rest
      else (k, v) :: rest
  end.

End Keyed.

(** [equal_range(k)] on a container keyed by [unsigned]. *)
Definition equal_range {V : Type} (k : Z) (m : list (Z * V)) : list (Z * V) :=
  List.filter (fun kv => fst kv =? k) m.

(** [find(k)] on a [std::map] keyed by [unsigned]. *)
Fixpoint find {V : Type} (k : Z) (m : list (Z * V)) : option V :=
  match m with
  | [] => None
  | (k', v) :: rest => if k' =? k then Some v else find k rest
  end.

(** [erase(k)] on a container keyed by [unsigned]. *)
Definition erase {V : Type} (k : Z) (m : list (Z * V)) : list (Z * V) :=
  List.filter (fun kv => negb (fst kv =? k)) m.

Definition keys {V : Type} (m : list (Z * V)) : list Z := map fst m.

End StdMap.

Module Catalog.

(** Modelled from the spec: [Catalog::Station] of catalog.h, which is not
    among the sources; the fields are those that hypodd.cpp reads. *)
Record Station : Type := mkStation {
  station_id : string;
  station_latitude : double;
  station_longitude : double;
  station_elevation : double;
  station_networkCode : string;
  station_stationCode : string
}.

(** Modelled from the spec: [Catalog::Event] of catalog.h, which is not
    among the sources; integer id, origin time, hypocentre. *)
Record Event : Type := mkEvent {
  id : Z;
  time : Q;
  latitude : double;
  longitude : double;
  depth : double
}.

(** Modelled from the spec: [Catalog::Phase] of catalog.h, which is not
    among the sources; a phase belongs to one event and refers to one
    station. *)
Record Phase : Type := mkPhase {
  eventId : Z;
  stationId : string;
  phase_time : Q;
  weight : double;
  type : string;
  networkCode : string;
  stationCode : string;
  locationCode : string;
  channelCode : string;
  isManual : bool
}.

(** Modelled from the spec: the class [Catalog] of catalog.h, which is not
    among the sources; stations by id, events by id, phases grouped by
    event id with multiplicity. *)
Record t : Type := mk {
  getStations : list (string * Station);
  getEvents : list (Z * Event);
  getPhases : list (Z * Phase)
}.

Definition empty : t := mk [] [] [].

(** Modelled from the spec: [Catalog::removeEvent] of catalog.cpp, which is
    not among the sources; the event with this id leaves the catalog, with
    its phases. *)
Definition removeEvent (eventId : Z) (c : t) : t :=
  mk (getStations c) (StdMap.erase eventId (getEvents c))
     (StdMap.erase eventId (getPhases c)).

(** Modelled from the spec: [Catalog::copyEvent(event, eventCatalog, true)]
    of catalog.cpp, which is not among the sources; with [keepEvId] the
    event enters under its own id, followed by its phases in
    [eventCatalog]. An event already there under that id is replaced. *)
Definition copyEvent_keepEvId (event : Event) (eventCatalog : t) (c : t) : t :=
  mk (getStations c ++ getStations eventCatalog)
     (StdMap.assign Z.ltb (id event) event (getEvents c))
     (fold_left (fun ps kv => StdMap.emplace Z.ltb (fst kv) (snd kv) ps)
                (StdMap.equal_range (id event) (getPhases eventCatalog))
                (StdMap.erase (id event) (getPhases c))).

End Catalog.

(* ===================================================================== *)
(** * 7. Cross-correlation of two phases ([HypoDD::xcorr], pair version) *)
(* ===================================================================== *)

Module Waveform.
Import Dbl.

(** [HypoDD::trim]. The outer [None] is undefined behaviour (a conversion
    to [int]); inside, [None] is the return value [false], which leaves the
    trace as it was, and [Some] is the trimmed trace with [true]. The two
    time spans are the binary64 numbers nearest to them, and their products
    with the sampling frequency are rounded before they are truncated.
    [slice(ofs, ofs + samples)] keeps the samples from [ofs] up to
    [ofs + samples], excluded. *)
Definition trim (trace : GenericRecord.t) (tw : TimeWindow.t)
    : option (option GenericRecord.t) :=
  ofs ← toInt (mul64 (round64 (TimeWindow.startTime tw - GenericRecord.startTime trace))
                     (GenericRecord.samplingFrequency trace));
  samples ← toInt (mul64 (rounded (TimeWindow.length tw))
                         (GenericRecord.samplingFrequency trace));
  if ofs <? 0 then Some None
  else if ofs + samples >? GenericRecord.size trace then Some None
  else Some (Some (GenericRecord.mk
                     (TimeWindow.startTime tw)
                     (GenericRecord.samplingFrequency trace)
                     (take (Z.to_nat samples)
                           (drop (Z.to_nat ofs) (GenericRecord.data trace))))).

End Waveform.

(** ** Resampling

    [HypoDD::resample], which works in place on the array of samples. *)
Module Resample.
Import Dbl.

(** [data[i] = v]; [None] outside the array. *)
Definition store (data : list double) (i : Z) (v : double) : option (list double) :=
  if (0 <=? i) && (i <? Z.of_nat (List.length data))
  then Some (<[Z.to_nat i := v]> data)
  else None.

(** [data->resize(n)]: the array is cut to [n] samples, or filled up to
    [n] samples with zeros. *)
Definition resize (data : list double) (n : Z) : option (list double) :=
  if n <? 0 then None
  else Some (take (Z.to_nat n) data
             ++ replicate (Z.to_nat n - List.length data) (of_Z 0)).

(** The loop of the upsampling,
    [for (int i = data->size()-1; i >= 0; i--) { data[i] = data[(int)fi]; fi -= step; }],
    with [n] the number of turns left, that is [i + 1]. *)
Fixpoint upLoop (n : nat) (step fi : double) (data : list double)
    : option (list double) :=
  match n with
  | O => Some data
  | S i =>
      idx ← toInt fi;
      v ← SNR.at_ data idx;
      data ← store data (Z.of_nat i) v;
      upLoop i step (sub64 fi step) data
  end.

(** What a turn of the first [while] loop of the downsampling stores:
    [data[(int)fi]]. *)
Definition picked (data : list double) (fi : double) : option double :=
  idx ← toInt fi;
  SNR.at_ data idx.

(** The loop [for (int g = 1; g < w; ++g)] of the second [while] loop,
    from [g] on with [n] turns left, on the sum [v] and the count
    [scale]. The sum [ci+g] is a sum of two [int]: beyond the range of
    [int] it is undefined. *)
Fixpoint window (n : nat) (g ci cnt : Z) (data : list double)
    (v scale : double) : option (double * double) :=
  match n with
  | O => Some (v, scale)
  | S n' =>
      below ← (if ci >=? g
               then x ← SNR.at_ data (ci - g);
                    Some (add64 v x, add64 scale (of_Z 1))
               else Some (v, scale));
      above ← (if INT_MAX <? ci + g then None
               else if ci + g <? cnt
               then x ← SNR.at_ data (ci + g);
                    Some (add64 (fst below) x, add64 (snd below) (of_Z 1))
               else Some below);
      window n' (g + 1) ci cnt data (fst above) (snd above)
  end.

(** What a turn of the second [while] loop stores: the mean of the
    samples around [(int)fi]. *)
Definition averaged (w cnt : Z) (data : list double) (fi : double)
    : option double :=
  ci ← toInt fi;
  v ← SNR.at_ data ci;
  sums ← window (Z.to_nat (w - 1)) 1 ci cnt data v (of_Z 1);
  Some (div64 (fst sums) (snd sums)).

(** The two [while (fi < cnt)] loops of the downsampling, which differ by
    the sample [turn] that they store at [i++]. A turn stores at [i], one
    place further each time, and a store outside the array is undefined:
    with [turns] one more than the number of samples, no turn is missing. *)
Fixpoint downLoop (turn : list double -> double -> option double)
    (turns : nat) (step : double) (cnt i : Z) (fi : double)
    (data : list double) : option (Z * list double) :=
  if ltb fi (of_Z cnt) then
    match turns with
    | O => None
    | S turns' =>
        v ← turn data fi;
        data ← store data i v;
        downLoop turn turns' step cnt (i + 1) (add64 fi step) data
    end
  else Some (i, data).

(** The downsampling as it would be with the samples read from a copy
    [orig] of the array, which no turn writes to: the samples that the
    turns compute, in their order. It is what the loop in place is
    compared with. *)
Fixpoint downCopy (turn : list double -> double -> option double)
    (turns : nat) (step : double) (cnt : Z) (fi : double)
    (orig : list double) : option (list double) :=
  if ltb fi (of_Z cnt) then
    match turns with
    | O => None
    | S turns' =>
        v ← turn orig fi;
        rest ← downCopy turn turns' step cnt (add64 fi step) orig;
        Some (v :: rest)
    end
  else Some [].

(** [HypoDD::resample]; [None] is undefined behaviour: a conversion to
    [int] of a value that is no [int], or an access outside the array. *)
Definition resample (trace : GenericRecord.t) (sf : double) (average : bool)
    : option GenericRecord.t :=
  let freq := GenericRecord.samplingFrequency trace in
  if leb sf (of_Z 0) then Some trace
  else if eqb freq sf then Some trace
  else
    let data := GenericRecord.data trace in
    let size := Z.of_nat (List.length data) in
    let step := div64 freq sf in
    if ltb freq sf then
      let fi := of_Z (size - 1) in
      n ← toInt (div64 (of_Z size) step);
      data ← resize data n;
      data ← upLoop (List.length data) step fi data;
      Some (GenericRecord.mk (GenericRecord.startTime trace) sf data)
    else
      w ← (if average
           then toInt (add64 (mul64 step (Fin (1 # 2))) (Fin (1 # 2)))
           else Some 0);
      let cnt := size in
      r ← downLoop (if w <=? 0 then picked else averaged w cnt)
                   (S (List.length data)) step cnt 0 (of_Z 0) data;
      data ← resize (snd r) (fst r);
      Some (GenericRecord.mk (GenericRecord.startTime trace) sf data).

(** The trace of the examples: the samples 0 to 9 at 4 Hz. *)
Definition ramp : GenericRecord.t :=
  GenericRecord.mk 0 (of_Z 4) (map of_Z [0; 1; 2; 3; 4; 5; 6; 7; 8; 9]).

End Resample.

Module XCorrPair.
Import Dbl.

(** One entry of [_cfg.xcorr]: the window around the pick and the two
    thresholds. The three durations are finite numbers of seconds. *)
Record XcorrCfg : Type := mkCfg {
  startOffset : Q;
  endOffset : Q;
  maxDelay : Q;
  minCoef : double
}.

Section WithConfig.

(** [_cfg.xcorr], by phase type. *)
Variable cfg_xcorr : string -> XcorrCfg.

(** [HypoDD::xcorrTimeWindowLong]. *)
Definition xcorrTimeWindowLong (phase : Catalog.Phase) : TimeWindow.t :=
  let xcorrCfg := cfg_xcorr (Catalog.type phase) in
  let shortDuration := (endOffset xcorrCfg - startOffset xcorrCfg)%Q in
  let shortTimeCorrection := startOffset xcorrCfg in
  let longDuration := (shortDuration + maxDelay xcorrCfg * 2)%Q in
  let longTimeCorrection := (shortTimeCorrection - maxDelay xcorrCfg)%Q in
  TimeWindow.of_length (Catalog.phase_time phase + longTimeCorrection)%Q longDuration.

(** [HypoDD::xcorrTimeWindowShort]. *)
Definition xcorrTimeWindowShort (phase : Catalog.Phase) : TimeWindow.t :=
  let xcorrCfg := cfg_xcorr (Catalog.type phase) in
  let shortDuration := (endOffset xcorrCfg - startOffset xcorrCfg)%Q in
  let shortTimeCorrection := startOffset xcorrCfg in
  TimeWindow.of_length (Catalog.phase_time phase + shortTimeCorrection)%Q shortDuration.

Variable sqrt : double -> double.

(** What [getWaveform] hands back for a window, an event and a phase; the
    caches and the counters that it updates are left out here. *)
Variable getWaveform :
  TimeWindow.t -> Catalog.Event -> Catalog.Phase -> option GenericRecord.t.

(** The three ways on from one of the two pairings. *)
Inductive attempt : Type :=
| Undefined                         (* undefined behaviour *)
| Return_false                      (* return false; *)
| Went_on (dt coeff : double).

(** One pairing: when [wanted], trim [toShorten] to the short window of
    [phase] and correlate; [shortFirst] tells on which side of the call the
    short trace is. *)
Definition pairing (wanted : bool) (phase : Catalog.Phase)
    (toShorten other : GenericRecord.t) (shortFirst : bool)
    (maxDelay : double) : attempt :=
  if wanted then
    match Waveform.trim toShorten (xcorrTimeWindowShort phase) with
    | None => Undefined
    | Some None => Return_false
    | Some (Some trShort) =>
        match (if shortFirst
               then XCorr.xcorr sqrt trShort other maxDelay true
               else XCorr.xcorr sqrt other trShort maxDelay true) with
        | None => Undefined
        | Some (false, _) => Return_false
        | Some (true, (xcorr_dt, xcorr_coeff)) => Went_on xcorr_dt xcorr_coeff
        end
    end
  else Went_on (of_Z 0) NaN.

(** The end of [xcorr], once the two pairings have left [(xcorr_dt,
    xcorr_coeff)] and [(xcorr_dt2, xcorr_coeff2)]: the choice between them,
    the test against [minCoef], the differential travel time and the
    weight. *)
Definition conclude (minCoef : double) (travel_time1 travel_time2 : double)
    (xcorr_dt xcorr_coeff xcorr_dt2 xcorr_coeff2 : double)
    : option (bool * (double * double)) :=
  if negb (isfinite xcorr_coeff) && negb (isfinite xcorr_coeff2)
  then Some (false, (of_Z 0, of_Z 0))
  else
    let second := negb (isfinite xcorr_coeff) ||
                  (isfinite xcorr_coeff2 && gtb xcorr_coeff2 xcorr_coeff) in
    let xcorr_coeff := if second then xcorr_coeff2 else xcorr_coeff in
    let xcorr_dt := if second then xcorr_dt2 else xcorr_dt in
    if ltb xcorr_coeff minCoef then Some (false, (of_Z 0, of_Z 0))
    else Some (true, (sub (sub travel_time1 travel_time2) xcorr_dt,
                      mul xcorr_coeff xcorr_coeff)).

(** [HypoDD::xcorr(event1, phase1, event2, phase2, dtccOut, weightOut, ...)]:
    the returned [bool] with [(dtccOut, weightOut)]; [None] is undefined
    behaviour. *)
Definition xcorr (event1 : Catalog.Event) (phase1 : Catalog.Phase)
    (event2 : Catalog.Event) (phase2 : Catalog.Phase)
    : option (bool * (double * double)) :=
  let failed := Some (false, (of_Z 0, of_Z 0)) in
  let xcorrCfg := cfg_xcorr (Catalog.type phase1) in
  let tw1 := xcorrTimeWindowLong phase1 in
  let tw2 := xcorrTimeWindowLong phase2 in
  match getWaveform tw1 event1 phase1 with
  | None => failed
  | Some tr1 =>
  match getWaveform tw2 event2 phase2 with
  | None => failed
  | Some tr2 =>
  let bothAutomatic := negb (Catalog.isManual phase1) && negb (Catalog.isManual phase2) in
  match pairing (Catalog.isManual phase2 || bothAutomatic) phase2 tr2 tr1 false
                (Fin (maxDelay xcorrCfg)) with
  | Undefined => None
  | Return_false => failed
  | Went_on xcorr_dt xcorr_coeff =>
  match pairing (Catalog.isManual phase1 || bothAutomatic) phase1 tr1 tr2 true
                (Fin (maxDelay xcorrCfg)) with
  | Undefined => None
  | Return_false => failed
  | Went_on xcorr_dt2 xcorr_coeff2 =>
      conclude (minCoef xcorrCfg)
               (Fin (Catalog.phase_time phase1 - Catalog.time event1))
               (Fin (Catalog.phase_time phase2 - Catalog.time event2))
               xcorr_dt xcorr_coeff xcorr_dt2 xcorr_coeff2
  end end end end.

End WithConfig.

(** An example at 1 Hz: the short window is the second after the pick, the
    long one a second more on each side, so that a long trace has three
    samples and a short one has one. Two events, with a P pick each at the
    same station, 5 s and 3 s after the origin. *)
Definition cfg_1s (_ : string) : XcorrCfg := mkCfg 0 1 1 (Fin (1 # 2)).

Definition event_a : Catalog.Event :=
  Catalog.mkEvent 1 5 (of_Z 46) (of_Z 7) (of_Z 5).
Definition event_b : Catalog.Event :=
  Catalog.mkEvent 2 17 (of_Z 46) (of_Z 7) (of_Z 6).
Definition phase_a : Catalog.Phase :=
  Catalog.mkPhase 1 "ST" 10 (of_Z 1) "P" "NT" "ST" "" "HHZ" false.
Definition phase_b : Catalog.Phase :=
  Catalog.mkPhase 2 "ST" 20 (of_Z 1) "P" "NT" "ST" "" "HHZ" false.

(** A loader that hands back one trace for event 1 and one for event 2,
    each starting a second before the pick. *)
Definition loader (tr_a tr_b : list Z) (tw : TimeWindow.t)
    (ev : Catalog.Event) (ph : Catalog.Phase) : option GenericRecord.t :=
  if Catalog.id ev =? 1
  then Some (GenericRecord.mk 9 (of_Z 1) (map of_Z tr_a))
  else Some (GenericRecord.mk 19 (of_Z 1) (map of_Z tr_b)).

(** An attempt with the sign of its lag changed. *)
Definition flipped (a : attempt) : attempt :=
  match a with
  | Went_on d c => Went_on (opp d) c
  | _ => a
  end.

End XCorrPair.

(* ===================================================================== *)
(** * 8. The phase-type filter ([HypoDD::filterOutPhases]) *)
(* ===================================================================== *)

Module Phases.
Import Catalog.

(** [std::distance(v.begin(), std::find(v.begin(), v.end(), x))]: the index
    of the first [x] in [v], and the size of [v] when there is none. *)
Fixpoint distance_find (v : list string) (x : string) : nat :=
  match v with
  | [] => O
  | y :: rest => if String.eqb y x then O else S (distance_find rest x)
  end.

(** [std::find(v.begin(), v.end(), x) != v.end()]. *)
Definition found (v : list string) (x : string) : bool :=
  existsb (String.eqb x) v.

(** The loop over the phases already selected for the event: the first one
    of the same type and station with a smaller [existingPriority] is
    overwritten by [phase], [inserted] is set and the loop is left. The
    result is [None] when the loop ends with [inserted] still false. *)
Fixpoint overwriteExisting (phaseToKeep : list string) (eventId : Z)
    (phase : Phase) (priority : nat) (filtered : list (Z * Phase))
    : option (list (Z * Phase)) :=
  match filtered with
  | [] => None
  | (k, existingPhase) :: rest =>
      let existingPriority := distance_find phaseToKeep (type existingPhase) in
      if (k =? eventId) &&
         String.eqb (type existingPhase) (type phase) &&
         String.eqb (stationId existingPhase) (stationId phase) &&
         (existingPriority <? priority)%nat
      then Some ((k, phase) :: rest)
      else
        match overwriteExisting phaseToKeep eventId phase priority rest with
        | Some rest' => Some ((k, existingPhase) :: rest')
        | None => None
        end
  end.

(** What the body of the phase loop does to [filteredP] (or [filteredS])
    for a phase whose type is in [phaseToKeep]. *)
Definition select (phaseToKeep : list string) (eventId : Z) (phase : Phase)
    (filtered : list (Z * Phase)) : list (Z * Phase) :=
  let priority := distance_find phaseToKeep (type phase) in
  match overwriteExisting phaseToKeep eventId phase priority filtered with
  | Some filtered' => filtered'
  | None => StdMap.emplace Z.ltb (Catalog.eventId phase) phase filtered
  end.

(** The body of the loop over the phases of one event, on the pair
    [(filteredP, filteredS)]. *)
Definition phaseStep (PphaseToKeep SphaseToKeep : list string) (eventId : Z)
    (filtered : list (Z * Phase) * list (Z * Phase)) (phase : Phase)
    : list (Z * Phase) * list (Z * Phase) :=
  let (filteredP, filteredS) := filtered in
  if found PphaseToKeep (type phase)
  then (select PphaseToKeep eventId phase filteredP, filteredS)
  else if found SphaseToKeep (type phase)
  then (filteredP, select SphaseToKeep eventId phase filteredS)
  else filtered.

Definition setType (t : string) (phase : Phase) : Phase :=
  mkPhase (Catalog.eventId phase) (stationId phase) (phase_time phase)
          (weight phase) t (networkCode phase) (stationCode phase)
          (locationCode phase) (channelCode phase) (isManual phase).

(** The two final loops: every selected phase gets the type [t] and is
    emplaced in [filteredPhases] under its own [eventId]. *)
Definition rename (t : string) (filtered filteredPhases : list (Z * Phase))
    : list (Z * Phase) :=
  fold_left (fun acc kv =>
               let phase := setType t (snd kv) in
               StdMap.emplace Z.ltb (Catalog.eventId phase) phase acc)
            filtered filteredPhases.

(** [HypoDD::filterOutPhases]. *)
Definition filterOutPhases (catalog : Catalog.t)
    (PphaseToKeep SphaseToKeep : list string) : Catalog.t :=
  let '(filteredP, filteredS) :=
    fold_left
      (fun filtered kv =>
         let event := snd kv in
         fold_left (fun filtered it =>
                      phaseStep PphaseToKeep SphaseToKeep (id event) filtered (snd it))
                   (StdMap.equal_range (id event) (getPhases catalog))
                   filtered)
      (getEvents catalog) ([], []) in
  let filteredPhases := rename "S" filteredS (rename "P" filteredP []) in
  Catalog.mk (getStations catalog) (getEvents catalog) filteredPhases.

(** The phases of a catalog for one event, one station and one type. *)
Definition phasesOf (c : Catalog.t) (eventId : Z) (stationId type : string)
    : list Phase :=
  List.filter (fun p => (Catalog.eventId p =? eventId) &&
                        String.eqb (Catalog.stationId p) stationId &&
                        String.eqb (Catalog.type p) type)
              (map snd (getPhases c)).

(** One event with two P arrivals at the station ST, a direct and a
    refracted one, picked half a second apart. *)
Definition two_P_picks : Catalog.t :=
  let ev := mkEvent 1 5 (Dbl.of_Z 46) (Dbl.of_Z 7) (Dbl.of_Z 5) in
  let st := mkStation "NT.ST." (Dbl.of_Z 46) (Dbl.of_Z 8) (Dbl.of_Z 500) "NT" "ST" in
  Catalog.mk [("NT.ST."%string, st)] [(1, ev)]
    [(1, mkPhase 1 "NT.ST." 10 (Dbl.of_Z 1) "Pg" "NT" "ST" "" "HHZ" true);
     (1, mkPhase 1 "NT.ST." (21 # 2) (Dbl.of_Z 1) "P" "NT" "ST" "" "HHZ" false)].

End Phases.

(* ===================================================================== *)
(** * 9. The sweep over shells and octants ([selectNeighbouringEvents]) *)
(* ===================================================================== *)

(** The outcome of a piece of code that may throw, and whose model may run
    out of fuel. *)
Inductive outcome (A : Type) : Type :=
| Value (a : A)
| Thrown
| No_fuel.
Arguments Value {A} a.
Arguments Thrown {A}.
Arguments No_fuel {A}.

Definition andThen {A B : Type} (x : outcome A) (f : A -> outcome B) : outcome B :=
  match x with
  | Value a => f a
  | Thrown => Thrown
  | No_fuel => No_fuel
  end.

(** [opt], that throws when it is [None]. *)
Definition orThrow {A : Type} (opt : option A) : outcome A :=
  match opt with
  | Some a => Value a
  | None => Thrown
  end.

Module Neighbours.
Import Dbl.

Section Sweep.

Variable delazi : double -> double -> double -> double -> double * double * double.
Variable deg2km : double -> double.
Variable cos : double -> double.
Variable sin : double -> double.

(** The events of [srcCat]. *)
Variable srcEvents : list (Z * Catalog.Event).
Variable maxNumNeigh : Z.

(** The ellipsoids of the sweep: [numEllipsoids - 1] of them, of size
    [maxEllipsoidSize] halved again and again, and the degenerate one of
    size 0 at the end. *)
Fixpoint sized (n : nat) (currSize : double) (lat lon depth : double)
    : list Ellipsoid.t :=
  match n with
  | O => []
  | S n' => HddEllipsoid.new currSize lat lon depth
            :: sized n' (div currSize (of_Z 2)) lat lon depth
  end.

Definition makeEllipsoids (numEllipsoids maxEllipsoidSize : Z)
    (refEv : Catalog.Event) : list Ellipsoid.t :=
  sized (Z.to_nat (numEllipsoids - 1)) (of_Z maxEllipsoidSize)
        (Catalog.latitude refEv) (Catalog.longitude refEv) (Catalog.depth refEv)
  ++ [HddEllipsoid.new (of_Z 0) (Catalog.latitude refEv)
                       (Catalog.longitude refEv) (Catalog.depth refEv)].

Variable ellipsoids : list Ellipsoid.t.

(** The variables of the sweep; [chosen] lists the events handed to
    [neighboringEventCat->copyEvent], in that order. *)
Record state : Type := mkState {
  selectedEvents : list (double * Z);     (* distance, event id *)
  chosen : list Catalog.Event;
  numNeighbors : Z;
  workToDo : bool
}.

(** [found] for the event [ev], the shell [elpsNum] and the octant
    [quadrant]; [None] when [isInQuadrant] throws. *)
Definition found (elpsNum : nat) (quadrant : Z) (ev : Catalog.Event) : option bool :=
  let outside (e : Ellipsoid.t) :=
    HddEllipsoid.isOutside delazi deg2km cos sin e
      (Catalog.latitude ev) (Catalog.longitude ev) (Catalog.depth ev) quadrant in
  let inside (e : Ellipsoid.t) :=
    HddEllipsoid.isInside delazi deg2km cos sin e
      (Catalog.latitude ev) (Catalog.longitude ev) (Catalog.depth ev) quadrant in
  match elpsNum with
  | O => e ← ellipsoids !! 0%nat; outside e
  | S below =>
      e ← ellipsoids !! elpsNum;
      isOut ← outside e;
      if (isOut : bool)
      then (e' ← ellipsoids !! below; inside e')
      else Some false
  end.

(** The loop over [selectedEvents]: the first event that is found in the
    cell, with what is left once it is erased. *)
Fixpoint pick (elpsNum : nat) (quadrant : Z) (sel : list (double * Z))
    : outcome (option (Catalog.Event * list (double * Z))) :=
  match sel with
  | [] => Value None
  | it :: rest =>
      andThen (orThrow (StdMap.find (snd it) srcEvents)) (fun ev =>
      andThen (orThrow (found elpsNum quadrant ev)) (fun f =>
      if f then Value (Some (ev, rest))
      else andThen (pick elpsNum quadrant rest) (fun r =>
           Value (match r with
                  | Some (ev', rest') => Some (ev', it :: rest')
                  | None => None
                  end))))
  end.

(** The test at the head of the loop over the octants. *)
Definition quotaReached (st : state) : bool :=
  match selectedEvents st with [] => true | _ => false end
  || ((maxNumNeigh >? 0) && (numNeighbors st >=? maxNumNeigh)).

(** The loop over the octants, for one shell. *)
Fixpoint quadrantLoop (elpsNum : nat) (quadrants : list Z) (st : state)
    : outcome state :=
  match quadrants with
  | [] => Value st
  | quadrant :: rest =>
      if quotaReached st
      then Value (mkState (selectedEvents st) (chosen st) (numNeighbors st) false)
      else
        andThen (pick elpsNum quadrant (selectedEvents st)) (fun r =>
        match r with
        | Some (ev, sel') =>
            quadrantLoop elpsNum rest
              (mkState sel' (chosen st ++ [ev]) (numNeighbors st + 1) (workToDo st))
        | None => quadrantLoop elpsNum rest st
        end)
  end.

Definition quadrants : list Z := [1; 2; 3; 4; 5; 6; 7; 8].

(** The loop over the shells, [n] of them left: from [elpsNum = n - 1]
    down to 0. *)
Fixpoint ellipsoidLoop (n : nat) (st : state) : outcome state :=
  match n with
  | O => Value st
  | S elpsNum =>
      andThen (quadrantLoop elpsNum quadrants st) (ellipsoidLoop elpsNum)
  end.

(** [while (workToDo) { ... }]. *)
Fixpoint whileLoop (fuel : nat) (st : state) : outcome state :=
  if workToDo st then
    match fuel with
    | O => No_fuel
    | S fuel' =>
        andThen (ellipsoidLoop (List.length ellipsoids) st) (whileLoop fuel')
    end
  else Value st.

(** The sweep, the test on [minNumNeigh] and the catalog that is returned:
    the chosen events, copied one after the other from [srcCat]. *)
Definition sweep (fuel : nat) (srcCat : Catalog.t) (minNumNeigh : Z)
    (selected : list (double * Z)) : outcome (state * Catalog.t) :=
  andThen (whileLoop fuel (mkState selected [] 0 true)) (fun st =>
  if numNeighbors st <? minNumNeigh then Thrown
  else Value (st, fold_left (fun cat ev => Catalog.copyEvent_keepEvId ev srcCat cat)
                            (chosen st) Catalog.empty)).

End Sweep.

(** The number of insertions so far is the number of chosen events, and it
    is within the quota. *)
Definition within_quota (maxNumNeigh : Z) (st : state) : Prop :=
  0 <= numNeighbors st /\
  Z.of_nat (List.length (chosen st)) = numNeighbors st /\
  (0 < maxNumNeigh -> numNeighbors st <= maxNumNeigh).

(** Since the moment when [n0] events were selected, the sweep has stopped
    or has erased one of them. *)
Definition progress (n0 : nat) (st : state) : Prop :=
  workToDo st = false \/ (List.length (selectedEvents st) < n0)%nat.

Definition same_origin (refEv : Catalog.Event) (e : Ellipsoid.t) : Prop :=
  Ellipsoid.lat e = Catalog.latitude refEv /\
  Ellipsoid.lon e = Catalog.longitude refEv /\
  Ellipsoid.depth e = Catalog.depth refEv.

(** A toy geodesy for the examples: the distance in degrees is the sum of
    the differences in latitude and in longitude, the azimuth is always 0,
    and a degree is 111 km. *)
Definition toy_delazi (lat1 lon1 lat2 lon2 : double) : double * double * double :=
  (add (abs (sub lat1 lat2)) (abs (sub lon1 lon2)), of_Z 0, of_Z 0).
Definition toy_deg2km (d : double) : double := mul d (of_Z 111).
Definition toy_cos (_ : double) : double := of_Z 1.
Definition toy_sin (_ : double) : double := of_Z 0.

(** A reference event at latitude 46.3, longitude 7.5 and depth 5 km, with
    eight events around it, 0.05 degrees away in latitude and in longitude
    and 2 km above or below. *)
Definition reference_event : Catalog.Event :=
  Catalog.mkEvent 100 0 (Fin (463 # 10)) (Fin (75 # 10)) (of_Z 5).

Definition around (id : Z) (north east below : bool) : Z * Catalog.Event :=
  (id, Catalog.mkEvent id 0
         (Fin (if north then 4635 # 100 else 4625 # 100))
         (Fin (if east then 755 # 100 else 745 # 100))
         (of_Z (if below then 7 else 3))).

Definition eight_around : Catalog.t :=
  Catalog.mk []
    [around 1 true true false; around 2 true false false;
     around 3 false false false; around 4 false true false;
     around 5 true true true; around 6 true false true;
     around 7 false false true; around 8 false true true;
     (100, reference_event)]
    [].

(** The eight events, all at the same distance. *)
Definition eight_selected : list (double * Z) :=
  map (fun id => (of_Z 10, id)) [1; 2; 3; 4; 5; 6; 7; 8].

End Neighbours.

(* ===================================================================== *)
(** * 10. Neighbours for a whole catalog
      ([selectNeighbouringEventsCatalog]) *)
(* ===================================================================== *)

Module NeighboursCatalog.
Import Catalog.

Section WithSelection.

(** [selectNeighbouringEvents] with its ten thresholds fixed; [None] when
    it throws. *)
Variable selectNeighbouringEvents : Catalog.t -> Event -> option Catalog.t.

(** The first loop: [neighboursByEvent], in the order of the event ids. *)
Definition neighboursByEvent (catalog : Catalog.t) : list (Z * Catalog.t) :=
  fold_left
    (fun neighboursByEvent kv =>
       let event := snd kv in
       match selectNeighbouringEvents catalog event with
       | Some neighbourCat =>
           StdMap.assign Z.ltb (id event)
                         (copyEvent_keepEvId event catalog neighbourCat)
                         neighboursByEvent
       | None => neighboursByEvent          (* catch ( ... ) { } *)
       end)
    (getEvents catalog) [].

End WithSelection.

(** [currCat->removeEvent(existingPair->second)] for every pair of the
    range. *)
Definition removeExisting (range : list (Z * Z)) (currCat : Catalog.t) : Catalog.t :=
  fold_left (fun cat existingPair => removeEvent (snd existingPair) cat) range currCat.

(** [existingPairs.emplace(kv.first, currEventId)] for every event of
    [currCat] but the current one. *)
Definition recordPairs (currEventId : Z) (currCat : Catalog.t)
    (existingPairs : list (Z * Z)) : list (Z * Z) :=
  fold_left (fun pairs kv =>
               if negb (fst kv =? currEventId)
               then StdMap.emplace Z.ltb (fst kv) currEventId pairs
               else pairs)
            (getEvents currCat) existingPairs.

(** The body of the second loop, on [existingPairs] and on the catalogs
    already gone through; these are the catalogs that the pointers of
    [neighboursByEvent] point to, so the removals show in the result. *)
Definition dedupStep (acc : list (Z * Z) * list (Z * Catalog.t))
    (kv : Z * Catalog.t) : list (Z * Z) * list (Z * Catalog.t) :=
  let (existingPairs, done) := acc in
  let currEventId := fst kv in
  let currCat := removeExisting (StdMap.equal_range currEventId existingPairs) (snd kv) in
  (recordPairs currEventId currCat existingPairs, done ++ [(currEventId, currCat)]).

Definition removeRepeatedPairs (neighboursByEvent : list (Z * Catalog.t))
    : list (Z * Catalog.t) :=
  snd (fold_left dedupStep neighboursByEvent ([], [])).

(** [HypoDD::selectNeighbouringEventsCatalog]. *)
Definition selectNeighbouringEventsCatalog
    (selectNeighbouringEvents : Catalog.t -> Event -> option Catalog.t)
    (catalog : Catalog.t) : list (Z * Catalog.t) :=
  removeRepeatedPairs (neighboursByEvent selectNeighbouringEvents catalog).

(** The event [eventId] is in the catalog. *)
Definition hasEvent (eventId : Z) (c : Catalog.t) : Prop :=
  In eventId (StdMap.keys (getEvents c)).

(** Three events, and a selection that makes every event of the catalog a
    neighbour of every other. *)
Definition three_events : Catalog.t :=
  Catalog.mk []
    [(1, mkEvent 1 0 (Dbl.of_Z 46) (Dbl.of_Z 7) (Dbl.of_Z 5));
     (2, mkEvent 2 60 (Dbl.of_Z 46) (Dbl.of_Z 7) (Dbl.of_Z 6));
     (3, mkEvent 3 120 (Dbl.of_Z 46) (Dbl.of_Z 7) (Dbl.of_Z 7))]
    [].

Definition everyone (catalog : Catalog.t) (_ : Event) : option Catalog.t :=
  Some (Catalog.mk [] (getEvents catalog) []).

(** The keys of a [std::map] are in strictly ascending order. *)
Definition ascending {V : Type} (m : list (Z * V)) : Prop :=
  StronglySorted Z.lt (StdMap.keys m).

End NeighboursCatalog.

(* ===================================================================== *)
(** * 11. The waveform loader and its caches ([HypoDD::getWaveform]) *)
(* ===================================================================== *)

Module WaveformCache.
Import Dbl Catalog.

(** [_cfg.snr]: the threshold and the two windows around the pick, finite
    numbers of seconds. *)
Record SnrCfg : Type := mkSnr {
  minSnr : double;
  noiseStart : Q; noiseEnd : Q;
  signalStart : Q; signalEnd : Q
}.

(** What the inventory tells about the sensor of a phase: whether the three
    components are known, and whether the channel of the phase is one of
    them. *)
Record Orientation : Type := mkOrientation {
  allComponents : bool;
  channelIsComponent : bool
}.

(** The collaborators outside the core, as they answer during one call:
    the inventory, the two loaders (which throw when they fail, [None]),
    the settings [_cfg.wfFilter.filterStr] and [_cfg.wfFilter.resampleFreq],
    and two functions of the SeisComP libraries, which are not among the
    sources: [NumericArray::mean] and [InPlaceFilter::Create], which gives
    no filter for a string that it cannot read and otherwise the filter
    that is applied to the samples at a sampling frequency. *)
Record World : Type := mkWorld {
  findSensorLocation : Phase -> Q -> option Orientation;
  loadWaveform : TimeWindow.t -> Phase -> bool -> option GenericRecord.t;
  loadProjectWaveform : TimeWindow.t -> Event -> Phase -> bool -> option GenericRecord.t;
  filterStr : string;
  resampleFreq : double;
  mean : list double -> double;
  Create : string -> option (double -> list double -> list double)
}.

(** How [HypoDD::filter] ends: with the trace, with the [runtime_error] of
    a filter that cannot be created, or in the undefined behaviour of
    [resample]. *)
Inductive filtered : Type :=
| Filtered (trace : GenericRecord.t)
| Filter_creation_failed
| Filter_undefined.

(** [HypoDD::filter(trace, demeaning, filterStr, resampleFreq)]. *)
Definition filter (w : World) (trace : GenericRecord.t) (demeaning : bool)
    (filterStr : string) (resampleFreq : double) : filtered :=
  let trace :=
    if demeaning
    then let m := mean w (GenericRecord.data trace) in
         GenericRecord.mk (GenericRecord.startTime trace)
                          (GenericRecord.samplingFrequency trace)
                          (map (fun x => sub64 x m) (GenericRecord.data trace))
    else trace in
  match (if gtb resampleFreq (of_Z 0)
         then Resample.resample trace resampleFreq true
         else Some trace) with
  | None => Filter_undefined
  | Some trace =>
      if String.eqb filterStr ""
      then Filtered trace
      else
        match Create w filterStr with
        | None => Filter_creation_failed
        | Some apply =>
            Filtered (GenericRecord.mk
                        (GenericRecord.startTime trace)
                        (GenericRecord.samplingFrequency trace)
                        (apply (GenericRecord.samplingFrequency trace)
                               (GenericRecord.data trace)))
        end
  end.

(** How a call ends. *)
Inductive returned : Type :=
| Returned (trace : option GenericRecord.t)   (* a trace, or nullptr *)
| Raised                                      (* an exception leaves the call *)
| Undefined_behaviour.

(** The memory cache handed to the call and the set [_excludedWfs]. *)
Record caches : Type := mkCaches {
  memCache : gmap string GenericRecord.t;
  _excludedWfs : gset string
}.

Section WithConfig.

Variable snr : SnrCfg.

(** [Core::Time::iso]. *)
Variable iso : Q -> string.

(** [HypoDD::waveformId]. *)
Definition waveformId (ph : Phase) (tw : TimeWindow.t) : string :=
  networkCode ph +:+ "." +:+ stationCode ph +:+ "." +:+ locationCode ph +:+ "."
  +:+ channelCode ph +:+ "." +:+ iso (TimeWindow.startTime tw) +:+ "."
  +:+ iso (TimeWindow.endTime tw).

(** [HypoDD::traceTimeWindowToLoad]. *)
Definition traceTimeWindowToLoad (ph : Phase) (neededTW : TimeWindow.t) : TimeWindow.t :=
  if gtb (minSnr snr) (of_Z 0) then
    let winStart := Qmin (Qmin (TimeWindow.startTime neededTW)
                               (phase_time ph + noiseStart snr))
                         (phase_time ph + signalStart snr) in
    let winEnd := Qmax (Qmax (TimeWindow.endTime neededTW)
                             (phase_time ph + noiseEnd snr))
                       (phase_time ph + signalEnd snr) in
    TimeWindow.mk winStart winEnd
  else neededTW.

(** [a != b] on time windows. *)
Definition differ (a b : TimeWindow.t) : bool :=
  negb (Qeqb (TimeWindow.startTime a) (TimeWindow.startTime b) &&
        Qeqb (TimeWindow.endTime a) (TimeWindow.endTime b)).

Definition exclude (wfId : string) (c : caches) : caches :=
  mkCaches (memCache c) ({[wfId]} ∪ _excludedWfs c).

(** The end of [getWaveform], from the filter on. *)
Definition processLoaded (w : World) (tw twToLoad : TimeWindow.t) (ph : Phase)
    (checkSnr : bool) (wfId : string) (c : caches) (trace : GenericRecord.t)
    : returned * caches :=
  match filter w trace true (filterStr w) (resampleFreq w) with
  | Filter_creation_failed => (Raised, c)
  | Filter_undefined => (Undefined_behaviour, c)
  | Filtered trace =>
      let tooLow :=
        if checkSnr && gtb (minSnr snr) (of_Z 0) then
          match SNR.S2Nratio trace (phase_time ph)
                  (Fin (noiseStart snr)) (Fin (noiseEnd snr))
                  (Fin (signalStart snr)) (Fin (signalEnd snr)) with
          | None => None
          | Some SNR.Windows_exceed_boundaries => Some (ltb (of_Z (-1)) (minSnr snr))
          | Some (SNR.Ratio r) => Some (ltb r (minSnr snr))
          end
        else Some false in
      match tooLow with
      | None => (Undefined_behaviour, c)
      | Some true => (Returned None, exclude wfId c)
      | Some false =>
          if differ twToLoad tw then
            match Waveform.trim trace tw with
            | None => (Undefined_behaviour, c)
            | Some None => (Returned None, exclude wfId c)
            | Some (Some trace) =>
                (Returned (Some trace),
                 mkCaches (<[wfId := trace]> (memCache c)) (_excludedWfs c))
            end
          else (Returned (Some trace),
                mkCaches (<[wfId := trace]> (memCache c)) (_excludedWfs c))
      end
  end.

(** [HypoDD::getWaveform]: how the call ends, and the memory cache and the
    exclusion set after it. The counters and the traces dumped to disk are
    left out. *)
Definition getWaveform (w : World) (tw : TimeWindow.t) (ev : Event) (ph : Phase)
    (c : caches) (useDiskCache checkSnr : bool) : returned * caches :=
  let wfId := waveformId ph tw in
  match memCache c !! wfId with
  | Some trace => (Returned (Some trace), c)
  | None =>
      if decide (wfId ∈ _excludedWfs c) then (Returned None, c)
      else
        let refTime := TimeWindow.startTime tw in
        let '(projectionRequired, allComponents) :=
          match findSensorLocation w ph refTime with
          | None => (false, false)
          | Some o => (negb (channelIsComponent o), allComponents o)
          end in
        let twToLoad := if checkSnr then traceTimeWindowToLoad ph tw else tw in
        if negb projectionRequired then
          match loadWaveform w twToLoad ph useDiskCache with
          | None => (Returned None, exclude wfId c)
          | Some trace => processLoaded w tw twToLoad ph checkSnr wfId c trace
          end
        else if negb allComponents then (Returned None, exclude wfId c)
        else
          match loadProjectWaveform w twToLoad ev ph useDiskCache with
          | None => (Returned None, exclude wfId c)
          | Some trace => processLoaded w tw twToLoad ph checkSnr wfId c trace
          end
  end.

(** One call of a run: its world and its arguments. *)
Record call : Type := mkCall {
  world : World;
  call_tw : TimeWindow.t;
  call_ev : Event;
  call_ph : Phase;
  useDiskCache : bool;
  checkSnr : bool
}.

Definition fingerprint (k : call) : string := waveformId (call_ph k) (call_tw k).

Definition perform (k : call) (c : caches) : returned * caches :=
  getWaveform (world k) (call_tw k) (call_ev k) (call_ph k) c
              (useDiskCache k) (checkSnr k).

(** A run of calls that share one memory cache. *)
Definition performAll (ks : list call) (c : caches) : caches :=
  fold_left (fun c k => snd (perform k c)) ks c.

(** No fingerprint is both cached and excluded. *)
Definition coherent (c : caches) : Prop :=
  forall wfId, wfId ∈ _excludedWfs c -> memCache c !! wfId = None.

End WithConfig.

(** A rendering of a time for the examples: numerator and denominator. *)
Definition toy_iso (t : Q) : string :=
  pretty (Qnum t) +:+ "/" +:+ pretty (Z.pos (Qden t)).

(** A signal-to-noise threshold of 2, with the noise taken in the two
    seconds before the pick and the signal in the second after it. *)
Definition snr_2 : SnrCfg := mkSnr (of_Z 2) (-2) (-1) 0 1.

(** Four samples of equal amplitude at 1 Hz from time 0. *)
Definition flat_trace : GenericRecord.t :=
  GenericRecord.mk 0 (of_Z 1) (map of_Z [1; 1; 1; 1]).

(** Four samples that swing between 1 and -1 at 1 Hz from time 0: their
    mean is 0, and their ratio of signal to noise is 1. *)
Definition swing_trace : GenericRecord.t :=
  GenericRecord.mk 0 (of_Z 1) (map of_Z [1; -1; 1; -1]).

(** A mean for the examples: the samples added one after the other, over
    their number. *)
Definition mean_of (data : list double) : double :=
  div64 (fold_left add64 data (of_Z 0)) (of_Z (Z.of_nat (List.length data))).

(** A world without inventory, whose record stream hands back the
    swinging trace, and whose filter takes the mean off and does nothing
    else: no resampling and an empty filter string. *)
Definition swing_world : World :=
  mkWorld (fun _ _ => None) (fun _ _ _ => Some swing_trace)
          (fun _ _ _ _ => Some swing_trace)
          "" (of_Z 0) mean_of (fun _ => None).

Definition pick_at_2 : Phase :=
  mkPhase 1 "NT.ST." 2 (of_Z 1) "P" "NT" "ST" "" "HHZ" true.
Definition event_1 : Event := mkEvent 1 0 (of_Z 46) (of_Z 7) (of_Z 5).
Definition window_0_4 : TimeWindow.t := TimeWindow.mk 0 4.

Definition no_caches : caches := mkCaches ∅ ∅.

(** Three calls for the same window and the same phase. The first one, with
    a cache of its own and without the test on the signal-to-noise ratio,
    caches the trace; the second one, with another cache and with the test,
    excludes the fingerprint; the third one is the first one again, with
    its cache as the first call left it. *)
Definition first_call : returned * caches :=
  getWaveform snr_2 toy_iso swing_world window_0_4 event_1 pick_at_2
              no_caches false false.
Definition second_call : returned * caches :=
  getWaveform snr_2 toy_iso swing_world window_0_4 event_1 pick_at_2
              (mkCaches ∅ (_excludedWfs (snd first_call))) false true.
Definition third_call : returned * caches :=
  getWaveform snr_2 toy_iso swing_world window_0_4 event_1 pick_at_2
              (mkCaches (memCache (snd first_call)) (_excludedWfs (snd second_call)))
              false false.

(** The call without the test on the signal-to-noise ratio, and the call
    with it: the same fingerprint. *)
Definition untested : call := mkCall swing_world window_0_4 event_1 pick_at_2 false false.
Definition tested : call := mkCall swing_world window_0_4 event_1 pick_at_2 false true.

End WaveformCache.

(* ===================================================================== *)
(** * 12. The control files of ph2dt and hypoDD
      ([copyFileAndReplaceLines], [runPh2dt], [runHypodd]) *)
(* ===================================================================== *)

Module ControlFile.

(** [line.rfind(comment, 0) != 0]: the line does not start with
    [comment]. *)
Definition notComment (comment line : string) : bool :=
  negb (String.prefix comment line).

(** The variables of the copy loop: the line number, what is left of
    [linesToReplace] (a copy of the caller's map), and the lines written to
    [destFile] so far. *)
Record copy_state : Type := mkCopy {
  lineNum : Z;
  linesToReplace : gmap Z string;
  destFile : list string
}.

(** The body of [while (std::getline(srcFile, line))]. *)
Definition copyLine (comment : string) (st : copy_state) (line : string)
    : copy_state :=
  let lineNum := if notComment comment line then lineNum st + 1 else lineNum st in
  match linesToReplace st !! lineNum with
  | Some replacement =>
      mkCopy lineNum (delete lineNum (linesToReplace st))
             (destFile st ++ [replacement])
  | None => mkCopy lineNum (linesToReplace st) (destFile st ++ [line])
  end.

(** [copyFileAndReplaceLines]. [srcFile] holds the lines of the source
    file, [None] when it cannot be opened; [destOpen] tells whether the
    destination can be opened. The value is the lines written to the
    destination, [Thrown] the [runtime_error]. *)
Definition copyFileAndReplaceLines (srcFile : option (list string))
    (destOpen : bool) (linesToReplace : gmap Z string) (comment : string)
    : outcome (list string) :=
  match srcFile with
  | None => Thrown
  | Some lines =>
      if negb destOpen then Thrown
      else Value (destFile (fold_left (copyLine comment) lines
                                      (mkCopy 0 linesToReplace [])))
  end.

(** The number that the loop gives to the last line of [lines]: the count
    of the lines that are no comment. *)
Definition numbered (comment : string) (lines : list string) : Z :=
  Z.of_nat (List.length (List.filter (notComment comment) lines)).

(** What the loop writes for the lines [lines] when the line before them
    has the number [n] and [replacements] holds nothing at [n]. *)
Fixpoint rewritten (comment : string) (replacements : gmap Z string) (n : Z)
    (lines : list string) : list string :=
  match lines with
  | [] => []
  | line :: rest =>
      if notComment comment line
      then default line (replacements !! (n + 1))
           :: rewritten comment replacements (n + 1) rest
      else line :: rewritten comment replacements n rest
  end.

Section Run.

(** [Util::fileExists], the lines of a file ([None] when it cannot be
    opened) and [boost::filesystem::path(p).filename().string()]. *)
Variable fileExists : string -> bool.
Variable readLines : string -> option (list string).
Variable filename : string -> string.

(** [HypoDD::runPh2dt], up to the ph2dt.inp that it writes; the external
    process that it starts afterwards is left out. *)
Definition runPh2dt (destOpen : bool) (stationFile phaseFile ctrlFile : string)
    : outcome (list string) :=
  if negb (fileExists stationFile) then Thrown
  else if negb (fileExists phaseFile) then Thrown
  else if negb (fileExists ctrlFile) then Thrown
  else
    let linesToReplace : gmap Z string :=
      list_to_map [(1, filename stationFile); (2, filename phaseFile)] in
    copyFileAndReplaceLines (readLines ctrlFile) destOpen linesToReplace "*".

(** [lineOffset] of [runHypodd]: 1 when the first line of the control file
    is [hypoDD_2], 0 otherwise. *)
Definition lineOffset (ctrl : list string) : Z :=
  match ctrl with
  | line :: _ => if String.eqb line "hypoDD_2" then 1 else 0
  | [] => 0
  end.

(** The nine names that [runHypodd] puts into the control file. *)
Definition hypoddNames (dtccFile dtctFile eventFile stationFile : string)
    : list string :=
  [filename dtccFile; filename dtctFile; filename eventFile;
   filename stationFile; "hypoDD.loc"; "hypoDD.reloc"; "hypoDD.sta";
   "hypoDD.res"; "hypoDD.src"]%string.

(** [HypoDD::runHypodd], up to the hypoDD.inp that it writes. *)
Definition runHypodd (destOpen : bool)
    (dtccFile dtctFile eventFile stationFile ctrlFile : string)
    : outcome (list string) :=
  if negb (fileExists dtccFile) then Thrown
  else if negb (fileExists dtctFile) then Thrown
  else if negb (fileExists eventFile) then Thrown
  else if negb (fileExists stationFile) then Thrown
  else if negb (fileExists ctrlFile) then Thrown
  else
    match readLines ctrlFile with
    | None => Thrown
    | Some ctrl =>
        let lineOffset := lineOffset ctrl in
        let linesToReplace : gmap Z string :=
          list_to_map
            [(lineOffset + 1, filename dtccFile);
             (lineOffset + 2, filename dtctFile);
             (lineOffset + 3, filename eventFile);
             (lineOffset + 4, filename stationFile);
             (lineOffset + 5, "hypoDD.loc"%string);
             (lineOffset + 6, "hypoDD.reloc"%string);
             (lineOffset + 7, "hypoDD.sta"%string);
             (lineOffset + 8, "hypoDD.res"%string);
             (lineOffset + 9, "hypoDD.src"%string)] in
        copyFileAndReplaceLines (readLines ctrlFile) destOpen linesToReplace "*"
    end.

End Run.

(** A control file of hypoDD 2: the version line, a comment, and the lines
    that name the input and output files. *)
Definition hypoDD2_inp : list string :=
  ["hypoDD_2"; "* cross correlation diff times:"; "dt.cc"; "* catalog:";
   "dt.ct"; "event.sel"; "station.sel"; "out.loc"; "out.reloc"; "out.sta";
   "out.res"; "out.src"; "* data type"; "3 3 8"]%string.

(** A file system for the examples: every file exists, every file reads as
    the control file above, and paths have a directory of three
    characters. *)
Definition toy_filename (p : string) : string :=
  String.substring 3 (String.length p - 3) p.

End ControlFile.

(* ===================================================================== *)
(** * 13. The results of [nextPowerOf2] *)
(* ===================================================================== *)

Module PowerOf2.

(** What [nextPowerOf2] hands back: [-1] after a candidate [min * 2 ^ k]
    below [a] whose double is beyond [max], or the first candidate that is
    not below [a]. *)
Definition gave_up (a min max : Z) : Prop :=
  exists k, 0 <= k /\ min * 2 ^ k < a /\ max < min * 2 ^ (k + 1).

Definition first_candidate (a min max r : Z) : Prop :=
  exists k, 0 <= k /\ r = min * 2 ^ k /\ a <= r /\
            (k = 0 \/ min * 2 ^ (k - 1) < a /\ r <= max).

End PowerOf2.

(* ===================================================================== *)
(** * 14. Reading a waveform from the record stream
      ([HypoDD::merge], [HypoDD::readWaveformFromRecordStream]) *)
(* ===================================================================== *)

Module RecordStream.
Import Dbl.

(** A [Record] of a [RecordSequence]: what [merge] reads of it. The end
    time is the one that [Record::endTime] hands back. *)
Record Rec : Type := mkRec {
  rec_startTime : Q;
  rec_endTime : Q;
  rec_samplingFrequency : double;
  rec_data : list double
}.

(** [Core::TimeSpan(double)]: undefined ([None]) for a value that is not
    finite. *)
Definition TimeSpan (d : double) : option Q :=
  match d with Fin q => Some q | _ => None end.

(** The loop of [merge] over the records, with [last] the record before
    and [arr] the samples appended so far; [None] is [return false]. *)
Fixpoint appendAll (samplingFrequency : double)
    (maxAllowedGap maxAllowedOverlap : Q) (last : option Rec)
    (seq : list Rec) (arr : list double) : option (list double) :=
  match seq with
  | [] => Some arr
  | rec :: rest =>
      if neb (rec_samplingFrequency rec) samplingFrequency then None
      else
        let fits :=
          match last with
          | Some last =>
              let diff := (rec_startTime rec - rec_endTime last)%Q in
              if Qltb maxAllowedGap diff then false
              else if Qltb diff maxAllowedOverlap then false
              else true
          | None => true
          end in
        if fits
        then appendAll samplingFrequency maxAllowedGap maxAllowedOverlap
                       (Some rec) rest (arr ++ rec_data rec)
        else None
  end.

(** [HypoDD::merge]. The outer [None] is undefined behaviour (a time span
    that is no number); inside, [None] is the return value [false] and
    [Some] the merged trace with [true]. The stream codes that [merge]
    copies from the first record are left out. *)
Definition merge (seq : list Rec) : option (option GenericRecord.t) :=
  match seq with
  | [] => Some None
  | first :: _ =>
      let samplingFrequency := rec_samplingFrequency first in
      maxAllowedGap ← TimeSpan (div (Fin (1 # 2)) samplingFrequency);
      maxAllowedOverlap ← TimeSpan (div (Fin (- (1 # 2))) samplingFrequency);
      Some (match appendAll samplingFrequency maxAllowedGap maxAllowedOverlap
                            None seq [] with
            | Some arr =>
                Some (GenericRecord.mk (rec_startTime first) samplingFrequency arr)
            | None => None
            end)
  end.

(** How [readWaveformFromRecordStream] ends. *)
Inductive loaded : Type :=
| Trace (trace : GenericRecord.t)
| Throws                         (* one of its four [runtime_error]s *)
| Undefined.                     (* undefined behaviour *)

(** [HypoDD::readWaveformFromRecordStream], from the records that the
    [TimeWindowBuffer] has kept; [rs] is [None] when the record stream
    cannot be opened. *)
Definition readWaveformFromRecordStream (rs : option (list Rec))
    (tw : TimeWindow.t) : loaded :=
  match rs with
  | None => Throws
  | Some seq =>
      match seq with
      | [] => Throws
      | _ :: _ =>
          match merge seq with
          | None => Undefined
          | Some None => Throws
          | Some (Some trace) =>
              match Waveform.trim trace tw with
              | None => Undefined
              | Some None => Throws
              | Some (Some trace) => Trace trace
              end
          end
      end
  end.

(** Two records of two samples each at 1 Hz, one after the other. *)
Definition two_records : list Rec :=
  [mkRec 0 2 (of_Z 1) [of_Z 1; of_Z 2]; mkRec 2 4 (of_Z 1) [of_Z 3; of_Z 4]].

End RecordStream.

(* ===================================================================== *)
(** * 15. The relocation request message ([RTDDRelocateRequestMessage]) *)
(* ===================================================================== *)

Module RelocateRequest.

Section Message.

(** [DataModel::Origin]; a pointer to it is an [option]. *)
Variable Origin : Type.

Record t : Type := mk {
  _origin : option Origin;
  _publicID : string;
  _profile : string
}.

(** The constructor: [_origin(0), _publicID("")], and [_profile] empty as
    a [std::string] is when nothing initialises it. *)
Definition new : t := mk None "" "".

Definition setOrigin (org : option Origin) (m : t) : t := mk org "" (_profile m).
Definition getOrigin (m : t) : option Origin := _origin m.
Definition setOriginId (orgId : string) (m : t) : t := mk None orgId (_profile m).
Definition getOriginId (m : t) : string := _publicID m.
Definition setProfile (name : string) (m : t) : t := mk (_origin m) (_publicID m) name.
Definition getProfile (m : t) : string := _profile m.

(** A call of one of the three setters. *)
Inductive setter : Type :=
| SetOrigin (org : option Origin)
| SetOriginId (orgId : string)
| SetProfile (name : string).

Definition call (m : t) (s : setter) : t :=
  match s with
  | SetOrigin org => setOrigin org m
  | SetOriginId orgId => setOriginId orgId m
  | SetProfile name => setProfile name m
  end.

(** The profile that a run of setters leaves: the name of the last
    [setProfile], and the empty string when there is none. *)
Fixpoint lastProfile (calls : list setter) (name : string) : string :=
  match calls with
  | [] => name
  | SetProfile name' :: rest => lastProfile rest name'
  | _ :: rest => lastProfile rest name
  end.

End Message.

End RelocateRequest.

(* ===================================================================== *)
(** * 16. Means and medians ([computeMean], [computeMedian] and their
      absolute deviations, utils.cpp) *)
(* ===================================================================== *)

Module Stats.
Import Dbl.

(** [std::accumulate(values.begin(), values.end(), init)]. *)
Definition accumulate (values : list double) (init : double) : double :=
  fold_left add64 values init.

(** [computeMean]. *)
Definition computeMean (values : list double) : double :=
  match values with
  | [] => of_Z 0
  | _ :: _ => div64 (accumulate values (of_Z 0))
                    (of_Z (Z.of_nat (List.length values)))
  end.

(** The vector [absoluteDeviations] that the two deviation functions
    fill. *)
Definition absoluteDeviations (values : list double) (centre : double)
    : list double :=
  map (fun v => abs (sub64 v centre)) values.

(** [computeMeanAbsoluteDeviation]. *)
Definition computeMeanAbsoluteDeviation (values : list double) (mean : double)
    : double :=
  computeMean (absoluteDeviations values mean).

(** [std::nth_element] and [std::max_element] are taken by what they
    guarantee: after [nth_element] the element at [middleItr] is the one
    that a full sort would put there and none before it is greater, so
    that the greatest of those before it is the one that a full sort would
    put just before it. The sort is by insertion, with [<]. *)
Fixpoint insert (x : double) (l : list double) : list double :=
  match l with
  | [] => [x]
  | y :: rest => if ltb x y then x :: l else y :: insert x rest
  end.

Definition sort (l : list double) : list double := fold_right insert [] l.

(** [computeMedian]. *)
Definition computeMedian (values : list double) : double :=
  match values with
  | [] => of_Z 0
  | _ :: _ =>
      let tmp := sort values in
      let middle := (List.length tmp / 2)%nat in
      let median := nth middle tmp NaN in
      if Nat.even (List.length tmp)
      then div64 (add64 (nth (middle - 1) tmp NaN) median) (of_Z 2)
      else median
  end.

(** [computeMedianAbsoluteDeviation]. *)
Definition computeMedianAbsoluteDeviation (values : list double) (median : double)
    : double :=
  computeMedian (absoluteDeviations values median).

(** The number of values that are at most [m], and that are at least
    [m]. *)
Definition count_le (m : double) (values : list double) : nat :=
  List.length (List.filter (fun v => leb v m) values).
Definition count_ge (m : double) (values : list double) : nat :=
  List.length (List.filter (fun v => leb m v) values).

(** Every value is a number. *)
Definition finite (values : list double) : Prop :=
  Forall (fun v => isfinite v = true) values.

(** [a <= b], as a proposition. *)
Definition le_d (a b : double) : Prop := leb a b = true.

(** The values of the examples: 4, 1, 9 and 2. *)
Definition four_values : list double := map of_Z [4; 1; 9; 2].

End Stats.

(* ===================================================================== *)
(** * 17. What the sweep chooses *)
(* ===================================================================== *)

Module SweepChoice.

(** The events that the entries of [selectedEvents] stand for in
    [srcCat]. *)
Definition candidates (srcEvents : list (Z * Catalog.Event))
    (selectedEvents : list (Dbl.double * Z)) : list Catalog.Event :=
  omap (fun it => StdMap.find (snd it) srcEvents) selectedEvents.

(** The sweep has stopped only for want of events or with the quota
    reached. *)
Definition stopped_for_cause (maxNumNeigh : Z) (st : Neighbours.state) : Prop :=
  Neighbours.workToDo st = false ->
  Neighbours.quotaReached maxNumNeigh st = true.

End SweepChoice.

(* ===================================================================== *)
(** * 18. The phases that [filterOutPhases] accepts *)
(* ===================================================================== *)

Module PhaseChoice.
Import Catalog Phases.

(** The phases that the two outer loops of [filterOutPhases] go through:
    for each event of the catalog, in the order of the events, the phases
    filed under its id. *)
Definition visited (catalog : Catalog.t) : list Phase :=
  flat_map (fun kv => map snd (StdMap.equal_range (id (snd kv)) (getPhases catalog)))
           (getEvents catalog).

(** The tests on the type of a phase: [itpp != PphaseToKeep.end()], and
    [itsp != SphaseToKeep.end()] for a phase that has not been taken as
    a P phase. *)
Definition asP (PphaseToKeep : list string) (phase : Phase) : bool :=
  found PphaseToKeep (type phase).
Definition asS (PphaseToKeep SphaseToKeep : list string) (phase : Phase) : bool :=
  negb (found PphaseToKeep (type phase)) && found SphaseToKeep (type phase).

(** Every visited phase of an accepted type, under the name P or S. *)
Definition accepted (catalog : Catalog.t) (PphaseToKeep SphaseToKeep : list string)
    : list Phase :=
  map (setType "P") (List.filter (asP PphaseToKeep) (visited catalog)) ++
  map (setType "S") (List.filter (asS PphaseToKeep SphaseToKeep) (visited catalog)).

End PhaseChoice.

(* ===================================================================== *)
(** * 19. The absolute travel times of dt.ct ([HypoDD::buildAbsTTimePairs]) *)
(* ===================================================================== *)

Module AbsTTime.
Import Dbl Catalog.

(** A line of observations of dt.ct: [STA, TT1, TT2, WGHT, PHA]. *)
Record Obs : Type := mkObs {
  sta : string;
  tt1 : double;
  tt2 : double;
  wght : double;
  pha : string
}.

(** The header [#, ID1, ID2] of a pair of events, with its lines. *)
Record Block : Type := mkBlock {
  id1 : Z;
  id2 : Z;
  obs : list Obs
}.

(** How [buildAbsTTimePairs] ends: with the stream, with the
    [runtime_error] of an event that is not in the catalog, or in the
    overflow of [dtCount]. *)
Inductive ended : Type :=
| Written (outStream : list Block)
| Runtime_error
| Overflow.

Section WithEq.

(** [Event::operator==] of catalog.h, which is not among the sources. *)
Variable event_eq : Event -> Event -> bool.

(** The loop over the phases of the reference event: the first one of the
    same station and type gives the line, or nothing when one of the two
    travel times is negative; then the loop is left. A travel time is the
    binary64 number nearest to the time span. *)
Fixpoint refLoop (refEv event : Event) (phase : Phase)
    (eqlrng2 : list (Z * Phase)) : option Obs :=
  match eqlrng2 with
  | [] => None
  | (_, refPhase) :: rest =>
      if String.eqb (stationId phase) (stationId refPhase) &&
         String.eqb (type phase) (type refPhase)
      then
        let ref_travel_time := round64 (phase_time refPhase - time refEv) in
        if ltb ref_travel_time (of_Z 0) then None
        else
          let travel_time := round64 (phase_time phase - time event) in
          if ltb travel_time (of_Z 0) then None
          else
            let weight := div64 (add64 (weight refPhase) (weight phase)) (of_Z 2) in
            Some (mkObs (stationId refPhase) ref_travel_time travel_time weight
                        (type refPhase))
      else refLoop refEv event phase rest
  end.

(** A turn of the loop over the phases of the event, on
    [(dtCount, evStream)]; [None] when [dtCount++] overflows. *)
Definition phaseTurn (refEv event : Event) (eqlrng2 : list (Z * Phase))
    (st : option (Z * list Obs)) (it : Z * Phase) : option (Z * list Obs) :=
  st ≫= fun '(dtCount, evStream) =>
    match refLoop refEv event (snd it) eqlrng2 with
    | None => Some (dtCount, evStream)
    | Some line =>
        if dtCount <? INT_MAX then Some (dtCount + 1, evStream ++ [line])
        else None
    end.

(** The loop over the phases of the event. *)
Definition phaseLoop (refEv event : Event) (eqlrng eqlrng2 : list (Z * Phase))
    : option (Z * list Obs) :=
  fold_left (phaseTurn refEv event eqlrng2) eqlrng (Some (0, [])).

(** A turn of the loop over the events of the catalog, on the stream. *)
Definition eventTurn (catalog : Catalog.t) (refEv : Event)
    (out : option (list Block)) (kv : Z * Event) : option (list Block) :=
  out ≫= fun outStream =>
    let event := snd kv in
    if event_eq event refEv then Some outStream
    else
      phaseLoop refEv event
        (StdMap.equal_range (id event) (getPhases catalog))
        (StdMap.equal_range (id refEv) (getPhases catalog))
      ≫= fun '(dtCount, evStream) =>
        Some (if dtCount >? 0
              then outStream ++ [mkBlock (id refEv) (id event) evStream]
              else outStream).

(** [HypoDD::buildAbsTTimePairs], on the blocks of the stream. *)
Definition buildAbsTTimePairs (catalog : Catalog.t) (evToRelocateId : Z)
    (outStream : list Block) : ended :=
  match StdMap.find evToRelocateId (getEvents catalog) with
  | None => Runtime_error
  | Some refEv =>
      match fold_left (eventTurn catalog refEv) (getEvents catalog)
                      (Some outStream) with
      | Some outStream => Written outStream
      | None => Overflow
      end
  end.

End WithEq.

(** A line that pairs a phase of the event with a phase of the reference
    event at the same station and of the same type: the two travel times,
    neither of which compares below 0, and the mean of the two weights. *)
Definition pairs_phases (catalog : Catalog.t) (refEv event : Event) (line : Obs) : Prop :=
  exists phase refPhase,
    In phase (map snd (StdMap.equal_range (id event) (getPhases catalog))) /\
    In refPhase (map snd (StdMap.equal_range (id refEv) (getPhases catalog))) /\
    stationId phase = stationId refPhase /\ type phase = type refPhase /\
    sta line = stationId refPhase /\ pha line = type refPhase /\
    tt1 line = round64 (phase_time refPhase - time refEv) /\
    ltb (tt1 line) (of_Z 0) = false /\
    tt2 line = round64 (phase_time phase - time event) /\
    ltb (tt2 line) (of_Z 0) = false /\
    wght line = div64 (add64 (weight refPhase) (weight phase)) (of_Z 2).

(** A block of the reference event with another event of the catalog,
    with at least one line and at most one line for each phase of that
    event. *)
Definition sound_block (event_eq : Event -> Event -> bool) (catalog : Catalog.t)
    (refEv : Event) (b : Block) : Prop :=
  id1 b = id refEv /\
  obs b <> [] /\
  exists event,
    In event (map snd (getEvents catalog)) /\
    event_eq event refEv = false /\
    id2 b = id event /\
    (List.length (obs b)
     <= List.length (StdMap.equal_range (id event) (getPhases catalog)))%nat /\
    Forall (pairs_phases catalog refEv event) (obs b).

(** Two events 2 s apart with a P pick each at the station ST, and a
    second pick of the second event before its origin time. *)
Definition two_events : Catalog.t :=
  Catalog.mk []
    [(1, mkEvent 1 0 (of_Z 46) (of_Z 7) (of_Z 5));
     (2, mkEvent 2 2 (of_Z 46) (of_Z 7) (of_Z 6))]
    [(1, mkPhase 1 "NT.ST." 3 (of_Z 1) "P" "NT" "ST" "" "HHZ" true);
     (2, mkPhase 2 "NT.ST." 4 (of_Z 1) "P" "NT" "ST" "" "HHZ" true);
     (2, mkPhase 2 "NT.ST." 1 (of_Z 1) "P" "NT" "ST" "" "HHZ" false)].

Definition same_id (a b : Event) : bool := id a =? id b.

End AbsTTime.

(* ===================================================================== *)
(** * 20. The maxima of [S2Nratio] *)
(* ===================================================================== *)

Module SNRWindow.
Import Dbl SNR.

(** What the loop [for (int i = lo; i < hi; i++) m = std::max(std::abs(data[i]), m)]
    leaves in [m], which starts at -1: the greatest absolute value of the
    samples from [lo] to [hi - 1], and -1 when there is no such sample. *)
Definition greatest_abs (data : list double) (lo hi : Z) (m : Q) : Prop :=
  (forall k, lo <= k < hi ->
     exists x, at_ data k = Some (Fin x) /\ (Qabs x <= m)%Q) /\
  (if lo <? hi
   then exists k x, lo <= k < hi /\ at_ data k = Some (Fin x) /\ m = Qabs x
   else m = (-1)%Q).

End SNRWindow.

(* ===================================================================== *)
(** * Facts about the numeric model *)
(* ===================================================================== *)

Module DblFacts.
Import Dbl.

Lemma Qltb_lt a b : Qltb a b = true <-> (a < b)%Q.
Proof. unfold Qltb, Qlt. apply Z.ltb_lt. Qed.

Lemma Qleb_le a b : Qleb a b = true <-> (a <= b)%Q.
Proof. unfold Qleb, Qle. apply Z.leb_le. Qed.

Lemma Qeqb_eq a b : Qeqb a b = true <-> (a == b)%Q.
Proof. unfold Qeqb, Qeq. apply Z.eqb_eq. Qed.

Lemma Qltb_nlt a b : Qltb a b = false <-> (b <= a)%Q.
Proof. unfold Qltb, Qle. rewrite Z.ltb_ge. reflexivity. Qed.

Lemma Qleb_nle a b : Qleb a b = false <-> (b < a)%Q.
Proof. unfold Qleb, Qlt. rewrite Z.leb_gt. reflexivity. Qed.

Lemma same_refl a : same a a.
Proof. destruct a; simpl; auto. reflexivity. Qed.

Lemma ltb_asym a b : ltb a b = true -> ltb b a = false.
Proof.
  destruct a as [|sa|p], b as [|sb|q]; simpl; try congruence.
  - destruct sa, sb; simpl; congruence.
  - destruct sa; simpl; congruence.
  - destruct sb; simpl; congruence.
  - rewrite Qltb_lt, Qltb_nlt. apply Qlt_le_weak.
Qed.

Lemma ltb_irrefl a : ltb a a = false.
Proof.
  destruct a as [|s|q]; simpl; auto.
  - destruct s; reflexivity.
  - apply Qltb_nlt. apply Qle_refl.
Qed.

Lemma same_sym a b : same a b -> same b a.
Proof. destruct a, b; simpl; auto. intros H; symmetry; exact H. Qed.
Lemma same_trans a b c : same a b -> same b c -> same a c.
Proof.
  destruct a, b, c; simpl; auto; try contradiction; try congruence.
  intros H1 H2. rewrite H1. exact H2.
Qed.
Lemma opp_same a b : same a b -> same (opp a) (opp b).
Proof.
  destruct a, b; simpl; auto; try congruence.
  intros H. rewrite H. reflexivity.
Qed.
Lemma opp_opp_same a : same (opp (opp a)) a.
Proof.
  destruct a as [|s|q]; simpl; auto.
  - apply negb_involutive.
  - apply Qopp_involutive.
Qed.
Lemma sub_same_r a b c : same b c -> same (sub a b) (sub a c).
Proof.
  unfold sub. destruct a as [|sa|p], b as [|sb|q], c as [|sc|r]; simpl; auto;
    try contradiction; try discriminate.
  all: try (intros ->; destruct (Bool.eqb _ _); simpl; auto; fail).
  all: try (intros H; rewrite H; reflexivity).
Qed.
(** Swapping the two travel times and negating the lag negates the
    differential time. *)
Lemma dtcc_negated (tt1 tt2 : Q) (x : double) :
  same (sub (sub (Fin tt2) (Fin tt1)) (opp x))
       (opp (sub (sub (Fin tt1) (Fin tt2)) x)).
Proof.
  unfold sub. destruct x as [|s|q]; simpl; auto.
  - simpl. ring.
Qed.

Lemma mul_same a b : same a b -> same (mul a a) (mul b b).
Proof.
  destruct a as [|sa|p], b as [|sb|q]; simpl; auto; try contradiction.
  - intros ->. reflexivity.
  - intros H. rewrite H. reflexivity.
Qed.

Lemma ltb_same_l a b m : same a b -> ltb a m = ltb b m.
Proof.
  destruct a as [|sa|p], b as [|sb|q], m as [|sm|r]; simpl; auto;
    try contradiction; try congruence.
  intros H. unfold Qltb. unfold Qeq in H.
  destruct (Qnum p * QDen r <? Qnum r * QDen p) eqn:E1;
  destruct (Qnum q * QDen r <? Qnum r * QDen q) eqn:E2; auto;
  [apply Z.ltb_lt in E1; apply Z.ltb_ge in E2|apply Z.ltb_ge in E1; apply Z.ltb_lt in E2];
  exfalso; nia.
Qed.

Lemma tie_same a b :
  isfinite a = true -> isfinite b = true ->
  ltb a b = false -> ltb b a = false -> same a b.
Proof.
  destruct a as [| |p], b as [| |q]; simpl; try discriminate.
  intros _ _ H1 H2. apply Qltb_nlt in H1. apply Qltb_nlt in H2.
  apply Qle_antisym; assumption.
Qed.


End DblFacts.

(* ===================================================================== *)
(** * Rounding to binary64 *)
(* ===================================================================== *)

Module RoundFacts.
Import Dbl.

Lemma scaled_pos (n d e : Z) :
  0 < n -> 0 < d -> 0 < fst (scaled n d e) /\ 0 < snd (scaled n d e).
Proof.
  intros Hn Hd. unfold scaled. destruct (0 <=? e) eqn:E; simpl.
  - apply Z.leb_le in E. split; [exact Hn|].
    apply Z.mul_pos_pos; [exact Hd|apply Z.pow_pos_nonneg; lia].
  - apply Z.leb_gt in E. split; [|exact Hd].
    apply Z.mul_pos_pos; [exact Hn|apply Z.pow_pos_nonneg; lia].
Qed.

Lemma rne_nonneg (num den : Z) : 0 <= num -> 0 < den -> 0 <= rne num den.
Proof.
  intros Hn Hd. unfold rne.
  assert (H : 0 <= num / den) by (apply Z.div_pos; lia).
  destruct (2 * (num mod den) <? den); [exact H|].
  destruct (den <? 2 * (num mod den)); [lia|].
  destruct (Z.even (num / den)); lia.
Qed.

(** The binary64 number nearest to zero is zero. *)
Lemma round64_zero (q : Q) : (q == 0)%Q -> round64 q = Fin 0.
Proof.
  intros H. unfold round64.
  assert (E : Qnum q = 0).
  { unfold Qeq in H. simpl in H. lia. }
  rewrite E. reflexivity.
Qed.

(** Rounding keeps the sign: what is not negative is rounded to a number
    that is not negative, or to the positive infinity. *)
Lemma round64_nonneg (q : Q) :
  (0 <= q)%Q -> round64 q = Inf false \/ exists r, round64 q = Fin r /\ (0 <= r)%Q.
Proof.
  intros Hq. unfold round64.
  assert (Hn : 0 <= Qnum q) by (unfold Qle in Hq; simpl in Hq; lia).
  destruct (Z.abs (Qnum q) =? 0) eqn:E0.
  - right. exists 0%Q. split; [reflexivity|lra].
  - apply Z.eqb_neq in E0.
    assert (Hpos : 0 < Qnum q) by lia.
    set (n := Z.abs (Qnum q)). set (d := Z.pos (Qden q)).
    set (p := Z.max (exponent n d) (-1022) - 52).
    set (m := rne (fst (scaled n d p)) (snd (scaled n d p))).
    assert (Hm : 0 <= m).
    { destruct (scaled_pos n d p) as [H1 H2]; [unfold n; lia|unfold d; lia|].
      apply rne_nonneg; lia. }
    destruct ((0 <=? p) && (2 ^ 1024 <=? m * 2 ^ p)).
    + left. f_equal. apply Z.ltb_ge. lia.
    + right. eexists. split; [reflexivity|].
      rewrite Qred_correct. unfold Qle. simpl.
      rewrite Z.sgn_pos by exact Hpos.
      assert (0 <= 2 ^ Z.max p 0) by (apply Z.pow_nonneg; lia).
      nia.
Qed.

(** ** The nearest integer *)

Lemma rne_bounds num den : 0 < den ->
  2 * den * rne num den - den <= 2 * num <= 2 * den * rne num den + den.
Proof.
  intros Hd. unfold rne.
  pose proof (Z.div_mod num den ltac:(lia)) as E.
  pose proof (Z.mod_pos_bound num den Hd) as Hr.
  set (fl := num / den) in *. set (r := num mod den) in *.
  destruct (2 * r <? den) eqn:E1; [apply Z.ltb_lt in E1; nia|].
  apply Z.ltb_ge in E1.
  destruct (den <? 2 * r) eqn:E2; [apply Z.ltb_lt in E2; nia|].
  apply Z.ltb_ge in E2.
  destruct (Z.even fl); nia.
Qed.

Lemma rne_exact k den : 0 < den -> rne (den * k) den = k.
Proof.
  intros Hd. unfold rne.
  replace (den * k) with (k * den) by ring.
  rewrite Z.div_mul, Z.mod_mul by lia. change (2 * 0) with 0.
  destruct (0 <? den) eqn:E; [reflexivity|apply Z.ltb_ge in E; lia].
Qed.

Lemma div_le_cross a b c d : 0 < b -> 0 < d -> a * d <= c * b -> a / b <= c / d.
Proof.
  intros Hb Hd H.
  pose proof (Z.div_mod a b ltac:(lia)) as Ea.
  pose proof (Z.mod_pos_bound a b Hb) as Hra.
  pose proof (Z.div_mod c d ltac:(lia)) as Ec.
  pose proof (Z.mod_pos_bound c d Hd) as Hrc.
  set (fa := a / b) in *. set (fc := c / d) in *.
  destruct (Z_le_gt_dec fa fc) as [L|G]; [exact L|exfalso].
  assert (fc + 1 <= fa) by lia.
  assert (b * (fc + 1) <= a) by nia.
  assert (c < d * (fc + 1)) by nia.
  assert (c * b < d * (fc + 1) * b) by nia.
  assert (b * (fc + 1) * d <= a * d) by nia.
  nia.
Qed.

Lemma rne_mono a b c d : 0 < b -> 0 < d -> a * d <= c * b -> rne a b <= rne c d.
Proof.
  intros Hb Hd H.
  pose proof (div_le_cross a b c d Hb Hd H) as Hfl.
  unfold rne.
  pose proof (Z.div_mod a b ltac:(lia)) as Ea.
  pose proof (Z.mod_pos_bound a b Hb) as Hra.
  pose proof (Z.div_mod c d ltac:(lia)) as Ec.
  pose proof (Z.mod_pos_bound c d Hd) as Hrc.
  set (fa := a / b) in *. set (fc := c / d) in *.
  set (ra := a mod b) in *. set (rc := c mod d) in *.
  destruct (Z.eq_dec fa fc) as [Efl|Nfl].
  - rewrite <- Efl in *.
    assert (Hr : ra * d <= rc * b) by nia.
    destruct (2 * ra <? b) eqn:A1.
    + destruct (2 * rc <? d); [lia|]. destruct (d <? 2 * rc); [lia|].
      destruct (Z.even fa); lia.
    + apply Z.ltb_ge in A1.
      destruct (b <? 2 * ra) eqn:A2.
      * apply Z.ltb_lt in A2.
        destruct (2 * rc <? d) eqn:C1; [apply Z.ltb_lt in C1; nia|].
        apply Z.ltb_ge in C1.
        destruct (d <? 2 * rc) eqn:C2; [lia|]. apply Z.ltb_ge in C2. nia.
      * apply Z.ltb_ge in A2.
        destruct (2 * rc <? d) eqn:C1; [apply Z.ltb_lt in C1; nia|].
        destruct (d <? 2 * rc); [destruct (Z.even fa); lia|].
        destruct (Z.even fa); lia.
  - assert (fa + 1 <= fc) by lia.
    destruct (2 * ra <? b), (b <? 2 * ra), (Z.even fa),
             (2 * rc <? d), (d <? 2 * rc), (Z.even fc); lia.
Qed.


(** ** Powers of two and fractions as rationals *)


Lemma pow2_pos e : (0 < pow2 e)%Q.
Proof. apply Qpower_0_lt. reflexivity. Qed.

Lemma pow2_add a b : (pow2 (a + b) == pow2 a * pow2 b)%Q.
Proof. apply Qpower_plus. discriminate. Qed.

Lemma pow2_S a : (pow2 (a + 1) == 2 * pow2 a)%Q.
Proof. rewrite pow2_add. unfold pow2 at 2. rewrite Qpower_1_r. ring. Qed.

Lemma pow2_le a b : a <= b -> (pow2 a <= pow2 b)%Q.
Proof. intros H. apply Qpower_le_compat_l; [exact H|discriminate]. Qed.

Lemma pow2_lt a b : a < b -> (pow2 a < pow2 b)%Q.
Proof. intros H. apply Qpower_lt_compat_l; [exact H|reflexivity]. Qed.

Lemma pow2_lt_inv a b : (pow2 a < pow2 b)%Q -> a < b.
Proof. intros H. apply (Qpower_lt_compat_l_inv 2); [exact H|reflexivity]. Qed.

Lemma pow2_Z e : 0 <= e -> (inject_Z (2 ^ e) == pow2 e)%Q.
Proof. intros H. unfold pow2. rewrite Zpower_Qpower by exact H. reflexivity. Qed.

Lemma pow2_opp e : (pow2 (- e) == / pow2 e)%Q.
Proof. apply Qpower_opp. Qed.

Lemma inject_pos z : 0 < z -> (0 < inject_Z z)%Q.
Proof. intros H. unfold Qlt. simpl. lia. Qed.

Lemma pos_nz (x : Q) : (0 < x)%Q -> ~ (x == 0)%Q.
Proof. intros H E. rewrite E in H. discriminate. Qed.

Lemma frac_le a b c d : 0 < b -> 0 < d -> ((frac a b <= frac c d)%Q <-> a * d <= c * b).
Proof.
  intros Hb Hd. unfold frac.
  pose proof (inject_pos b Hb) as Hb'. pose proof (inject_pos d Hd) as Hd'.
  split; intros H.
  - apply (Qmult_le_compat_r _ _ (inject_Z b * inject_Z d)) in H;
      [|apply Qlt_le_weak, Qmult_lt_0_compat; assumption].
    assert (E1 : (inject_Z a / inject_Z b * (inject_Z b * inject_Z d)
                  == inject_Z (a * d))%Q).
    { rewrite inject_Z_mult. field. intros E; rewrite E in Hb'; discriminate. }
    assert (E2 : (inject_Z c / inject_Z d * (inject_Z b * inject_Z d)
                  == inject_Z (c * b))%Q).
    { rewrite inject_Z_mult. field. intros E; rewrite E in Hd'; discriminate. }
    rewrite E1, E2 in H. now rewrite <- Zle_Qle in H.
  - apply Qle_shift_div_l; [exact Hd'|].
    assert (E : (inject_Z a / inject_Z b * inject_Z d == inject_Z (a * d) / inject_Z b)%Q).
    { rewrite inject_Z_mult. field. intros E; rewrite E in Hb'; discriminate. }
    rewrite E. apply Qle_shift_div_r; [exact Hb'|].
    rewrite <- inject_Z_mult, <- Zle_Qle. exact H.
Qed.

Lemma frac_int k : (frac k 1 == inject_Z k)%Q.
Proof. unfold frac. field. Qed.

(** [scaled n d e] is the fraction [(n / d) / 2 ^ e]. *)
Lemma scaled_value n d e : 0 < n -> 0 < d ->
  0 < fst (scaled n d e) /\ 0 < snd (scaled n d e) /\
  (frac (fst (scaled n d e)) (snd (scaled n d e)) == frac n d / pow2 e)%Q.
Proof.
  intros Hn Hd. unfold scaled, frac.
  pose proof (inject_pos d Hd) as Hd'.
  pose proof (pow2_pos e) as Hp.
  destruct (0 <=? e) eqn:E; cbn [fst snd].
  - apply Z.leb_le in E.
    assert (0 < 2 ^ e) by (apply Z.pow_pos_nonneg; lia).
    split; [exact Hn|]. split; [lia|].
    rewrite inject_Z_mult, (pow2_Z e E). field.
    split; apply pos_nz; assumption.
  - apply Z.leb_gt in E.
    assert (0 < 2 ^ (- e)) by (apply Z.pow_pos_nonneg; lia).
    split; [lia|]. split; [exact Hd|].
    rewrite inject_Z_mult, (pow2_Z (- e)) by lia. rewrite pow2_opp. field.
    split; apply pos_nz; assumption.
Qed.


Lemma frac_lt_1 a b : 0 < b -> ((frac a b < 1)%Q <-> a < b).
Proof.
  intros Hb. pose proof (frac_le b b a b Hb Hb) as H.
  assert (E : (frac b b == 1)%Q) by (unfold frac; field; apply pos_nz, inject_pos, Hb).
  rewrite E in H. split; intros H'.
  - destruct (Z_lt_ge_dec a b) as [L|G]; [exact L|exfalso].
    apply (Qlt_not_le _ _ H'). apply H. nia.
  - apply Qnot_le_lt. intros H1. apply H in H1. nia.
Qed.

Lemma squeeze (x A B N D : Q) :
  (0 < A -> 0 < B -> 0 < D -> N == x * D ->
   A * B <= N -> N < 2 * (A * B) -> B <= D -> D < 2 * B ->
   A < 2 * x /\ x < 2 * A)%Q.
Proof.
  intros HA HB HD EN H1 H2 H3 H4. split.
  - apply Qnot_le_lt. intros H. 
    assert (2 * x * D <= A * D)%Q by (apply Qmult_le_compat_r; lra).
    assert (A * D < A * (2 * B))%Q by (apply Qmult_lt_l; assumption).
    lra.
  - apply Qnot_le_lt. intros H.
    assert (2 * A * D <= x * D)%Q by (apply Qmult_le_compat_r; lra).
    assert (A * B <= A * D)%Q by (apply Qmult_le_l; assumption).
    lra.
Qed.

(** The exponent of a positive fraction. *)
Lemma exponent_spec n d : 0 < n -> 0 < d ->
  (pow2 (exponent n d) <= frac n d < pow2 (exponent n d + 1))%Q.
Proof.
  intros Hn Hd.
  pose proof (Z.log2_spec n Hn) as Ln. pose proof (Z.log2_spec d Hd) as Ld.
  pose proof (Z.log2_nonneg n) as Ln0. pose proof (Z.log2_nonneg d) as Ld0.
  set (l := Z.log2 n) in *. set (k := Z.log2 d) in *.
  assert (HN : (pow2 l <= inject_Z n /\ inject_Z n < 2 * pow2 l)%Q).
  { rewrite <- pow2_S, <- !pow2_Z by lia. rewrite <- Zle_Qle, <- Zlt_Qlt.
    unfold Z.succ in Ln. exact Ln. }
  assert (HD : (pow2 k <= inject_Z d /\ inject_Z d < 2 * pow2 k)%Q).
  { rewrite <- pow2_S, <- !pow2_Z by lia. rewrite <- Zle_Qle, <- Zlt_Qlt.
    unfold Z.succ in Ld. exact Ld. }
  pose proof (inject_pos d Hd) as Hd'.
  assert (EN : (inject_Z n == frac n d * inject_Z d)%Q)
    by (unfold frac; field; apply pos_nz; exact Hd').
  assert (El : (pow2 l == pow2 (l - k) * pow2 k)%Q)
    by (rewrite <- pow2_add; replace (l - k + k) with l by lia; reflexivity).
  destruct HN as [HN1 HN2]. destruct HD as [HD1 HD2].
  rewrite El in HN1, HN2.
  destruct (squeeze (frac n d) (pow2 (l - k)) (pow2 k) (inject_Z n) (inject_Z d)
              (pow2_pos _) (pow2_pos _) Hd' EN HN1 HN2 HD1 HD2) as [Hlo Hhi].
  unfold exponent. fold l k.
  destruct (scaled_value n d (l - k) Hn Hd) as (Hs1 & Hs2 & Hs).
  pose proof (frac_lt_1 (fst (scaled n d (l - k))) (snd (scaled n d (l - k))) Hs2) as Ht.
  rewrite Hs in Ht.
  pose proof (pow2_pos (l - k)) as HA.
  destruct (fst (scaled n d (l - k)) <? snd (scaled n d (l - k))) eqn:E.
  - apply Z.ltb_lt in E. apply Ht in E.
    replace (l - k - 1 + 1) with (l - k) by lia.
    assert (E2 : (pow2 (l - k) == 2 * pow2 (l - k - 1))%Q)
      by (rewrite <- pow2_S; replace (l - k - 1 + 1) with (l - k) by lia; reflexivity).
    assert (E3 : (frac n d < pow2 (l - k))%Q).
    { apply Qnot_le_lt. intros H. apply (Qlt_not_le _ _ E).
      apply Qle_shift_div_l; [exact HA|]. lra. }
    split; lra.
  - apply Z.ltb_ge in E.
    assert (E3 : (pow2 (l - k) <= frac n d)%Q).
    { apply Qnot_lt_le. intros H. apply Z.le_ngt in E. apply E. apply Ht.
      apply Qlt_shift_div_r; [exact HA|]. lra. }
    rewrite pow2_S. split; lra.
Qed.


(** ** The rounded magnitude *)


Lemma rne_ge_int k sn sd : 0 < sd -> (inject_Z k <= frac sn sd)%Q -> k <= rne sn sd.
Proof.
  intros Hsd H. rewrite <- frac_int in H.
  apply (proj1 (frac_le k 1 sn sd ltac:(lia) Hsd)) in H.
  apply Z.le_trans with (rne (1 * k) 1); [rewrite rne_exact; lia|apply rne_mono; lia].
Qed.

Lemma rne_le_int k sn sd : 0 < sd -> (frac sn sd <= inject_Z k)%Q -> rne sn sd <= k.
Proof.
  intros Hsd H. rewrite <- frac_int in H.
  apply (proj1 (frac_le sn sd k 1 Hsd ltac:(lia))) in H.
  apply Z.le_trans with (rne (1 * k) 1); [apply rne_mono; lia|rewrite rne_exact; lia].
Qed.

Lemma frac_pos n d : 0 < n -> 0 < d -> (0 < frac n d)%Q.
Proof.
  intros Hn Hd. unfold frac. apply Qlt_shift_div_l; [apply inject_pos, Hd|].
  rewrite Qmult_0_l. apply inject_pos, Hn.
Qed.

Lemma div_pow2_le (x y : Q) p : (x <= y -> x / pow2 p <= y / pow2 p)%Q.
Proof.
  intros H. apply Qle_shift_div_l; [apply pow2_pos|].
  assert (E : (x / pow2 p * pow2 p == x)%Q) by (field; apply pos_nz, pow2_pos).
  rewrite E. exact H.
Qed.

Lemma div_pow2 a p : (pow2 a / pow2 p == pow2 (a - p))%Q.
Proof.
  replace a with ((a - p) + p) at 1 by lia. rewrite pow2_add. field.
  apply pos_nz, pow2_pos.
Qed.

Lemma mantissa_bounds n d : 0 < n -> 0 < d ->
  0 <= mantissa n d <= 2 ^ 53 /\ (-1022 <= exponent n d -> 2 ^ 52 <= mantissa n d).
Proof.
  intros Hn Hd.
  destruct (exponent_spec n d Hn Hd) as [He1 He2].
  unfold mantissa. set (p := quantum n d).
  destruct (scaled_value n d p Hn Hd) as (Hs1 & Hs2 & Hs).
  set (sn := fst (scaled n d p)) in *. set (sd := snd (scaled n d p)) in *.
  pose proof (frac_pos n d Hn Hd) as Hx.
  assert (Hp : quantum n d = p) by reflexivity. unfold quantum in Hp.
  split; [split|].
  - apply rne_ge_int; [exact Hs2|]. rewrite Hs.
    apply Qle_shift_div_l; [apply pow2_pos|]. change (inject_Z 0) with 0%Q. lra.
  - apply rne_le_int; [exact Hs2|]. rewrite Hs, (pow2_Z 53) by lia.
    apply Qle_trans with (pow2 (exponent n d + 1) / pow2 p)%Q.
    + apply div_pow2_le. lra.
    + rewrite div_pow2. apply pow2_le. lia.
  - intros He. apply rne_ge_int; [exact Hs2|]. rewrite Hs, (pow2_Z 52) by lia.
    apply Qle_trans with (pow2 (exponent n d) / pow2 p)%Q.
    + rewrite div_pow2. apply pow2_le. lia.
    + apply div_pow2_le. exact He1.
Qed.

Lemma magnitude_bounds n d : 0 < n -> 0 < d ->
  (0 <= magnitude n d <= pow2 (quantum n d + 53))%Q /\
  (-1022 <= exponent n d -> (pow2 (quantum n d + 52) <= magnitude n d)%Q).
Proof.
  intros Hn Hd. destruct (mantissa_bounds n d Hn Hd) as [[H0 H53] H52].
  unfold magnitude. pose proof (pow2_pos (quantum n d)) as Hp.
  split; [split|].
  - apply Qmult_le_0_compat; [|lra]. change 0%Q with (inject_Z 0).
    rewrite <- Zle_Qle. exact H0.
  - rewrite Z.add_comm, pow2_add, <- (pow2_Z 53) by lia.
    apply Qmult_le_compat_r; [|lra]. rewrite <- Zle_Qle. exact H53.
  - intros He. rewrite Z.add_comm, pow2_add, <- (pow2_Z 52) by lia.
    apply Qmult_le_compat_r; [|lra]. rewrite <- Zle_Qle. apply H52, He.
Qed.

Lemma exponent_mono n1 d1 n2 d2 :
  0 < n1 -> 0 < d1 -> 0 < n2 -> 0 < d2 ->
  (frac n1 d1 <= frac n2 d2)%Q -> exponent n1 d1 <= exponent n2 d2.
Proof.
  intros Hn1 Hd1 Hn2 Hd2 H.
  destruct (exponent_spec n1 d1 Hn1 Hd1) as [A _].
  destruct (exponent_spec n2 d2 Hn2 Hd2) as [_ B].
  assert (L : (pow2 (exponent n1 d1) < pow2 (exponent n2 d2 + 1))%Q) by lra.
  apply pow2_lt_inv in L. lia.
Qed.

(** Rounding keeps the order of the magnitudes. *)
Lemma magnitude_mono n1 d1 n2 d2 :
  0 < n1 -> 0 < d1 -> 0 < n2 -> 0 < d2 ->
  (frac n1 d1 <= frac n2 d2)%Q -> (magnitude n1 d1 <= magnitude n2 d2)%Q.
Proof.
  intros Hn1 Hd1 Hn2 Hd2 H.
  pose proof (exponent_mono _ _ _ _ Hn1 Hd1 Hn2 Hd2 H) as He.
  destruct (Z.eq_dec (quantum n1 d1) (quantum n2 d2)) as [Ep|Np].
  - unfold magnitude. rewrite <- Ep. apply Qmult_le_compat_r; [|apply Qlt_le_weak, pow2_pos].
    rewrite <- Zle_Qle. unfold mantissa. rewrite <- Ep.
    destruct (scaled_value n1 d1 (quantum n1 d1) Hn1 Hd1) as (_ & Hs1 & E1).
    destruct (scaled_value n2 d2 (quantum n1 d1) Hn2 Hd2) as (_ & Hs2 & E2).
    apply rne_mono; [exact Hs1|exact Hs2|].
    apply frac_le; [exact Hs1|exact Hs2|]. rewrite E1, E2. apply div_pow2_le. exact H.
  - assert (Hlt : quantum n1 d1 < quantum n2 d2) by (unfold quantum in *; lia).
    assert (He2 : -1022 <= exponent n2 d2) by (unfold quantum in *; lia).
    destruct (magnitude_bounds n1 d1 Hn1 Hd1) as [[_ U] _].
    destruct (magnitude_bounds n2 d2 Hn2 Hd2) as [_ L]. specialize (L He2).
    apply Qle_trans with (pow2 (quantum n1 d1 + 53)); [exact U|].
    apply Qle_trans with (pow2 (quantum n2 d2 + 52)); [|exact L].
    apply pow2_le. lia.
Qed.


(** ** The shape of a rounded number *)


Lemma round64_zero_num q : Qnum q = 0 -> round64 q = Fin 0.
Proof. intros H. unfold round64. rewrite H. reflexivity. Qed.

Lemma round64_shape q : Qnum q <> 0 ->
  ((pow2 1024 <= mag q)%Q /\ round64 q = Inf (Qnum q <? 0)) \/
  ((mag q < pow2 1024)%Q /\
   exists r, round64 q = Fin r /\ (r == inject_Z (Z.sgn (Qnum q)) * mag q)%Q).
Proof.
  intros Hq. unfold round64, mag.
  set (n := Z.abs (Qnum q)). set (d := Z.pos (Qden q)).
  assert (Hn : 0 < n) by (unfold n; lia). assert (Hd : 0 < d) by (unfold d; lia).
  destruct (n =? 0) eqn:E0; [apply Z.eqb_eq in E0; lia|].
  fold (quantum n d). fold (mantissa n d).
  destruct (magnitude_bounds n d Hn Hd) as [[HR0 HRU] _].
  unfold magnitude in *. set (p := quantum n d) in *. set (m := mantissa n d) in *.
  destruct (0 <=? p) eqn:Ep; cbn [andb].
  - apply Z.leb_le in Ep.
    assert (ER : (inject_Z (m * 2 ^ p) == inject_Z m * pow2 p)%Q)
      by (rewrite inject_Z_mult, pow2_Z by exact Ep; reflexivity).
    destruct (2 ^ 1024 <=? m * 2 ^ p) eqn:Eo.
    + left. apply Z.leb_le in Eo. split; [|reflexivity].
      rewrite <- ER, <- (pow2_Z 1024) by lia. rewrite <- Zle_Qle. exact Eo.
    + right. apply Z.leb_gt in Eo. split.
      * rewrite <- ER, <- (pow2_Z 1024) by lia. rewrite <- Zlt_Qlt. exact Eo.
      * eexists. split; [reflexivity|]. rewrite Qred_correct.
        rewrite Z.max_l by lia. rewrite Z.max_r by lia.
        change (Z.to_pos (2 ^ 0)) with 1%positive.
        rewrite <- ER. rewrite <- inject_Z_mult.
        unfold Qeq. simpl. ring.
  - right. apply Z.leb_gt in Ep. split.
    + apply Qle_lt_trans with (pow2 (p + 53)); [exact HRU|]. apply pow2_lt. lia.
    + eexists. split; [reflexivity|]. rewrite Qred_correct.
      rewrite Z.max_r by lia. rewrite Z.max_l by lia.
      assert (Hpos : 0 < 2 ^ (- p)) by (apply Z.pow_pos_nonneg; lia).
      rewrite Qmake_Qdiv. rewrite Z2Pos.id by exact Hpos.
      change (2 ^ 0) with 1. rewrite Z.mul_1_r.
      rewrite inject_Z_mult, (pow2_Z (- p)) by lia. rewrite pow2_opp.
      field. apply pos_nz, pow2_pos.
Qed.


Lemma frac_num_den q : (frac (Qnum q) (Z.pos (Qden q)) == q)%Q.
Proof. unfold frac. destruct q as [a b]. simpl. rewrite <- Qmake_Qdiv. reflexivity. Qed.

Lemma frac_abs_pos q : 0 < Qnum q -> (frac (Z.abs (Qnum q)) (Z.pos (Qden q)) == q)%Q.
Proof. intros H. rewrite Z.abs_eq by lia. apply frac_num_den. Qed.

Lemma frac_abs_neg q : Qnum q < 0 -> (frac (Z.abs (Qnum q)) (Z.pos (Qden q)) == - q)%Q.
Proof.
  intros H. rewrite Z.abs_neq by lia.
  apply Qeq_trans with (- frac (Qnum q) (Z.pos (Qden q)))%Q.
  - unfold frac. rewrite inject_Z_opp. field. apply pos_nz, inject_pos. lia.
  - rewrite frac_num_den. reflexivity.
Qed.

Lemma mag_nonneg q : Qnum q <> 0 -> (0 <= mag q)%Q.
Proof. intros H. unfold mag. apply magnitude_bounds; lia. Qed.

Lemma num_sign q : ((0 < Qnum q <-> (0 < q)%Q) /\ (Qnum q < 0 <-> (q < 0)%Q) /\
                    (Qnum q = 0 <-> (q == 0)%Q)).
Proof. unfold Qlt, Qeq. simpl. repeat split; lia. Qed.

Lemma mag_mono_pos q1 q2 : 0 < Qnum q1 -> 0 < Qnum q2 -> (q1 <= q2)%Q ->
  (mag q1 <= mag q2)%Q.
Proof.
  intros H1 H2 H. unfold mag. apply magnitude_mono; try lia.
  rewrite (frac_abs_pos q1 H1), (frac_abs_pos q2 H2). exact H.
Qed.

Lemma mag_mono_neg q1 q2 : Qnum q1 < 0 -> Qnum q2 < 0 -> (q1 <= q2)%Q ->
  (mag q2 <= mag q1)%Q.
Proof.
  intros H1 H2 H. unfold mag. apply magnitude_mono; try lia.
  rewrite (frac_abs_neg q1 H1), (frac_abs_neg q2 H2). lra.
Qed.

(** Rounding to binary64 keeps the order. *)
Theorem round64_mono q1 q2 : (q1 <= q2)%Q -> leb (round64 q1) (round64 q2) = true.
Proof.
  intros H.
  destruct (num_sign q1) as (P1 & N1 & Z1). destruct (num_sign q2) as (Pos2 & N2 & Z2).
  destruct (Z.lt_trichotomy (Qnum q1) 0) as [S1|[S1|S1]];
  destruct (Z.lt_trichotomy (Qnum q2) 0) as [S2|[S2|S2]];
    try (exfalso; apply N1 in S1 || apply Z1 in S1 || apply P1 in S1;
         apply N2 in S2 || apply Z2 in S2 || apply Pos2 in S2; lra).
  - (* both negative *)
    pose proof (mag_mono_neg q1 q2 S1 S2 H) as Hm.
    destruct (round64_shape q1 ltac:(lia)) as [[O1 ->]|[F1 (r1 & -> & E1)]];
    destruct (round64_shape q2 ltac:(lia)) as [[O2 ->]|[F2 (r2 & -> & E2)]].
    + destruct (Qnum q1 <? 0) eqn:E; [reflexivity|apply Z.ltb_ge in E; lia].
    + destruct (Qnum q1 <? 0) eqn:E; [reflexivity|apply Z.ltb_ge in E; lia].
    + exfalso. lra.
    + simpl. apply DblFacts.Qleb_le. rewrite E1, E2.
      rewrite !Z.sgn_neg by lia. change (inject_Z (-1)) with (-1)%Q. lra.
  - (* negative, zero *)
    rewrite (round64_zero_num q2 S2).
    destruct (round64_shape q1 ltac:(lia)) as [[O1 ->]|[F1 (r1 & -> & E1)]].
    + destruct (Qnum q1 <? 0) eqn:E; [reflexivity|apply Z.ltb_ge in E; lia].
    + simpl. apply DblFacts.Qleb_le. rewrite E1. rewrite Z.sgn_neg by lia.
      pose proof (mag_nonneg q1 ltac:(lia)). change (inject_Z (-1)) with (-1)%Q. lra.
  - (* negative, positive *)
    destruct (round64_shape q1 ltac:(lia)) as [[O1 ->]|[F1 (r1 & -> & E1)]];
    destruct (round64_shape q2 ltac:(lia)) as [[O2 ->]|[F2 (r2 & -> & E2)]].
    + destruct (Qnum q1 <? 0) eqn:E; [reflexivity|apply Z.ltb_ge in E; lia].
    + destruct (Qnum q1 <? 0) eqn:E; [reflexivity|apply Z.ltb_ge in E; lia].
    + destruct (Qnum q2 <? 0) eqn:E; [apply Z.ltb_lt in E; lia|reflexivity].
    + simpl. apply DblFacts.Qleb_le. rewrite E1, E2.
      rewrite Z.sgn_neg, Z.sgn_pos by lia.
      pose proof (mag_nonneg q1 ltac:(lia)). pose proof (mag_nonneg q2 ltac:(lia)).
      change (inject_Z (-1)) with (-1)%Q. change (inject_Z 1) with 1%Q. lra.
  - (* zero, zero *)
    rewrite (round64_zero_num q1 S1), (round64_zero_num q2 S2). reflexivity.
  - (* zero, positive *)
    rewrite (round64_zero_num q1 S1).
    destruct (round64_shape q2 ltac:(lia)) as [[O2 ->]|[F2 (r2 & -> & E2)]].
    + destruct (Qnum q2 <? 0) eqn:E; [apply Z.ltb_lt in E; lia|reflexivity].
    + simpl. apply DblFacts.Qleb_le. rewrite E2. rewrite Z.sgn_pos by lia.
      pose proof (mag_nonneg q2 ltac:(lia)). change (inject_Z 1) with 1%Q. lra.
  - (* both positive *)
    pose proof (mag_mono_pos q1 q2 S1 S2 H) as Hm.
    destruct (round64_shape q1 ltac:(lia)) as [[O1 ->]|[F1 (r1 & -> & E1)]];
    destruct (round64_shape q2 ltac:(lia)) as [[O2 ->]|[F2 (r2 & -> & E2)]].
    + destruct (Qnum q1 <? 0) eqn:E; [apply Z.ltb_lt in E; lia|].
      destruct (Qnum q2 <? 0) eqn:E'; [apply Z.ltb_lt in E'; lia|reflexivity].
    + exfalso. lra.
    + destruct (Qnum q2 <? 0) eqn:E; [apply Z.ltb_lt in E; lia|reflexivity].
    + simpl. apply DblFacts.Qleb_le. rewrite E1, E2.
      rewrite !Z.sgn_pos by lia. change (inject_Z 1) with 1%Q. lra.
Qed.


(** ** Numbers that rounding leaves as they are *)

Lemma frac_eq_int sn sd k : 0 < sd -> (frac sn sd == inject_Z k)%Q -> sn = sd * k.
Proof.
  intros Hsd E. rewrite <- frac_int in E.
  assert (L1 : (frac sn sd <= frac k 1)%Q) by (rewrite E; apply Qle_refl).
  assert (L2 : (frac k 1 <= frac sn sd)%Q) by (rewrite E; apply Qle_refl).
  apply (proj1 (frac_le sn sd k 1 Hsd ltac:(lia))) in L1.
  apply (proj1 (frac_le k 1 sn sd ltac:(lia) Hsd)) in L2. lia.
Qed.

Lemma magnitude_exact n d M P : 0 < n -> 0 < d -> 0 < M < 2 ^ 53 -> -1074 <= P ->
  (frac n d == inject_Z M * pow2 P)%Q -> (magnitude n d == frac n d)%Q.
Proof.
  intros Hn Hd HM HP E.
  destruct (exponent_spec n d Hn Hd) as [He1 He2].
  assert (Hlt : (frac n d < pow2 (53 + P))%Q).
  { rewrite E, pow2_add, <- (pow2_Z 53) by lia.
    apply Qmult_lt_r; [apply pow2_pos|]. rewrite <- Zlt_Qlt. lia. }
  assert (He : exponent n d < 53 + P) by (apply pow2_lt_inv; lra).
  unfold magnitude, mantissa. set (p := quantum n d).
  assert (Hp : p <= P) by (unfold p, quantum; lia).
  destruct (scaled_value n d p Hn Hd) as (_ & Hsd & Hs).
  assert (EK : (frac (fst (scaled n d p)) (snd (scaled n d p))
                == inject_Z (M * 2 ^ (P - p)))%Q).
  { rewrite Hs, E, inject_Z_mult, (pow2_Z (P - p)) by lia.
    rewrite <- div_pow2. field. apply pos_nz, pow2_pos. }
  rewrite (frac_eq_int _ _ _ Hsd EK), rne_exact by exact Hsd.
  rewrite E, inject_Z_mult, (pow2_Z (P - p)) by lia.
  rewrite <- div_pow2. field. apply pos_nz, pow2_pos.
Qed.

(** A number [M * 2 ^ P] with [|M| < 2 ^ 53] and [P >= -1074] is rounded
    to itself, or to an infinity when it is beyond the greatest number. *)
Lemma round64_exact_or_inf q M P :
  (q == inject_Z M * pow2 P)%Q -> Z.abs M < 2 ^ 53 -> -1074 <= P ->
  (Qnum q <> 0 /\ (pow2 1024 <= Qabs q)%Q /\ round64 q = Inf (Qnum q <? 0)) \/
  ((Qabs q < pow2 1024)%Q /\ exists r, round64 q = Fin r /\ (r == q)%Q).
Proof.
  intros E HM HP.
  destruct (num_sign q) as (P1 & N1 & Z1).
  destruct (Z.lt_trichotomy (Qnum q) 0) as [S|[S|S]].
  - assert (Hq : (q < 0)%Q) by (apply N1; exact S).
    assert (Hmag : (mag q == - q)%Q).
    { unfold mag. rewrite (magnitude_exact _ _ (- M) P); try lia.
      - apply frac_abs_neg. exact S.
      - assert (HM0 : M < 0).
        { destruct (Z_lt_ge_dec M 0) as [L|G]; [exact L|exfalso].
          assert (0 <= inject_Z M * pow2 P)%Q.
          { apply Qmult_le_0_compat; [|apply Qlt_le_weak, pow2_pos].
            change 0%Q with (inject_Z 0). rewrite <- Zle_Qle. lia. }
          lra. }
        lia.
      - rewrite (frac_abs_neg q S), E, inject_Z_opp. ring. }
    assert (Habs : (Qabs q == - q)%Q) by (apply Qabs_neg; lra).
    destruct (round64_shape q ltac:(lia)) as [[O H]|[F (r & H & Er)]].
    + left. split; [lia|]. split; [lra|exact H].
    + right. split; [lra|]. exists r. split; [exact H|].
      rewrite Er, Hmag, Z.sgn_neg by lia. change (inject_Z (-1)) with (-1)%Q. ring.
  - right. assert (Hq : (q == 0)%Q) by (apply Z1; exact S). split.
    + rewrite Hq. apply pow2_pos.
    + exists 0%Q. split; [apply round64_zero_num; exact S|]. symmetry. exact Hq.
  - assert (Hq : (0 < q)%Q) by (apply P1; exact S).
    assert (Hmag : (mag q == q)%Q).
    { unfold mag. rewrite (magnitude_exact _ _ M P); try lia.
      - apply frac_abs_pos. exact S.
      - assert (HM0 : 0 < M).
        { destruct (Z_lt_ge_dec 0 M) as [L|G]; [exact L|exfalso].
          assert (inject_Z M * pow2 P <= 0)%Q.
          { rewrite <- (Qmult_0_l (pow2 P)).
            apply Qmult_le_compat_r; [|apply Qlt_le_weak, pow2_pos].
            change 0%Q with (inject_Z 0). rewrite <- Zle_Qle. lia. }
          lra. }
        lia.
      - rewrite (frac_abs_pos q S), E. reflexivity. }
    assert (Habs : (Qabs q == q)%Q) by (apply Qabs_pos; lra).
    destruct (round64_shape q ltac:(lia)) as [[O H]|[F (r & H & Er)]].
    + left. split; [lia|]. split; [lra|exact H].
    + right. split; [lra|]. exists r. split; [exact H|].
      rewrite Er, Hmag, Z.sgn_pos by lia. change (inject_Z 1) with 1%Q. ring.
Qed.

(** The integers below [2 ^ 53] are binary64 numbers. *)
Lemma round64_int k : Z.abs k < 2 ^ 53 ->
  exists r, round64 (inject_Z k) = Fin r /\ (r == inject_Z k)%Q.
Proof.
  intros Hk.
  destruct (round64_exact_or_inf (inject_Z k) k 0) as [(_ & O & _)|[_ H]];
    [unfold pow2; rewrite Qpower_0_r; ring|exact Hk|lia| |exact H].
  exfalso. apply (Qle_not_lt _ _ O).
  apply Qlt_trans with (pow2 53); [|apply pow2_lt; lia].
  rewrite <- (pow2_Z 53) by lia.
  assert (E : (Qabs (inject_Z k) == inject_Z (Z.abs k))%Q).
  { unfold Qabs, inject_Z. simpl. reflexivity. }
  rewrite E, <- Zlt_Qlt. exact Hk.
Qed.

(** And so are their halves. *)
Lemma round64_half k : Z.abs k < 2 ^ 53 ->
  exists r, round64 (k # 2) = Fin r /\ (r == k # 2)%Q.
Proof.
  intros Hk.
  destruct (round64_exact_or_inf (k # 2) k (-1)) as [(_ & O & _)|[_ H]];
    [|exact Hk|lia| |exact H].
  - unfold pow2, Qeq. simpl. lia.
  - exfalso. apply (Qle_not_lt _ _ O).
    apply Qlt_trans with (pow2 53); [|apply pow2_lt; lia].
    rewrite <- (pow2_Z 53) by lia.
    apply Qle_lt_trans with (inject_Z (Z.abs k)).
    + unfold Qabs, Qle, inject_Z. simpl. lia.
    + rewrite <- Zlt_Qlt. exact Hk.
Qed.


(** ** Bounds that rounding keeps *)

Lemma leb_fin_l (r q : Q) (x : double) :
  (r == q)%Q -> leb (Fin r) x = true -> leb (Fin q) x = true.
Proof.
  intros E. destruct x as [| s |p]; simpl; auto.
  rewrite !DblFacts.Qleb_le. rewrite E. auto.
Qed.

Lemma leb_fin_r (r q : Q) (x : double) :
  (r == q)%Q -> leb x (Fin r) = true -> leb x (Fin q) = true.
Proof.
  intros E. destruct x as [| s |p]; simpl; auto.
  rewrite !DblFacts.Qleb_le. rewrite E. auto.
Qed.

(** A number that is not below an integer is not rounded below it. *)
Lemma round64_ge_int (k : Z) (q : Q) : Z.abs k < 2 ^ 53 ->
  (inject_Z k <= q)%Q -> leb (of_Z k) (round64 q) = true.
Proof.
  intros Hk H. destruct (round64_int k Hk) as (r & Er & E).
  pose proof (round64_mono _ _ H) as Hm. rewrite Er in Hm.
  exact (leb_fin_l r _ _ E Hm).
Qed.

Lemma round64_le_int (k : Z) (q : Q) : Z.abs k < 2 ^ 53 ->
  (q <= inject_Z k)%Q -> leb (round64 q) (of_Z k) = true.
Proof.
  intros Hk H. destruct (round64_int k Hk) as (r & Er & E).
  pose proof (round64_mono _ _ H) as Hm. rewrite Er in Hm.
  exact (leb_fin_r r _ _ E Hm).
Qed.

Lemma round64_le_half (k : Z) (q : Q) : Z.abs k < 2 ^ 53 ->
  (q <= k # 2)%Q -> leb (round64 q) (Fin (k # 2)) = true.
Proof.
  intros Hk H. destruct (round64_half k Hk) as (r & Er & E).
  pose proof (round64_mono _ _ H) as Hm. rewrite Er in Hm.
  exact (leb_fin_r r _ _ E Hm).
Qed.

Lemma round64_ge_half (k : Z) (q : Q) : Z.abs k < 2 ^ 53 ->
  (k # 2 <= q)%Q -> leb (Fin (k # 2)) (round64 q) = true.
Proof.
  intros Hk H. destruct (round64_half k Hk) as (r & Er & E).
  pose proof (round64_mono _ _ H) as Hm. rewrite Er in Hm.
  exact (leb_fin_l r _ _ E Hm).
Qed.

(** Rounding gives no NaN. *)
Lemma round64_not_nan q : round64 q <> NaN.
Proof.
  destruct (Z.eq_dec (Qnum q) 0) as [E|N].
  - rewrite (round64_zero_num q E). discriminate.
  - destruct (round64_shape q N) as [[_ ->]|[_ (r & -> & _)]]; discriminate.
Qed.

(** A number that rounding gives is below [2 ^ 1024] in magnitude, and is
    an integer of less than 54 bits times a power of two from
    [2 ^ -1074] on. *)
Lemma round64_decomp (q r : Q) : round64 q = Fin r ->
  (Qabs r < pow2 1024)%Q /\
  exists M P, (r == inject_Z M * pow2 P)%Q /\ Z.abs M < 2 ^ 53 /\ -1074 <= P.
Proof.
  intros H. destruct (Z.eq_dec (Qnum q) 0) as [E|N].
  - rewrite (round64_zero_num q E) in H. injection H as <-. split.
    + apply pow2_pos.
    + exists 0, 0. split; [reflexivity|]. split; [reflexivity|lia].
  - destruct (round64_shape q N) as [[_ H']|[F (r' & H' & Er)]]; rewrite H' in H;
      [discriminate|]. injection H as <-.
    pose proof (mag_nonneg q N) as H0.
    assert (Hn : 0 < Z.abs (Qnum q)) by lia.
    assert (Hd : 0 < Z.pos (Qden q)) by lia.
    destruct (mantissa_bounds _ _ Hn Hd) as [[Hm0 Hm53] _].
    assert (Hs : Z.sgn (Qnum q) = 1 \/ Z.sgn (Qnum q) = -1) by lia.
    split.
    + rewrite Er. destruct Hs as [-> | ->].
      * change (inject_Z 1) with 1%Q. rewrite Qmult_1_l. rewrite Qabs_pos; assumption.
      * change (inject_Z (-1)) with (-1)%Q.
        assert (E : (-1 * mag q == - mag q)%Q) by ring. rewrite E, Qabs_opp.
        rewrite Qabs_pos; assumption.
    + unfold mag, magnitude in Er.
      set (m := mantissa (Z.abs (Qnum q)) (Z.pos (Qden q))) in *.
      set (p := quantum (Z.abs (Qnum q)) (Z.pos (Qden q))) in *.
      assert (Hp : -1074 <= p) by (unfold p, quantum; lia).
      destruct (Z.eq_dec m (2 ^ 53)) as [E53|N53].
      * exists (Z.sgn (Qnum q) * 2 ^ 52), (p + 1). split; [|split; [|lia]].
        -- rewrite Er, E53, pow2_S, inject_Z_mult.
           change (inject_Z (2 ^ 53)) with (2 * inject_Z (2 ^ 52))%Q. ring.
        -- destruct Hs as [-> | ->]; reflexivity.
      * exists (Z.sgn (Qnum q) * m), p. split; [|split; [|exact Hp]].
        -- rewrite Er, inject_Z_mult. ring.
        -- destruct Hs as [-> | ->]; lia.
Qed.


Lemma round64_comp (q q' : Q) : (q == q')%Q -> same (round64 q) (round64 q').
Proof.
  intros E.
  assert (L1 : (q <= q')%Q) by (rewrite E; apply Qle_refl).
  assert (L2 : (q' <= q)%Q) by (rewrite E; apply Qle_refl).
  pose proof (round64_mono _ _ L1) as H1. pose proof (round64_mono _ _ L2) as H2.
  destruct (round64 q) as [| [|] |r], (round64 q') as [| [|] |r']; simpl in *;
    try discriminate; auto.
  apply DblFacts.Qleb_le in H1, H2. lra.
Qed.

(** Twice a binary64 number is not rounded, unless to an infinity. *)
Lemma round64_double (q r : Q) : round64 q = Fin r -> (r == q)%Q ->
  (round64 (2 * q) = Inf (Qnum (2 * q) <? 0) /\ (pow2 1024 <= Qabs (2 * q))%Q) \/
  (exists r2, round64 (2 * q) = Fin r2 /\ (r2 == 2 * q)%Q).
Proof.
  intros H E. destruct (round64_decomp q r H) as (_ & M & P & EM & HM & HP).
  destruct (round64_exact_or_inf (2 * q) M (P + 1)) as [(_ & O & HI)|[_ HF]];
    [rewrite <- E, EM, pow2_S; ring|exact HM|lia|left; auto|right; exact HF].
Qed.


(** The mean of two binary64 numbers, [(a + b) / 2] as the code computes
    it, lies between them unless the sum overflows. *)
Lemma midpoint_between (qa qb qs : Q) :
  binary64 (Fin qa) -> binary64 (Fin qb) -> (qa <= qb)%Q ->
  add64 (Fin qa) (Fin qb) = Fin qs ->
  exists m, div64 (Fin qs) (of_Z 2) = Fin m /\ (qa <= m <= qb)%Q.
Proof.
  intros (ra & Ha & Ea) (rb & Hb & Eb) Hab Hs.
  unfold add64, rounded in Hs. cbn [add] in Hs.
  destruct (round64_decomp _ _ Hs) as [Hfin _].
  assert (Habs : (- pow2 1024 < qs < pow2 1024)%Q).
  { apply Qabs_Qlt_condition. exact Hfin. }
  assert (L1 : (2 * qa <= qs)%Q).
  { assert (Hm : leb (round64 (2 * qa)) (round64 (qa + qb)) = true)
      by (apply round64_mono; lra).
    rewrite Hs in Hm.
    destruct (round64_double qa ra Ha Ea) as [[HI O]|(r2 & HF & E2)].
    - rewrite HI in Hm. destruct (Qnum (2 * qa) <? 0) eqn:Es; [|discriminate].
      apply Z.ltb_lt in Es.
      assert (Hneg : (2 * qa < 0)%Q) by (apply (num_sign (2 * qa)); exact Es).
      rewrite Qabs_neg in O by lra. lra.
    - rewrite HF in Hm. simpl in Hm. apply DblFacts.Qleb_le in Hm. lra. }
  assert (L2 : (qs <= 2 * qb)%Q).
  { assert (Hm : leb (round64 (qa + qb)) (round64 (2 * qb)) = true)
      by (apply round64_mono; lra).
    rewrite Hs in Hm.
    destruct (round64_double qb rb Hb Eb) as [[HI O]|(r2 & HF & E2)].
    - rewrite HI in Hm. destruct (Qnum (2 * qb) <? 0) eqn:Es; [discriminate|].
      apply Z.ltb_ge in Es.
      assert (Hpos : (0 <= 2 * qb)%Q).
      { destruct (Z.eq_dec (Qnum (2 * qb)) 0) as [E0|N0].
        - apply (num_sign (2 * qb)) in E0. lra.
        - apply Qlt_le_weak. apply (num_sign (2 * qb)). lia. }
      rewrite Qabs_pos in O by exact Hpos. lra.
    - rewrite HF in Hm. simpl in Hm. apply DblFacts.Qleb_le in Hm. lra. }
  unfold div64, rounded, of_Z. cbn [div].
  change (Qeqb (inject_Z 2) 0) with false. cbv iota.
  assert (M1 : leb (Fin qa) (round64 (qs / inject_Z 2)) = true).
  { apply (leb_fin_l ra); [exact Ea|]. rewrite <- Ha. apply round64_mono.
    apply Qle_shift_div_l; [reflexivity|]. change (inject_Z 2) with 2%Q. lra. }
  assert (M2 : leb (round64 (qs / inject_Z 2)) (Fin qb) = true).
  { apply (leb_fin_r rb); [exact Eb|]. rewrite <- Hb. apply round64_mono.
    apply Qle_shift_div_r; [reflexivity|]. change (inject_Z 2) with 2%Q. lra. }
  destruct (round64 (qs / inject_Z 2)) as [| [|] |m]; simpl in M1, M2; try discriminate.
  exists m. split; [reflexivity|]. apply DblFacts.Qleb_le in M1, M2. auto.
Qed.

End RoundFacts.

(* ===================================================================== *)
(** * The disk cache record length *)
(* ===================================================================== *)

Module DiskCacheFacts.
Import Dbl DiskCache.

(** A value in the range of [int] is not changed by the wrap-around. *)
Lemma wrap_small (z : Z) : - 2 ^ 31 <= z < 2 ^ 31 -> wrap z = z.
Proof.
  intros Hz. unfold wrap. rewrite Z.mod_small by lia. lia.
Qed.

Lemma shiftl_1_small (b : Z) : 0 <= b < 2 ^ 30 -> wrap (Z.shiftl b 1) = b * 2.
Proof.
  intros Hb. rewrite Z.shiftl_mul_pow2 by lia. change (2 ^ 1) with 2.
  apply wrap_small. lia.
Qed.

Lemma nextPowerOf2_loop_fuel a max fuel b :
  0 < b <= max -> max < 2 ^ 30 -> max < 2 ^ Z.of_nat fuel * b ->
  nextPowerOf2_loop fuel a b max <> None.
Proof.
  revert b. induction fuel as [|fuel IH]; intros b Hb Hint Hmax.
  - simpl in Hmax. lia.
  - cbn [nextPowerOf2_loop]. destruct (b <? a); [|discriminate].
    rewrite shiftl_1_small by lia.
    destruct (b * 2 >? max) eqn:E; [discriminate|].
    apply IH; [lia|exact Hint|].
    rewrite Nat2Z.inj_succ, Z.pow_succ_r in Hmax by lia. lia.
Qed.

(** The loop ends when [min] is positive and [min] and [max] are below
    2^30, so that no doubling leaves the range of [int]. *)
Lemma nextPowerOf2_total a min max :
  0 < min < 2 ^ 30 -> max < 2 ^ 30 -> exists r, nextPowerOf2 a min max = Some r.
Proof.
  intros Hmin Hmax. unfold nextPowerOf2.
  destruct (nextPowerOf2_loop 33 a min max) as [r|] eqn:E; [eauto|].
  exfalso. destruct (Z_le_gt_dec min max) as [Hle|Hgt].
  - revert E. apply nextPowerOf2_loop_fuel; [lia|exact Hmax|].
    change (2 ^ Z.of_nat 33) with 8589934592.
    change (2 ^ 30) with 1073741824 in Hmax. lia.
  - cbn [nextPowerOf2_loop] in E. destruct (min <? a); [|discriminate].
    rewrite shiftl_1_small in E by lia.
    destruct (min * 2 >? max) eqn:E'; [discriminate|]. lia.
Qed.

(** Once [b] is 0 below a positive [a], the loop never returns: whatever
    the fuel, it runs out. *)
Lemma nextPowerOf2_loop_zero a max :
  0 < a -> 0 <= max -> forall fuel, nextPowerOf2_loop fuel a 0 max = None.
Proof.
  intros Ha Hmax. induction fuel as [|fuel IH]; cbn [nextPowerOf2_loop].
  - destruct (0 <? a) eqn:E; [reflexivity|apply Z.ltb_ge in E; lia].
  - destruct (0 <? a) eqn:E; [|apply Z.ltb_ge in E; lia].
    change (wrap (Z.shiftl 0 1)) with 0.
    destruct (0 >? max) eqn:E'; [lia|exact IH].
Qed.

(** With [min] at 2^30 the first doubling leaves the range of [int], the
    second one gives 0, and the loop goes on for ever. *)
Example nextPowerOf2_never_returns :
  forall fuel, nextPowerOf2_loop fuel (2 ^ 30 + 1) (2 ^ 30) 5 = None.
Proof.
  intros [|[|fuel]]; try reflexivity.
  cbn [nextPowerOf2_loop].
  change (2 ^ 30 <? 2 ^ 30 + 1) with true. cbv iota.
  change (wrap (Z.shiftl (2 ^ 30) 1)) with (- 2 ^ 31).
  change (- 2 ^ 31 >? 5) with false. cbv iota.
  change (- 2 ^ 31 <? 2 ^ 30 + 1) with true. cbv iota.
  change (wrap (Z.shiftl (- 2 ^ 31) 1)) with 0.
  change (0 >? 5) with false. cbv iota.
  apply nextPowerOf2_loop_zero; lia.
Qed.

Lemma pow2_log2_up_between a k :
  0 <= k -> 2 ^ k < a <= 2 ^ (k + 1) -> 2 ^ Z.log2_up a = 2 ^ (k + 1).
Proof.
  intros Hk Ha. f_equal. apply Z.log2_up_unique; [lia|].
  replace (Z.pred (k + 1)) with k by lia. exact Ha.
Qed.

Lemma pow2_log2_up_small a : a <= 128 -> 2 ^ Z.log2_up a <= 128.
Proof.
  intros Ha. destruct (Z_le_gt_dec a 1) as [H1|H1].
  - rewrite Z.log2_up_eqn0 by lia. simpl. lia.
  - change 128 with (2 ^ 7). apply Z.pow_le_mono_r; [lia|].
    apply Z.log2_up_le_pow2; [lia|]. simpl. lia.
Qed.

Lemma shiftl_pow2 (k : Z) : 7 <= k <= 20 -> wrap (Z.shiftl (2 ^ k) 1) = 2 ^ (k + 1).
Proof.
  intros Hk.
  assert (H1 : 2 ^ k <= 2 ^ 20) by (apply Z.pow_le_mono_r; lia).
  assert (H0 : 0 < 2 ^ k) by (apply Z.pow_pos_nonneg; lia).
  change (2 ^ 20) with 1048576 in H1.
  rewrite shiftl_1_small by lia.
  rewrite Z.pow_add_r by lia. reflexivity.
Qed.

(** From [b = 2 ^ k], reached with every smaller candidate below [a], the
    loop returns the least power of two that is at least [a]. *)
Lemma nextPowerOf2_loop_fits a n : forall fuel k,
  7 <= k -> k + Z.of_nat n = 20 -> (n < fuel)%nat ->
  (k = 7 \/ 2 ^ (k - 1) < a) -> a <= MAXRECLEN ->
  nextPowerOf2_loop fuel a (2 ^ k) MAXRECLEN =
    Some (Z.max MINRECLEN (2 ^ Z.log2_up a)).
Proof.
  unfold MAXRECLEN, MINRECLEN.
  induction n as [|n IH]; intros fuel k Hk Hn Hfuel Hprev Ha.
  - assert (k = 20) by lia. subst k.
    destruct fuel as [|fuel]; [lia|]. cbn [nextPowerOf2_loop].
    change (2 ^ 20) with 1048576 in *.
    destruct (1048576 <? a) eqn:E; [apply Z.ltb_lt in E; lia|].
    destruct Hprev as [?|Hprev]; [lia|]. change (2 ^ (20 - 1)) with 524288 in Hprev.
    rewrite (pow2_log2_up_between a 19) by (simpl; lia). reflexivity.
  - destruct fuel as [|fuel]; [lia|]. cbn [nextPowerOf2_loop].
    destruct (2 ^ k <? a) eqn:E.
    + apply Z.ltb_lt in E.
      rewrite shiftl_pow2 by lia.
      assert (2 ^ (k + 1) <= 2 ^ 20) by (apply Z.pow_le_mono_r; lia).
      change (2 ^ 20) with 1048576 in *.
      destruct (2 ^ (k + 1) >? 1048576) eqn:E'; [lia|].
      apply IH; try lia. right. replace (k + 1 - 1) with k by lia. exact E.
    + apply Z.ltb_ge in E. destruct Hprev as [->|Hprev].
      * change (2 ^ 7) with 128 in *.
        pose proof (pow2_log2_up_small a E). f_equal. lia.
      * rewrite (pow2_log2_up_between a (k - 1)) by (replace (k - 1 + 1) with k; lia).
        replace (k - 1 + 1) with k by lia.
        assert (2 ^ 7 <= 2 ^ k) by (apply Z.pow_le_mono_r; lia).
        change (2 ^ 7) with 128 in *. f_equal. lia.
Qed.

(** When [a] is beyond [MAXRECLEN] the loop gives up with [-1]. *)
Lemma nextPowerOf2_loop_gives_up a n : forall fuel k,
  7 <= k -> k + Z.of_nat n = 20 -> (n < fuel)%nat -> MAXRECLEN < a ->
  nextPowerOf2_loop fuel a (2 ^ k) MAXRECLEN = Some (-1).
Proof.
  unfold MAXRECLEN.
  induction n as [|n IH]; intros fuel k Hk Hn Hfuel Ha;
    (destruct fuel as [|fuel]; [lia|]); cbn [nextPowerOf2_loop];
    assert (2 ^ k <= 2 ^ 20) by (apply Z.pow_le_mono_r; lia);
    change (2 ^ 20) with 1048576 in *;
    (destruct (2 ^ k <? a) eqn:E; [|apply Z.ltb_ge in E; lia]);
    rewrite shiftl_pow2 by lia.
  - assert (k = 20) by lia. subst k. reflexivity.
  - assert (2 ^ (k + 1) <= 2 ^ 20) by (apply Z.pow_le_mono_r; lia).
    change (2 ^ 20) with 1048576 in *.
    destruct (2 ^ (k + 1) >? 1048576) eqn:E'; [lia|].
    apply IH; lia.
Qed.

(** C8, as the specification states it, fails: a trace of 131072 samples of
    8 bytes has payload + 64 = 1048640 > 1048576; the claim has it written
    with record length 1048576, [writeTrace] writes nothing. *)
Lemma writeTrace_oversized_not_clamped :
  spec_record_length (131072 * 8) = 1048576 /\
  writeTrace 131072 8 <> Some (Record_written (spec_record_length (131072 * 8))) /\
  writeTrace 131072 8 = Some Nothing_written.
Proof. vm_compute. repeat split; discriminate. Qed.

(** Beyond the range of [int] the payload wraps around: 2^28 samples of 8
    bytes make a payload of 2^31 bytes, which an [int] holds as -2^31, and
    the trace is written with the record length 128. *)
Example writeTrace_payload_wraps :
  writeTrace 268435456 8 = Some (Record_written 128).
Proof. vm_compute. reflexivity. Qed.

(** C8 (amended). With payload + 64 in the range of [int], in which
    [writeTrace] computes it: a trace whose payload + 64 is at most 1048576
    is written with record length the next power of two greater than or
    equal to payload + 64, and at least 128; a trace whose payload + 64
    exceeds 1048576 is not written at all. *)
Theorem writeTrace_record_length (size bytes : Z) :
  0 <= size * bytes -> size * bytes + 64 <= INT_MAX ->
  (size * bytes + 64 <= MAXRECLEN ->
     writeTrace size bytes =
       Some (Record_written (Z.max MINRECLEN (2 ^ Z.log2_up (size * bytes + 64))))) /\
  (MAXRECLEN < size * bytes + 64 ->
     writeTrace size bytes = Some Nothing_written).
Proof.
  intros Hpayload Hint. unfold INT_MAX in Hint.
  unfold writeTrace, nextPowerOf2.
  rewrite (wrap_small (size * bytes)) by lia.
  rewrite (wrap_small (size * bytes + 64)) by lia.
  split; intros Ha.
  - change MINRECLEN with (2 ^ 7) at 1.
    rewrite (nextPowerOf2_loop_fits _ 13) by (auto; lia).
    unfold MINRECLEN.
    destruct (Z.max 128 (2 ^ Z.log2_up (size * bytes + 64)) >? 0) eqn:E;
      [reflexivity|lia].
  - change MINRECLEN with (2 ^ 7).
    rewrite (nextPowerOf2_loop_gives_up _ 13) by lia. reflexivity.
Qed.

Lemma writeTrace_record_length_witness :
  writeTrace 100 8 = Some (Record_written 1024) /\
  writeTrace 131072 8 = Some Nothing_written.
Proof.
  destruct (writeTrace_record_length 100 8 ltac:(lia) ltac:(unfold INT_MAX; lia))
    as [H1 _].
  destruct (writeTrace_record_length 131072 8 ltac:(lia) ltac:(unfold INT_MAX; lia))
    as [_ H2].
  split; [apply H1 | apply H2]; unfold MAXRECLEN; lia.
Defined.

End DiskCacheFacts.

(* ===================================================================== *)
(** * Octant membership *)
(* ===================================================================== *)

Module HddEllipsoidFacts.
Import Dbl DblFacts HddEllipsoid.

(** C9, as the specification states it, fails. The point at latitude 45,
    longitude 8, depth 4 km lies south-east of the origin and above it; a
    clockwise numbering from NE makes it a point of octant 2, among the
    octants 1-4 of the points above the origin. It is in neither octant 2
    nor octant 6, and in none of the octants 1-4: the only octant that
    holds it is 8. *)
Lemma isInQuadrant_not_clockwise :
  spec_octant_clockwise false true true = 2 /\
  isInQuadrant origin_46_7_5 (of_Z 45) (of_Z 8) (of_Z 4)
    (spec_octant_clockwise false true true) = Some false /\
  map (isInQuadrant origin_46_7_5 (of_Z 45) (of_Z 8) (of_Z 4)) [1;2;3;4;5;6;7;8]
    = [Some false; Some false; Some false; Some false;
       Some false; Some false; Some false; Some true].
Proof. vm_compute. repeat split. Qed.

(** The octants of 1 to 8 that pass the three tests of [isInQuadrant] on
    the signs of the coordinate differences. *)
Lemma isInQuadrant_true (e : Ellipsoid.t) (lat lon depth : double) (q : Z) :
  isInQuadrant e lat lon depth q = Some true <->
  1 <= q <= 8 /\
  (ltb depth (Ellipsoid.depth e) = true -> 5 <= q) /\
  (ltb (Ellipsoid.depth e) depth = true -> q <= 4) /\
  (ltb lon (Ellipsoid.lon e) = true -> q = 2 \/ q = 3 \/ q = 6 \/ q = 7) /\
  (ltb (Ellipsoid.lon e) lon = true -> q = 1 \/ q = 4 \/ q = 5 \/ q = 8) /\
  (ltb lat (Ellipsoid.lat e) = true -> q = 3 \/ q = 4 \/ q = 7 \/ q = 8) /\
  (ltb (Ellipsoid.lat e) lat = true -> q = 1 \/ q = 2 \/ q = 5 \/ q = 6).
Proof.
  unfold isInQuadrant, gtb.
  destruct ((q <? 1) || (q >? 8)) eqn:Hrange.
  - split; [discriminate|]. intros [Hq _]. exfalso.
    apply orb_prop in Hrange. destruct Hrange as [H|H];
      [apply Z.ltb_lt in H|apply Z.gtb_lt in H]; lia.
  - apply orb_false_elim in Hrange. destruct Hrange as [H1 H8].
    apply Z.ltb_ge in H1. rewrite Z.gtb_ltb in H8. apply Z.ltb_ge in H8.
    assert (Hq : q = 1 \/ q = 2 \/ q = 3 \/ q = 4 \/
                 q = 5 \/ q = 6 \/ q = 7 \/ q = 8) by lia.
    destruct (ltb depth (Ellipsoid.depth e)), (ltb (Ellipsoid.depth e) depth),
             (ltb lon (Ellipsoid.lon e)), (ltb (Ellipsoid.lon e) lon),
             (ltb lat (Ellipsoid.lat e)), (ltb (Ellipsoid.lat e) lat);
      destruct Hq as [->|[->|[->|[->|[->|[->|[->| ->]]]]]]]; simpl;
      (split; [try discriminate; intros _; repeat split; intros; lia
              |intros (_ & A & B & C & D & E & F);
               try reflexivity; exfalso;
               try (specialize (A eq_refl); lia);
               try (specialize (B eq_refl); lia);
               try (specialize (C eq_refl); lia);
               try (specialize (D eq_refl); lia);
               try (specialize (E eq_refl); lia);
               try (specialize (F eq_refl); lia)]).
Qed.

(** C9 (amended). Octant membership is a test on the signs of the three
    coordinate differences. Every point strictly shallower than the
    origin, that is with a depth below the origin depth, belongs only to
    octants 5-8, and every point strictly deeper belongs only to octants
    1-4, whatever its latitude and longitude. Within each stratum the
    octants are labelled counter-clockwise from the NE corner: 1 and 5
    are NE (latitude and longitude not below those of the origin), 2 and
    6 are NW, 3 and 7 are SW, 4 and 8 are SE. A point with three strict
    coordinate differences belongs to exactly one octant: the one with its
    compass label in the stratum of its depth. *)
Theorem isInQuadrant_sign_test (e : Ellipsoid.t) (lat lon depth : double) :
  (ltb depth (Ellipsoid.depth e) = true ->
   forall q, isInQuadrant e lat lon depth q = Some true -> 5 <= q <= 8) /\
  (ltb (Ellipsoid.depth e) depth = true ->
   forall q, isInQuadrant e lat lon depth q = Some true -> 1 <= q <= 4) /\
  (forall north east : bool,
     (if north then ltb (Ellipsoid.lat e) lat else ltb lat (Ellipsoid.lat e)) = true ->
     (if east then ltb (Ellipsoid.lon e) lon else ltb lon (Ellipsoid.lon e)) = true ->
     let h := compass_octant north east in
     (forall q, isInQuadrant e lat lon depth q = Some true -> q = h \/ q = h + 4) /\
     (ltb depth (Ellipsoid.depth e) = true ->
      forall q, isInQuadrant e lat lon depth q = Some true <-> q = h + 4) /\
     (ltb (Ellipsoid.depth e) depth = true ->
      forall q, isInQuadrant e lat lon depth q = Some true <-> q = h)).
Proof.
  split; [|split].
  - intros Hd q Hq. apply isInQuadrant_true in Hq.
    destruct Hq as (Hr & A & _). specialize (A Hd). lia.
  - intros Hd q Hq. apply isInQuadrant_true in Hq.
    destruct Hq as (Hr & _ & B & _). specialize (B Hd). lia.
  - intros north east Hlat Hlon h.
    assert (Hlat' : (if north then ltb lat (Ellipsoid.lat e)
                     else ltb (Ellipsoid.lat e) lat) = false)
      by (destruct north; apply ltb_asym; exact Hlat).
    assert (Hlon' : (if east then ltb lon (Ellipsoid.lon e)
                     else ltb (Ellipsoid.lon e) lon) = false)
      by (destruct east; apply ltb_asym; exact Hlon).
    assert (Hcompass : forall q, isInQuadrant e lat lon depth q = Some true ->
                                 q = h \/ q = h + 4).
    { intros q Hq. apply isInQuadrant_true in Hq.
      destruct Hq as (Hr & _ & _ & C & D & E & F). subst h.
      destruct north, east; simpl;
        first [specialize (F Hlat)|specialize (E Hlat)];
        first [specialize (D Hlon)|specialize (C Hlon)]; lia. }
    split; [exact Hcompass|]. split.
    + intros Hd q. split.
      * intros Hq. destruct (Hcompass q Hq) as [->| ->]; [|reflexivity].
        apply isInQuadrant_true in Hq. destruct Hq as (_ & A & _).
        specialize (A Hd). subst h. destruct north, east; simpl in A; lia.
      * intros ->. apply isInQuadrant_true.
        pose proof (ltb_asym _ _ Hd) as Hd'. rewrite Hd'. subst h.
        destruct north, east; simpl; rewrite ?Hlat, ?Hlon, ?Hlat', ?Hlon';
          repeat split; intros; try discriminate; lia.
    + intros Hd q. split.
      * intros Hq. destruct (Hcompass q Hq) as [->| ->]; [reflexivity|].
        apply isInQuadrant_true in Hq. destruct Hq as (_ & _ & B & _).
        specialize (B Hd). subst h. destruct north, east; simpl in B; lia.
      * intros ->. apply isInQuadrant_true.
        pose proof (ltb_asym _ _ Hd) as Hd'. rewrite Hd'. subst h.
        destruct north, east; simpl; rewrite ?Hlat, ?Hlon, ?Hlat', ?Hlon';
          repeat split; intros; try discriminate; lia.
Qed.

(** The point of the counterexample, south-east of the origin and above
    it: octant 8 and no other, and the point below it with the same
    latitude and longitude: octant 4 and no other. A point straight above
    the origin is in the four octants 5-8. *)
Example isInQuadrant_sign_test_witness :
  (forall q, isInQuadrant origin_46_7_5 (of_Z 45) (of_Z 8) (of_Z 4) q = Some true
             <-> q = 4 + 4) /\
  (forall q, isInQuadrant origin_46_7_5 (of_Z 45) (of_Z 8) (of_Z 6) q = Some true
             <-> q = 4) /\
  (forall q, isInQuadrant origin_46_7_5 (of_Z 46) (of_Z 7) (of_Z 4) q = Some true
             -> 5 <= q <= 8).
Proof.
  split; [|split].
  - destruct (isInQuadrant_sign_test origin_46_7_5 (of_Z 45) (of_Z 8) (of_Z 4))
      as (_ & _ & H).
    destruct (H false true eq_refl eq_refl) as (_ & H5 & _). exact (H5 eq_refl).
  - destruct (isInQuadrant_sign_test origin_46_7_5 (of_Z 45) (of_Z 8) (of_Z 6))
      as (_ & _ & H).
    destruct (H false true eq_refl eq_refl) as (_ & _ & H1). exact (H1 eq_refl).
  - destruct (isInQuadrant_sign_test origin_46_7_5 (of_Z 46) (of_Z 7) (of_Z 4))
      as (H & _). exact (H eq_refl).
Defined.

End HddEllipsoidFacts.

(* ===================================================================== *)
(** * The signal-to-noise windows *)
(* ===================================================================== *)

Module SNRFacts.
Import Dbl DblFacts SNR.

Lemma Qtrunc_bounds q n : (0 <= q)%Q -> (q <= inject_Z n)%Q -> 0 <= Qtrunc q <= n.
Proof.
  intros H0 Hn. unfold Qtrunc. destruct q as [a d]. unfold Qle in *. simpl in *.
  assert (0 <= a) by lia.
  rewrite Z.quot_div_nonneg by lia. split.
  - apply Z.div_pos; lia.
  - apply Z.div_le_upper_bound; lia.
Qed.

(** The clamp of [secToSample]: whatever is not NaN lands in
    [[0, size - 1]]. *)
Lemma clamp_range (r : double) (size : Z) :
  1 <= size ->
  match min (max r (of_Z 0)) (sub (of_Z size) (of_Z 1)) with
  | NaN => r = NaN
  | Inf _ => False
  | Fin q => r <> NaN /\ (0 <= q)%Q /\ (q <= inject_Z (size - 1))%Q
  end.
Proof.
  intros Hsize.
  unfold min, max, sub, of_Z, opp, add.
  destruct r as [|[|]|q]; simpl.
  - reflexivity.
  - destruct (Qltb _ _) eqn:E.
    + apply Qltb_lt in E. unfold Qlt in E. simpl in E. exfalso. lia.
    + repeat split; [discriminate|unfold Qle; simpl; lia..].
  - repeat split; [discriminate|unfold Qle; simpl; lia..].
  - destruct (Qltb q _) eqn:E0; simpl.
    + destruct (Qltb (_ + _) _) eqn:E.
      * apply Qltb_lt in E. unfold Qlt in E. simpl in E. exfalso. lia.
      * repeat split; [discriminate|unfold Qle; simpl; lia..].
    + apply Qltb_nlt in E0. unfold Qle in E0. simpl in E0.
      destruct (Qltb (_ + _) q) eqn:E.
      * repeat split; [discriminate|unfold Qle; simpl; lia..].
      * apply Qltb_nlt in E. unfold Qle in *. simpl in *.
        repeat split; [discriminate|lia..].
Qed.

Lemma round_nan r : round r = NaN <-> r = NaN.
Proof.
  destruct r as [|s|q]; simpl; split; try congruence.
  destruct (Qltb q 0); discriminate.
Qed.

(** Every position that is a number is converted to an index of
    [[0, size - 1]]. *)
Lemma secToSample_index freq size sec :
  1 <= size <= INT_MAX -> mul64 sec freq <> NaN ->
  0 <= cvttsd2si (secToSample freq size sec) <= size - 1.
Proof.
  intros Hsize Hnan. unfold secToSample, cvttsd2si.
  pose proof (clamp_range (round (mul64 sec freq)) size (proj1 Hsize)) as Hc.
  destruct (min _ _) as [|s|q]; simpl.
  - apply (proj1 (round_nan _)) in Hc. contradiction.
  - contradiction.
  - destruct Hc as (_ & H0 & H1).
    pose proof (Qtrunc_bounds q (size - 1) H0 H1) as Hb.
    unfold INT_MIN, INT_MAX in *.
    destruct (- 2 ^ 31 <=? Qtrunc q) eqn:E1; [|apply Z.leb_gt in E1; lia].
    destruct (Qtrunc q <=? 2 ^ 31 - 1) eqn:E2; [|apply Z.leb_gt in E2; lia].
    simpl. exact Hb.
Qed.

(** A position that is NaN goes through the clamp as NaN, and its
    conversion is [INT_MIN]. *)
Lemma secToSample_nan freq size sec :
  mul64 sec freq = NaN -> cvttsd2si (secToSample freq size sec) = INT_MIN.
Proof.
  intros Hnan. unfold secToSample. rewrite Hnan. reflexivity.
Qed.

Lemma at_defined data i :
  0 <= i < Z.of_nat (List.length data) -> exists x, at_ data i = Some x.
Proof.
  intros Hi. unfold at_. destruct (i <? 0) eqn:E; [apply Z.ltb_lt in E; lia|].
  destruct (data !! Z.to_nat i) as [x|] eqn:El; [eauto|].
  apply lookup_ge_None in El. lia.
Qed.

Lemma maxAbs_defined data n : forall i m,
  0 <= i -> i + Z.of_nat n <= Z.of_nat (List.length data) ->
  exists r, maxAbs data i n m = Some r.
Proof.
  induction n as [|n IH]; intros i m Hi Hn; simpl; [eauto|].
  destruct (at_defined data i) as [x ->]; [lia|].
  apply IH; lia.
Qed.

Lemma nan_dec (x : double) : {x = NaN} + {x <> NaN}.
Proof. destruct x; [left; reflexivity|right; discriminate..]. Qed.

(** C10, as the specification states it, fails for a trace with samples:
    with a noise offset that is NaN the position is NaN, the clamp lets it
    through, the compiled conversion makes it [INT_MIN], and [S2Nratio]
    leaves through the branch that reports windows beyond the waveform. *)
Lemma S2Nratio_error_reached :
  1 <= GenericRecord.size four_samples /\
  S2Nratio four_samples 1%Q NaN (of_Z 1) (of_Z 1) (of_Z 100)
  = Some Windows_exceed_boundaries.
Proof. split; [unfold GenericRecord.size; simpl; lia|vm_compute; reflexivity]. Qed.

(** C10 (amended). For a trace with at least one sample, [S2Nratio] takes
    the branch that logs that the windows exceed the waveform boundaries
    and returns -1 exactly when one of the four sample positions, the
    product of an offset from the start of the trace with the sampling
    frequency, is NaN. Whenever the four positions are numbers, each index
    is clamped into [[0, size - 1]] first, how far the offsets may lie
    outside the trace, and a ratio is returned. *)
Theorem S2Nratio_error_unreachable (tr : GenericRecord.t) (pickTime : Q)
    (noiseOffsetStart noiseOffsetEnd signalOffsetStart signalOffsetEnd : double) :
  1 <= GenericRecord.size tr <= INT_MAX ->
  let position ofs :=
    mul64 (add64 ofs (round64 (pickTime - GenericRecord.startTime tr)))
          (GenericRecord.samplingFrequency tr) in
  let offsets := [noiseOffsetStart; noiseOffsetEnd;
                  signalOffsetStart; signalOffsetEnd] in
  (S2Nratio tr pickTime noiseOffsetStart noiseOffsetEnd
            signalOffsetStart signalOffsetEnd = Some Windows_exceed_boundaries
   <-> exists ofs, In ofs offsets /\ position ofs = NaN) /\
  ((forall ofs, In ofs offsets -> position ofs <> NaN) ->
   (forall ofs, In ofs offsets ->
      0 <= cvttsd2si (secToSample (GenericRecord.samplingFrequency tr)
                        (GenericRecord.size tr)
                        (add64 ofs (round64 (pickTime - GenericRecord.startTime tr))))
        <= GenericRecord.size tr - 1) /\
   exists snr, S2Nratio tr pickTime noiseOffsetStart noiseOffsetEnd
                 signalOffsetStart signalOffsetEnd = Some (Ratio snr)).
Proof.
  intros Hsize position offsets.
  set (size := GenericRecord.size tr) in *.
  set (freq := GenericRecord.samplingFrequency tr) in *.
  set (po := round64 (pickTime - GenericRecord.startTime tr)) in *.
  set (index ofs := cvttsd2si (secToSample freq size (add64 ofs po))).
  assert (Hin : forall ofs, position ofs <> NaN -> 0 <= index ofs <= size - 1).
  { intros ofs Hn. apply secToSample_index; assumption. }
  assert (Hout : forall ofs, position ofs = NaN -> index ofs = INT_MIN).
  { intros ofs Hn. apply secToSample_nan. exact Hn. }
  assert (Hnum : (forall ofs, In ofs offsets -> position ofs <> NaN) ->
                 exists snr, S2Nratio tr pickTime noiseOffsetStart noiseOffsetEnd
                   signalOffsetStart signalOffsetEnd = Some (Ratio snr)).
  { intros Hall. unfold S2Nratio. fold size freq po.
    fold (index noiseOffsetStart) (index noiseOffsetEnd)
         (index signalOffsetStart) (index signalOffsetEnd).
    pose proof (Hin noiseOffsetStart (Hall noiseOffsetStart ltac:(simpl; auto))) as Ha.
    pose proof (Hin noiseOffsetEnd (Hall noiseOffsetEnd ltac:(simpl; auto))) as Hb.
    pose proof (Hin signalOffsetStart (Hall signalOffsetStart ltac:(simpl; auto))) as Hc.
    pose proof (Hin signalOffsetEnd (Hall signalOffsetEnd ltac:(simpl; auto))) as Hd.
    set (a := index noiseOffsetStart) in *. set (b := index noiseOffsetEnd) in *.
    set (c := index signalOffsetStart) in *. set (d := index signalOffsetEnd) in *.
    assert (Hb4 : (min4 a b c d <? 0) || (max4 a b c d >=? size) = false).
    { unfold min4, max4.
      apply orb_false_intro; [apply Z.ltb_ge|rewrite Z.geb_leb; apply Z.leb_gt]; lia. }
    rewrite Hb4.
    destruct (maxAbs_defined (GenericRecord.data tr) (Z.to_nat (b - a)) a (of_Z (-1)))
      as [nm ->]; [lia|fold (GenericRecord.size tr); fold size; lia|].
    destruct (maxAbs_defined (GenericRecord.data tr) (Z.to_nat (d - c)) c (of_Z (-1)))
      as [sm ->]; [lia|fold (GenericRecord.size tr); fold size; lia|].
    simpl. eauto. }
  split; [split|].
  - intros Herr.
    destruct (nan_dec (position noiseOffsetStart)) as [E1|E1];
      [exists noiseOffsetStart; split; [simpl; tauto|assumption]|].
    destruct (nan_dec (position noiseOffsetEnd)) as [E2|E2];
      [exists noiseOffsetEnd; split; [simpl; tauto|assumption]|].
    destruct (nan_dec (position signalOffsetStart)) as [E3|E3];
      [exists signalOffsetStart; split; [simpl; tauto|assumption]|].
    destruct (nan_dec (position signalOffsetEnd)) as [E4|E4];
      [exists signalOffsetEnd; split; [simpl; tauto|assumption]|].
    exfalso.
    assert (Hall : forall ofs, In ofs offsets -> position ofs <> NaN)
      by (intros ofs [<-|[<-|[<-|[<-|[]]]]]; assumption).
    destruct (Hnum Hall) as [snr Hs]. rewrite Hs in Herr. discriminate.
  - intros (ofs & Hofs & Hn). unfold S2Nratio. fold size freq po.
    fold (index noiseOffsetStart) (index noiseOffsetEnd)
         (index signalOffsetStart) (index signalOffsetEnd).
    assert (Hmin : (min4 (index noiseOffsetStart) (index noiseOffsetEnd)
                         (index signalOffsetStart) (index signalOffsetEnd) <? 0) = true).
    { apply Z.ltb_lt. pose proof (Hout ofs Hn) as Hi. unfold INT_MIN in Hi.
      unfold min4. destruct Hofs as [<-|[<-|[<-|[<-|[]]]]]; lia. }
    rewrite Hmin. reflexivity.
  - intros Hall. split; [|exact (Hnum Hall)].
    intros ofs Hofs. apply Hin. apply Hall. exact Hofs.
Qed.

(** A noise window that lies entirely before the trace is clamped to the
    empty window at sample 0, and a signal window that runs past the end
    stops at the last sample; the ratio is 5 / -1. *)
Example S2Nratio_clamps_silently :
  S2Nratio four_samples 1%Q (of_Z (-100)) (of_Z (-50)) (of_Z 0) (of_Z 100)
  = Some (Ratio (Fin (-5))).
Proof. vm_compute. reflexivity. Qed.

(** Without a sample the clamp is to [[0, -1]] and the error branch is
    taken. *)
Example S2Nratio_empty_trace :
  S2Nratio (GenericRecord.mk 0%Q (of_Z 1) []) 1%Q
           (of_Z (-1)) (of_Z 1) (of_Z 1) (of_Z 100)
  = Some Windows_exceed_boundaries.
Proof. vm_compute. reflexivity. Qed.

(** The offsets -100, -50, 0 and 100 around the pick at 1 s on the four
    samples: the positions are numbers, the error branch is not taken,
    the four indices lie in the trace and a ratio is returned. *)
Lemma S2Nratio_error_unreachable_witness :
  S2Nratio four_samples 1%Q (of_Z (-100)) (of_Z (-50)) (of_Z 0) (of_Z 100)
    <> Some Windows_exceed_boundaries /\
  (forall ofs, In ofs [of_Z (-100); of_Z (-50); of_Z 0; of_Z 100] ->
      0 <= cvttsd2si (secToSample (GenericRecord.samplingFrequency four_samples)
                        (GenericRecord.size four_samples)
                        (add64 ofs (round64 (1 - GenericRecord.startTime four_samples))))
        <= GenericRecord.size four_samples - 1) /\
  exists snr,
    S2Nratio four_samples 1%Q (of_Z (-100)) (of_Z (-50)) (of_Z 0) (of_Z 100)
    = Some (Ratio snr).
Proof.
  assert (Hsize : 1 <= GenericRecord.size four_samples <= INT_MAX)
    by (unfold GenericRecord.size, INT_MAX; simpl; lia).
  pose proof (S2Nratio_error_unreachable four_samples 1%Q
                (of_Z (-100)) (of_Z (-50)) (of_Z 0) (of_Z 100) Hsize) as H.
  cbv zeta in H. destruct H as [Hiff Hnum].
  assert (Hall : forall ofs, In ofs [of_Z (-100); of_Z (-50); of_Z 0; of_Z 100] ->
            mul64 (add64 ofs (round64 (1 - GenericRecord.startTime four_samples)))
                  (GenericRecord.samplingFrequency four_samples) <> NaN).
  { intros ofs [<-|[<-|[<-|[<-|[]]]]]; vm_compute; discriminate. }
  split.
  - intros Herr. apply Hiff in Herr. destruct Herr as (ofs & Hin & Hn).
    exact (Hall ofs Hin Hn).
  - exact (Hnum Hall).
Defined.

End SNRFacts.

(* ===================================================================== *)
(** * The lag loop and the quality check *)
(* ===================================================================== *)

Module XCorrFacts.
Import Dbl DblFacts XCorr.

Section Walk.

Variable freq : double.
Variable f : Z -> double.

Local Abbreviation run := (lagLoopFrom freq f).

Lemma run_localMaxs ds : forall st,
  localMaxs (run ds st) =
  localMaxs st ++ recorded (prevCoeff st) (notDecreasing st) (map f ds).
Proof.
  induction ds as [|d ds IH]; intros st; simpl.
  - now rewrite app_nil_r.
  - unfold lagLoopFrom in *. simpl. rewrite IH. simpl.
    destruct (ltb (f d) (prevCoeff st) && notDecreasing st); simpl.
    + now rewrite <- app_assoc.
    + reflexivity.
Qed.

(** [coeffOut] stays the greatest coefficient seen so far. *)
Lemma walk_greatest st d seen :
  not_infinite (f d) ->
  greatest (coeffOut st) seen ->
  greatest (coeffOut (walk freq st d (f d))) (seen ++ [f d]).
Proof.
  intros Hinf [Hub Hm]. unfold walk. cbn [coeffOut]. unfold gtb.
  destruct Hm as [[Hnan Hall]|[Hin Hfin]].
  - rewrite Hnan. simpl. rewrite ?orb_true_r. split.
    + intros c Hc Hc'. apply in_app_or in Hc. destruct Hc as [Hc|[<-|[]]].
      * rewrite (Hall c Hc) in Hc'. discriminate.
      * destruct (f d) as [| |q]; try discriminate; try contradiction.
        simpl. apply Qleb_le. apply Qle_refl.
    + destruct (f d) as [| |q] eqn:E; try contradiction.
      * left. split; [reflexivity|]. intros c Hc.
        apply in_app_or in Hc. destruct Hc as [Hc|[<-|[]]]; auto.
      * right. split; [apply in_or_app; right; simpl; auto|reflexivity].
  - destruct (coeffOut st) as [| |m] eqn:Em; try discriminate.
    simpl (negb _). rewrite ?orb_false_r.
    destruct (f d) as [| |q] eqn:E; try contradiction.
    + simpl. split.
      * intros c Hc Hc'. apply in_app_or in Hc. destruct Hc as [Hc|[<-|[]]];
          [auto|discriminate].
      * right. split; [apply in_or_app; auto|reflexivity].
    + simpl. destruct (Qltb m q) eqn:Elt.
      * apply Qltb_lt in Elt. split.
        -- intros c Hc Hc'. apply in_app_or in Hc. destruct Hc as [Hc|[<-|[]]].
           ++ specialize (Hub c Hc Hc'). destruct c as [|s|p]; try discriminate;
                [exact Hub|].
              simpl in *. apply Qleb_le in Hub. apply Qleb_le.
              apply Qle_trans with m; [exact Hub|apply Qlt_le_weak; exact Elt].
           ++ simpl. apply Qleb_le. apply Qle_refl.
        -- right. split; [apply in_or_app; right; simpl; auto|reflexivity].
      * apply Qltb_nlt in Elt. split.
        -- intros c Hc Hc'. apply in_app_or in Hc. destruct Hc as [Hc|[<-|[]]].
           ++ auto.
           ++ simpl. apply Qleb_le. exact Elt.
        -- right. split; [apply in_or_app; auto|reflexivity].
Qed.

Lemma run_greatest ds : forall st seen,
  Forall (fun d => not_infinite (f d)) ds ->
  greatest (coeffOut st) seen ->
  greatest (coeffOut (run ds st)) (seen ++ map f ds).
Proof.
  induction ds as [|d ds IH]; intros st seen Hinf Hg; simpl.
  - now rewrite app_nil_r.
  - inversion Hinf as [|? ? Hd Hds]; subst.
    unfold lagLoopFrom in *. simpl.
    replace (seen ++ f d :: map f ds) with ((seen ++ [f d]) ++ map f ds)
      by (rewrite <- app_assoc; reflexivity).
    apply IH; [exact Hds|]. apply walk_greatest; assumption.
Qed.

End Walk.

(** What the walk records is the list of the local maxima that are
    followed by a smaller coefficient, after the coefficient [prev] of
    before the walk when it is one of them. *)
Lemma recorded_peaks cs : forall prev nd,
  recorded prev nd cs =
  (match cs with
   | c :: _ => if ltb c prev && nd then [prev] else []
   | [] => []
   end) ++ peaks prev cs.
Proof.
  induction cs as [|c rest IH]; intros prev nd; [reflexivity|].
  cbn [recorded peaks]. f_equal. rewrite IH.
  destruct rest as [|c' rest']; [reflexivity|].
  rewrite andb_comm. reflexivity.
Qed.

(** The members of [peaks], by their place in the series. *)
Lemma peaks_In cs : forall prev m,
  In m (peaks prev cs) <->
  exists i c', cs !! i = Some m /\ cs !! S i = Some c' /\
    geb m (match i with O => prev | S j => nth j cs NaN end) = true /\
    ltb c' m = true.
Proof.
  induction cs as [|c rest IH]; intros prev m.
  - simpl. split; [intros []|]. intros (i & c' & H & _). discriminate H.
  - cbn [peaks]. rewrite in_app_iff, IH. split.
    + intros [H|(i & c' & Hi & Hi' & Hge & Hlt)].
      * destruct rest as [|c0 rest']; [destruct H|].
        destruct (geb c prev && ltb c0 c) eqn:E; [|destruct H].
        destruct H as [<-|[]]. apply andb_prop in E. destruct E as [E1 E2].
        exists 0%nat, c0. auto.
      * exists (S i), c'. split; [exact Hi|]. split; [exact Hi'|].
        split; [|exact Hlt]. destruct i as [|j]; exact Hge.
    + intros ([|i] & c' & Hi & Hi' & Hge & Hlt).
      * left. injection Hi as ->. destruct rest as [|c0 rest']; [discriminate|].
        injection Hi' as ->. rewrite Hge, Hlt. simpl. auto.
      * right. exists i, c'. split; [exact Hi|]. split; [exact Hi'|].
        split; [|exact Hlt]. destruct i as [|j]; exact Hge.
Qed.

Lemma cycleSkipping_count T ms : forall n, 0 <= n <= 1 ->
  cycleSkipping T ms n =
  (2 <=? n + Z.of_nat (List.length (List.filter (fun m => isfinite m && geb m T) ms))).
Proof.
  induction ms as [|m ms IH]; intros n Hn; simpl.
  - symmetry. apply Z.leb_gt. lia.
  - destruct (isfinite m && geb m T); simpl.
    + destruct (n + 1 >? 1) eqn:E.
      * symmetry. apply Z.leb_le. lia.
      * rewrite IH by lia. f_equal. lia.
    + destruct (n >? 1) eqn:E; [lia|]. apply IH. lia.
Qed.

Lemma leb_nat_Z (n : nat) : (2 <=? 0 + Z.of_nat n) = (2 <=? n)%nat.
Proof.
  destruct (2 <=? n)%nat eqn:E.
  - apply Nat.leb_le in E. apply Z.leb_le. lia.
  - apply Nat.leb_gt in E. apply Z.leb_gt. lia.
Qed.

Lemma square_sum_zero (a b : Q) : (0 <= a)%Q -> (a + b * b == 0)%Q -> (a == 0 /\ b == 0)%Q.
Proof.
  intros Ha H. assert (Hb : (0 <= b * b)%Q) by (unfold Qle, Qmult; simpl; nia).
  assert (Hbb : (b * b == 0)%Q) by lra. split; [lra|].
  destruct (Qmult_integral _ _ Hbb); assumption.
Qed.

Lemma sums_sound smpsL shift smpsS : forall idxS acc,
  Forall (fun x => isfinite x = true) smpsS ->
  Forall (fun x => isfinite x = true) smpsL ->
  sound_sums acc -> sound_sums (sums smpsS idxS smpsL shift acc).
Proof.
  induction smpsS as [|s rest IH]; intros idxS acc HS HL Hacc; simpl; [exact Hacc|].
  inversion HS as [|? ? Hs Hrest]; subst.
  destruct ((idxS + shift <? 0) || (idxS + shift >=? Z.of_nat (List.length smpsL))) eqn:E.
  - apply IH; assumption.
  - apply orb_false_elim in E. destruct E as [E1 E2].
    apply Z.ltb_ge in E1. rewrite Z.geb_leb in E2. apply Z.leb_gt in E2.
    destruct Hacc as (n & dl & ds & -> & Hdl & Hds & Hn1 & Hn2).
    assert (Hl : isfinite (nth (Z.to_nat (idxS + shift)) smpsL NaN) = true).
    { rewrite List.Forall_forall in HL. apply HL. apply nth_In. lia. }
    destruct (nth (Z.to_nat (idxS + shift)) smpsL NaN) as [| |l]; try discriminate.
    destruct s as [| |s]; try discriminate.
    apply IH; try assumption. simpl.
    exists (n + s * l)%Q, (dl + l * l)%Q, (ds + s * s)%Q.
    split; [reflexivity|].
    assert (Hll : (0 <= l * l)%Q) by (unfold Qle, Qmult; simpl; nia).
    assert (Hss : (0 <= s * s)%Q) by (unfold Qle, Qmult; simpl; nia).
    repeat split; try lra.
    + intros H0. destruct (square_sum_zero dl l Hdl H0) as [Hd Hz].
      rewrite (Hn1 Hd), Hz. ring.
    + intros H0. destruct (square_sum_zero ds s Hds H0) as [Hd Hz].
      rewrite (Hn2 Hd), Hz. ring.
Qed.

Section Sqrt.

Variable sqrt : double -> double.

(** A square root that gives zero for zero only. *)
Hypothesis sqrt_zero : forall q r,
  (0 <= q)%Q -> sqrt (Fin q) = Fin r -> (r == 0)%Q -> (q == 0)%Q.

(** Between traces of finite samples, no coefficient is infinite. *)
Lemma coeffAt_not_infinite smpsS smpsL delay :
  Forall (fun x => isfinite x = true) smpsS ->
  Forall (fun x => isfinite x = true) smpsL ->
  not_infinite (coeffAt sqrt smpsS smpsL delay).
Proof.
  intros HS HL. unfold coeffAt.
  destruct (sums_sound smpsL
              (Z.quot (Z.of_nat (List.length smpsL) - Z.of_nat (List.length smpsS)) 2 + delay)
              smpsS 0 (of_Z 0, of_Z 0, of_Z 0) HS HL)
    as (n & dl & ds & -> & Hdl & Hds & Hn1 & Hn2).
  { exists 0%Q, 0%Q, 0%Q. repeat split; try reflexivity; try lra. }
  simpl. destruct (sqrt (Fin (ds * dl))) as [| |r] eqn:Er; simpl; try exact I.
  destruct (Qeqb r 0) eqn:E0; [|exact I].
  apply Qeqb_eq in E0.
  assert (Hq : (ds * dl == 0)%Q).
  { apply (sqrt_zero _ r); [|exact Er|exact E0].
    unfold Qle, Qmult in *. simpl in *. nia. }
  destruct (Qmult_integral _ _ Hq) as [Hz|Hz].
  - specialize (Hn2 Hz). apply Qeqb_eq in Hn2. rewrite Hn2. exact I.
  - specialize (Hn1 Hz). apply Qeqb_eq in Hn1. rewrite Hn1. exact I.
Qed.

Lemma series_not_infinite smpsS smpsL maxDelaySmps :
  Forall (fun x => isfinite x = true) smpsS ->
  Forall (fun x => isfinite x = true) smpsL ->
  Forall not_infinite (series sqrt smpsS smpsL maxDelaySmps).
Proof.
  intros HS HL. unfold series. apply List.Forall_forall. intros c Hc.
  apply in_map_iff in Hc. destruct Hc as (d & <- & _).
  apply coeffAt_not_infinite; assumption.
Qed.
End Sqrt.




(** The coefficient that [xcorr] hands back is the one that the quality
    check leaves. *)
Lemma xcorr_coefficient sqrt tr1 tr2 maxDelay qualityCheck r d c :
  xcorr sqrt tr1 tr2 maxDelay qualityCheck = Some (r, (d, c)) ->
  r = true ->
  exists K trS trL,
    toInt (mul64 maxDelay (GenericRecord.samplingFrequency tr1)) = Some K /\
    (trS = tr1 /\ trL = tr2 \/ trS = tr2 /\ trL = tr1) /\
    c = qualityChecked qualityCheck
          (lagLoop sqrt (GenericRecord.samplingFrequency tr1)
                   (GenericRecord.data trS) (GenericRecord.data trL) K).
Proof.
  unfold xcorr. intros H ->.
  destruct (neb _ _); [discriminate|].
  destruct (toInt _) as [K|]; simpl in H; [|discriminate].
  destruct (K =? INT_MIN); [discriminate|].
  injection H as _ <-. exists K.
  destruct (GenericRecord.size tr1 >? GenericRecord.size tr2);
    [exists tr2, tr1|exists tr1, tr2]; auto.
Qed.

(** When the shorter trace comes second instead of first, [xcorr] works on
    the same two sample arrays and changes the sign of the lag. *)
Lemma xcorr_roles_swapped sqrt tr1 tr2 maxDelay qualityCheck :
  GenericRecord.samplingFrequency tr1 = GenericRecord.samplingFrequency tr2 ->
  GenericRecord.size tr1 < GenericRecord.size tr2 ->
  xcorr sqrt tr2 tr1 maxDelay qualityCheck =
  negated (xcorr sqrt tr1 tr2 maxDelay qualityCheck).
Proof.
  intros Hfreq Hsize. unfold xcorr. rewrite <- Hfreq.
  destruct (neb _ _); [reflexivity|].
  destruct (toInt _) as [K|]; simpl; [|reflexivity].
  destruct (K =? INT_MIN); [reflexivity|].
  assert (E1 : (GenericRecord.size tr1 >? GenericRecord.size tr2) = false) by lia.
  assert (E2 : (GenericRecord.size tr2 >? GenericRecord.size tr1) = true) by lia.
  rewrite E1, E2. reflexivity.
Qed.

(** The lags that the loop visits are those of [[-K, K)]. *)
Lemma delays_range K d : In d (delays K) <-> - K <= d < K.
Proof.
  unfold delays. rewrite <- list_elem_of_In, elem_of_seqZ. lia.
Qed.

Lemma spec_delays_range K d : In d (spec_delays K) <-> - K <= d <= K.
Proof.
  unfold spec_delays. rewrite <- list_elem_of_In, elem_of_seqZ. lia.
Qed.

(** C4: the code at the failing input. With K = 1 the loop visits the lags
    -1 and 0 only, never the lag K = 1 of the stated range; the
    coefficient is -1 at both and would be 1 at the lag 1, where the two
    traces match. [xcorr] hands back the lag of -1 s with the coefficient
    -1. No positive K shows the lag K to the loop, and K = 0 shows it no
    lag at all. *)
Theorem xcorr_last_lag_not_visited :
  (forall K, 0 <= K -> In K (spec_delays K) /\ ~ In K (delays K)) /\
  delays 0 = [] /\
  delays 1 = [-1; 0] /\
  map canon (series sqrt_grid (GenericRecord.data one_sample)
                    (GenericRecord.data three_samples) 1)
    = [Fin (-1); Fin (-1)] /\
  canon (coeffAt sqrt_grid (GenericRecord.data one_sample)
                 (GenericRecord.data three_samples) 1) = Fin 1 /\
  canon_result (xcorr sqrt_grid one_sample three_samples (of_Z 1) true)
    = Some (true, (Fin (-1), Fin (-1))).
Proof.
  split; [|vm_compute; repeat split].
  intros K HK. rewrite spec_delays_range, delays_range. lia.
Qed.

End XCorrFacts.

(* ===================================================================== *)
(** * Swapping the two phases of a cross-correlation *)
(* ===================================================================== *)

Module XCorrPairFacts.
Import Dbl DblFacts Waveform XCorrPair.

Lemma trim_samplingFrequency a tw s :
  trim a tw = Some (Some s) ->
  GenericRecord.samplingFrequency s = GenericRecord.samplingFrequency a.
Proof.
  unfold trim. intros H.
  destruct (toInt (mul64 (round64 _) _)) as [ofs|]; simpl in H; [|discriminate].
  destruct (toInt _) as [samples|]; simpl in H; [|discriminate].
  destruct (ofs <? 0); [discriminate|].
  destruct (ofs + samples >? _); [discriminate|].
  injection H as <-. reflexivity.
Qed.

(** A pairing with the short trace second is the pairing with the short
    trace first, with the sign of the lag changed. *)
Lemma pairing_flipped cfg sqrt w ph a b md :
  (forall s, trim a (xcorrTimeWindowShort cfg ph) = Some (Some s) ->
             GenericRecord.size s < GenericRecord.size b) ->
  GenericRecord.samplingFrequency a = GenericRecord.samplingFrequency b ->
  pairing cfg sqrt w ph a b false md = flipped (pairing cfg sqrt w ph a b true md).
Proof.
  intros Hsize Hfreq. unfold pairing. destruct w; [|reflexivity].
  destruct (trim a _) as [[s|]|] eqn:Et; try reflexivity.
  rewrite (XCorrFacts.xcorr_roles_swapped sqrt s b).
  - destruct (XCorr.xcorr sqrt s b md true) as [[[|] [d c]]|]; reflexivity.
  - rewrite (trim_samplingFrequency _ _ _ Et). exact Hfreq.
  - apply Hsize. reflexivity.
Qed.

Local Opaque sub opp mul ltb same.

Lemma conclude_swap mc (tt1 tt2 : Q) d1 c1 d2 c2 dtcc weight :
  (isfinite c1 = true -> isfinite c2 = true ->
   ltb c1 c2 = false -> ltb c2 c1 = false -> same (opp d1) d2) ->
  conclude mc (Fin tt1) (Fin tt2) (opp d1) c1 d2 c2 = Some (true, (dtcc, weight)) ->
  exists dtcc' weight',
    conclude mc (Fin tt2) (Fin tt1) (opp d2) c2 d1 c1 = Some (true, (dtcc', weight')) /\
    same dtcc' (opp dtcc) /\ same weight' weight.
Proof.
  intros Htie. unfold conclude, gtb.
  destruct (isfinite c1) eqn:F1, (isfinite c2) eqn:F2; cbn [negb andb orb];
    try discriminate.
  - destruct (ltb c1 c2) eqn:L12.
    + rewrite (ltb_asym _ _ L12).
      destruct (ltb c2 mc); [discriminate|]. intros H; injection H as <- <-.
      eexists _, _. split; [reflexivity|]. split; [apply dtcc_negated|apply same_refl].
    + destruct (ltb c2 c1) eqn:L21.
      * destruct (ltb c1 mc); [discriminate|]. intros H; injection H as <- <-.
        eexists _, _. split; [reflexivity|]. split; [|apply same_refl].
        apply (same_trans _ _ _ (sub_same_r _ d1 (opp (opp d1))
                                   (same_sym _ _ (opp_opp_same d1)))).
        apply dtcc_negated.
      * specialize (Htie eq_refl eq_refl eq_refl eq_refl).
        pose proof (tie_same c1 c2 F1 F2 L12 L21) as Hc.
        rewrite <- (ltb_same_l _ _ mc Hc).
        destruct (ltb c1 mc); [discriminate|]. intros H; injection H as <- <-.
        eexists _, _. split; [reflexivity|]. split.
        -- apply (same_trans _ _ _ (dtcc_negated tt1 tt2 d2)).
           apply opp_same. apply (sub_same_r _ d2 (opp d1)).
           apply same_sym. exact Htie.
        -- apply same_sym. apply mul_same. exact Hc.
  - destruct (ltb c1 mc); [discriminate|]. intros H; injection H as <- <-.
    eexists _, _. split; [reflexivity|]. split; [|apply same_refl].
    apply (same_trans _ _ _ (sub_same_r _ d1 (opp (opp d1))
                               (same_sym _ _ (opp_opp_same d1)))).
    apply dtcc_negated.
  - destruct (ltb c2 mc); [discriminate|]. intros H; injection H as <- <-.
    eexists _, _. split; [reflexivity|]. split; [apply dtcc_negated|apply same_refl].
Qed.

Local Transparent sub opp mul ltb same.

(** C3, as the specification states it, fails. Both picks are automatic, so
    both pairings are tried; each finds the coefficient 1, one at the lag
    of 1 s and the other at no lag. The strict comparison keeps the first
    pairing of each call: the differential time is 1 s one way and -2 s the
    other way. *)
Lemma xcorr_swap_tie_not_negated :
  XCorr.canon_result (xcorr cfg_1s XCorr.sqrt_grid (loader [1; 1; -1] [-1; 1; -1])
                      event_a phase_a event_b phase_b)
    = Some (true, (Fin 1, Fin 1)) /\
  XCorr.canon_result (xcorr cfg_1s XCorr.sqrt_grid (loader [1; 1; -1] [-1; 1; -1])
                      event_b phase_b event_a phase_a)
    = Some (true, (Fin (-2), Fin 1)) /\
  ~ same (Fin (-2)) (opp (Fin 1)).
Proof. vm_compute. repeat split; discriminate. Qed.

(** C3 (amended). At the trace level, when the short trace comes second
    instead of first the sign of the lag is changed and nothing else. For
    two phases whose cross-correlation succeeds, whose traces have the same
    sampling frequency and whose short windows hold fewer samples than the
    long ones, the call with the two (event, phase) arguments swapped
    succeeds too, with the opposite differential time and the same weight,
    provided that the two pairings, when both give a finite coefficient and
    neither is greater, give the same lag. *)
Theorem xcorr_swap (cfg : string -> XcorrCfg) (sqrt : double -> double)
    (getWaveform : TimeWindow.t -> Catalog.Event -> Catalog.Phase ->
                   option GenericRecord.t) :
  (forall tr1 tr2 maxDelay qualityCheck,
     GenericRecord.samplingFrequency tr1 = GenericRecord.samplingFrequency tr2 ->
     GenericRecord.size tr1 < GenericRecord.size tr2 ->
     XCorr.xcorr sqrt tr2 tr1 maxDelay qualityCheck =
     XCorr.negated (XCorr.xcorr sqrt tr1 tr2 maxDelay qualityCheck))
  /\
  (forall (event1 event2 : Catalog.Event) (phase1 phase2 : Catalog.Phase)
          (tr1 tr2 : GenericRecord.t) (dtcc weight : double),
     let md := Fin (maxDelay (cfg (Catalog.type phase1))) in
     let both := negb (Catalog.isManual phase1) && negb (Catalog.isManual phase2) in
     cfg (Catalog.type phase1) = cfg (Catalog.type phase2) ->
     getWaveform (xcorrTimeWindowLong cfg phase1) event1 phase1 = Some tr1 ->
     getWaveform (xcorrTimeWindowLong cfg phase2) event2 phase2 = Some tr2 ->
     GenericRecord.samplingFrequency tr1 = GenericRecord.samplingFrequency tr2 ->
     (forall s, trim tr1 (xcorrTimeWindowShort cfg phase1) = Some (Some s) ->
                GenericRecord.size s < GenericRecord.size tr2) ->
     (forall s, trim tr2 (xcorrTimeWindowShort cfg phase2) = Some (Some s) ->
                GenericRecord.size s < GenericRecord.size tr1) ->
     (forall dt1 c1 dt2 c2,
        pairing cfg sqrt (Catalog.isManual phase2 || both) phase2 tr2 tr1 false md
          = Went_on dt1 c1 ->
        pairing cfg sqrt (Catalog.isManual phase1 || both) phase1 tr1 tr2 true md
          = Went_on dt2 c2 ->
        isfinite c1 = true -> isfinite c2 = true ->
        ltb c1 c2 = false -> ltb c2 c1 = false -> same dt1 dt2) ->
     xcorr cfg sqrt getWaveform event1 phase1 event2 phase2
       = Some (true, (dtcc, weight)) ->
     exists dtcc' weight',
       xcorr cfg sqrt getWaveform event2 phase2 event1 phase1
         = Some (true, (dtcc', weight')) /\
       same dtcc' (opp dtcc) /\ same weight' weight).
Proof.
  split; [intros; apply XCorrFacts.xcorr_roles_swapped; assumption|].
  intros event1 event2 phase1 phase2 tr1 tr2 dtcc weight md both
         Hcfg Hw1 Hw2 Hfreq Hs1 Hs2 Htie Hx.
  unfold xcorr in *. rewrite Hw1, Hw2 in *. rewrite <- Hcfg. fold md.
  replace (negb (Catalog.isManual phase2) && negb (Catalog.isManual phase1))
    with both by (unfold both; apply andb_comm).
  fold both in Hx. fold md in Hx.
  rewrite (pairing_flipped cfg sqrt _ phase2 tr2 tr1 md Hs2 (eq_sym Hfreq)) in Hx, Htie.
  rewrite (pairing_flipped cfg sqrt _ phase1 tr1 tr2 md Hs1 Hfreq).
  destruct (pairing cfg sqrt (Catalog.isManual phase2 || both) phase2 tr2 tr1 true md)
    as [| |da ca] eqn:EA; cbn [flipped] in *; try discriminate.
  destruct (pairing cfg sqrt (Catalog.isManual phase1 || both) phase1 tr1 tr2 true md)
    as [| |db cb] eqn:EB; cbn [flipped] in *; try discriminate.
  apply (conclude_swap _ _ _ da ca db cb dtcc weight); [|exact Hx].
  intros F1 F2 L12 L21. apply (Htie (opp da) ca db cb); auto.
Qed.

Lemma xcorr_swap_witness :
  XCorr.xcorr XCorr.sqrt_grid
              (GenericRecord.mk 0 (of_Z 1) (map of_Z [-1; -1; 1]))
              (GenericRecord.mk 0 (of_Z 1) (map of_Z [1])) (of_Z 1) true
    = XCorr.negated
        (XCorr.xcorr XCorr.sqrt_grid
                     (GenericRecord.mk 0 (of_Z 1) (map of_Z [1]))
                     (GenericRecord.mk 0 (of_Z 1) (map of_Z [-1; -1; 1]))
                     (of_Z 1) true)
  /\
  exists dtcc' weight',
    xcorr cfg_1s XCorr.sqrt_grid (loader [-1; 1; -1] [-1; -1; -1])
          event_b phase_b event_a phase_a = Some (true, (dtcc', weight')) /\
    same dtcc' (opp (Fin 1)) /\ same weight' (Fin 1).
Proof.
  destruct (xcorr_swap cfg_1s XCorr.sqrt_grid (loader [-1; 1; -1] [-1; -1; -1]))
    as [Htrace Hpair].
  split.
  - apply Htrace; [reflexivity|unfold GenericRecord.size; simpl; lia].
  - assert (Hx0 : exists dtcc weight,
              xcorr cfg_1s XCorr.sqrt_grid (loader [-1; 1; -1] [-1; -1; -1])
                    event_a phase_a event_b phase_b = Some (true, (dtcc, weight)) /\
              same dtcc (Fin 1) /\ same weight (Fin 1)).
    { eexists _, _. split; [vm_compute; reflexivity|].
      split; vm_compute; reflexivity. }
    destruct Hx0 as (dtcc & weight & Hx0 & Hdt0 & Hw0).
    destruct (Hpair event_a event_b phase_a phase_b
                (GenericRecord.mk 9 (of_Z 1) (map of_Z [-1; 1; -1]))
                (GenericRecord.mk 19 (of_Z 1) (map of_Z [-1; -1; -1]))
                dtcc weight)
      as (dtcc' & weight' & Hx & Hdt & Hw).
    + reflexivity.
    + reflexivity.
    + reflexivity.
    + reflexivity.
    + intros s Hs. vm_compute in Hs. injection Hs as <-. vm_compute. reflexivity.
    + intros s Hs. vm_compute in Hs. injection Hs as <-. vm_compute. reflexivity.
    + intros dt1 c1 dt2 c2 H1 H2. vm_compute in H1, H2.
      injection H1 as <- <-. injection H2 as <- <-.
      intros _ _ _ Hlt. vm_compute in Hlt. discriminate.
    + exact Hx0.
    + exists dtcc', weight'. split; [exact Hx|]. split.
      * apply (same_trans _ _ _ Hdt). apply (opp_same _ _ Hdt0).
      * apply (same_trans _ _ _ Hw). exact Hw0.
Defined.

End XCorrPairFacts.

(* ===================================================================== *)
(** * The phase-type filter *)
(* ===================================================================== *)

Module PhasesFacts.
Import Catalog Phases.

(** The test of the inner loop asks for the same type and for a smaller
    priority at once; the priority is a function of the type, so the test
    never holds and no selected phase is ever overwritten. *)
Lemma overwriteExisting_never phaseToKeep eventId phase filtered :
  overwriteExisting phaseToKeep eventId phase
    (distance_find phaseToKeep (type phase)) filtered = None.
Proof.
  induction filtered as [|[k existingPhase] rest IH]; simpl; [reflexivity|].
  rewrite IH.
  destruct (String.eqb (type existingPhase) (type phase)) eqn:E.
  - apply String.eqb_eq in E. rewrite E, Nat.ltb_irrefl.
    now rewrite !andb_false_r.
  - now rewrite andb_false_r.
Qed.

(** Every phase of an accepted type is therefore emplaced. *)
Lemma select_emplaces phaseToKeep eventId phase filtered :
  select phaseToKeep eventId phase filtered =
  StdMap.emplace Z.ltb (Catalog.eventId phase) phase filtered.
Proof. unfold select. now rewrite overwriteExisting_never. Qed.

(** C2: the code at the failing input. The catalog holds one event with a
    Pg and a P pick at the same station, and both types are accepted as P;
    the filtered catalog holds two phases of type P for that event and
    that station. *)
Theorem filterOutPhases_keeps_both :
  map (fun p => (eventId p, stationId p, type p, phase_time p))
      (phasesOf (filterOutPhases two_P_picks ["P"; "Pg"]%string ["S"]%string)
                1 "NT.ST." "P")
  = [(1, "NT.ST.", "P", 10%Q); (1, "NT.ST.", "P", (21 # 2)%Q)]%string.
Proof. reflexivity. Qed.

End PhasesFacts.

(* ===================================================================== *)
(** * The sweep over shells and octants *)
(* ===================================================================== *)

Module NeighboursFacts.
Import Dbl DblFacts Neighbours.

Section SweepFacts.

Variable delazi : double -> double -> double -> double -> double * double * double.
Variable deg2km : double -> double.
Variable cos : double -> double.
Variable sin : double -> double.
Variable srcEvents : list (Z * Catalog.Event).
Variable maxNumNeigh : Z.
Variable ellipsoids : list Ellipsoid.t.

Local Abbreviation pick := (pick delazi deg2km cos sin srcEvents ellipsoids).
Local Abbreviation quadrantLoop :=
  (quadrantLoop delazi deg2km cos sin srcEvents maxNumNeigh ellipsoids).
Local Abbreviation ellipsoidLoop :=
  (ellipsoidLoop delazi deg2km cos sin srcEvents maxNumNeigh ellipsoids).
Local Abbreviation whileLoop :=
  (whileLoop delazi deg2km cos sin srcEvents maxNumNeigh ellipsoids).

Local Abbreviation within_quota := (within_quota maxNumNeigh).

Lemma pick_length elpsNum quadrant sel ev sel' :
  pick elpsNum quadrant sel = Value (Some (ev, sel')) ->
  S (List.length sel') = List.length sel.
Proof.
  revert ev sel'. induction sel as [|it rest IH]; intros ev sel' H; simpl in H.
  - discriminate.
  - destruct (StdMap.find it.2 srcEvents) as [ev0|]; simpl in H; [|discriminate].
    destruct (found _ _ _ _ _ _ _ ev0) as [[|]|]; simpl in H; try discriminate.
    + injection H as <- <-. reflexivity.
    + destruct (pick elpsNum quadrant rest) as [[[ev1 rest1]|]| |] eqn:E;
        simpl in H; try discriminate.
      injection H as <- <-. simpl. f_equal. eapply IH. reflexivity.
Qed.

Lemma quadrantLoop_within_quota elpsNum qs : forall st st',
  within_quota st -> quadrantLoop elpsNum qs st = Value st' -> within_quota st'.
Proof.
  induction qs as [|q qs IH]; intros st st' Hst H; simpl in H.
  - injection H as <-. exact Hst.
  - destruct (quotaReached maxNumNeigh st) eqn:Eq.
    + injection H as <-. exact Hst.
    + destruct (pick elpsNum q (selectedEvents st)) as [[[ev sel']|]| |] eqn:Ep;
        simpl in H; try discriminate.
      * revert H. apply IH.
        unfold quotaReached in Eq. apply orb_false_elim in Eq. destruct Eq as [_ Eq].
        destruct Hst as (H0 & Hlen & Hmax). unfold within_quota. simpl.
        rewrite length_app. simpl. repeat split; lia.
      * revert H. apply IH. exact Hst.
Qed.

Lemma ellipsoidLoop_S n st :
  ellipsoidLoop (S n) st = andThen (quadrantLoop n quadrants st) (ellipsoidLoop n).
Proof. reflexivity. Qed.

Lemma whileLoop_S fuel st :
  whileLoop (S fuel) st =
  if workToDo st
  then andThen (ellipsoidLoop (List.length ellipsoids) st) (whileLoop fuel)
  else Value st.
Proof. reflexivity. Qed.

Lemma ellipsoidLoop_within_quota n : forall st st',
  within_quota st -> ellipsoidLoop n st = Value st' -> within_quota st'.
Proof.
  induction n as [|n IH]; intros st st' Hst H.
  - injection H as <-. exact Hst.
  - rewrite ellipsoidLoop_S in H. destruct (quadrantLoop n quadrants st) as [st1| |] eqn:E; simpl in H;
      try discriminate.
    apply (IH st1 st'); [|exact H].
    apply (quadrantLoop_within_quota n quadrants st); assumption.
Qed.

Lemma whileLoop_within_quota fuel : forall st st',
  within_quota st -> whileLoop fuel st = Value st' -> within_quota st'.
Proof.
  induction fuel as [|fuel IH]; intros st st' Hst H.
  - simpl in H. destruct (workToDo st); [discriminate|]. injection H as <-. exact Hst.
  - rewrite whileLoop_S in H.
    destruct (workToDo st); [|injection H as <-; exact Hst].
    destruct (ellipsoidLoop (List.length ellipsoids) st) as [st1| |] eqn:E;
      simpl in H; try discriminate.
    apply (IH st1 st'); [|exact H].
    apply (ellipsoidLoop_within_quota (List.length ellipsoids) st); assumption.
Qed.

(** ** Termination of the sweep *)

Lemma pick_fuel elpsNum quadrant sel : pick elpsNum quadrant sel <> No_fuel.
Proof.
  induction sel as [|it rest IH]; simpl; [discriminate|].
  destruct (StdMap.find it.2 srcEvents) as [ev0|]; simpl; [|discriminate].
  destruct (found _ _ _ _ _ _ _ ev0) as [[|]|]; simpl; try discriminate.
  destruct (pick elpsNum quadrant rest) as [[[ev1 rest1]|]| |]; simpl;
    try discriminate. contradiction.
Qed.

Lemma quadrantLoop_fuel elpsNum qs : forall st, quadrantLoop elpsNum qs st <> No_fuel.
Proof.
  induction qs as [|q qs IH]; intros st; simpl; [discriminate|].
  destruct (quotaReached maxNumNeigh st); [discriminate|].
  pose proof (pick_fuel elpsNum q (selectedEvents st)) as Hp.
  destruct (pick elpsNum q (selectedEvents st)) as [[[ev sel']|]| |]; simpl;
    try discriminate; try apply IH. contradiction.
Qed.

Lemma ellipsoidLoop_fuel n : forall st, ellipsoidLoop n st <> No_fuel.
Proof.
  induction n as [|n IH]; intros st; [discriminate|].
  rewrite ellipsoidLoop_S.
  pose proof (quadrantLoop_fuel n quadrants st) as Hq.
  destruct (quadrantLoop n quadrants st) as [st1| |]; simpl;
    try discriminate; try apply IH. contradiction.
Qed.

Lemma quadrantLoop_progress n0 elpsNum qs : forall st st',
  progress n0 st -> quadrantLoop elpsNum qs st = Value st' -> progress n0 st'.
Proof.
  induction qs as [|q qs IH]; intros st st' Hst H; simpl in H.
  - injection H as <-. exact Hst.
  - destruct (quotaReached maxNumNeigh st).
    + injection H as <-. left. reflexivity.
    + destruct (pick elpsNum q (selectedEvents st)) as [[[ev sel']|]| |] eqn:Ep;
        simpl in H; try discriminate.
      * revert H. apply IH. apply pick_length in Ep.
        destruct Hst as [Hw|Hl]; [left; exact Hw|right; simpl; lia].
      * revert H. apply IH. exact Hst.
Qed.

Lemma quadrantLoop_unchanged elpsNum qs : forall st st',
  quadrantLoop elpsNum qs st = Value st' ->
  progress (List.length (selectedEvents st)) st' \/ st' = st.
Proof.
  induction qs as [|q qs IH]; intros st st' H; simpl in H.
  - injection H as <-. right. reflexivity.
  - destruct (quotaReached maxNumNeigh st).
    + injection H as <-. left. left. reflexivity.
    + destruct (pick elpsNum q (selectedEvents st)) as [[[ev sel']|]| |] eqn:Ep;
        simpl in H; try discriminate.
      * left. revert H. apply quadrantLoop_progress.
        apply pick_length in Ep. right. simpl. lia.
      * apply IH. exact H.
Qed.

(** In the cell of its first event, the loop over the octants makes
    progress. *)
Lemma quadrantLoop_cell elpsNum q0 it0 rest0 ev0 qs : forall st st',
  In q0 qs ->
  selectedEvents st = it0 :: rest0 ->
  StdMap.find (snd it0) srcEvents = Some ev0 ->
  found delazi deg2km cos sin ellipsoids elpsNum q0 ev0 = Some true ->
  quadrantLoop elpsNum qs st = Value st' ->
  progress (List.length (selectedEvents st)) st'.
Proof.
  induction qs as [|q qs IH]; intros st st' Hin Hsel Hfind Hfound H; [contradiction|].
  simpl in H. destruct (quotaReached maxNumNeigh st).
  - injection H as <-. left. reflexivity.
  - destruct (pick elpsNum q (selectedEvents st)) as [[[ev sel']|]| |] eqn:Ep;
      simpl in H; try discriminate.
    + revert H. apply quadrantLoop_progress.
      apply pick_length in Ep. right. simpl. lia.
    + destruct Hin as [->|Hin].
      * exfalso. rewrite Hsel in Ep. simpl in Ep. rewrite Hfind in Ep. simpl in Ep.
        rewrite Hfound in Ep. simpl in Ep. discriminate.
      * apply (IH st st'); assumption.
Qed.

Lemma ellipsoidLoop_progress n0 n : forall st st',
  progress n0 st -> ellipsoidLoop n st = Value st' -> progress n0 st'.
Proof.
  induction n as [|n IH]; intros st st' Hst H.
  - injection H as <-. exact Hst.
  - rewrite ellipsoidLoop_S in H.
    destruct (quadrantLoop n quadrants st) as [st1| |] eqn:E; simpl in H;
      try discriminate.
    apply (IH st1 st'); [|exact H].
    apply (quadrantLoop_progress n0 n quadrants st); assumption.
Qed.

Lemma ellipsoidLoop_cell k0 q0 it0 rest0 ev0 n : forall st st',
  (k0 < n)%nat -> In q0 quadrants ->
  selectedEvents st = it0 :: rest0 ->
  StdMap.find (snd it0) srcEvents = Some ev0 ->
  found delazi deg2km cos sin ellipsoids k0 q0 ev0 = Some true ->
  ellipsoidLoop n st = Value st' ->
  progress (List.length (selectedEvents st)) st'.
Proof.
  induction n as [|n IH]; intros st st' Hk Hin Hsel Hfind Hfound H; [lia|].
  rewrite ellipsoidLoop_S in H.
  destruct (quadrantLoop n quadrants st) as [st1| |] eqn:E; simpl in H;
    try discriminate.
  destruct (Nat.eq_dec k0 n) as [->|Hne].
  - revert H. apply ellipsoidLoop_progress.
    apply (quadrantLoop_cell n q0 it0 rest0 ev0 quadrants st); assumption.
  - destruct (quadrantLoop_unchanged _ _ _ _ E) as [Hp| ->].
    + revert H. apply ellipsoidLoop_progress. exact Hp.
    + apply IH; try assumption. lia.
Qed.

Lemma quadrantLoop_first elpsNum st :
  quadrantLoop elpsNum quadrants st =
  if quotaReached maxNumNeigh st
  then Value (mkState (selectedEvents st) (chosen st) (numNeighbors st) false)
  else andThen (pick elpsNum 1 (selectedEvents st)) (fun r =>
       match r with
       | Some (ev, sel') =>
           quadrantLoop elpsNum [2; 3; 4; 5; 6; 7; 8]
             (mkState sel' (chosen st ++ [ev]) (numNeighbors st + 1) (workToDo st))
       | None => quadrantLoop elpsNum [2; 3; 4; 5; 6; 7; 8] st
       end).
Proof. reflexivity. Qed.

(** Once the test at the head of the octant loop holds, a pass over the
    shells stops the sweep. *)
Lemma ellipsoidLoop_stops n st st' :
  (0 < n)%nat -> quotaReached maxNumNeigh st = true ->
  ellipsoidLoop n st = Value st' -> workToDo st' = false.
Proof.
  intros Hn Hq H. destruct n as [|n]; [lia|].
  rewrite ellipsoidLoop_S, quadrantLoop_first, Hq in H. simpl in H.
  assert (Hp : progress O (mkState (selectedEvents st) (chosen st)
                                   (numNeighbors st) false))
    by (left; reflexivity).
  destruct (ellipsoidLoop_progress O n _ st' Hp H) as [Hw|Hl]; [exact Hw|lia].
Qed.

(** More fuel does not change a result. *)
Lemma whileLoop_more_fuel fuel : forall st fuel',
  (fuel <= fuel')%nat -> whileLoop fuel st <> No_fuel ->
  whileLoop fuel' st = whileLoop fuel st.
Proof.
  induction fuel as [|fuel IH]; intros st fuel' Hle Hnf.
  - simpl in *. destruct (workToDo st) eqn:Ew; [contradiction|].
    destruct fuel'; simpl; rewrite Ew; reflexivity.
  - destruct fuel' as [|fuel']; [lia|].
    rewrite !whileLoop_S in *.
    destruct (workToDo st); [|reflexivity].
    destruct (ellipsoidLoop (List.length ellipsoids) st) as [st1| |];
      simpl in *; try reflexivity.
    apply IH; [lia|exact Hnf].
Qed.

Hypothesis ellipsoids_nonempty : ellipsoids <> [].

(** Every event of the source catalog lies in some cell. *)
Hypothesis coverage : forall id ev,
  StdMap.find id srcEvents = Some ev ->
  exists k q, (k < List.length ellipsoids)%nat /\ In q quadrants /\
              found delazi deg2km cos sin ellipsoids k q ev = Some true.

Lemma whileLoop_terminates fuel : forall st,
  (List.length (selectedEvents st) < fuel)%nat -> whileLoop fuel st <> No_fuel.
Proof.
  assert (Hlen : (0 < List.length ellipsoids)%nat)
    by (destruct ellipsoids; [contradiction|simpl; lia]).
  induction fuel as [|fuel IH]; intros st Hfuel; [lia|].
  rewrite whileLoop_S. destruct (workToDo st) eqn:Ew; [|discriminate].
  pose proof (ellipsoidLoop_fuel (List.length ellipsoids) st) as Hnf.
  destruct (ellipsoidLoop (List.length ellipsoids) st) as [st1| |] eqn:E; simpl;
    [|discriminate|contradiction].
  assert (Hp : progress (List.length (selectedEvents st)) st1).
  { destruct (quotaReached maxNumNeigh st) eqn:Eq.
    - left. apply (ellipsoidLoop_stops (List.length ellipsoids) st st1 Hlen Eq E).
    - destruct (selectedEvents st) as [|it0 rest0] eqn:Hsel.
      { unfold quotaReached in Eq. rewrite Hsel in Eq. discriminate. }
      destruct (StdMap.find (snd it0) srcEvents) as [ev0|] eqn:Hfind.
      + destruct (coverage _ _ Hfind) as (k & q & Hk & Hq & Hf).
        rewrite <- Hsel.
        apply (ellipsoidLoop_cell k q it0 rest0 ev0 (List.length ellipsoids) st st1);
          assumption.
      + exfalso. clear IH Hnf. destruct (List.length ellipsoids) as [|n]; [lia|].
        rewrite ellipsoidLoop_S, quadrantLoop_first, Eq, Hsel in E.
        simpl in E. rewrite Hfind in E. simpl in E. discriminate. }
  destruct Hp as [Hw|Hl].
  - destruct fuel; simpl; rewrite Hw; discriminate.
  - apply IH. lia.
Qed.

End SweepFacts.

Lemma assign_length {V} k (v : V) m :
  (List.length (StdMap.assign Z.ltb k v m) <= S (List.length m))%nat.
Proof.
  induction m as [|[k' v'] m IH]; simpl; [lia|].
  destruct (k <? k'); simpl; [lia|].
  destruct (k' <? k); simpl; lia.
Qed.

Lemma copied_events_length srcCat evs : forall cat,
  (List.length (Catalog.getEvents
     (fold_left (fun cat ev => Catalog.copyEvent_keepEvId ev srcCat cat) evs cat))
   <= List.length (Catalog.getEvents cat) + List.length evs)%nat.
Proof.
  induction evs as [|ev evs IH]; intros cat; simpl; [lia|].
  etransitivity; [apply IH|]. simpl.
  pose proof (assign_length (Catalog.id ev) ev (Catalog.getEvents cat)). lia.
Qed.

(** A square divided by zero is not a number, or is plus infinity. *)
Lemma square_over_zero x z :
  Qeqb z 0 = true ->
  div (mul x x) (Fin z) = NaN \/ div (mul x x) (Fin z) = Inf false.
Proof.
  intros Hz. destruct x as [|s|p]; simpl.
  - left. reflexivity.
  - right. destruct s; simpl.
    + replace (Qltb z 0) with false; [reflexivity|].
      symmetry. apply Qltb_nlt. apply Qeqb_eq in Hz. rewrite Hz. apply Qle_refl.
    + replace (Qltb z 0) with false; [reflexivity|].
      symmetry. apply Qltb_nlt. apply Qeqb_eq in Hz. rewrite Hz. apply Qle_refl.
  - rewrite Hz. destruct (Qeqb (p * p) 0); [left; reflexivity|right].
    replace (Qltb (p * p) 0) with false; [reflexivity|].
    symmetry. apply Qltb_nlt. unfold Qle, Qmult. simpl. nia.
Qed.

Section Geo.
Variable delazi : double -> double -> double -> double -> double * double * double.
Variable deg2km : double -> double.
Variable cos : double -> double.
Variable sin : double -> double.

(** Nothing is inside the degenerate ellipsoid: its three quotients have
    the divisor zero. *)
Lemma degenerate_isInside lat0 lon0 depth0 lat lon depth :
  HddEllipsoid.Ellipsoid_isInside delazi deg2km cos sin
    (HddEllipsoid.new (of_Z 0) lat0 lon0 depth0) lat lon depth = false.
Proof.
  unfold HddEllipsoid.Ellipsoid_isInside, HddEllipsoid.new.
  cbn [Ellipsoid.lat Ellipsoid.lon Ellipsoid.depth Ellipsoid.orientation
       Ellipsoid.axis_a Ellipsoid.axis_b Ellipsoid.axis_c].
  destruct (delazi lat lon lat0 lon0) as [[distance az] baz].
  set (x := mul (deg2km distance) (cos _)).
  set (y := mul (deg2km distance) (sin _)).
  set (z := abs _).
  change (div (of_Z 0) (of_Z 2)) with (Fin (0 / 2)).
  change (of_Z 0) with (Fin 0).
  destruct (square_over_zero x (0 / 2) eq_refl) as [-> | ->];
  destruct (square_over_zero y (0 / 2) eq_refl) as [-> | ->];
  destruct (square_over_zero z 0 eq_refl) as [-> | ->]; reflexivity.
Qed.
End Geo.

(** Every point is in one octant at least. *)
Lemma isInQuadrant_some (e : Ellipsoid.t) (lat lon depth : double) :
  exists q, In q quadrants /\
            HddEllipsoid.isInQuadrant e lat lon depth q = Some true.
Proof.
  unfold HddEllipsoid.isInQuadrant, gtb.
  destruct (ltb depth (Ellipsoid.depth e)) eqn:Ed;
    [rewrite (ltb_asym _ _ Ed)|];
  (destruct (ltb lon (Ellipsoid.lon e)) eqn:Eo;
    [rewrite (ltb_asym _ _ Eo)|]);
  (destruct (ltb lat (Ellipsoid.lat e)) eqn:Ea;
    [rewrite (ltb_asym _ _ Ea)|]).
  - exists 7. split; [simpl; tauto|]. simpl. now rewrite ?andb_false_r.
  - exists 6. split; [simpl; tauto|]. simpl. now rewrite ?andb_false_r.
  - exists 8. split; [simpl; tauto|]. simpl. now rewrite ?andb_false_r.
  - exists 5. split; [simpl; tauto|]. simpl. now rewrite ?andb_false_r.
  - exists 3. split; [simpl; tauto|]. simpl. now rewrite ?andb_false_r.
  - exists 2. split; [simpl; tauto|]. simpl. now rewrite ?andb_false_r.
  - exists 4. split; [simpl; tauto|]. simpl. now rewrite ?andb_false_r.
  - exists 1. split; [simpl; tauto|]. simpl. now rewrite ?andb_false_r.
Qed.

Lemma isInQuadrant_origin e e' lat lon depth q :
  Ellipsoid.lat e = Ellipsoid.lat e' -> Ellipsoid.lon e = Ellipsoid.lon e' ->
  Ellipsoid.depth e = Ellipsoid.depth e' ->
  HddEllipsoid.isInQuadrant e lat lon depth q =
  HddEllipsoid.isInQuadrant e' lat lon depth q.
Proof. intros H1 H2 H3. unfold HddEllipsoid.isInQuadrant. now rewrite H1, H2, H3. Qed.

(** In a list that holds an element without the property, there is a first
    one, and the element before it, if any, has the property. *)
Lemma first_without {A} (P : A -> bool) (l : list A) :
  (exists a, In a l /\ P a = false) ->
  exists k a, l !! k = Some a /\ P a = false /\
              match k with
              | O => True
              | S below => exists a', l !! below = Some a' /\ P a' = true
              end.
Proof.
  induction l as [|a0 l IH]; intros (a & Hin & Ha); [contradiction|].
  destruct (P a0) eqn:E0.
  - destruct Hin as [->|Hin]; [congruence|].
    destruct (IH (ex_intro _ a (conj Hin Ha))) as (k & a1 & Hk & Ha1 & Hprev).
    exists (S k), a1. repeat split; auto.
    destruct k as [|below].
    + exists a0. auto.
    + destruct Hprev as (a' & Hb & Ha'). exists a'. auto.
  - exists O, a0. auto.
Qed.

Section Coverage.
Variable delazi : double -> double -> double -> double -> double * double * double.
Variable deg2km : double -> double.
Variable cos : double -> double.
Variable sin : double -> double.

Lemma sized_origin refEv n : forall currSize e,
  In e (sized n currSize (Catalog.latitude refEv) (Catalog.longitude refEv)
              (Catalog.depth refEv)) ->
  same_origin refEv e.
Proof.
  induction n as [|n IH]; intros currSize e Hin; simpl in Hin; [contradiction|].
  destruct Hin as [<-|Hin]; [repeat split|eauto].
Qed.

Lemma makeEllipsoids_origin numEllipsoids maxEllipsoidSize refEv e :
  In e (makeEllipsoids numEllipsoids maxEllipsoidSize refEv) -> same_origin refEv e.
Proof.
  unfold makeEllipsoids. intros Hin. apply in_app_or in Hin.
  destruct Hin as [Hin|[<-|[]]]; [eapply sized_origin; eauto|repeat split].
Qed.

(** Every event lies in a cell of the sweep: in an octant, and in the
    first shell from outside whose inner ellipsoid does not hold it. *)
Lemma makeEllipsoids_coverage numEllipsoids maxEllipsoidSize refEv ev :
  let ellipsoids := makeEllipsoids numEllipsoids maxEllipsoidSize refEv in
  exists k q, (k < List.length ellipsoids)%nat /\ In q quadrants /\
              found delazi deg2km cos sin ellipsoids k q ev = Some true.
Proof.
  intros ellipsoids.
  set (inside e := HddEllipsoid.Ellipsoid_isInside delazi deg2km cos sin e
                     (Catalog.latitude ev) (Catalog.longitude ev) (Catalog.depth ev)).
  destruct (first_without inside ellipsoids) as (k & e & Hk & He & Hprev).
  { exists (HddEllipsoid.new (of_Z 0) (Catalog.latitude refEv)
                             (Catalog.longitude refEv) (Catalog.depth refEv)).
    split; [apply in_or_app; right; left; reflexivity|].
    apply degenerate_isInside. }
  destruct (isInQuadrant_some e (Catalog.latitude ev) (Catalog.longitude ev)
                              (Catalog.depth ev)) as (q & Hq & Hin).
  assert (Hall : forall e', In e' ellipsoids ->
            HddEllipsoid.isInQuadrant e' (Catalog.latitude ev) (Catalog.longitude ev)
                                      (Catalog.depth ev) q = Some true).
  { intros e' He'. rewrite <- Hin.
    destruct (makeEllipsoids_origin _ _ _ _ He') as (H1 & H2 & H3).
    assert (Hine : In e ellipsoids)
      by (apply list_elem_of_In; eapply list_elem_of_lookup_2; eauto).
    destruct (makeEllipsoids_origin _ _ _ _ Hine) as (H1' & H2' & H3').
    apply isInQuadrant_origin; congruence. }
  exists k, q. split; [eapply lookup_lt_Some; eauto|]. split; [exact Hq|].
  unfold found. destruct k as [|below].
  - rewrite Hk. simpl. unfold HddEllipsoid.isOutside. rewrite Hin.
    fold (inside e). rewrite He. reflexivity.
  - rewrite Hk. simpl. unfold HddEllipsoid.isOutside. rewrite Hin.
    fold (inside e). rewrite He. simpl.
    destruct Hprev as (e' & Hb & He'). rewrite Hb. simpl.
    unfold HddEllipsoid.isInside. rewrite Hall.
    + fold (inside e'). rewrite He'. reflexivity.
    + apply list_elem_of_In. eapply list_elem_of_lookup_2; eauto.
Qed.

End Coverage.

(** C5. With a positive [maxNumNeigh], the sweep over the shells and the
    octants makes at most [maxNumNeigh] insertions, whatever events are
    selected: no event is inserted once the quota is reached, and the
    catalog that is returned holds at most [maxNumNeigh] events. The sweep
    ends: one more turn of the [while] loop than there are selected events
    is enough, and more fuel gives the same result. *)
Theorem sweep_within_quota
    (delazi : double -> double -> double -> double -> double * double * double)
    (deg2km cos sin : double -> double)
    (srcCat : Catalog.t) (refEv : Catalog.Event)
    (minNumNeigh maxNumNeigh numEllipsoids maxEllipsoidSize : Z)
    (selected : list (double * Z)) :
  let run fuel :=
    sweep delazi deg2km cos sin (Catalog.getEvents srcCat) maxNumNeigh
          (makeEllipsoids numEllipsoids maxEllipsoidSize refEv)
          fuel srcCat minNumNeigh selected in
  0 < maxNumNeigh ->
  (forall fuel st cat,
     run fuel = Value (st, cat) ->
     numNeighbors st <= maxNumNeigh /\
     Z.of_nat (List.length (chosen st)) = numNeighbors st /\
     Z.of_nat (List.length (Catalog.getEvents cat)) <= maxNumNeigh) /\
  (forall fuel, (List.length selected < fuel)%nat ->
     run fuel <> No_fuel /\ run fuel = run (S (List.length selected))).
Proof.
  intros run Hmax. split.
  - intros fuel st cat H. unfold run, sweep in H.
    destruct (whileLoop _ _ _ _ _ _ _ fuel _) as [st1| |] eqn:E; simpl in H;
      try discriminate.
    destruct (numNeighbors st1 <? minNumNeigh); [discriminate|].
    injection H as <- <-.
    assert (Hq : within_quota maxNumNeigh st1).
    { revert E. apply whileLoop_within_quota.
      unfold within_quota. simpl. repeat split; lia. }
    destruct Hq as (H0 & Hlen & Hle). repeat split; auto.
    pose proof (copied_events_length srcCat (chosen st1) Catalog.empty) as Hc.
    simpl in Hc. specialize (Hle Hmax). lia.
  - assert (Hterm : forall fuel, (List.length selected < fuel)%nat ->
              whileLoop delazi deg2km cos sin (Catalog.getEvents srcCat) maxNumNeigh
                (makeEllipsoids numEllipsoids maxEllipsoidSize refEv) fuel
                (mkState selected [] 0 true) <> No_fuel).
    { intros fuel Hfuel. apply whileLoop_terminates.
      - unfold makeEllipsoids. intros Habs. apply app_eq_nil in Habs.
        destruct Habs as [_ Habs]. discriminate.
      - intros id ev _. apply makeEllipsoids_coverage.
      - exact Hfuel. }
    intros fuel Hfuel. unfold run, sweep. split.
    + specialize (Hterm fuel Hfuel).
      destruct (whileLoop _ _ _ _ _ _ _ fuel _) as [st1| |]; simpl;
        [|discriminate|contradiction].
      destruct (numNeighbors st1 <? minNumNeigh); discriminate.
    + rewrite (whileLoop_more_fuel _ _ _ _ _ _ _ (S (List.length selected)) _ fuel);
        [reflexivity|lia|].
      apply Hterm. lia.
Qed.

(** The eight events around the reference, with a quota of three: three
    events are chosen, one in each of the first three octants. *)
Lemma sweep_within_quota_witness :
  (forall fuel st cat,
     sweep toy_delazi toy_deg2km toy_cos toy_sin (Catalog.getEvents eight_around) 3
           (makeEllipsoids 5 20 reference_event) fuel eight_around 1 eight_selected
       = Value (st, cat) ->
     numNeighbors st <= 3 /\
     Z.of_nat (List.length (chosen st)) = numNeighbors st /\
     Z.of_nat (List.length (Catalog.getEvents cat)) <= 3) /\
  (forall fuel, (List.length eight_selected < fuel)%nat ->
     sweep toy_delazi toy_deg2km toy_cos toy_sin (Catalog.getEvents eight_around) 3
           (makeEllipsoids 5 20 reference_event) fuel eight_around 1 eight_selected
       <> No_fuel /\
     sweep toy_delazi toy_deg2km toy_cos toy_sin (Catalog.getEvents eight_around) 3
           (makeEllipsoids 5 20 reference_event) fuel eight_around 1 eight_selected
       = sweep toy_delazi toy_deg2km toy_cos toy_sin (Catalog.getEvents eight_around) 3
           (makeEllipsoids 5 20 reference_event) (S (List.length eight_selected))
           eight_around 1 eight_selected).
Proof.
  apply (sweep_within_quota toy_delazi toy_deg2km toy_cos toy_sin eight_around
           reference_event 1 3 5 20 eight_selected).
  lia.
Defined.

(** The same sweep, run: the events 5, 6 and 7 are chosen, in the octants
    1, 2 and 3, and five events are left. *)
Example sweep_three_of_eight :
  match sweep toy_delazi toy_deg2km toy_cos toy_sin (Catalog.getEvents eight_around) 3
              (makeEllipsoids 5 20 reference_event) 9 eight_around 1 eight_selected with
  | Value (st, cat) =>
      (map Catalog.id (chosen st), numNeighbors st,
       map fst (Catalog.getEvents cat), map snd (selectedEvents st))
      = ([5; 6; 7], 3, [5; 6; 7], [1; 2; 3; 4; 8])
  | _ => False
  end.
Proof. vm_compute. reflexivity. Qed.

End NeighboursFacts.

(* ===================================================================== *)
(** * Each pair of neighbours once *)
(* ===================================================================== *)

Module NeighboursCatalogFacts.
Import Catalog NeighboursCatalog.

Lemma erase_keys {V} (k x : Z) (m : list (Z * V)) :
  In x (StdMap.keys (StdMap.erase k m)) <-> In x (StdMap.keys m) /\ x <> k.
Proof.
  unfold StdMap.keys, StdMap.erase. induction m as [|[k' v] m IH]; simpl.
  - tauto.
  - destruct (k' =? k) eqn:E; simpl.
    + apply Z.eqb_eq in E. subst. rewrite IH. intuition congruence.
    + apply Z.eqb_neq in E. rewrite IH. intuition congruence.
Qed.

Lemma removeEvent_hasEvent k x c :
  hasEvent x (removeEvent k c) <-> hasEvent x c /\ x <> k.
Proof. unfold hasEvent, removeEvent. simpl. apply erase_keys. Qed.

Lemma removeExisting_hasEvent range : forall c x,
  hasEvent x (removeExisting range c) <->
  hasEvent x c /\ ~ In x (map snd range).
Proof.
  induction range as [|p range IH]; intros c x; simpl.
  - tauto.
  - unfold removeExisting in *. simpl. rewrite IH, removeEvent_hasEvent.
    intuition congruence.
Qed.

Lemma emplace_In {V} k (v : V) m p :
  In p (StdMap.emplace Z.ltb k v m) <-> p = (k, v) \/ In p m.
Proof.
  induction m as [|[k' v'] m IH]; simpl.
  - intuition congruence.
  - destruct (k <? k'); simpl; [intuition congruence|].
    rewrite IH. intuition congruence.
Qed.

Lemma equal_range_In {V} k (m : list (Z * V)) p :
  In p (StdMap.equal_range k m) <-> In p m /\ fst p = k.
Proof.
  unfold StdMap.equal_range. rewrite filter_In. rewrite Z.eqb_eq. tauto.
Qed.

Lemma recordPairs_In curr c : forall pairs p,
  In p (recordPairs curr c pairs) <->
  In p pairs \/ (snd p = curr /\ fst p <> curr /\ hasEvent (fst p) c).
Proof.
  unfold recordPairs, hasEvent, StdMap.keys.
  induction (getEvents c) as [|[k ev] evs IH]; intros pairs p; simpl.
  - intuition.
  - rewrite IH. destruct (k =? curr) eqn:E; simpl.
    + apply Z.eqb_eq in E. subst. intuition congruence.
    + apply Z.eqb_neq in E. rewrite emplace_In. destruct p as [a b]; simpl.
      split.
      * intros [[Hp|Hp]|Hp]; [injection Hp as -> ->; right; auto|auto|intuition].
      * intros [Hp|(Hb & Ha & [Hk|Hin])]; [auto|subst; auto|auto].
Qed.

Lemma find_app_l {V} k (m more : list (Z * V)) v :
  StdMap.find k m = Some v -> StdMap.find k (m ++ more) = Some v.
Proof.
  induction m as [|[k' v'] m IH]; simpl; [discriminate|].
  destruct (k' =? k); auto.
Qed.

Lemma find_app_new {V} k (m : list (Z * V)) v :
  ~ In k (StdMap.keys m) -> StdMap.find k (m ++ [(k, v)]) = Some v.
Proof.
  induction m as [|[k' v'] m IH]; simpl; intros Hk.
  - now rewrite Z.eqb_refl.
  - destruct (k' =? k) eqn:E; [apply Z.eqb_eq in E; tauto|]. apply IH. tauto.
Qed.

Lemma find_In_keys {V} k (m : list (Z * V)) v :
  StdMap.find k m = Some v -> In k (StdMap.keys m).
Proof.
  induction m as [|[k' v'] m IH]; simpl; [discriminate|].
  destruct (k' =? k) eqn:E; [apply Z.eqb_eq in E; auto|auto].
Qed.

Lemma keys_app {V} (m m' : list (Z * V)) :
  StdMap.keys (m ++ m') = StdMap.keys m ++ StdMap.keys m'.
Proof. apply map_app. Qed.

(** The second loop only adds to the catalogs it has gone through. *)
Lemma dedup_done_prefix l : forall pairs done,
  exists more, snd (fold_left dedupStep l (pairs, done)) = done ++ more.
Proof.
  induction l as [|[k c] l IH]; intros pairs done; simpl.
  - exists []. now rewrite app_nil_r.
  - destruct (IH (recordPairs k (removeExisting (StdMap.equal_range k pairs) c) pairs)
                 (done ++ [(k, removeExisting (StdMap.equal_range k pairs) c)]))
      as [more Hmore].
    rewrite Hmore. rewrite <- app_assoc. eauto.
Qed.

(** Once the pair (B, A) is recorded, the catalog of B loses A. *)
Lemma dedup_second A B l : forall pairs done catB,
  In (B, A) pairs -> StdMap.find B l = Some catB -> ~ In B (StdMap.keys done) ->
  exists catB',
    StdMap.find B (snd (fold_left dedupStep l (pairs, done))) = Some catB' /\
    ~ hasEvent A catB'.
Proof.
  induction l as [|[k c] l IH]; intros pairs done catB Hp Hfind Hdone;
    simpl in *; [discriminate|].
  destruct (k =? B) eqn:E.
  - apply Z.eqb_eq in E. subst k. injection Hfind as ->.
    set (catB' := removeExisting (StdMap.equal_range B pairs) catB).
    exists catB'. split.
    + destruct (dedup_done_prefix l (recordPairs B catB' pairs)
                                  (done ++ [(B, catB')])) as [more ->].
      apply find_app_l. apply find_app_new. exact Hdone.
    + unfold catB'. rewrite removeExisting_hasEvent. intros [_ Hn]. apply Hn.
      apply in_map_iff. exists (B, A). split; [reflexivity|].
      apply equal_range_In. auto.
  - apply Z.eqb_neq in E. apply (IH _ _ catB); auto.
    + apply recordPairs_In. auto.
    + rewrite keys_app, in_app_iff. simpl. intuition.
Qed.

(** Until the catalog of A is gone through, B is in no recorded pair; then
    B stays in the catalog of A and the pair (B, A) is recorded. *)
Lemma dedup_first A B catA catB post pre : forall pairs done,
  A <> B ->
  (forall p, In p pairs -> snd p <> B) ->
  ~ In A (StdMap.keys pre) -> ~ In B (StdMap.keys pre) ->
  ~ In A (StdMap.keys done) -> ~ In B (StdMap.keys done) ->
  hasEvent B catA -> StdMap.find B post = Some catB ->
  exists catA' catB',
    let final := snd (fold_left dedupStep (pre ++ (A, catA) :: post) (pairs, done)) in
    StdMap.find A final = Some catA' /\ hasEvent B catA' /\
    StdMap.find B final = Some catB' /\ ~ hasEvent A catB'.
Proof.
  induction pre as [|[k c] pre IH];
    intros pairs done Hne Hpairs HApre HBpre HAdone HBdone HB Hfind; simpl.
  - set (catA' := removeExisting (StdMap.equal_range A pairs) catA).
    assert (HB' : hasEvent B catA').
    { unfold catA'. rewrite removeExisting_hasEvent. split; [exact HB|].
      intros Hin. apply in_map_iff in Hin. destruct Hin as (p & Hp & Hin).
      apply equal_range_In in Hin. apply (Hpairs p); tauto. }
    destruct (dedup_second A B post (recordPairs A catA' pairs)
                           (done ++ [(A, catA')]) catB) as (catB' & HfB & HnA).
    + apply recordPairs_In. right. simpl. auto.
    + exact Hfind.
    + rewrite keys_app, in_app_iff. simpl. intuition.
    + exists catA', catB'. repeat split; auto.
      destruct (dedup_done_prefix post (recordPairs A catA' pairs)
                                  (done ++ [(A, catA')])) as [more ->].
      apply find_app_l. apply find_app_new. exact HAdone.
  - simpl in HApre, HBpre. apply IH; auto.
    + intros p Hp. apply recordPairs_In in Hp. destruct Hp as [Hp|(Hs & _)]; auto.
      rewrite Hs. tauto.
    + rewrite keys_app, in_app_iff. simpl. intuition.
    + rewrite keys_app, in_app_iff. simpl. intuition.
Qed.

Lemma ascending_tail {V} (k : Z) (v : V) m :
  ascending ((k, v) :: m) -> ascending m /\ forall x, In x (StdMap.keys m) -> k < x.
Proof.
  unfold ascending. simpl. intros H. inversion H as [|? ? Hs Hf]; subst.
  split; [exact Hs|]. rewrite List.Forall_forall in Hf. exact Hf.
Qed.

(** In a [std::map], the entry of the smaller key comes first. *)
Lemma ascending_split {V} A B (vA vB : V) m :
  ascending m -> A < B ->
  StdMap.find A m = Some vA -> StdMap.find B m = Some vB ->
  exists pre post, m = pre ++ (A, vA) :: post /\
                   ~ In A (StdMap.keys pre) /\ ~ In B (StdMap.keys pre) /\
                   StdMap.find B post = Some vB.
Proof.
  induction m as [|[k v] m IH]; intros Hasc Hlt HA HB; simpl in *; [discriminate|].
  destruct (ascending_tail _ _ _ Hasc) as [Hm Hk].
  destruct (k =? A) eqn:EA.
  - apply Z.eqb_eq in EA. subst k. injection HA as ->.
    destruct (A =? B) eqn:EB; [apply Z.eqb_eq in EB; lia|].
    exists [], m. simpl. auto.
  - apply Z.eqb_neq in EA. destruct (k =? B) eqn:EB.
    + apply Z.eqb_eq in EB. subst k. apply find_In_keys in HA.
      specialize (Hk A HA). lia.
    + apply Z.eqb_neq in EB.
      destruct (IH Hm Hlt HA HB) as (pre & post & -> & H1 & H2 & H3).
      exists ((k, v) :: pre), post. simpl. intuition.
Qed.

Lemma assign_keys {V} k (v : V) m x :
  In x (StdMap.keys (StdMap.assign Z.ltb k v m)) -> x = k \/ In x (StdMap.keys m).
Proof.
  induction m as [|[k' v'] m IH]; simpl; [intuition|].
  destruct (k <? k'); simpl; [intuition|].
  destruct (k' <? k); simpl; intuition.
Qed.

Lemma assign_ascending {V} k (v : V) m :
  ascending m -> ascending (StdMap.assign Z.ltb k v m).
Proof.
  induction m as [|[k' v'] m IH]; intros Hasc; simpl.
  - repeat constructor.
  - destruct (ascending_tail _ _ _ Hasc) as [Hm Hk].
    destruct (k <? k') eqn:E1.
    + apply Z.ltb_lt in E1. unfold ascending. simpl. constructor; [exact Hasc|].
      constructor; [exact E1|]. apply List.Forall_forall. intros x Hx.
      specialize (Hk x Hx). lia.
    + apply Z.ltb_ge in E1. destruct (k' <? k) eqn:E2.
      * apply Z.ltb_lt in E2. unfold ascending. simpl. constructor; [apply IH, Hm|].
        apply List.Forall_forall. intros x Hx. apply assign_keys in Hx.
        destruct Hx as [->|Hx]; auto.
      * apply Z.ltb_ge in E2. assert (k = k') by lia. subst k'.
        unfold ascending. simpl. exact Hasc.
Qed.

Lemma neighboursByEvent_ascending sel catalog :
  ascending (neighboursByEvent sel catalog).
Proof.
  unfold neighboursByEvent.
  assert (H : forall evs acc, ascending acc ->
            ascending (fold_left
              (fun (acc : list (Z * Catalog.t)) (kv : Z * Event) =>
                 match sel catalog (snd kv) with
                 | Some neighbourCat =>
                     StdMap.assign Z.ltb (id (snd kv))
                       (copyEvent_keepEvId (snd kv) catalog neighbourCat) acc
                 | None => acc
                 end) evs acc)).
  { induction evs as [|kv evs IH]; intros acc Hacc; simpl; [exact Hacc|].
    apply IH. destruct (sel catalog (snd kv)); [apply assign_ascending|]; exact Hacc. }
  apply H. constructor.
Qed.

(** C6. Whatever the selection of the neighbours of one event is, when two
    events A < B of the catalog are each in the neighbourhood of the other,
    the deduplication leaves B in the catalog of A and takes A out of the
    catalog of B: the pair is in exactly one of the two catalogs. *)
Theorem each_pair_once (selectNeighbouringEvents : Catalog.t -> Event -> option Catalog.t)
    (catalog : Catalog.t) (A B : Z) (catA catB : Catalog.t) :
  A < B ->
  StdMap.find A (neighboursByEvent selectNeighbouringEvents catalog) = Some catA ->
  StdMap.find B (neighboursByEvent selectNeighbouringEvents catalog) = Some catB ->
  hasEvent B catA -> hasEvent A catB ->
  exists catA' catB',
    StdMap.find A (selectNeighbouringEventsCatalog selectNeighbouringEvents catalog)
      = Some catA' /\
    StdMap.find B (selectNeighbouringEventsCatalog selectNeighbouringEvents catalog)
      = Some catB' /\
    hasEvent B catA' /\ ~ hasEvent A catB'.
Proof.
  intros Hlt HA HB HBA HAB.
  destruct (ascending_split A B catA catB _
              (neighboursByEvent_ascending selectNeighbouringEvents catalog)
              Hlt HA HB) as (pre & post & Heq & H1 & H2 & H3).
  unfold selectNeighbouringEventsCatalog, removeRepeatedPairs. rewrite Heq.
  destruct (dedup_first A B catA catB post pre [] []) as (catA' & catB' & H);
    auto; try lia.
  simpl in H. exists catA', catB'. tauto.
Qed.

(** With three events that are all neighbours of each other, the catalogs
    are left with the events 1 2 3, 2 3 and 3. *)
Example three_events_deduplicated :
  map (fun kv => (fst kv, StdMap.keys (getEvents (snd kv))))
      (selectNeighbouringEventsCatalog everyone three_events)
  = [(1, [1; 2; 3]); (2, [2; 3]); (3, [3])].
Proof. reflexivity. Qed.

Lemma each_pair_once_witness :
  exists catA' catB',
    StdMap.find 1 (selectNeighbouringEventsCatalog everyone three_events) = Some catA' /\
    StdMap.find 2 (selectNeighbouringEventsCatalog everyone three_events) = Some catB' /\
    hasEvent 2 catA' /\ ~ hasEvent 1 catB'.
Proof.
  apply (each_pair_once everyone three_events 1 2
           (Catalog.mk [] (getEvents three_events) [])
           (Catalog.mk [] (getEvents three_events) [])).
  - lia.
  - reflexivity.
  - reflexivity.
  - unfold hasEvent. simpl. auto.
  - unfold hasEvent. simpl. auto.
Defined.

End NeighboursCatalogFacts.

(* ===================================================================== *)
(** * The memory cache and the exclusion set *)
(* ===================================================================== *)

Module WaveformCacheFacts.
Import Dbl Catalog WaveformCache.

Section CacheFacts.
Variable snr : SnrCfg.
Variable iso : Q -> string.

Local Abbreviation perform := (perform snr iso).
Local Abbreviation performAll := (performAll snr iso).
Local Abbreviation fingerprint := (fingerprint iso).
Local Abbreviation processLoaded := (processLoaded snr).

(** What the end of a call can do to the caches: nothing, exclude the
    fingerprint, or cache the trace that it returns. *)
Lemma processLoaded_cases w tw twToLoad ph checkSnr wfId c trace :
  let r := processLoaded w tw twToLoad ph checkSnr wfId c trace in
  (snd r = c /\ (fst r = Raised \/ fst r = Undefined_behaviour)) \/
  (r = (Returned None, exclude wfId c)) \/
  (exists t, r = (Returned (Some t),
                  mkCaches (<[wfId := t]> (memCache c)) (_excludedWfs c))).
Proof.
  unfold WaveformCache.processLoaded.
  destruct (filter w trace true (filterStr w) (resampleFreq w)) as [tr| |];
    [|left; auto|left; auto].
  destruct (if checkSnr && gtb (minSnr snr) (of_Z 0) then _ else _) as [[|]|];
    [right; left; reflexivity| |left; auto].
  destruct (differ twToLoad tw); [|right; right; eauto].
  destruct (Waveform.trim tr tw) as [[t|]|]; [right; right; eauto|right; left; auto|left; auto].
Qed.

(** The same for a whole call, with the two ways out at its head. *)
Lemma perform_cases k c :
  let wfId := fingerprint k in
  (exists t, memCache c !! wfId = Some t /\ perform k c = (Returned (Some t), c)) \/
  (memCache c !! wfId = None /\ wfId ∈ _excludedWfs c /\
   perform k c = (Returned None, c)) \/
  (memCache c !! wfId = None /\ (wfId ∉ _excludedWfs c) /\
   ((snd (perform k c) = c /\
     (fst (perform k c) = Raised \/ fst (perform k c) = Undefined_behaviour)) \/
    perform k c = (Returned None, exclude wfId c) \/
    exists t, perform k c =
              (Returned (Some t),
               mkCaches (<[wfId := t]> (memCache c)) (_excludedWfs c)))).
Proof.
  intros wfId. unfold WaveformCache.perform, getWaveform. fold (fingerprint k). fold wfId.
  destruct (memCache c !! wfId) as [t|] eqn:Ehit; [left; eauto|right].
  destruct (decide (wfId ∈ _excludedWfs c)) as [Hex|Hex]; [left; auto|right].
  split; [reflexivity|]. split; [exact Hex|].
  destruct (match findSensorLocation (world k) (call_ph k) _ with
            | Some o => _ | None => _ end) as [projectionRequired allComps].
  destruct (negb projectionRequired).
  - destruct (loadWaveform _ _ _ _) as [trace|]; [|right; left; reflexivity].
    apply processLoaded_cases.
  - destruct (negb allComps); [right; left; reflexivity|].
    destruct (loadProjectWaveform _ _ _ _ _) as [trace|]; [|right; left; reflexivity].
    apply processLoaded_cases.
Qed.

(** A call keeps what is cached. *)
Lemma perform_keeps_cached k c wfId t :
  memCache c !! wfId = Some t -> memCache (snd (perform k c)) !! wfId = Some t.
Proof.
  intros Hc.
  destruct (perform_cases k c) as [(t' & _ & ->)|[(_ & _ & ->)|(Hnone & _ & H)]];
    try exact Hc.
  destruct H as [[-> _]|[->|[t' ->]]]; try exact Hc.
  simpl. rewrite lookup_insert_ne; [exact Hc|]. intros <-. congruence.
Qed.

(** A call keeps what is excluded. *)
Lemma perform_keeps_excluded k c wfId :
  wfId ∈ _excludedWfs c -> wfId ∈ _excludedWfs (snd (perform k c)).
Proof.
  intros Hc.
  destruct (perform_cases k c) as [(t' & _ & ->)|[(_ & _ & ->)|(_ & _ & H)]];
    try exact Hc.
  destruct H as [[-> _]|[->|[t' ->]]]; try exact Hc.
  simpl. set_solver.
Qed.

Lemma perform_coherent k c : coherent c -> coherent (snd (perform k c)).
Proof.
  intros Hc.
  destruct (perform_cases k c) as [(t' & _ & ->)|[(_ & _ & ->)|(Hnone & Hex & H)]];
    try exact Hc.
  destruct H as [[-> _]|[->|[t' ->]]]; try exact Hc.
  - intros wfId Hin. simpl in *. apply elem_of_union in Hin.
    destruct Hin as [Hin|Hin]; [|auto].
    apply elem_of_singleton in Hin. subst. exact Hnone.
  - intros wfId Hin. simpl in *. rewrite lookup_insert_ne; [auto|].
    intros <-. contradiction.
Qed.

Lemma performAll_keeps_cached ks : forall c wfId t,
  memCache c !! wfId = Some t -> memCache (performAll ks c) !! wfId = Some t.
Proof.
  induction ks as [|k ks IH]; intros c wfId t Hc; simpl; [exact Hc|].
  apply IH. apply perform_keeps_cached. exact Hc.
Qed.

Lemma performAll_keeps_excluded ks : forall c wfId,
  wfId ∈ _excludedWfs c -> wfId ∈ _excludedWfs (performAll ks c).
Proof.
  induction ks as [|k ks IH]; intros c wfId Hc; simpl; [exact Hc|].
  apply IH. apply perform_keeps_excluded. exact Hc.
Qed.

Lemma performAll_coherent ks : forall c, coherent c -> coherent (performAll ks c).
Proof.
  induction ks as [|k ks IH]; intros c Hc; simpl; [exact Hc|].
  apply IH. apply perform_coherent. exact Hc.
Qed.

(** A trace that a call returns is in the cache after the call. *)
Lemma perform_returns_cached k c t c' :
  perform k c = (Returned (Some t), c') -> memCache c' !! fingerprint k = Some t.
Proof.
  intros H.
  destruct (perform_cases k c) as [(t' & Hhit & E)|[(_ & _ & E)|(_ & _ & E)]].
  - rewrite E in H. injection H as <- <-. exact Hhit.
  - rewrite E in H. discriminate.
  - destruct E as [[E1 [E2|E2]]|[E|[t' E]]]; rewrite ?E in H.
    + rewrite H in E2. discriminate.
    + rewrite H in E2. discriminate.
    + discriminate.
    + injection H as <- <-. simpl. apply lookup_insert_eq.
Qed.

(** A call that returns null leaves its fingerprint excluded. *)
Lemma perform_null_excluded k c c' :
  perform k c = (Returned None, c') -> fingerprint k ∈ _excludedWfs c'.
Proof.
  intros H.
  destruct (perform_cases k c) as [(t' & Hhit & E)|[(_ & Hex & E)|(_ & _ & E)]].
  - rewrite E in H. discriminate.
  - rewrite E in H. injection H as <-. exact Hex.
  - destruct E as [[E1 [E2|E2]]|[E|[t' E]]]; rewrite ?E in H.
    + rewrite H in E2. discriminate.
    + rewrite H in E2. discriminate.
    + injection H as <-. simpl. set_solver.
    + discriminate.
Qed.

(** C7 (amended). Among calls that share one memory cache: once a call has
    returned a trace for a fingerprint, every later call with that
    fingerprint returns that trace from the cache and changes nothing; a
    call that returns null leaves its fingerprint in the exclusion set; and
    once a fingerprint is in the exclusion set, every later call with that
    fingerprint returns null and changes nothing. *)
Theorem getWaveform_one_cache (c0 : caches) (k1 k2 : call) (between : list call) :
  fingerprint k2 = fingerprint k1 ->
  (forall t c1, perform k1 c0 = (Returned (Some t), c1) ->
     perform k2 (performAll between c1)
       = (Returned (Some t), performAll between c1)) /\
  (forall c1, perform k1 c0 = (Returned None, c1) ->
     fingerprint k1 ∈ _excludedWfs c1) /\
  (coherent c0 -> fingerprint k1 ∈ _excludedWfs c0 ->
     perform k2 (performAll between c0) = (Returned None, performAll between c0)).
Proof.
  intros Hfp. split; [|split].
  - intros t c1 H1. apply perform_returns_cached in H1.
    apply (performAll_keeps_cached between) in H1. rewrite <- Hfp in H1.
    destruct (perform_cases k2 (performAll between c1))
      as [(t' & Hhit & E)|[(Hnone & _)|(Hnone & _)]]; congruence.
  - intros c1. apply perform_null_excluded.
  - intros Hc Hex.
    apply (performAll_keeps_excluded between) in Hex.
    pose proof (performAll_coherent between c0 Hc _ Hex) as Hnone.
    rewrite <- Hfp in Hex, Hnone.
    destruct (perform_cases k2 (performAll between c0))
      as [(t' & Hhit & E)|[(_ & _ & E)|(_ & Hnex & _)]];
      [congruence|exact E|contradiction].
Qed.
End CacheFacts.

(** C7, as the specification states it, fails. The memory cache is an
    argument of the call and is looked up before the exclusion set. Of
    three calls with the same fingerprint, the first caches the trace in
    one cache, the second, with another cache, returns null and excludes the
    fingerprint, and the third, with the first cache, returns the trace
    although the fingerprint is excluded. The trace swings between 1 and
    -1, so that the filter, which takes its mean off, leaves it as it is,
    and its ratio of signal to noise is 1, below the threshold 2. *)
Lemma getWaveform_excluded_yet_returned :
  fst first_call = Returned (Some swing_trace) /\
  fst second_call = Returned None /\
  elements (_excludedWfs (snd second_call))
    = [waveformId toy_iso pick_at_2 window_0_4] /\
  fst third_call = Returned (Some swing_trace).
Proof. vm_compute. repeat split. Qed.

Lemma getWaveform_one_cache_witness :
  perform snr_2 toy_iso tested
    (performAll snr_2 toy_iso [tested; untested] (snd (perform snr_2 toy_iso untested no_caches)))
  = (Returned (Some swing_trace),
     performAll snr_2 toy_iso [tested; untested] (snd (perform snr_2 toy_iso untested no_caches)))
  /\
  perform snr_2 toy_iso untested
    (performAll snr_2 toy_iso [tested; untested] (snd (perform snr_2 toy_iso tested no_caches)))
  = (Returned None,
     performAll snr_2 toy_iso [tested; untested] (snd (perform snr_2 toy_iso tested no_caches))).
Proof.
  split.
  - destruct (getWaveform_one_cache snr_2 toy_iso no_caches untested tested
                [tested; untested] eq_refl) as (H & _ & _).
    apply H. vm_compute. reflexivity.
  - destruct (getWaveform_one_cache snr_2 toy_iso
                (snd (perform snr_2 toy_iso tested no_caches)) tested untested
                [tested; untested] eq_refl) as (_ & _ & H).
    apply H.
    + intros wfId _. vm_compute. reflexivity.
    + apply (bool_decide_eq_true_1 _). vm_compute. reflexivity.
Defined.

End WaveformCacheFacts.

(* ===================================================================== *)
(** * Facts about the control files *)
(* ===================================================================== *)

Module ControlFileFacts.
Import ControlFile.

Lemma copy_fold comment (replacements : gmap Z string) lines : forall st,
  linesToReplace st !! lineNum st = None ->
  (forall k, lineNum st < k -> linesToReplace st !! k = replacements !! k) ->
  destFile (fold_left (copyLine comment) lines st)
  = destFile st ++ rewritten comment replacements (lineNum st) lines.
Proof.
  induction lines as [|line rest IH]; intros st Hn Hk; simpl.
  - now rewrite app_nil_r.
  - unfold copyLine at 2. destruct (notComment comment line) eqn:Ec.
    + rewrite (Hk (lineNum st + 1)) by lia.
      destruct (replacements !! (lineNum st + 1)) as [r|] eqn:Er; simpl.
      * rewrite IH; simpl.
        -- now rewrite <- app_assoc.
        -- apply lookup_delete_eq.
        -- intros k Hlt. rewrite lookup_delete_ne by lia. apply Hk. lia.
      * rewrite IH; simpl.
        -- now rewrite <- app_assoc.
        -- rewrite (Hk (lineNum st + 1)) by lia. exact Er.
        -- intros k Hlt. apply Hk. lia.
    + rewrite Hn. rewrite IH; simpl; auto.
      now rewrite <- app_assoc.
Qed.

Lemma rewritten_length comment replacements lines : forall n,
  List.length (rewritten comment replacements n lines) = List.length lines.
Proof.
  induction lines as [|line rest IH]; intros n; simpl; [reflexivity|].
  destruct (notComment comment line); simpl; now rewrite IH.
Qed.

Lemma rewritten_lookup comment replacements lines : forall n i line,
  lines !! i = Some line ->
  rewritten comment replacements n lines !! i
  = Some (if notComment comment line
          then default line (replacements !! (n + numbered comment (take (S i) lines)))
          else line).
Proof.
  induction lines as [|x rest IH]; intros n i line Hi; [discriminate|].
  destruct i as [|i]; simpl in Hi.
  - injection Hi as ->. simpl. unfold numbered. simpl. rewrite ?take_0.
    destruct (notComment comment line); simpl; reflexivity.
  - simpl rewritten. destruct (notComment comment x) eqn:Ex; simpl.
    + rewrite (IH _ _ _ Hi). unfold numbered.
      change (take (S (S i)) (x :: rest)) with (x :: take (S i) rest).
      simpl List.filter. rewrite Ex. simpl List.length.
      destruct (notComment comment line); [|reflexivity].
      do 3 f_equal. lia.
    + rewrite (IH _ _ _ Hi). unfold numbered.
      change (take (S (S i)) (x :: rest)) with (x :: take (S i) rest).
      simpl List.filter. rewrite Ex. reflexivity.
Qed.

Lemma copy_numbered (lines : list string)
    (replacements : gmap Z string) (comment : string) :
  replacements !! 0 = None ->
  exists out,
    copyFileAndReplaceLines (Some lines) true replacements comment = Value out /\
    List.length out = List.length lines /\
    forall i line, lines !! i = Some line ->
      out !! i = Some (if notComment comment line
                       then default line
                              (replacements !! numbered comment (take (S i) lines))
                       else line).
Proof.
  intros H0. eexists. split; [reflexivity|].
  rewrite (copy_fold comment replacements lines (mkCopy 0 replacements []));
    [|exact H0|reflexivity].
  simpl. split; [apply rewritten_length|].
  intros i line Hi. rewrite (rewritten_lookup _ _ _ 0 i line Hi). reflexivity.
Qed.

(** X1. [copyFileAndReplaceLines] writes as many lines as it reads. As long
    as [linesToReplace] has no entry for the line number 0, a line that
    starts with the comment mark is copied as it is, and the k-th of the
    other lines is replaced by the entry for k when there is one and copied
    otherwise. *)
Theorem copyFileAndReplaceLines_numbered (lines : list string)
    (replacements : gmap Z string) (comment : string) :
  replacements !! 0 = None ->
  exists out,
    copyFileAndReplaceLines (Some lines) true replacements comment = Value out /\
    List.length out = List.length lines /\
    forall i line, lines !! i = Some line ->
      out !! i = Some (if notComment comment line
                       then default line
                              (replacements !! numbered comment (take (S i) lines))
                       else line).
Proof.
  intros H0. eexists. split; [reflexivity|].
  rewrite (copy_fold comment replacements lines (mkCopy 0 replacements []));
    [|exact H0|reflexivity].
  cbn [destFile lineNum app]. split; [apply rewritten_length|].
  intros i line Hi. rewrite (rewritten_lookup _ _ _ 0 i line Hi). reflexivity.
Qed.

Example copyFileAndReplaceLines_numbered_witness :
  ({[ 3 := "dt.ct"%string ]} : gmap Z string) !! 0 = None /\
  exists out,
    copyFileAndReplaceLines (Some hypoDD2_inp) true {[ 3 := "dt.ct"%string ]} "*"
      = Value out /\
    List.length out = List.length hypoDD2_inp /\
    forall i line, hypoDD2_inp !! i = Some line ->
      out !! i = Some (if notComment "*" line
                       then default line
                              (({[ 3 := "dt.ct"%string ]} : gmap Z string)
                                 !! numbered "*" (take (S i) hypoDD2_inp))
                       else line).
Proof.
  split; [reflexivity|].
  apply (copyFileAndReplaceLines_numbered hypoDD2_inp {[ 3 := "dt.ct"%string ]} "*").
  reflexivity.
Defined.

Section RunFacts.

Variable fileExists : string -> bool.
Variable readLines : string -> option (list string).
Variable filename : string -> string.

(** The entry of the map that [runHypodd] builds, for any line number. *)
Lemma hypodd_entry (lo n : Z) (n1 n2 n3 n4 n5 n6 n7 n8 n9 : string) :
  (list_to_map [(lo + 1, n1); (lo + 2, n2); (lo + 3, n3); (lo + 4, n4);
                (lo + 5, n5); (lo + 6, n6); (lo + 7, n7); (lo + 8, n8);
                (lo + 9, n9)] : gmap Z string) !! n
  = if (1 <=? n - lo) && (n - lo <=? 9)
    then [n1; n2; n3; n4; n5; n6; n7; n8; n9] !! Z.to_nat (n - lo - 1)
    else None.
Proof.
  simpl list_to_map.
  assert (Hc : n - lo <= 0 \/ n - lo = 1 \/ n - lo = 2 \/ n - lo = 3 \/
               n - lo = 4 \/ n - lo = 5 \/ n - lo = 6 \/ n - lo = 7 \/
               n - lo = 8 \/ n - lo = 9 \/ 10 <= n - lo) by lia.
  destruct Hc as [Hc|Hc].
  { rewrite !lookup_insert_ne, lookup_empty by lia.
    destruct (1 <=? n - lo) eqn:E; [apply Z.leb_le in E; lia|reflexivity]. }
  repeat (destruct Hc as [Hc|Hc];
    [replace (n - lo - 1) with (n - lo - 1) by lia; rewrite Hc;
     replace n with (lo + (n - lo)) at 1 by lia; rewrite Hc;
     rewrite ?lookup_insert_ne by lia; rewrite lookup_insert_eq; reflexivity|]).
  rewrite !lookup_insert_ne, lookup_empty by lia.
  destruct (n - lo <=? 9) eqn:E; [apply Z.leb_le in E; lia|].
  now rewrite andb_false_r.
Qed.

(** X2. When [runHypodd] gets as far as writing hypoDD.inp, the file has
    the lines of the control file, with the nine file names in place of the
    lines 1 to 9, or 2 to 10 when the first line is [hypoDD_2]; the lines
    are counted without those that start with [*], and every other line,
    the version line among them, is copied as it is. *)
Theorem runHypodd_control_file (destOpen : bool)
    (dtccFile dtctFile eventFile stationFile ctrlFile : string)
    (out : list string) :
  runHypodd fileExists readLines filename destOpen
            dtccFile dtctFile eventFile stationFile ctrlFile = Value out ->
  exists ctrl,
    readLines ctrlFile = Some ctrl /\
    List.length out = List.length ctrl /\
    (forall i line, ctrl !! i = Some line ->
       let k := numbered "*" (take (S i) ctrl) - lineOffset ctrl in
       out !! i =
         Some (if notComment "*" line && (1 <=? k) && (k <=? 9)
               then default line
                      (hypoddNames filename dtccFile dtctFile eventFile stationFile
                         !! Z.to_nat (k - 1))
               else line)) /\
    (ctrl !! 0%nat = Some "hypoDD_2"%string -> out !! 0%nat = Some "hypoDD_2"%string).
Proof.
  unfold runHypodd. intros H.
  destruct (negb (fileExists dtccFile)); [discriminate|].
  destruct (negb (fileExists dtctFile)); [discriminate|].
  destruct (negb (fileExists eventFile)); [discriminate|].
  destruct (negb (fileExists stationFile)); [discriminate|].
  destruct (negb (fileExists ctrlFile)); [discriminate|].
  destruct (readLines ctrlFile) as [ctrl|] eqn:Hr; [|discriminate].
  exists ctrl. split; [reflexivity|].
  set (m := list_to_map _ : gmap Z string) in H.
  assert (Hlo : 0 <= lineOffset ctrl <= 1).
  { unfold lineOffset. destruct ctrl as [|l ?]; [lia|]. destruct (String.eqb l _); lia. }
  assert (H0 : m !! 0 = None).
  { unfold m. rewrite hypodd_entry.
    destruct (1 <=? 0 - lineOffset ctrl) eqn:E; [apply Z.leb_le in E; lia|reflexivity]. }
  destruct (copy_numbered ctrl m "*" H0) as (out' & Hout & Hlen & Hat).
  unfold copyFileAndReplaceLines in H, Hout. destruct destOpen; [|discriminate].
  simpl in H, Hout. rewrite H in Hout. injection Hout as <-.
  split; [exact Hlen|].
  assert (Hall : forall i line, ctrl !! i = Some line ->
       let k := numbered "*" (take (S i) ctrl) - lineOffset ctrl in
       out !! i =
         Some (if notComment "*" line && (1 <=? k) && (k <=? 9)
               then default line
                      (hypoddNames filename dtccFile dtctFile eventFile stationFile
                         !! Z.to_nat (k - 1))
               else line)).
  { intros i line Hi k. rewrite (Hat i line Hi).
    destruct (notComment "*" line); [|reflexivity].
    unfold m. rewrite hypodd_entry. fold k. cbn [andb].
    destruct ((1 <=? k) && (k <=? 9)); reflexivity. }
  split; [exact Hall|].
  intros Hfirst. rewrite (Hall 0%nat _ Hfirst).
  destruct ctrl as [|l rest]; [discriminate|]. injection Hfirst as ->.
  reflexivity.
Qed.

End RunFacts.

Example runHypodd_control_file_witness :
  exists out ctrl,
    runHypodd (fun _ => true) (fun _ => Some hypoDD2_inp) toy_filename true
              "/w/dt.cc" "/w/dt.ct" "/w/event.dat" "/w/station.dat" "/w/hypoDD.inp"
      = Value out /\
    out = ["hypoDD_2"; "* cross correlation diff times:"; "dt.cc"; "* catalog:";
           "dt.ct"; "event.dat"; "station.dat"; "hypoDD.loc"; "hypoDD.reloc";
           "hypoDD.sta"; "hypoDD.res"; "hypoDD.src"; "* data type"; "3 3 8"]%string /\
    List.length out = List.length ctrl /\
    (ctrl !! 0%nat = Some "hypoDD_2"%string -> out !! 0%nat = Some "hypoDD_2"%string).
Proof.
  eexists. 
  assert (H : runHypodd (fun _ => true) (fun _ => Some hypoDD2_inp) toy_filename true
              "/w/dt.cc" "/w/dt.ct" "/w/event.dat" "/w/station.dat" "/w/hypoDD.inp"
            = Value ["hypoDD_2"; "* cross correlation diff times:"; "dt.cc"; "* catalog:";
           "dt.ct"; "event.dat"; "station.dat"; "hypoDD.loc"; "hypoDD.reloc";
           "hypoDD.sta"; "hypoDD.res"; "hypoDD.src"; "* data type"; "3 3 8"]%string)
    by (vm_compute; reflexivity).
  destruct (runHypodd_control_file _ _ _ _ _ _ _ _ _ _ H) as (ctrl & _ & Hlen & _ & Hfirst).
  exists ctrl. split; [exact H|]. split; [reflexivity|]. split; [exact Hlen|exact Hfirst].
Defined.

End ControlFileFacts.

(* ===================================================================== *)
(** * More facts about [nextPowerOf2] *)
(* ===================================================================== *)

Module PowerOf2Facts.
Import Dbl DiskCache PowerOf2.

Lemma nextPowerOf2_loop_post a min max : forall fuel b k r,
  0 < min -> max < 2 ^ 30 ->
  0 <= k -> b = min * 2 ^ k -> b < 2 ^ 30 ->
  (k = 0 \/ min * 2 ^ (k - 1) < a /\ b <= max) ->
  nextPowerOf2_loop fuel a b max = Some r ->
  r = -1 /\ gave_up a min max \/ first_candidate a min max r.
Proof.
  induction fuel as [|fuel IH]; intros b k r Hmin Hmax Hk Hb Hint Hprev H;
    cbn [nextPowerOf2_loop] in H.
  - destruct (b <? a) eqn:E; [discriminate|]. apply Z.ltb_ge in E.
    injection H as <-. right. exists k. auto.
  - assert (Hpos : 0 < b) by (subst b; apply Z.mul_pos_pos; [lia|apply Z.pow_pos_nonneg; lia]).
    destruct (b <? a) eqn:E.
    + apply Z.ltb_lt in E. rewrite DiskCacheFacts.shiftl_1_small in H by lia.
      assert (Hd : b * 2 = min * 2 ^ (k + 1)).
      { rewrite Z.pow_add_r by lia. subst b. change (2 ^ 1) with 2. ring. }
      destruct (b * 2 >? max) eqn:E'.
      * injection H as <-. left. split; [reflexivity|]. exists k. subst b. lia.
      * apply (IH _ (k + 1) _) in H; [exact H|exact Hmin|exact Hmax|lia|exact Hd|lia|].
        right. replace (k + 1 - 1) with k by lia. subst b. lia.
    + apply Z.ltb_ge in E. injection H as <-. right. exists k. auto.
Qed.

(** X3. For a positive [min] and for [min] and [max] below 2^30, so that
    no doubling leaves the range of [int], [nextPowerOf2<int>] returns the
    first of [min], [2 min], [4 min], ... that is not below [a], and [-1]
    when a doubling passes [max] before that. When [a] is at most [min]
    the result is [min], whatever [max] is. *)
Theorem nextPowerOf2_first_candidate (a min max : Z) :
  0 < min < 2 ^ 30 -> max < 2 ^ 30 ->
  exists r, nextPowerOf2 a min max = Some r /\
    (r = -1 /\ gave_up a min max \/ first_candidate a min max r) /\
    (a <= min -> r = min).
Proof.
  intros Hmin Hmax.
  destruct (DiskCacheFacts.nextPowerOf2_total a min max Hmin Hmax) as [r E].
  exists r. split; [exact E|]. split.
  - apply (nextPowerOf2_loop_post a min max 33 min 0 r); auto; simpl; lia.
  - intros Ha. unfold nextPowerOf2 in E. cbn [nextPowerOf2_loop] in E.
    destruct (min <? a) eqn:E'; [apply Z.ltb_lt in E'; lia|]. now injection E.
Qed.

(** From 3 the doublings 6, 12, ... reach 1536, the first that is not
    below 1000, without passing 5000. *)
Example nextPowerOf2_first_candidate_witness :
  nextPowerOf2 1000 3 5000 = Some 1536 /\
  (1536 = -1 /\ gave_up 1000 3 5000 \/ first_candidate 1000 3 5000 1536).
Proof.
  destruct (nextPowerOf2_first_candidate 1000 3 5000) as (r & E & H & _);
    [split; [lia|reflexivity]|reflexivity|].
  assert (Hr : r = 1536) by (vm_compute in E; congruence).
  subst r. split; assumption.
Defined.

End PowerOf2Facts.

(* ===================================================================== *)
(** * More facts about the numeric model *)
(* ===================================================================== *)

Module DblMoreFacts.
Import Dbl DblFacts.

Lemma div_fin_pos (x a : Q) : (0 < a)%Q -> div (Fin x) (Fin a) = Fin (x / a).
Proof.
  intros Ha. unfold div.
  destruct (Qeqb a 0) eqn:E; [|reflexivity].
  apply Qeqb_eq in E. lra.
Qed.

Lemma div_inf_pos (s : bool) (a : Q) : (0 < a)%Q -> div (Inf s) (Fin a) = Inf s.
Proof.
  intros Ha. unfold div.
  assert (E : Qltb a 0 = false) by (apply Qltb_nlt; lra).
  rewrite E. now destruct s.
Qed.

Lemma half_pos (s : Q) : (0 < s)%Q -> (0 < s / inject_Z 2)%Q.
Proof. intros Hs. apply Qlt_shift_div_l; [reflexivity|]. lra. Qed.

End DblMoreFacts.

(* ===================================================================== *)
(** * More facts about ellipsoids and octants *)
(* ===================================================================== *)

Module HddEllipsoidMoreFacts.
Import Dbl DblFacts DblMoreFacts HddEllipsoid.

(** The sum of [Ellipsoid::isInside] for the axes [a, a, c] against the
    one for the axes halved. *)
Lemma halved_axes (X Y Z : double) (a c : Q) :
  (0 < a)%Q -> (0 < c)%Q ->
  leb (add (add (div X (Fin (a / inject_Z 2))) (div Y (Fin (a / inject_Z 2))))
           (div Z (Fin (c / inject_Z 2)))) (of_Z 1) = true ->
  leb (add (add (div X (Fin a)) (div Y (Fin a))) (div Z (Fin c))) (of_Z 1) = true.
Proof.
  intros Ha Hc.
  pose proof (half_pos a Ha) as Ha2. pose proof (half_pos c Hc) as Hc2.
  destruct X as [| sx | x]; [intros H; discriminate H| |];
  destruct Y as [| sy | y];
  destruct Z as [| sz | z];
  rewrite ?div_fin_pos, ?div_inf_pos by assumption;
  try (intros H; exact H);
  try (simpl; intros H; discriminate H);
  try (simpl; destruct sx; simpl; intros H; exact H);
  try (simpl; destruct sy; simpl; intros H; exact H).
  all: try (cbn [add]; try destruct (Bool.eqb _ _); cbn [add leb]; intros H; exact H).
  cbn [add leb of_Z]. intros H. apply Qleb_le in H. apply Qleb_le.
  assert (E : (x / (a / inject_Z 2) + y / (a / inject_Z 2) + z / (c / inject_Z 2)
               == 2 * (x / a + y / a + z / c))%Q).
  { field. split; lra. }
  rewrite E in H. 
  destruct (Qlt_le_dec (x / a + y / a + z / c) 0) as [Hn|Hp]; [|].
  - apply Qlt_le_weak. eapply Qlt_trans; [exact Hn|reflexivity].
  - assert (H1 : (inject_Z 1 == 1)%Q) by reflexivity. rewrite H1 in *. lra.
Qed.

Section Geo.
Variable delazi : double -> double -> double -> double -> double * double * double.
Variable deg2km : double -> double.
Variable cos : double -> double.
Variable sin : double -> double.

(** X4. The ellipsoids of the sweep are nested: a point inside the
    ellipsoid of half the size is inside the ellipsoid of the full size,
    for every positive size and whatever the geodesy returns. *)
Theorem ellipsoids_nested (s : Q) (lat0 lon0 depth0 lat lon depth : double) :
  (0 < s)%Q ->
  Ellipsoid_isInside delazi deg2km cos sin
    (new (div (Fin s) (of_Z 2)) lat0 lon0 depth0) lat lon depth = true ->
  Ellipsoid_isInside delazi deg2km cos sin
    (new (Fin s) lat0 lon0 depth0) lat lon depth = true.
Proof.
  intros Hs. unfold Ellipsoid_isInside, new. cbn [Ellipsoid.lat Ellipsoid.lon
    Ellipsoid.depth Ellipsoid.orientation Ellipsoid.axis_a Ellipsoid.axis_b
    Ellipsoid.axis_c].
  destruct (delazi lat lon lat0 lon0) as [[distance az] baz].
  change (of_Z 2) with (Fin (inject_Z 2)).
  rewrite (div_fin_pos s (inject_Z 2)) by reflexivity.
  rewrite (div_fin_pos (s / inject_Z 2) (inject_Z 2)) by reflexivity.
  apply halved_axes; [apply half_pos; exact Hs|exact Hs].
Qed.

(** X5. The innermost ellipsoid of the sweep, of size 0, holds no point,
    not even its own centre: its axes are 0 and the sum of [isInside] is an
    infinity or NaN. [isOutside] of this ellipsoid is the octant test
    alone. *)
Theorem zero_size_ellipsoid (lat0 lon0 depth0 lat lon depth : double) (quadrant : Z) :
  isInside delazi deg2km cos sin (new (of_Z 0) lat0 lon0 depth0) lat lon depth quadrant
    <> Some true /\
  isOutside delazi deg2km cos sin (new (of_Z 0) lat0 lon0 depth0) lat lon depth quadrant
    = isInQuadrant (new (of_Z 0) lat0 lon0 depth0) lat lon depth quadrant.
Proof.
  unfold isInside, isOutside.
  rewrite NeighboursFacts.degenerate_isInside.
  destruct (isInQuadrant _ lat lon depth quadrant) as [q|]; [|split; [discriminate|reflexivity]].
  rewrite andb_false_r, andb_true_r. split; [discriminate|reflexivity].
Qed.
End Geo.

Example ellipsoids_nested_witness :
  (0 < 20)%Q /\
  Ellipsoid_isInside Neighbours.toy_delazi Neighbours.toy_deg2km
    Neighbours.toy_cos Neighbours.toy_sin
    (new (Fin 20) (of_Z 46) (of_Z 7) (of_Z 5)) (of_Z 46) (of_Z 7) (of_Z 6) = true.
Proof.
  split; [reflexivity|].
  apply (ellipsoids_nested Neighbours.toy_delazi Neighbours.toy_deg2km
           Neighbours.toy_cos Neighbours.toy_sin 20); [reflexivity|].
  vm_compute. reflexivity.
Defined.

(** X6. The octant test leaves no gap: every point is in at least one of
    the octants 1 to 8, a point on a boundary being in every octant that
    touches it, so that the origin itself is in all eight. A quadrant
    outside 1..8 makes [isInQuadrant] throw. *)
Theorem octants_leave_no_gap (e : Ellipsoid.t) (lat lon depth : double) :
  (exists q, 1 <= q <= 8 /\ isInQuadrant e lat lon depth q = Some true) /\
  (forall q, 1 <= q <= 8 ->
     isInQuadrant e (Ellipsoid.lat e) (Ellipsoid.lon e) (Ellipsoid.depth e) q = Some true) /\
  (forall q, q < 1 \/ 8 < q -> isInQuadrant e lat lon depth q = None).
Proof.
  split; [|split].
  - destruct (NeighboursFacts.isInQuadrant_some e lat lon depth) as (q & Hq & H).
    exists q. split; [|exact H].
    unfold Neighbours.quadrants in Hq. simpl in Hq.
    repeat (destruct Hq as [<-|Hq]; [lia|]). contradiction.
  - intros q Hq. unfold isInQuadrant, gtb. rewrite !ltb_irrefl. simpl.
    destruct (q <? 1) eqn:E1; [apply Z.ltb_lt in E1; lia|].
    destruct (q >? 8) eqn:E2; [lia|]. reflexivity.
  - intros q Hq. unfold isInQuadrant.
    destruct Hq as [Hq|Hq].
    + apply Z.ltb_lt in Hq. now rewrite Hq.
    + apply Z.gtb_lt in Hq. rewrite Hq. now rewrite orb_true_r.
Qed.

End HddEllipsoidMoreFacts.

(* ===================================================================== *)
(** * More facts about [trim] *)
(* ===================================================================== *)

Module TrimFacts.
Import Dbl DblFacts Waveform.

Lemma Qtrunc_near (q : Q) :
  (inject_Z (Qtrunc q) - 1 < q)%Q /\ (q < inject_Z (Qtrunc q) + 1)%Q.
Proof.
  unfold Qtrunc. destruct q as [a d]. unfold Qlt, Qminus, Qplus, Qopp, inject_Z. simpl.
  pose proof (Z.quot_rem' a (Z.pos d)) as Hq.
  pose proof (Z.rem_bound_abs a (Z.pos d)) as Hr.
  assert (Hd : 0 < Z.pos d) by lia.
  specialize (Hr ltac:(lia)).
  split; nia.
Qed.

Lemma Qtrunc_zero (q : Q) : (q == 0)%Q -> Qtrunc q = 0.
Proof.
  unfold Qtrunc, Qeq. destruct q as [a d]. simpl. intros H.
  assert (a = 0) by lia. subst a. reflexivity.
Qed.

Lemma toInt_fin (x : double) (z : Z) :
  toInt x = Some z -> exists q, x = Fin q /\ z = Qtrunc q.
Proof.
  destruct x as [| |q]; simpl; try discriminate.
  destruct ((INT_MIN <=? Qtrunc q) && (Qtrunc q <=? INT_MAX)); [|discriminate].
  intros [= <-]. eauto.
Qed.

(** A product that converts to an [int] is a product of two numbers. *)
Lemma mul64_fin (x y : double) (z : Z) :
  toInt (mul64 x y) = Some z -> exists q f, x = Fin q /\ y = Fin f.
Proof.
  intros H. destruct (toInt_fin _ _ H) as (r & Hr & _).
  unfold mul64, rounded in Hr.
  destruct x as [| s |q], y as [| s' |f]; simpl in Hr; try discriminate.
  - destruct (Qeqb f 0); discriminate.
  - destruct (Qeqb q 0); discriminate.
  - eauto.
Qed.

Lemma trim_inv trace tw tr' :
  trim trace tw = Some (Some tr') ->
  exists ofs samples f,
    GenericRecord.samplingFrequency trace = Fin f /\
    toInt (mul64 (round64 (TimeWindow.startTime tw - GenericRecord.startTime trace))
                 (Fin f)) = Some ofs /\
    toInt (mul64 (rounded (TimeWindow.length tw)) (Fin f)) = Some samples /\
    0 <= ofs /\ ofs + samples <= GenericRecord.size trace /\
    tr' = GenericRecord.mk (TimeWindow.startTime tw) (Fin f)
            (take (Z.to_nat samples) (drop (Z.to_nat ofs) (GenericRecord.data trace))).
Proof.
  unfold trim. intros H.
  destruct (toInt (mul64 (round64 _) _)) as [ofs|] eqn:Eo; [|discriminate].
  destruct (mul64_fin _ _ _ Eo) as (q & f & _ & Hf).
  rewrite Hf in H, Eo. cbn [mbind option_bind] in H.
  destruct (toInt (mul64 (rounded (TimeWindow.length tw)) (Fin f))) as [samples|] eqn:Es;
    [|discriminate].
  cbn [mbind option_bind] in H.
  destruct (ofs <? 0) eqn:E1; [discriminate|]. apply Z.ltb_ge in E1.
  destruct (ofs + samples >? _) eqn:E2; [discriminate|].
  injection H as <-.
  exists ofs, samples, f.
  repeat split; auto. lia.
Qed.

Lemma toInt_range (x : double) (z : Z) : toInt x = Some z -> INT_MIN <= z <= INT_MAX.
Proof.
  destruct x as [| |q]; simpl; try discriminate.
  destruct ((INT_MIN <=? Qtrunc q) && (Qtrunc q <=? INT_MAX)) eqn:E; [|discriminate].
  intros [= <-]. apply andb_prop in E. destruct E as [E1 E2].
  apply Z.leb_le in E1, E2. lia.
Qed.

(** A rounded number that truncates to [z] comes from a number less than
    one away from [z]. *)
Lemma toInt_round64_near (p : Q) (z : Z) :
  toInt (round64 p) = Some z -> (inject_Z z - 1 < p < inject_Z z + 1)%Q.
Proof.
  intros H. pose proof (toInt_range _ _ H) as Hz. unfold INT_MIN, INT_MAX in Hz.
  destruct (toInt_fin _ _ H) as (r & Er & ->).
  destruct (Qtrunc_near r) as [Hlo Hhi].
  split.
  - apply Qnot_le_lt. intros Hp.
    assert (L : leb (round64 p) (of_Z (Qtrunc r - 1)) = true).
    { apply RoundFacts.round64_le_int; [lia|].
      unfold Zminus. rewrite inject_Z_plus. exact Hp. }
    rewrite Er in L. unfold of_Z in L. cbn [leb] in L. apply DblFacts.Qleb_le in L.
    unfold Zminus in L. rewrite inject_Z_plus in L. change (inject_Z (- (1))) with (- (1))%Q in L.
    lra.
  - apply Qnot_le_lt. intros Hp.
    assert (L : leb (of_Z (Qtrunc r + 1)) (round64 p) = true).
    { apply RoundFacts.round64_ge_int; [lia|]. rewrite inject_Z_plus. exact Hp. }
    rewrite Er in L. unfold of_Z in L. cbn [leb] in L. apply DblFacts.Qleb_le in L.
    rewrite inject_Z_plus in L. change (inject_Z 1) with 1%Q in L. lra.
Qed.

(** X7. When [trim] succeeds with a trace that holds a sample, that trace
    starts at the start of the window, keeps the sampling frequency [f] and
    holds exactly [(int)(length * f)] samples, which are the samples of the
    input from the offset [ofs = (int)(d * f)] on, where [d] is the
    binary64 number nearest to the time from the start of the input to the
    start of the window, and both products are those of binary64. The
    offset is less than one sample away from the exact product of [d] and
    [f]: for a positive [f], the time [ofs / f] of the first sample that
    is kept differs from [d] by less than one sampling interval. *)
Theorem trim_keeps_window (trace tr' : GenericRecord.t) (tw : TimeWindow.t) :
  trim trace tw = Some (Some tr') ->
  1 <= GenericRecord.size tr' ->
  exists ofs f d,
    GenericRecord.samplingFrequency trace = Fin f /\
    GenericRecord.samplingFrequency tr' = Fin f /\
    GenericRecord.startTime tr' = TimeWindow.startTime tw /\
    round64 (TimeWindow.startTime tw - GenericRecord.startTime trace) = Fin d /\
    toInt (mul64 (Fin d) (Fin f)) = Some ofs /\
    toInt (mul64 (rounded (TimeWindow.length tw)) (Fin f))
      = Some (GenericRecord.size tr') /\
    0 <= ofs /\ ofs + GenericRecord.size tr' <= GenericRecord.size trace /\
    (forall i, (i < List.length (GenericRecord.data tr'))%nat ->
       GenericRecord.data tr' !! i = GenericRecord.data trace !! (Z.to_nat ofs + i)%nat) /\
    (inject_Z ofs - 1 < d * f < inject_Z ofs + 1)%Q /\
    ((0 < f)%Q -> (Qabs (d - inject_Z ofs / f) < 1 / f)%Q).
Proof.
  intros H Hsize.
  destruct (trim_inv _ _ _ H) as (ofs & samples & f & Hf & Hofs & Hs & H0 & Hle & ->).
  unfold GenericRecord.size in Hsize, Hle |- *.
  cbn [GenericRecord.data GenericRecord.startTime GenericRecord.samplingFrequency] in *.
  assert (Hlen : List.length (take (Z.to_nat samples)
                    (drop (Z.to_nat ofs) (GenericRecord.data trace))) = Z.to_nat samples).
  { rewrite length_take, length_drop. lia. }
  rewrite Hlen in *.
  destruct (mul64_fin _ _ _ Hofs) as (d & f' & Hd & _).
  rewrite Hd in Hofs.
  assert (Hnear : (inject_Z ofs - 1 < d * f < inject_Z ofs + 1)%Q).
  { apply toInt_round64_near. exact Hofs. }
  exists ofs, f, d. repeat split; auto; try (apply Hnear).
  - rewrite Hs. f_equal. lia.
  - lia.
  - intros i Hi. rewrite lookup_take_lt by lia. apply lookup_drop.
  - intros Hfpos.
    set (x := (d - inject_Z ofs / f)%Q).
    assert (E : (x * f == d * f - inject_Z ofs)%Q) by (unfold x; field; lra).
    assert (E2 : (1 / f * f == 1)%Q) by (field; lra).
    apply (proj2 (Qabs_Qlt_condition x (1 / f))). destruct Hnear as [Hlo Hhi]. split.
    + apply (Qmult_lt_r _ _ f Hfpos). lra.
    + apply (Qmult_lt_r _ _ f Hfpos). lra.
Qed.

(** At 100 Hz, the window from 0.29 s to 0.58 s of the samples 0 to 99
    that start at 0: the offset is 28 and 28 samples are kept. *)
Example trim_keeps_window_witness :
  exists tr' d,
    trim (GenericRecord.mk 0 (of_Z 100) (map of_Z (seqZ 0 100)))
         (TimeWindow.mk (29 # 100) (58 # 100)) = Some (Some tr') /\
    GenericRecord.size tr' = 28 /\
    GenericRecord.startTime tr' = (29 # 100)%Q /\
    round64 (29 # 100) = Fin d /\
    toInt (mul64 (Fin d) (of_Z 100)) = Some 28 /\
    (inject_Z 28 - 1 < d * inject_Z 100 < inject_Z 28 + 1)%Q.
Proof.
  assert (H : trim (GenericRecord.mk 0 (of_Z 100) (map of_Z (seqZ 0 100)))
                   (TimeWindow.mk (29 # 100) (58 # 100))
              = Some (Some (GenericRecord.mk (29 # 100) (of_Z 100)
                              (map of_Z (seqZ 28 28)))))
    by (vm_compute; reflexivity).
  assert (Hs : 1 <= GenericRecord.size (GenericRecord.mk (29 # 100) (of_Z 100)
                                          (map of_Z (seqZ 28 28))))
    by (vm_compute; discriminate).
  destruct (trim_keeps_window _ _ _ H Hs)
    as (ofs & f & d & Hf & _ & Hstart & Hd & Hofs & _ & _ & _ & _ & Hnear & _).
  injection Hf as <-.
  assert (Eofs : ofs = 28).
  { assert (Hd' : round64 ((29 # 100) - 0) = round64 (29 # 100)) by (vm_compute; reflexivity).
    cbn [TimeWindow.startTime GenericRecord.startTime] in Hd. rewrite Hd' in Hd.
    assert (Hc : toInt (mul64 (round64 (29 # 100)) (of_Z 100)) = Some 28)
      by (vm_compute; reflexivity).
    rewrite Hd in Hc. unfold of_Z in Hc. rewrite Hofs in Hc. now injection Hc. }
  subst ofs.
  exists (GenericRecord.mk (29 # 100) (of_Z 100) (map of_Z (seqZ 28 28))), d.
  split; [exact H|]. split; [vm_compute; reflexivity|]. split; [reflexivity|].
  split; [|split; [exact Hofs|exact Hnear]].
  cbn [TimeWindow.startTime GenericRecord.startTime] in Hd.
  assert (Hd' : round64 ((29 # 100) - 0) = round64 (29 # 100)) by (vm_compute; reflexivity).
  rewrite <- Hd'. exact Hd.
Defined.

(** X8. [trim] is idempotent: a trace that [trim] has cut to a window, and
    that holds a sample, is left as it is when it is trimmed to the same
    window again. *)
Theorem trim_idempotent (trace tr' : GenericRecord.t) (tw : TimeWindow.t) :
  trim trace tw = Some (Some tr') ->
  1 <= GenericRecord.size tr' ->
  trim tr' tw = Some (Some tr').
Proof.
  intros H Hsize.
  destruct (trim_inv _ _ _ H) as (ofs & samples & f & Hf & Hofs & Hs & H0 & Hle & ->).
  unfold GenericRecord.size in Hsize, Hle. cbn [GenericRecord.data] in Hsize.
  assert (Hlen : List.length (take (Z.to_nat samples)
                    (drop (Z.to_nat ofs) (GenericRecord.data trace))) = Z.to_nat samples).
  { rewrite length_take, length_drop. lia. }
  unfold trim. cbn [GenericRecord.startTime GenericRecord.samplingFrequency].
  rewrite (RoundFacts.round64_zero (TimeWindow.startTime tw - TimeWindow.startTime tw)) by ring.
  assert (E0 : mul64 (Fin 0) (Fin f) = Fin 0).
  { unfold mul64, rounded. cbn [mul]. apply RoundFacts.round64_zero. ring. }
  rewrite E0. change (toInt (Fin 0)) with (Some 0). cbn [mbind option_bind].
  rewrite Hs. cbn [mbind option_bind].
  unfold GenericRecord.size. cbn [GenericRecord.data]. rewrite Hlen in *.
  change (0 <? 0) with false. cbv iota.
  destruct (0 + samples >? Z.of_nat (Z.to_nat samples)) eqn:E;
    [apply Z.gtb_lt in E; lia|].
  change (Z.to_nat 0) with 0%nat. rewrite drop_0, take_take, Nat.min_id. reflexivity.
Qed.

Example trim_idempotent_witness :
  trim WaveformCache.flat_trace (TimeWindow.mk 1 3)
    = Some (Some (GenericRecord.mk 1 (of_Z 1) (map of_Z [1; 1]))) /\
  1 <= GenericRecord.size (GenericRecord.mk 1 (of_Z 1) (map of_Z [1; 1])) /\
  trim (GenericRecord.mk 1 (of_Z 1) (map of_Z [1; 1])) (TimeWindow.mk 1 3)
    = Some (Some (GenericRecord.mk 1 (of_Z 1) (map of_Z [1; 1]))).
Proof.
  assert (H : trim WaveformCache.flat_trace (TimeWindow.mk 1 3)
              = Some (Some (GenericRecord.mk 1 (of_Z 1) (map of_Z [1; 1]))))
    by (vm_compute; reflexivity).
  assert (Hs : 1 <= GenericRecord.size (GenericRecord.mk 1 (of_Z 1) (map of_Z [1; 1])))
    by (vm_compute; discriminate).
  split; [exact H|]. split; [exact Hs|].
  exact (trim_idempotent _ _ _ H Hs).
Defined.

(** The rounding of the product decides the first sample: at 100 Hz, the
    window from 0.29 s to 0.58 s of a trace that starts at 0 is cut from
    the sample 28 on and holds 28 samples, since the product of the
    binary64 number nearest to 0.29 with 100 is rounded to a number below
    29. *)
Example trim_rounds_down :
  trim (GenericRecord.mk 0 (of_Z 100) (map of_Z (seqZ 0 100)))
       (TimeWindow.mk (29 # 100) (58 # 100))
  = Some (Some (GenericRecord.mk (29 # 100) (of_Z 100) (map of_Z (seqZ 28 28)))).
Proof. vm_compute. reflexivity. Qed.

End TrimFacts.

(* ===================================================================== *)
(** * The positions of [resample] *)
(* ===================================================================== *)

Module ResampleFacts.
Import Dbl DblFacts Resample RoundFacts.

Lemma Qtrunc_nonneg_div (a : Z) (d : positive) : 0 <= a -> Qtrunc (a # d) = a / Z.pos d.
Proof. intros Ha. unfold Qtrunc. simpl. apply Z.quot_div_nonneg; lia. Qed.

Lemma Qtrunc_le (q : Q) : (0 <= q)%Q -> (inject_Z (Qtrunc q) <= q)%Q.
Proof.
  destruct q as [a d]. unfold Qle. simpl. intros Ha.
  rewrite Qtrunc_nonneg_div by lia. rewrite Z.mul_1_r.
  pose proof (Z.mul_div_le a (Z.pos d)). lia.
Qed.

Lemma Qtrunc_nonneg (q : Q) : (0 <= q)%Q -> 0 <= Qtrunc q.
Proof.
  destruct q as [a d]. unfold Qle. simpl. intros Ha.
  rewrite Qtrunc_nonneg_div by lia. apply Z.div_pos; lia.
Qed.

Lemma Qtrunc_ge (i : Z) (q : Q) : (inject_Z i <= q)%Q -> i <= Qtrunc q.
Proof.
  intros H. destruct (TrimFacts.Qtrunc_near q) as [_ Hhi].
  assert (Hlt : (inject_Z i < inject_Z (Qtrunc q + 1))%Q).
  { rewrite inject_Z_plus. change (inject_Z 1) with 1%Q. lra. }
  rewrite <- Zlt_Qlt in Hlt. lia.
Qed.

Lemma Qtrunc_lt (q : Q) (c : Z) : (0 <= q)%Q -> (q < inject_Z c)%Q -> Qtrunc q < c.
Proof.
  intros H0 H. pose proof (Qtrunc_le q H0) as Hle.
  assert (Hlt : (inject_Z (Qtrunc q) < inject_Z c)%Q) by lra.
  rewrite <- Zlt_Qlt in Hlt. exact Hlt.
Qed.

(** [toInt] of a position between a place and the end of the samples. *)
Lemma toInt_position (q : Q) (i cnt : Z) :
  0 <= i -> (inject_Z i <= q)%Q -> (q < inject_Z cnt)%Q -> cnt <= INT_MAX ->
  exists ci, toInt (Fin q) = Some ci /\ i <= ci < cnt.
Proof.
  intros Hi Hle Hlt Hmax.
  assert (H0 : (0 <= q)%Q).
  { apply Qle_trans with (inject_Z i); [|exact Hle].
    change 0%Q with (inject_Z 0). rewrite <- Zle_Qle. exact Hi. }
  pose proof (Qtrunc_ge i q Hle) as H1. pose proof (Qtrunc_lt q cnt H0 Hlt) as H2.
  exists (Qtrunc q). split; [|lia]. simpl.
  destruct (INT_MIN <=? Qtrunc q) eqn:E1; [|apply Z.leb_gt in E1; unfold INT_MIN in E1; lia].
  destruct (Qtrunc q <=? INT_MAX) eqn:E2; [reflexivity|apply Z.leb_gt in E2; lia].
Qed.

Lemma at_in_range (data : list double) (i : Z) :
  0 <= i < Z.of_nat (List.length data) -> exists x, SNR.at_ data i = Some x.
Proof.
  intros Hi. unfold SNR.at_.
  destruct (i <? 0) eqn:E; [apply Z.ltb_lt in E; lia|].
  apply lookup_lt_is_Some_2. lia.
Qed.

Lemma at_agree (data data' : list double) (lo i : Z) :
  (forall j : nat, lo <= Z.of_nat j -> data !! j = data' !! j) ->
  lo <= i -> SNR.at_ data i = SNR.at_ data' i.
Proof.
  intros H Hi. unfold SNR.at_. destruct (i <? 0) eqn:E; [reflexivity|].
  apply Z.ltb_ge in E. apply H. lia.
Qed.

(** A position that is not below a place is a number or the infinity. *)
Lemma leb_of_Z_cases (k : Z) (fi : double) : leb (of_Z k) fi = true ->
  fi = Inf false \/ exists q, fi = Fin q /\ (inject_Z k <= q)%Q.
Proof.
  destruct fi as [| [|] |q]; simpl; try discriminate; auto.
  intros H. right. exists q. split; [reflexivity|]. now apply Qleb_le.
Qed.

(** The next position, [fi + step], after a position that is not below
    [k] with a step that is not below [d]. *)
Lemma add64_ge (k d : Z) (q : Q) (step : double) :
  Z.abs (k + d) < 2 ^ 53 ->
  (inject_Z k <= q)%Q -> leb (of_Z d) step = true ->
  leb (of_Z (k + d)) (add64 (Fin q) step) = true.
Proof.
  intros Hb Hq Hs.
  destruct (leb_of_Z_cases d step Hs) as [->|(qs & -> & Hqs)]; [reflexivity|].
  unfold add64, rounded. cbn [add]. apply round64_ge_int; [exact Hb|].
  rewrite inject_Z_plus. lra.
Qed.

Section Down.

Variable turn : list double -> double -> option double.
Variable orig : list double.
Variable step : double.
Variable W : Z.

Local Abbreviation cnt := (Z.of_nat (List.length orig)).

Hypothesis cnt_int : cnt <= INT_MAX.
Hypothesis W_range : 0 <= W <= INT_MAX.
Hypothesis step_above : leb (of_Z (1 + W)) step = true.

(** At the turn [i], with the position [q], the turn reads no sample
    before the place [i]. *)
Hypothesis turn_frame : forall (i : nat) (q : Q) (data : list double),
  (inject_Z (Z.of_nat i) <= q)%Q ->
  ((1 <= i)%nat -> (inject_Z (Z.of_nat i + W) <= q)%Q) ->
  (q < inject_Z cnt)%Q ->
  List.length data = List.length orig ->
  (forall j : nat, (i <= j)%nat -> data !! j = orig !! j) ->
  turn data (Fin q) = turn orig (Fin q).

Hypothesis turn_defined : forall (q : Q),
  (0 <= q)%Q -> (q < inject_Z cnt)%Q -> exists v, turn orig (Fin q) = Some v.

Lemma step_above_1 : leb (of_Z 1) step = true.
Proof.
  destruct (leb_of_Z_cases _ _ step_above) as [->|(qs & -> & Hqs)]; [reflexivity|].
  simpl. apply Qleb_le. rewrite inject_Z_plus in Hqs.
  assert (0 <= inject_Z W)%Q by (change 0%Q with (inject_Z 0); rewrite <- Zle_Qle; lia).
  change (inject_Z 1) with 1%Q in *. lra.
Qed.

Lemma downLoop_copy : forall (fuel i : nat) (fi : double) (data : list double),
  (i <= List.length orig)%nat ->
  leb (of_Z (Z.of_nat i)) fi = true ->
  ((1 <= i)%nat -> leb (of_Z (Z.of_nat i + W)) fi = true) ->
  List.length data = List.length orig ->
  (forall j : nat, (i <= j)%nat -> data !! j = orig !! j) ->
  (List.length orig < fuel + i)%nat ->
  exists (data' out : list double),
    downLoop turn fuel step cnt (Z.of_nat i) fi data
      = Some (Z.of_nat (i + List.length out), data') /\
    downCopy turn fuel step cnt fi orig = Some out /\
    (i + List.length out <= List.length orig)%nat /\
    List.length data' = List.length orig /\
    (forall j : nat, (j < i)%nat -> data' !! j = data !! j) /\
    (forall j : nat, (j < List.length out)%nat -> data' !! (i + j)%nat = out !! j).
Proof.
  induction fuel as [|fuel IH]; intros i fi data Hicnt Hi HiW Hlen Hagree Hfuel;
    [lia|].
  cbn [downLoop downCopy].
  destruct (ltb fi (of_Z cnt)) eqn:E.
  - destruct (leb_of_Z_cases _ _ Hi) as [->|(q & -> & Hq)]; [discriminate|].
    unfold of_Z in E. cbn [ltb] in E. apply Qltb_lt in E.
    assert (HqW : (1 <= i)%nat -> (inject_Z (Z.of_nat i + W) <= q)%Q).
    { intros H1. specialize (HiW H1). unfold of_Z in HiW. cbn [leb] in HiW.
      now apply Qleb_le in HiW. }
    assert (H0 : (0 <= q)%Q).
    { apply Qle_trans with (inject_Z (Z.of_nat i)); [|exact Hq].
      change 0%Q with (inject_Z 0). rewrite <- Zle_Qle. lia. }
    rewrite (turn_frame i q data Hq HqW E Hlen Hagree).
    destruct (turn_defined q H0 E) as [v Hv]. rewrite Hv.
    cbn [mbind option_bind].
    assert (Hin : Z.of_nat i < cnt).
    { rewrite Zlt_Qlt. apply Qle_lt_trans with q; assumption. }
    unfold store. rewrite Hlen.
    destruct ((0 <=? Z.of_nat i) && (Z.of_nat i <? cnt)) eqn:Eb.
    2:{ apply andb_false_iff in Eb. destruct Eb as [Eb|Eb];
          [apply Z.leb_gt in Eb|apply Z.ltb_ge in Eb]; lia. }
    rewrite Nat2Z.id. cbn [mbind option_bind].
    replace (Z.of_nat i + 1) with (Z.of_nat (S i)) by lia.
    destruct (IH (S i) (add64 (Fin q) step) (<[i := v]> data))
      as (data' & out & Hrun & Hcopy & Hle & Hlen' & Hkeep & Hnew).
    + lia.
    + replace (Z.of_nat (S i)) with (Z.of_nat i + 1) by lia.
      apply add64_ge; [unfold INT_MAX in *; lia|exact Hq|exact step_above_1].
    + intros _. destruct (Nat.eq_dec i 0%nat) as [->|Hne].
      * change (Z.of_nat 1 + W) with (0 + (1 + W)).
        apply add64_ge; [unfold INT_MAX in *; lia|exact Hq|exact step_above].
      * replace (Z.of_nat (S i) + W) with ((Z.of_nat i + W) + 1) by lia.
        apply add64_ge; [unfold INT_MAX in *; lia|apply HqW; lia|exact step_above_1].
    + rewrite length_insert. exact Hlen.
    + intros j Hj. rewrite list_lookup_insert_ne by lia. apply Hagree. lia.
    + lia.
    + exists data', (v :: out). rewrite Hcopy. cbn [mbind option_bind].
      rewrite Hrun. cbn [List.length].
      replace (S i + List.length out)%nat with (i + S (List.length out))%nat by lia.
      split; [reflexivity|]. split; [reflexivity|]. split; [lia|].
      split; [exact Hlen'|]. split.
      * intros j Hj. rewrite Hkeep by lia. apply list_lookup_insert_ne. lia.
      * intros j Hj. destruct j as [|j].
        -- rewrite Nat.add_0_r. rewrite Hkeep by lia.
           rewrite list_lookup_insert_eq by lia. reflexivity.
        -- replace (i + S j)%nat with (S i + j)%nat by lia. apply Hnew.
           cbn [List.length] in Hj. lia.
  - exists data, []. rewrite Nat.add_0_r.
    repeat split; auto; try (simpl; lia).
Qed.

End Down.

(** A number between two numbers is a number. *)
Lemma between_fin (lo hi : Q) (x : double) :
  leb (Fin lo) x = true -> leb x (Fin hi) = true ->
  exists q, x = Fin q /\ (lo <= q <= hi)%Q.
Proof.
  destruct x as [| [|] |q]; simpl; try discriminate.
  rewrite !Qleb_le. eauto.
Qed.

(** The half width [w = (int)(step * 0.5 + 0.5)] of the averaging window
    is at least 1 and not above the step. *)
Lemma half_width_le_step (step : double) (w : Z) :
  leb (of_Z 1) step = true ->
  toInt (add64 (mul64 step (Fin (1 # 2))) (Fin (1 # 2))) = Some w ->
  1 <= w /\ leb (of_Z w) step = true.
Proof.
  intros Hstep Hw.
  destruct (leb_of_Z_cases _ _ Hstep) as [->|(qs & -> & Hqs)]; [discriminate|].
  change (inject_Z 1) with 1%Q in Hqs.
  unfold mul64, rounded in Hw. cbn [mul] in Hw.
  destruct (Qlt_le_dec qs (inject_Z (2 ^ 33))) as [Hsmall|Hbig].
  - set (k := Qfloor qs).
    pose proof (Qfloor_le qs) as Hk1. pose proof (Qlt_floor qs) as Hk2. fold k in Hk1, Hk2.
    rewrite inject_Z_plus in Hk2. change (inject_Z 1) with 1%Q in Hk2.
    assert (Hk : 1 <= k < 2 ^ 33).
    { split.
      - assert (L : (inject_Z 1 < inject_Z (k + 1))%Q)
          by (rewrite inject_Z_plus; change (inject_Z 1) with 1%Q; lra).
        rewrite <- Zlt_Qlt in L. lia.
      - rewrite Zlt_Qlt. lra. }
    assert (Ha1 : leb (Fin (1 # 2)) (round64 (qs * (1 # 2))) = true)
      by (apply round64_ge_half; [reflexivity|lra]).
    assert (Ha2 : leb (round64 (qs * (1 # 2))) (Fin ((k + 1) # 2)) = true).
    { apply round64_le_half; [lia|].
      assert (E : ((k + 1) # 2 == (inject_Z k + 1) * (1 # 2))%Q).
      { rewrite Qmake_Qdiv, inject_Z_plus. change (inject_Z 1) with 1%Q.
        change (inject_Z (Z.pos 2)) with 2%Q. field. }
      rewrite E. lra. }
    destruct (between_fin _ _ _ Ha1 Ha2) as (qa & Ea & Hqa1 & Hqa2).
    rewrite Ea in Hw. unfold add64, rounded in Hw. cbn [add] in Hw.
    assert (Ek1 : ((k + 1) # 2 == (inject_Z k + 1) * (1 # 2))%Q).
    { rewrite Qmake_Qdiv, inject_Z_plus. change (inject_Z 1) with 1%Q.
      change (inject_Z (Z.pos 2)) with 2%Q. field. }
    assert (Ek2 : ((k + 2) # 2 == (inject_Z k + 2) * (1 # 2))%Q).
    { rewrite Qmake_Qdiv, inject_Z_plus. change (inject_Z 2) with 2%Q.
      change (inject_Z (Z.pos 2)) with 2%Q. field. }
    assert (Hb1 : leb (of_Z 1) (round64 (qa + (1 # 2))) = true)
      by (apply round64_ge_int; [reflexivity|change (inject_Z 1) with 1%Q; lra]).
    assert (Hb2 : leb (round64 (qa + (1 # 2))) (Fin ((k + 2) # 2)) = true)
      by (apply round64_le_half; [lia|rewrite Ek2; lra]).
    destruct (between_fin _ _ _ Hb1 Hb2) as (qb & Eb & Hqb1 & Hqb2).
    rewrite Eb in Hw. destruct (TrimFacts.toInt_fin _ _ Hw) as (q' & [= <-] & ->).
    assert (H0 : (0 <= qb)%Q) by (change (inject_Z 1) with 1%Q in Hqb1; lra).
    pose proof (Qtrunc_ge 1 qb Hqb1) as Hw1.
    pose proof (Qtrunc_le qb H0) as Hw2.
    split; [exact Hw1|].
    unfold of_Z. cbn [leb]. apply Qleb_le.
    apply Qle_trans with (inject_Z k); [|exact Hk1].
    rewrite <- Zle_Qle.
    assert (L : (inject_Z (2 * Qtrunc qb) <= inject_Z (k + 2))%Q).
    { rewrite inject_Z_mult, inject_Z_plus. change (inject_Z 2) with 2%Q. lra. }
    rewrite <- Zle_Qle in L. lia.
  - exfalso.
    assert (Ha : leb (of_Z (2 ^ 32)) (round64 (qs * (1 # 2))) = true).
    { apply round64_ge_int; [reflexivity|].
      assert (E : (inject_Z (2 ^ 33) == 2 * inject_Z (2 ^ 32))%Q) by reflexivity.
      lra. }
    destruct (leb_of_Z_cases _ _ Ha) as [Ea|(qa & Ea & Hqa)]; rewrite Ea in Hw;
      [discriminate|].
    unfold add64, rounded in Hw. cbn [add] in Hw.
    assert (Hb : leb (of_Z (2 ^ 32)) (round64 (qa + (1 # 2))) = true)
      by (apply round64_ge_int; [reflexivity|lra]).
    destruct (leb_of_Z_cases _ _ Hb) as [Eb|(qb & Eb & Hqb)]; rewrite Eb in Hw;
      [discriminate|].
    pose proof (Qtrunc_ge _ _ Hqb) as Hbig'.
    simpl in Hw.
    destruct ((INT_MIN <=? Qtrunc qb) && (Qtrunc qb <=? INT_MAX)) eqn:E; [|discriminate].
    apply andb_prop in E. destruct E as [_ E]. apply Z.leb_le in E.
    unfold INT_MAX in E. lia.
Qed.


(** The sums of the averaging window read the array between [lo] and its end. *)
Lemma window_agree (data data' : list double) (lo cnt ci : Z) : forall n g v scale,
  (forall j : nat, lo <= Z.of_nat j -> data !! j = data' !! j) ->
  0 <= ci -> 0 <= g ->
  (lo <= ci - (g + Z.of_nat n - 1) \/ lo <= 0) ->
  window n g ci cnt data v scale = window n g ci cnt data' v scale.
Proof.
  induction n as [|n IH]; intros g v scale Hag Hci Hg Hlo; [reflexivity|].
  cbn [window].
  assert (Hbelow : ci >= g -> SNR.at_ data (ci - g) = SNR.at_ data' (ci - g)).
  { intros Hge. apply (at_agree data data' lo); [exact Hag|lia]. }
  assert (Habove : SNR.at_ data (ci + g) = SNR.at_ data' (ci + g)).
  { apply (at_agree data data' lo); [exact Hag|lia]. }
  rewrite Habove.
  assert (Hnext : forall v' scale',
            window n (g + 1) ci cnt data v' scale' = window n (g + 1) ci cnt data' v' scale')
    by (intros; apply IH; try assumption; lia).
  destruct (ci >=? g) eqn:E1.
  - rewrite Hbelow by (rewrite Z.geb_leb in E1; apply Z.leb_le in E1; lia).
    destruct (SNR.at_ data' (ci - g)) as [x|]; [|reflexivity].
    cbn [mbind option_bind fst snd].
    destruct (INT_MAX <? ci + g); [reflexivity|].
    destruct (ci + g <? cnt).
    + destruct (SNR.at_ data' (ci + g)) as [y|]; [|reflexivity].
      cbn [mbind option_bind fst snd]. apply Hnext.
    + cbn [mbind option_bind fst snd]. apply Hnext.
  - cbn [mbind option_bind fst snd].
    destruct (INT_MAX <? ci + g); [reflexivity|].
    destruct (ci + g <? cnt).
    + destruct (SNR.at_ data' (ci + g)) as [y|]; [|reflexivity].
      cbn [mbind option_bind fst snd]. apply Hnext.
    + cbn [mbind option_bind fst snd]. apply Hnext.
Qed.

Lemma window_defined (data : list double) (cnt ci : Z) : forall n g v scale,
  cnt = Z.of_nat (List.length data) -> 0 <= ci < cnt -> 0 <= g ->
  ci + (g + Z.of_nat n - 1) <= INT_MAX ->
  exists r, window n g ci cnt data v scale = Some r.
Proof.
  induction n as [|n IH]; intros g v scale Hcnt Hci Hg Hmax; [eexists; reflexivity|].
  cbn [window].
  assert (Hnext : forall v' scale', exists r, window n (g + 1) ci cnt data v' scale' = Some r)
    by (intros; apply IH; try assumption; lia).
  assert (Eint : (INT_MAX <? ci + g) = false) by (apply Z.ltb_ge; lia).
  rewrite Eint.
  destruct (ci >=? g) eqn:E1.
  - rewrite Z.geb_leb in E1. apply Z.leb_le in E1.
    destruct (at_in_range data (ci - g)) as [x Hx]; [lia|].
    rewrite Hx. cbn [mbind option_bind fst snd].
    destruct (ci + g <? cnt) eqn:E2.
    + apply Z.ltb_lt in E2.
      destruct (at_in_range data (ci + g)) as [y Hy]; [lia|].
      rewrite Hy. cbn [mbind option_bind fst snd]. apply Hnext.
    + cbn [mbind option_bind fst snd]. apply Hnext.
  - cbn [mbind option_bind fst snd].
    destruct (ci + g <? cnt) eqn:E2.
    + apply Z.ltb_lt in E2.
      destruct (at_in_range data (ci + g)) as [y Hy]; [lia|].
      rewrite Hy. cbn [mbind option_bind fst snd]. apply Hnext.
    + cbn [mbind option_bind fst snd]. apply Hnext.
Qed.

(** The two turns of the downsampling read from their place on. *)
Section Turns.

Variable orig : list double.
Local Abbreviation cnt := (Z.of_nat (List.length orig)).
Hypothesis cnt_int : cnt <= INT_MAX.

Lemma picked_frame (i : nat) (q : Q) (data : list double) :
  (inject_Z (Z.of_nat i) <= q)%Q -> (q < inject_Z cnt)%Q ->
  List.length data = List.length orig ->
  (forall j : nat, (i <= j)%nat -> data !! j = orig !! j) ->
  picked data (Fin q) = picked orig (Fin q).
Proof.
  intros Hq Hlt Hlen Hag. unfold picked.
  destruct (toInt_position q (Z.of_nat i) cnt ltac:(lia) Hq Hlt cnt_int) as (ci & -> & Hci).
  cbn [mbind option_bind].
  apply (at_agree data orig (Z.of_nat i)); [|lia].
  intros j Hj. apply Hag. lia.
Qed.

Lemma picked_defined (q : Q) :
  (0 <= q)%Q -> (q < inject_Z cnt)%Q -> exists v, picked orig (Fin q) = Some v.
Proof.
  intros H0 Hlt. unfold picked.
  destruct (toInt_position q 0 cnt ltac:(lia) H0 Hlt cnt_int) as (ci & -> & Hci).
  cbn [mbind option_bind]. apply at_in_range. lia.
Qed.

Variable w : Z.
Hypothesis w_pos : 1 <= w.
Hypothesis w_int : cnt + w <= INT_MAX.

Lemma averaged_frame (i : nat) (q : Q) (data : list double) :
  (inject_Z (Z.of_nat i) <= q)%Q ->
  ((1 <= i)%nat -> (inject_Z (Z.of_nat i + (w - 1)) <= q)%Q) ->
  (q < inject_Z cnt)%Q ->
  List.length data = List.length orig ->
  (forall j : nat, (i <= j)%nat -> data !! j = orig !! j) ->
  averaged w cnt data (Fin q) = averaged w cnt orig (Fin q).
Proof.
  intros Hq HqW Hlt Hlen Hag. unfold averaged.
  destruct (toInt_position q (Z.of_nat i) cnt ltac:(lia) Hq Hlt cnt_int) as (ci & Hto & Hci).
  rewrite Hto. cbn [mbind option_bind].
  assert (Hag' : forall j : nat, Z.of_nat i <= Z.of_nat j -> data !! j = orig !! j).
  { intros j Hj. apply Hag. lia. }
  rewrite (at_agree data orig (Z.of_nat i) _ Hag') by lia.
  destruct (SNR.at_ orig ci) as [v|]; [|reflexivity]. cbn [mbind option_bind].
  rewrite (window_agree data orig (Z.of_nat i) cnt ci _ 1 v (of_Z 1) Hag');
    [reflexivity|lia|lia|].
  destruct (Nat.eq_dec i 0%nat) as [->|Hne]; [right; reflexivity|left].
  assert (Hge : Z.of_nat i + (w - 1) <= ci).
  { destruct (TrimFacts.toInt_fin _ _ Hto) as (q' & [= <-] & ->).
    apply Qtrunc_ge. apply HqW. lia. }
  rewrite Z2Nat.id by lia. lia.
Qed.

Lemma averaged_defined (q : Q) :
  (0 <= q)%Q -> (q < inject_Z cnt)%Q -> exists v, averaged w cnt orig (Fin q) = Some v.
Proof.
  intros H0 Hlt. unfold averaged.
  destruct (toInt_position q 0 cnt ltac:(lia) H0 Hlt cnt_int) as (ci & -> & Hci).
  cbn [mbind option_bind].
  destruct (at_in_range orig ci) as [v ->]; [lia|]. cbn [mbind option_bind].
  destruct (window_defined orig cnt ci (Z.to_nat (w - 1)) 1 v (of_Z 1)) as [r ->];
    [reflexivity|lia|lia|rewrite Z2Nat.id by lia; lia|].
  cbn [mbind option_bind]. eauto.
Qed.

End Turns.


Lemma take_all_lookup (n : nat) (data' out : list double) :
  n = List.length out -> (n <= List.length data')%nat ->
  (forall j : nat, (j < n)%nat -> data' !! j = out !! j) ->
  take n data' = out.
Proof.
  intros Hn Hle H. apply list_eq. intros j.
  destruct (Nat.lt_ge_cases j n) as [L|G].
  - rewrite lookup_take_lt by exact L. apply H. exact L.
  - rewrite lookup_take_ge by exact G. symmetry. apply lookup_ge_None_2. lia.
Qed.

(** X20. Downsampling, to a frequency [sf] below the frequency of the
    trace, with at most as many samples as an [int] counts less the half
    width [w = (int)(step * 0.5 + 0.5)] of the averaging window ([w = 0]
    without averaging): [resample] ends without undefined behaviour and
    returns the trace with the frequency [sf], the same start time and
    at most as many samples as before. The loop writes into the array
    that it reads, and yet the samples are those that the same loop gives
    when it reads from a copy of the array: with the positions [0],
    [0 + step], [(0 + step) + step], ... in binary64, no turn reads a
    sample that an earlier turn has written. *)
Theorem resample_down (trace : GenericRecord.t) (sf : double) (average : bool)
    (f s : Q) (w : Z) :
  GenericRecord.samplingFrequency trace = Fin f -> sf = Fin s ->
  (0 < s)%Q -> (s < f)%Q ->
  let orig := GenericRecord.data trace in
  let cnt := Z.of_nat (List.length orig) in
  let step := div64 (Fin f) (Fin s) in
  (if average then toInt (add64 (mul64 step (Fin (1 # 2))) (Fin (1 # 2)))
   else Some 0) = Some w ->
  cnt + w <= INT_MAX ->
  exists out,
    resample trace sf average
      = Some (GenericRecord.mk (GenericRecord.startTime trace) sf out) /\
    downCopy (if w <=? 0 then picked else averaged w cnt)
             (S (List.length orig)) step cnt (of_Z 0) orig = Some out /\
    (List.length out <= List.length orig)%nat.
Proof.
  intros Hf -> Hs Hsf orig cnt step Hw Hint.
  assert (Es : Qeqb s 0 = false).
  { destruct (Qeqb s 0) eqn:E; [apply Qeqb_eq in E; lra|reflexivity]. }
  assert (Estep : step = round64 (f / s)).
  { unfold step, div64, rounded. cbn [div]. rewrite Es. reflexivity. }
  assert (Hstep1 : leb (of_Z 1) step = true).
  { rewrite Estep. apply round64_ge_int; [reflexivity|].
    change (inject_Z 1) with 1%Q. apply Qle_shift_div_l; lra. }
  assert (Hwcases : w = 0 /\ average = false \/
                    1 <= w /\ leb (of_Z w) step = true).
  { destruct average.
    - right. apply half_width_le_step; assumption.
    - left. injection Hw as <-. auto. }
  assert (Hcnt : cnt <= INT_MAX) by lia.
  set (W := if w <=? 0 then 0 else w - 1).
  set (turn := if w <=? 0 then picked else averaged w cnt).
  assert (HW : 0 <= W <= INT_MAX).
  { unfold W. destruct (w <=? 0) eqn:E; [unfold INT_MAX; lia|].
    apply Z.leb_gt in E. lia. }
  assert (HstepW : leb (of_Z (1 + W)) step = true).
  { unfold W. destruct Hwcases as [[-> _]|[Hw1 Hle]].
    - exact Hstep1.
    - destruct (w <=? 0) eqn:E; [apply Z.leb_le in E; lia|].
      replace (1 + (w - 1)) with w by lia. exact Hle. }
  destruct (downLoop_copy turn orig step W Hcnt HW HstepW) with
    (fuel := S (List.length orig)) (i := 0%nat) (fi := of_Z 0) (data := orig)
    as (data' & out & Hrun & Hcopy & Hle & Hlen' & _ & Hnew).
  - intros i q data Hq HqW Hlt Hlen Hag. unfold turn, W in *.
    destruct (w <=? 0) eqn:E.
    + apply (picked_frame orig Hcnt i); assumption.
    + apply Z.leb_gt in E. apply (averaged_frame orig Hcnt w ltac:(lia) i); assumption.
  - intros q H0 Hlt. unfold turn. destruct (w <=? 0) eqn:E.
    + apply picked_defined; assumption.
    + apply Z.leb_gt in E. apply averaged_defined; try assumption; lia.
  - lia.
  - reflexivity.
  - intros H; lia.
  - reflexivity.
  - auto.
  - lia.
  - exists out. split; [|split; [exact Hcopy|lia]].
    unfold resample. rewrite Hf.
    assert (E1 : leb (Fin s) (of_Z 0) = false).
    { simpl. apply Qleb_nle. change (inject_Z 0) with 0%Q. lra. }
    assert (E2 : eqb (Fin f) (Fin s) = false).
    { simpl. destruct (Qeqb f s) eqn:E; [apply Qeqb_eq in E; lra|reflexivity]. }
    assert (E3 : ltb (Fin f) (Fin s) = false).
    { simpl. apply Qltb_nlt. lra. }
    rewrite E1, E2, E3. fold orig. fold cnt. fold step.
    rewrite Hw. cbn [mbind option_bind]. fold turn.
    change (Z.of_nat 0) with 0 in Hrun. unfold cnt in *. rewrite Hrun.
    cbn [mbind option_bind fst snd].
    unfold resize. rewrite Nat.add_0_l.
    destruct (Z.of_nat (List.length out) <? 0) eqn:E; [apply Z.ltb_lt in E; lia|].
    cbn [mbind option_bind]. rewrite Nat2Z.id.
    replace (List.length out - List.length data')%nat with 0%nat by lia.
    cbn [replicate]. rewrite app_nil_r.
    rewrite (take_all_lookup (List.length out) data' out); [reflexivity|reflexivity|lia|].
    intros j Hj. apply (Hnew j Hj).
Qed.

(** From 4 Hz to 1 Hz with the average, the half width is 2: the three
    samples are the means around the samples 0, 4 and 8 of the trace. *)
Example resample_down_witness :
  exists out,
    resample ramp (of_Z 1) true = Some (GenericRecord.mk 0 (of_Z 1) out) /\
    downCopy (averaged 2 10) 11 (div64 (of_Z 4) (of_Z 1)) 10 (of_Z 0)
             (GenericRecord.data ramp) = Some out /\
    map canon out = [Fin (1 # 2); Fin 4; Fin 8].
Proof.
  destruct (resample_down ramp (of_Z 1) true 4 1 2) as (out & H1 & H2 & _);
    [reflexivity|reflexivity|reflexivity|reflexivity|vm_compute; reflexivity
    |vm_compute; discriminate|].
  exists out. split; [exact H1|]. split; [exact H2|].
  assert (E : resample ramp (of_Z 1) true
              = Some (GenericRecord.mk 0 (of_Z 1)
                        [Fin (1 # 2); Fin 4; Fin 8]))
    by (vm_compute; reflexivity).
  rewrite E in H1. injection H1 as <-. reflexivity.
Defined.

(** The position [fi] is a sum of rounded steps. From 11 Hz to 10 Hz the
    step 1.1 is no binary64 number, the tenth position is just below 11,
    and the 11 samples of a trace stay 11. *)
Example resample_11_to_10 :
  option_map (fun t => map canon (GenericRecord.data t))
    (resample (GenericRecord.mk 0 (of_Z 11) (map of_Z (seqZ 0 11))) (of_Z 10) false)
  = Some (map of_Z (seqZ 0 11)).
Proof. vm_compute. reflexivity. Qed.

(** From 1 Hz to 3 Hz the position of the ninth sample is just below 2,
    and the sample read is the second one. *)
Example resample_1_to_3 :
  option_map (fun t => map canon (GenericRecord.data t))
    (resample (GenericRecord.mk 0 (of_Z 1) (map of_Z (seqZ 0 4))) (of_Z 3) false)
  = Some (map of_Z [0; 0; 0; 0; 0; 1; 1; 1; 1; 2; 2; 3]).
Proof. vm_compute. reflexivity. Qed.

(** Averaging from 4 Hz to 1 Hz: the window takes one sample on each
    side, and the first sample has no neighbour below. *)
Example resample_4_to_1_averaged :
  option_map (fun t => map canon (GenericRecord.data t))
    (resample ramp (of_Z 1) true)
  = Some [Fin (1 # 2); Fin 4; Fin 8].
Proof. vm_compute. reflexivity. Qed.

End ResampleFacts.

(* ===================================================================== *)
(** * Facts about reading from the record stream *)
(* ===================================================================== *)

Module RecordStreamFacts.
Import Dbl DblFacts RecordStream.

Lemma appendAll_inv sf gap overlap : forall seq last arr out,
  appendAll sf gap overlap last seq arr = Some out ->
  out = arr ++ concat (map rec_data seq) /\
  Forall (fun rec => eqb (rec_samplingFrequency rec) sf = true) seq /\
  (forall l rec rest, last = Some l -> seq = rec :: rest ->
     (overlap <= rec_startTime rec - rec_endTime l <= gap)%Q) /\
  (forall a b pre post, seq = pre ++ a :: b :: post ->
     (overlap <= rec_startTime b - rec_endTime a <= gap)%Q).
Proof.
  induction seq as [|rec rest IH]; intros last arr out H; simpl in H.
  - injection H as <-. rewrite app_nil_r. split; [reflexivity|split; [constructor|split]].
    + intros; discriminate.
    + intros a b pre post E. destruct pre; discriminate.
  - destruct (neb (rec_samplingFrequency rec) sf) eqn:Ef; [discriminate|].
    unfold neb in Ef. apply negb_false_iff in Ef.
    assert (Hfit : match last with
                   | Some l => (overlap <= rec_startTime rec - rec_endTime l <= gap)%Q
                   | None => True end /\
                   appendAll sf gap overlap (Some rec) rest (arr ++ rec_data rec) = Some out).
    { destruct last as [l|]; [|auto].
      destruct (Qltb gap _) eqn:E1; [discriminate|].
      destruct (Qltb _ overlap) eqn:E2; [discriminate|].
      apply Qltb_nlt in E1, E2. auto. }
    destruct Hfit as [Hl Hrest].
    destruct (IH _ _ _ Hrest) as (Hout & Hall & Hfirst & Hpairs).
    split; [|split; [|split]].
    + rewrite Hout. simpl. now rewrite app_assoc.
    + constructor; auto.
    + intros l r rs -> [= <- <-]. exact Hl.
    + intros a b pre post E. destruct pre as [|p pre]; simpl in E.
      * injection E as <- ->. apply (Hfirst rec b post); reflexivity.
      * injection E as <- ->. apply (Hpairs a b pre post). reflexivity.
Qed.

Lemma overlap_opp_gap sf gap overlap :
  TimeSpan (div (Fin (1 # 2)) sf) = Some gap ->
  TimeSpan (div (Fin (- (1 # 2))) sf) = Some overlap ->
  (overlap == - gap)%Q.
Proof.
  destruct sf as [| s | f]; simpl; try discriminate.
  - intros [= <-] [= <-]. reflexivity.
  - destruct (Qeqb f 0) eqn:E; [discriminate|].
    intros [= <-] [= <-].
    assert (Hf : ~ (f == 0)%Q) by (intros H; apply Qeqb_eq in H; congruence).
    field. exact Hf.
Qed.

Lemma merge_inv seq tr :
  merge seq = Some (Some tr) ->
  exists first rest gap,
    seq = first :: rest /\
    tr = GenericRecord.mk (rec_startTime first) (rec_samplingFrequency first)
                          (concat (map rec_data seq)) /\
    Forall (fun rec => eqb (rec_samplingFrequency rec)
                           (rec_samplingFrequency first) = true) seq /\
    TimeSpan (div (Fin (1 # 2)) (rec_samplingFrequency first)) = Some gap /\
    (forall a b pre post, seq = pre ++ a :: b :: post ->
       (- gap <= rec_startTime b - rec_endTime a <= gap)%Q).
Proof.
  unfold merge. destruct seq as [|first rest]; [discriminate|].
  destruct (TimeSpan (div (Fin (1 # 2)) _)) as [gap|] eqn:Eg; [|discriminate].
  cbn [mbind option_bind].
  destruct (TimeSpan (div (Fin (- (1 # 2))) _)) as [overlap|] eqn:Eo; [|discriminate].
  cbn [mbind option_bind].
  destruct (appendAll _ gap overlap None (first :: rest) []) as [arr|] eqn:Ea;
    [|discriminate].
  intros [= <-].
  destruct (appendAll_inv _ _ _ _ _ _ _ Ea) as (Harr & Hall & _ & Hpairs).
  exists first, rest, gap. repeat split; auto.
  - rewrite Harr. reflexivity.
  - pose proof (overlap_opp_gap _ _ _ Eg Eo) as Ho.
    destruct (Hpairs a b pre post H) as [H1 _]. lra.
  - destruct (Hpairs a b pre post H) as [_ H2]. exact H2.
Qed.

(** X9. When [merge] succeeds, the merged trace starts with the first
    record, has its sampling frequency, and holds the samples of all the
    records, none dropped, in the order of the sequence; every record has
    the sampling frequency of the first, and each record starts within half
    a sampling interval of the end of the record before it. *)
Theorem merge_concatenates (seq : list Rec) (tr : GenericRecord.t) :
  merge seq = Some (Some tr) ->
  exists first rest gap,
    seq = first :: rest /\
    GenericRecord.startTime tr = rec_startTime first /\
    GenericRecord.samplingFrequency tr = rec_samplingFrequency first /\
    GenericRecord.data tr = concat (map rec_data seq) /\
    Forall (fun rec => eqb (rec_samplingFrequency rec)
                           (rec_samplingFrequency first) = true) seq /\
    TimeSpan (div (Fin (1 # 2)) (rec_samplingFrequency first)) = Some gap /\
    (forall a b pre post, seq = pre ++ a :: b :: post ->
       (- gap <= rec_startTime b - rec_endTime a <= gap)%Q).
Proof.
  intros H. destruct (merge_inv _ _ H) as (first & rest & gap & -> & -> & Hall & Hg & Hp).
  exists first, rest, gap. repeat split; auto; apply (Hp a b pre post); assumption.
Qed.

Example merge_concatenates_witness :
  exists tr, merge two_records = Some (Some tr) /\
    GenericRecord.data tr = map of_Z [1; 2; 3; 4].
Proof.
  eexists. assert (H : merge two_records
    = Some (Some (GenericRecord.mk 0 (of_Z 1) (map of_Z [1; 2; 3; 4]))))
    by (vm_compute; reflexivity).
  split; [exact H|].
  destruct (merge_concatenates _ _ H) as (first & rest & gap & _ & _ & _ & Hd & _).
  exact Hd.
Defined.

(** X10. [readWaveformFromRecordStream] throws exactly when the record
    stream cannot be opened, when it hands no record, when the records
    cannot be merged or when the merged trace cannot be trimmed to the
    window. A trace that it returns, and that holds a sample, starts at
    the start of the window asked for, has the sampling frequency [f] of
    the first record, holds exactly [(int)(length * f)] samples, and
    these are the consecutive samples of the records, taken in the order
    of the sequence, from the sample [(int)(offset * f)] on, with
    [offset] the time from the start of the first record to the start of
    the window; both products are the ones of binary64. *)
Theorem readWaveform_exact_window (rs : option (list Rec)) (tw : TimeWindow.t) :
  (readWaveformFromRecordStream rs tw = Throws <->
     rs = None \/ rs = Some [] \/
     (exists seq, rs = Some seq /\ merge seq = Some None) \/
     (exists seq merged, rs = Some seq /\ merge seq = Some (Some merged) /\
                         Waveform.trim merged tw = Some None)) /\
  (forall tr,
     readWaveformFromRecordStream rs tw = Trace tr ->
     1 <= GenericRecord.size tr ->
     exists seq first rest f ofs,
       rs = Some seq /\ seq = first :: rest /\
       rec_samplingFrequency first = Fin f /\
       GenericRecord.samplingFrequency tr = Fin f /\
       GenericRecord.startTime tr = TimeWindow.startTime tw /\
       toInt (mul64 (rounded (TimeWindow.length tw)) (Fin f))
         = Some (GenericRecord.size tr) /\
       toInt (mul64 (round64 (TimeWindow.startTime tw - rec_startTime first)) (Fin f))
         = Some ofs /\
       0 <= ofs /\
       (forall i, (i < List.length (GenericRecord.data tr))%nat ->
          GenericRecord.data tr !! i
          = concat (map rec_data seq) !! (Z.to_nat ofs + i)%nat)).
Proof.
  unfold readWaveformFromRecordStream. split; [split|].
  - intros H. destruct rs as [seq|]; [|left; reflexivity].
    destruct seq as [|r0 rest0] eqn:Eseq; [right; left; reflexivity|].
    rewrite <- Eseq in *. right. right.
    destruct (merge seq) as [[merged|]|] eqn:Em; try discriminate.
    + destruct (Waveform.trim merged tw) as [[trimmed|]|] eqn:Et; try discriminate.
      right. exists seq, merged. auto.
    + left. exists seq. auto.
  - intros [->|[->|[(seq & -> & Hm)|(seq & merged & -> & Hm & Ht)]]]; try reflexivity.
    + destruct seq as [|r0 rest0]; [reflexivity|]. rewrite Hm. reflexivity.
    + destruct seq as [|r0 rest0]; [reflexivity|]. rewrite Hm, Ht. reflexivity.
  - intros tr H Hsize.
    destruct rs as [seq|]; [|discriminate].
    destruct seq as [|r0 rest0] eqn:Eseq; [discriminate|]. rewrite <- Eseq in *.
    destruct (merge seq) as [[merged|]|] eqn:Em; try discriminate.
    destruct (Waveform.trim merged tw) as [[trimmed|]|] eqn:Et; try discriminate.
    injection H as ->.
    destruct (merge_inv _ _ Em) as (first & rest & gap & Hseq & Hm & _).
    destruct (TrimFacts.trim_inv _ _ _ Et)
      as (ofs & samples & f & Hf & Hofs & Hs & H0 & Hle & ->).
    subst merged. cbn [GenericRecord.samplingFrequency] in Hf.
    unfold GenericRecord.size in Hsize, Hle |- *.
    cbn [GenericRecord.data GenericRecord.startTime
         GenericRecord.samplingFrequency] in *.
    assert (Hlen : List.length (take (Z.to_nat samples)
                      (drop (Z.to_nat ofs) (concat (map rec_data seq)))) = Z.to_nat samples).
    { rewrite length_take, length_drop. lia. }
    rewrite Hlen in *.
    exists seq, first, rest, f, ofs. repeat split; auto.
    + rewrite Hs. f_equal. lia.
    + intros i Hi. rewrite lookup_take_lt by lia. apply lookup_drop.
Qed.

Example readWaveform_exact_window_witness :
  readWaveformFromRecordStream (Some two_records) (TimeWindow.mk 1 4)
    = Trace (GenericRecord.mk 1 (of_Z 1) (map of_Z [2; 3; 4])) /\
  readWaveformFromRecordStream (Some two_records) (TimeWindow.mk 1 9) = Throws /\
  exists seq merged,
    Some two_records = Some seq /\ merge seq = Some (Some merged) /\
    Waveform.trim merged (TimeWindow.mk 1 9) = Some None.
Proof.
  assert (H : readWaveformFromRecordStream (Some two_records) (TimeWindow.mk 1 4)
              = Trace (GenericRecord.mk 1 (of_Z 1) (map of_Z [2; 3; 4])))
    by (vm_compute; reflexivity).
  assert (H' : readWaveformFromRecordStream (Some two_records) (TimeWindow.mk 1 9)
               = Throws) by (vm_compute; reflexivity).
  split; [exact H|]. split; [exact H'|].
  destruct (proj1 (proj1 (readWaveform_exact_window (Some two_records)
                            (TimeWindow.mk 1 9))) H')
    as [E|[E|[(seq & E & Hm)|Hlast]]]; try discriminate E.
  - injection E as <-. vm_compute in Hm. discriminate Hm.
  - exact Hlast.
Defined.

End RecordStreamFacts.

(* ===================================================================== *)
(** * Facts about the relocation request message *)
(* ===================================================================== *)

Module RelocateRequestFacts.
Import RelocateRequest.

Section MessageFacts.

Variable Origin : Type.

Lemma call_profile (calls : list (setter Origin)) : forall m,
  _profile Origin (fold_left (call Origin) calls m)
  = lastProfile Origin calls (_profile Origin m).
Proof.
  induction calls as [|s rest IH]; intros m; simpl; [reflexivity|].
  rewrite IH. destruct s; reflexivity.
Qed.

Lemma call_one_origin (calls : list (setter Origin)) : forall m,
  (_origin Origin m = None \/ _publicID Origin m = ""%string) ->
  _origin Origin (fold_left (call Origin) calls m) = None \/
  _publicID Origin (fold_left (call Origin) calls m) = ""%string.
Proof.
  induction calls as [|s rest IH]; intros m Hm; simpl; [exact Hm|].
  apply IH. destruct s; simpl; auto.
Qed.

(** X11. Whatever setters are called on a new request message, and in
    whatever order, the message never carries both an origin and an origin
    id: [setOrigin] clears the id and [setOriginId] clears the origin. The
    profile is the one of the last [setProfile], whatever was done to the
    origin in between. *)
Theorem request_names_one_origin (calls : list (setter Origin)) :
  let m := fold_left (call Origin) calls (new Origin) in
  (getOrigin Origin m = None \/ getOriginId Origin m = ""%string) /\
  getProfile Origin m = lastProfile Origin calls ""%string /\
  (forall org, getOriginId Origin (setOrigin Origin org m) = ""%string) /\
  (forall orgId, getOrigin Origin (setOriginId Origin orgId m) = None).
Proof.
  cbv zeta. split; [|split; [|split]].
  - apply call_one_origin. left. reflexivity.
  - unfold getProfile. rewrite call_profile. reflexivity.
  - reflexivity.
  - reflexivity.
Qed.

End MessageFacts.

End RelocateRequestFacts.

(* ===================================================================== *)
(** * The window that is loaded for a phase *)
(* ===================================================================== *)

Module LoadWindowFacts.
Import Dbl DblFacts Catalog WaveformCache.

(** X12. The window of [traceTimeWindowToLoad] always holds the window
    that is needed. With a positive [minSnr] it also holds the noise window
    and the signal window around the pick, and it is the smallest such
    window: its start and its end are among the three starts and the three
    ends. Without a positive [minSnr] it is the needed window itself. *)
Theorem traceTimeWindowToLoad_covers (snr : SnrCfg) (ph : Phase) (neededTW : TimeWindow.t) :
  let twToLoad := traceTimeWindowToLoad snr ph neededTW in
  (TimeWindow.startTime twToLoad <= TimeWindow.startTime neededTW)%Q /\
  (TimeWindow.endTime neededTW <= TimeWindow.endTime twToLoad)%Q /\
  (gtb (minSnr snr) (of_Z 0) = true ->
     (TimeWindow.startTime twToLoad <= phase_time ph + noiseStart snr)%Q /\
     (TimeWindow.startTime twToLoad <= phase_time ph + signalStart snr)%Q /\
     (phase_time ph + noiseEnd snr <= TimeWindow.endTime twToLoad)%Q /\
     (phase_time ph + signalEnd snr <= TimeWindow.endTime twToLoad)%Q /\
     In (TimeWindow.startTime twToLoad)
        [TimeWindow.startTime neededTW; (phase_time ph + noiseStart snr)%Q;
         (phase_time ph + signalStart snr)%Q] /\
     In (TimeWindow.endTime twToLoad)
        [TimeWindow.endTime neededTW; (phase_time ph + noiseEnd snr)%Q;
         (phase_time ph + signalEnd snr)%Q]) /\
  (gtb (minSnr snr) (of_Z 0) = false -> twToLoad = neededTW).
Proof.
  unfold traceTimeWindowToLoad.
  destruct (gtb (minSnr snr) (of_Z 0)); cbn [TimeWindow.startTime TimeWindow.endTime].
  - set (a := TimeWindow.startTime neededTW). set (b := (phase_time ph + noiseStart snr)%Q).
    set (c := (phase_time ph + signalStart snr)%Q).
    set (a' := TimeWindow.endTime neededTW). set (b' := (phase_time ph + noiseEnd snr)%Q).
    set (c' := (phase_time ph + signalEnd snr)%Q).
    pose proof (Q.le_min_l (Qmin a b) c). pose proof (Q.le_min_r (Qmin a b) c).
    pose proof (Q.le_min_l a b). pose proof (Q.le_min_r a b).
    pose proof (Q.le_max_l (Qmax a' b') c'). pose proof (Q.le_max_r (Qmax a' b') c').
    pose proof (Q.le_max_l a' b'). pose proof (Q.le_max_r a' b').
    split; [lra|]. split; [lra|]. split; [|discriminate]. intros _.
    split; [lra|]. split; [lra|]. split; [lra|]. split; [lra|]. split.
    + unfold Qmin. unfold GenericMinMax.gmin.
      destruct (Qcompare _ c), (Qcompare a b); simpl; auto.
    + unfold Qmax. unfold GenericMinMax.gmax.
      destruct (Qcompare _ c'), (Qcompare a' b'); simpl; auto.
  - split; [lra|]. split; [lra|]. split; [discriminate|]. reflexivity.
Qed.

End LoadWindowFacts.

(* ===================================================================== *)
(** * Facts about means and medians *)
(* ===================================================================== *)

Module StatsFacts.
Import Dbl DblFacts RoundFacts Stats.

(** ** The sign of a mean *)

Lemma add64_nonneg (a b : double) :
  leb (of_Z 0) a = true -> leb (of_Z 0) b = true -> leb (of_Z 0) (add64 a b) = true.
Proof.
  intros Ha Hb.
  destruct a as [| [|] |p], b as [| [|] |q]; simpl in Ha, Hb; try discriminate;
    try reflexivity.
  apply Qleb_le in Ha, Hb. unfold add64, rounded. cbn [add].
  apply round64_ge_int; [reflexivity|]. change (inject_Z 0) with 0%Q in *. lra.
Qed.

Lemma accumulate_nonneg (values : list double) : forall init,
  leb (of_Z 0) init = true ->
  Forall (fun v => leb (of_Z 0) v = true) values ->
  leb (of_Z 0) (accumulate values init) = true.
Proof.
  induction values as [|v rest IH]; intros init Hi Hall; [exact Hi|].
  inversion Hall; subst. unfold accumulate. cbn [fold_left].
  apply IH; [apply add64_nonneg; assumption|assumption].
Qed.

Lemma div64_nonneg (a : double) (n : Z) : 0 < n ->
  leb (of_Z 0) a = true -> leb (of_Z 0) (div64 a (of_Z n)) = true.
Proof.
  intros Hn Ha.
  assert (Hq : (0 < inject_Z n)%Q) by (change 0%Q with (inject_Z 0); rewrite <- Zlt_Qlt; exact Hn).
  assert (E0 : Qeqb (inject_Z n) 0 = false).
  { destruct (Qeqb (inject_Z n) 0) eqn:E; [apply Qeqb_eq in E; lra|reflexivity]. }
  assert (E1 : Qltb (inject_Z n) 0 = false) by (apply Qltb_nlt; lra).
  destruct a as [| [|] |p]; simpl in Ha; try discriminate.
  - unfold div64, of_Z. cbn [div rounded]. rewrite E1. reflexivity.
  - apply Qleb_le in Ha. unfold div64, of_Z. cbn [div]. rewrite E0. cbn [rounded].
    apply round64_ge_int; [reflexivity|]. change (inject_Z 0) with 0%Q in *.
    apply Qle_shift_div_l; [exact Hq|]. lra.
Qed.

Lemma deviations_nonneg (values : list double) (c : Q) :
  finite values ->
  Forall (fun v => leb (of_Z 0) v = true) (absoluteDeviations values (Fin c)).
Proof.
  intros Hf. unfold absoluteDeviations. apply List.Forall_forall. intros d Hd.
  apply in_map_iff in Hd. destruct Hd as (v & <- & Hv).
  unfold finite in Hf. rewrite List.Forall_forall in Hf. specialize (Hf v Hv).
  destruct v as [| |q]; try discriminate.
  unfold sub64, rounded, sub. cbn [opp add].
  pose proof (round64_not_nan (q + - c)) as Hn.
  destruct (round64 (q + - c)) as [| s |r]; [congruence|reflexivity|].
  simpl. apply Qleb_le. apply Qabs_nonneg.
Qed.

(** X13. [computeMean] of no value is 0. The mean of values none of
    which is negative or NaN is not negative and not NaN: it is a number
    that is not below 0, or the positive infinity when the sum overflows.
    So the mean absolute deviation of numbers from a number is never
    negative and never NaN. The sum and the quotient are those of
    binary64. *)
Theorem computeMean_sign (values : list double) :
  computeMean [] = of_Z 0 /\
  (Forall (fun v => leb (of_Z 0) v = true) values ->
   leb (of_Z 0) (computeMean values) = true) /\
  (finite values -> forall c : Q,
   leb (of_Z 0) (computeMeanAbsoluteDeviation values (Fin c)) = true).
Proof.
  assert (H : forall vs, Forall (fun v => leb (of_Z 0) v = true) vs ->
                         leb (of_Z 0) (computeMean vs) = true).
  { intros vs Hall. unfold computeMean. destruct vs as [|v rest]; [reflexivity|].
    apply div64_nonneg; [simpl; lia|].
    apply accumulate_nonneg; [reflexivity|exact Hall]. }
  split; [reflexivity|]. split; [apply H|].
  intros Hf c. apply H. apply deviations_nonneg. exact Hf.
Qed.

(** A mean can lie above every value: three times the binary64 number
    nearest to 0.1 add up, in binary64, to more than three times that
    number. *)
Example computeMean_above_every_value :
  let x := round64 (1 # 10) in
  ltb x (computeMean [x; x; x]) = true.
Proof. vm_compute. reflexivity. Qed.

(** ** Sorting *)

Lemma insert_Permutation x l : Permutation (insert x l) (x :: l).
Proof.
  induction l as [|y rest IH]; simpl; [reflexivity|].
  destruct (ltb x y); [reflexivity|].
  rewrite IH. apply perm_swap.
Qed.

Lemma sort_Permutation l : Permutation (sort l) l.
Proof.
  induction l as [|x rest IH]; simpl; [reflexivity|].
  rewrite insert_Permutation. now constructor.
Qed.

Lemma leb_total_fin (p q : Q) : ltb (Fin p) (Fin q) = false -> leb (Fin q) (Fin p) = true.
Proof. simpl. intros H. apply Qltb_nlt in H. now apply Qleb_le. Qed.

Lemma leb_trans_fin (p q r : Q) :
  leb (Fin p) (Fin q) = true -> leb (Fin q) (Fin r) = true -> leb (Fin p) (Fin r) = true.
Proof. simpl. rewrite !Qleb_le. intros. lra. Qed.

Lemma insert_sorted x l :
  finite (x :: l) -> StronglySorted le_d l -> StronglySorted le_d (insert x l).
Proof.
  intros Hf Hs. induction Hs as [|y rest Hrest IH Hy]; simpl.
  - repeat constructor.
  - inversion Hf as [|? ? Hx Hyr]; subst. inversion Hyr as [|? ? Hyf Hrf]; subst.
    destruct x as [| |p]; try discriminate. destruct y as [| |q]; try discriminate.
    destruct (ltb (Fin p) (Fin q)) eqn:E.
    + constructor; [constructor; assumption|].
      assert (Hpq : le_d (Fin p) (Fin q)).
      { unfold le_d. simpl in *. apply Qleb_le. apply Qltb_lt in E. lra. }
      constructor; [exact Hpq|].
      rewrite List.Forall_forall in Hy, Hrf |- *. intros z Hz.
      specialize (Hy z Hz). specialize (Hrf z Hz).
      destruct z as [| |r]; try discriminate.
      unfold le_d in *. eapply leb_trans_fin; eassumption.
    + constructor.
      * apply IH. constructor; assumption.
      * apply leb_total_fin in E.
        assert (Hp : Permutation (insert (Fin p) rest) (Fin p :: rest))
          by apply insert_Permutation.
        rewrite Hp. constructor; assumption.
Qed.

Lemma finite_Permutation l l' : Permutation l l' -> finite l -> finite l'.
Proof. intros Hp. unfold finite. now rewrite Hp. Qed.

Lemma sort_sorted l : finite l -> StronglySorted le_d (sort l).
Proof.
  induction l as [|x rest IH]; intros Hf; simpl; [constructor|].
  inversion Hf; subst. apply insert_sorted; [|now apply IH].
  constructor; [assumption|].
  eapply finite_Permutation; [symmetry; apply sort_Permutation|assumption].
Qed.

Lemma sorted_take_le s : StronglySorted le_d s -> finite s -> forall k x,
  s !! k = Some x -> Forall (fun y => leb y x = true) (take (S k) s).
Proof.
  induction 1 as [|y rest Hrest IH Hy]; intros Hf k x Hk; [discriminate|].
  inversion Hf as [|? ? Hyf Hrf]; subst.
  destruct k as [|k]; simpl in Hk.
  - injection Hk as <-. simpl. rewrite take_0. constructor; [|constructor].
    destruct y; try discriminate. simpl. apply Qleb_le. lra.
  - change (take (S (S k)) (y :: rest)) with (y :: take (S k) rest).
    constructor; [|now apply IH].
    rewrite List.Forall_forall in Hy. apply Hy.
    apply list_elem_of_In. eapply list_elem_of_lookup_2. exact Hk.
Qed.

Lemma sorted_drop_ge s : StronglySorted le_d s -> finite s -> forall k x,
  s !! k = Some x -> Forall (fun y => leb x y = true) (drop k s).
Proof.
  induction 1 as [|y rest Hrest IH Hy]; intros Hf k x Hk; [discriminate|].
  inversion Hf as [|? ? Hyf Hrf]; subst.
  destruct k as [|k]; simpl in Hk.
  - injection Hk as <-. simpl. constructor; [|exact Hy].
    destruct y; try discriminate. simpl. apply Qleb_le. lra.
  - simpl. now apply IH.
Qed.

Lemma filter_all {A} (P : A -> bool) l :
  Forall (fun y => P y = true) l -> List.filter P l = l.
Proof.
  induction 1 as [|y rest Hy _ IH]; simpl; [reflexivity|]. now rewrite Hy, IH.
Qed.

Lemma filter_length_Permutation {A} (P : A -> bool) l l' :
  Permutation l l' -> List.length (List.filter P l) = List.length (List.filter P l').
Proof.
  induction 1 as [|x l l' _ IH|x y l|l l' l'' _ IH1 _ IH2]; simpl.
  - reflexivity.
  - destruct (P x); simpl; now rewrite IH.
  - destruct (P x), (P y); reflexivity.
  - now rewrite IH1.
Qed.

Lemma count_take_le {A} (P : A -> bool) (s : list A) (k : nat) :
  (k <= List.length s)%nat -> Forall (fun y => P y = true) (take k s) ->
  (k <= List.length (List.filter P s))%nat.
Proof.
  intros Hk Hall. rewrite <- (take_drop k s) at 1.
  rewrite List.filter_app, length_app, (filter_all P _ Hall), length_take. lia.
Qed.

Lemma count_drop_ge {A} (P : A -> bool) (s : list A) (k : nat) :
  Forall (fun y => P y = true) (drop k s) ->
  (List.length s - k <= List.length (List.filter P s))%nat.
Proof.
  intros Hall. rewrite <- (take_drop k s) at 2.
  rewrite List.filter_app, length_app, (filter_all P _ Hall), length_drop. lia.
Qed.

Lemma Forall_leb_mono (x m : Q) l :
  (x <= m)%Q -> Forall (fun y => leb y (Fin x) = true) l ->
  Forall (fun y => leb y (Fin m) = true) l.
Proof.
  intros Hxm H. eapply Forall_impl; [exact H|]. cbv beta. intros y Hy.
  destruct y as [| [|] |q]; simpl in *; try discriminate; auto.
  apply Qleb_le. apply Qleb_le in Hy. lra.
Qed.

Lemma Forall_geb_mono (x m : Q) l :
  (m <= x)%Q -> Forall (fun y => leb (Fin x) y = true) l ->
  Forall (fun y => leb (Fin m) y = true) l.
Proof.
  intros Hxm H. eapply Forall_impl; [exact H|]. cbv beta. intros y Hy.
  destruct y as [| [|] |q]; simpl in *; try discriminate; auto.
  apply Qleb_le. apply Qleb_le in Hy. lra.
Qed.


Lemma lookup_In (s values : list double) (k : nat) (x : double) :
  Permutation s values -> s !! k = Some x -> In x values.
Proof.
  intros Hp Hk. apply (Permutation_in _ Hp).
  apply list_elem_of_In. eapply list_elem_of_lookup_2. exact Hk.
Qed.

Lemma finite_fin (values : list double) (x : double) :
  finite values -> In x values -> exists q, x = Fin q.
Proof.
  unfold finite. rewrite List.Forall_forall. intros H Hx. specialize (H x Hx).
  destruct x as [| |q]; try discriminate. eauto.
Qed.

(** The median is one of the values, or the mean of two of them. *)
Lemma computeMedian_elements (values : list double) :
  values <> [] ->
  exists a b, In a values /\ In b values /\
    computeMedian values
      = (if Nat.even (List.length values) then div64 (add64 a b) (of_Z 2) else b).
Proof.
  intros Hne. destruct values as [|v0 rest0] eqn:Ev; [congruence|].
  rewrite <- Ev in *. unfold computeMedian. rewrite Ev. rewrite <- Ev.
  set (s := sort values).
  assert (Hperm : Permutation s values) by apply sort_Permutation.
  assert (Hlen : List.length s = List.length values) by (now rewrite Hperm).
  assert (Hpos : (0 < List.length s)%nat) by (rewrite Hlen, Ev; simpl; lia).
  rewrite <- Hlen.
  assert (Hmid : (List.length s / 2 < List.length s)%nat) by (apply Nat.div_lt; lia).
  destruct (lookup_lt_is_Some_2 s _ Hmid) as [x Hx].
  assert (Hmid' : (List.length s / 2 - 1 < List.length s)%nat) by lia.
  destruct (lookup_lt_is_Some_2 s _ Hmid') as [y Hy].
  rewrite (nth_lookup_Some _ _ _ _ Hx), (nth_lookup_Some _ _ _ _ Hy).
  exists y, x. split; [exact (lookup_In _ _ _ _ Hperm Hy)|].
  split; [exact (lookup_In _ _ _ _ Hperm Hx)|reflexivity].
Qed.



End StatsFacts.

(* ===================================================================== *)
(** * What the sweep chooses *)
(* ===================================================================== *)

Module SweepChoiceFacts.
Import Dbl DblFacts Neighbours SweepChoice.

Section SweepMore.

Variable delazi : double -> double -> double -> double -> double * double * double.
Variable deg2km : double -> double.
Variable cos : double -> double.
Variable sin : double -> double.
Variable srcEvents : list (Z * Catalog.Event).
Variable maxNumNeigh : Z.
Variable ellipsoids : list Ellipsoid.t.

Local Abbreviation pick := (pick delazi deg2km cos sin srcEvents ellipsoids).
Local Abbreviation quadrantLoop :=
  (quadrantLoop delazi deg2km cos sin srcEvents maxNumNeigh ellipsoids).
Local Abbreviation ellipsoidLoop :=
  (ellipsoidLoop delazi deg2km cos sin srcEvents maxNumNeigh ellipsoids).
Local Abbreviation whileLoop :=
  (whileLoop delazi deg2km cos sin srcEvents maxNumNeigh ellipsoids).

(** A property of the state that the two ways on from the head of the
    octant loop keep is kept by the whole sweep. *)
Section Invariant.

Variable I : state -> Prop.

Hypothesis I_stop : forall st,
  I st -> quotaReached maxNumNeigh st = true ->
  I (mkState (selectedEvents st) (chosen st) (numNeighbors st) false).

Hypothesis I_pick : forall st elpsNum quadrant ev sel',
  I st -> quotaReached maxNumNeigh st = false ->
  pick elpsNum quadrant (selectedEvents st) = Value (Some (ev, sel')) ->
  I (mkState sel' (chosen st ++ [ev]) (numNeighbors st + 1) (workToDo st)).

Lemma quadrantLoop_invariant elpsNum qs : forall st st',
  I st -> quadrantLoop elpsNum qs st = Value st' -> I st'.
Proof.
  induction qs as [|q qs IH]; intros st st' Hst H; simpl in H.
  - injection H as <-. exact Hst.
  - destruct (quotaReached maxNumNeigh st) eqn:Eq.
    + injection H as <-. apply I_stop; assumption.
    + destruct (pick elpsNum q (selectedEvents st)) as [[[ev sel']|]| |] eqn:Ep;
        simpl in H; try discriminate.
      * revert H. apply IH. eapply I_pick; eassumption.
      * revert H. apply IH. exact Hst.
Qed.

Lemma ellipsoidLoop_invariant n : forall st st',
  I st -> ellipsoidLoop n st = Value st' -> I st'.
Proof.
  induction n as [|n IH]; intros st st' Hst H.
  - injection H as <-. exact Hst.
  - rewrite NeighboursFacts.ellipsoidLoop_S in H.
    destruct (quadrantLoop n quadrants st) as [st1| |] eqn:E; simpl in H;
      try discriminate.
    apply (IH st1 st'); [|exact H].
    apply (quadrantLoop_invariant n quadrants st); assumption.
Qed.

Lemma whileLoop_invariant fuel : forall st st',
  I st -> whileLoop fuel st = Value st' -> I st'.
Proof.
  induction fuel as [|fuel IH]; intros st st' Hst H.
  - simpl in H. destruct (workToDo st); [discriminate|]. injection H as <-. exact Hst.
  - rewrite NeighboursFacts.whileLoop_S in H.
    destruct (workToDo st); [|injection H as <-; exact Hst].
    destruct (ellipsoidLoop (List.length ellipsoids) st) as [st1| |] eqn:E;
      simpl in H; try discriminate.
    apply (IH st1 st'); [|exact H].
    apply (ellipsoidLoop_invariant (List.length ellipsoids) st); assumption.
Qed.

End Invariant.

Lemma whileLoop_stopped fuel : forall st st',
  whileLoop fuel st = Value st' -> workToDo st' = false.
Proof.
  induction fuel as [|fuel IH]; intros st st' H.
  - simpl in H. destruct (workToDo st) eqn:E; [discriminate|]. now injection H as <-.
  - rewrite NeighboursFacts.whileLoop_S in H.
    destruct (workToDo st) eqn:Ew; [|now injection H as <-].
    destruct (ellipsoidLoop (List.length ellipsoids) st) as [st1| |] eqn:E;
      simpl in H; try discriminate.
    apply (IH st1 st'). exact H.
Qed.

Lemma pick_candidates elpsNum quadrant sel : forall ev sel',
  pick elpsNum quadrant sel = Value (Some (ev, sel')) ->
  Permutation (ev :: candidates srcEvents sel') (candidates srcEvents sel).
Proof.
  induction sel as [|it rest IH]; intros ev sel' H; simpl in H; [discriminate|].
  unfold candidates. simpl.
  destruct (StdMap.find it.2 srcEvents) as [ev0|] eqn:Ef; simpl in H; [|discriminate].
  destruct (found _ _ _ _ _ _ _ ev0) as [[|]|]; simpl in H; try discriminate.
  - injection H as <- <-. reflexivity.
  - destruct (pick elpsNum quadrant rest) as [[[ev1 rest1]|]| |] eqn:E;
      simpl in H; try discriminate.
    injection H as <- <-. simpl. rewrite Ef.
    rewrite <- (IH ev1 rest1 eq_refl). apply perm_swap.
Qed.

(** X15. The events that the sweep hands to the neighbour catalog are
    candidates, each taken once: the chosen events together with the
    events of the entries still in [selectedEvents] are, up to their order,
    the events of the entries that the sweep began with. The catalog that
    is returned is made of the chosen events, copied one by one. *)
Theorem sweep_chooses_candidates (fuel : nat) (srcCat : Catalog.t)
    (minNumNeigh : Z) (selected : list (double * Z))
    (st : state) (cat : Catalog.t) :
  sweep delazi deg2km cos sin srcEvents maxNumNeigh ellipsoids
        fuel srcCat minNumNeigh selected = Value (st, cat) ->
  Permutation (chosen st ++ candidates srcEvents (selectedEvents st))
              (candidates srcEvents selected) /\
  cat = fold_left (fun cat ev => Catalog.copyEvent_keepEvId ev srcCat cat)
                  (chosen st) Catalog.empty.
Proof.
  unfold sweep. intros H.
  destruct (whileLoop fuel (mkState selected [] 0 true)) as [st1| |] eqn:E;
    simpl in H; try discriminate.
  destruct (numNeighbors st1 <? minNumNeigh); [discriminate|].
  injection H as <- <-. split; [|reflexivity].
  apply (whileLoop_invariant
           (fun st => Permutation (chosen st ++ candidates srcEvents (selectedEvents st))
                                  (candidates srcEvents selected)))
    with (fuel := fuel) (st := mkState selected [] 0 true); [| | |exact E].
  - intros st0 Hst _. exact Hst.
  - intros st0 elpsNum quadrant ev sel' Hst _ Hp. simpl.
    rewrite <- Hst, <- (pick_candidates _ _ _ _ _ Hp).
    rewrite <- app_assoc. reflexivity.
  - reflexivity.
Qed.

(** X16. When the sweep returns, the number of neighbours is exactly the
    number of candidates, or [maxNumNeigh] when that is positive and
    smaller: the sweep stops short of a candidate only when the quota is
    reached. That number is at least [minNumNeigh], the sweep throws
    otherwise. *)
Theorem sweep_exact_count (fuel : nat) (srcCat : Catalog.t)
    (minNumNeigh : Z) (selected : list (double * Z))
    (st : state) (cat : Catalog.t) :
  sweep delazi deg2km cos sin srcEvents maxNumNeigh ellipsoids
        fuel srcCat minNumNeigh selected = Value (st, cat) ->
  minNumNeigh <= numNeighbors st /\
  numNeighbors st = Z.of_nat (List.length (chosen st)) /\
  numNeighbors st =
    (if 0 <? maxNumNeigh
     then Z.min maxNumNeigh (Z.of_nat (List.length selected))
     else Z.of_nat (List.length selected)).
Proof.
  unfold sweep. intros H.
  destruct (whileLoop fuel (mkState selected [] 0 true)) as [st1| |] eqn:E;
    simpl in H; try discriminate.
  destruct (numNeighbors st1 <? minNumNeigh) eqn:Emin; [discriminate|].
  injection H as <- _. apply Z.ltb_ge in Emin. split; [exact Emin|].
  assert (Hq : within_quota maxNumNeigh st1).
  { apply (NeighboursFacts.whileLoop_within_quota delazi deg2km cos sin srcEvents
             maxNumNeigh ellipsoids fuel (mkState selected [] 0 true)); [|exact E].
    unfold within_quota. simpl. lia. }
  assert (Hcount : Z.of_nat (List.length (chosen st1))
                   + Z.of_nat (List.length (selectedEvents st1))
                   = Z.of_nat (List.length selected)).
  { apply (whileLoop_invariant
             (fun st => Z.of_nat (List.length (chosen st))
                        + Z.of_nat (List.length (selectedEvents st))
                        = Z.of_nat (List.length selected)))
      with (fuel := fuel) (st := mkState selected [] 0 true); [| | |exact E].
    - intros st0 Hst _. exact Hst.
    - intros st0 elpsNum quadrant ev sel' Hst _ Hp. simpl.
      apply NeighboursFacts.pick_length in Hp. rewrite length_app. simpl. lia.
    - reflexivity. }
  assert (Hstop : stopped_for_cause maxNumNeigh st1).
  { apply (whileLoop_invariant (stopped_for_cause maxNumNeigh))
      with (fuel := fuel) (st := mkState selected [] 0 true); [| | |exact E].
    - intros st0 _ Hr _. exact Hr.
    - intros st0 elpsNum quadrant ev sel' Hst Hr _ Hw. simpl in Hw.
      specialize (Hst Hw). congruence.
    - intros Hw. discriminate. }
  specialize (Hstop (whileLoop_stopped _ _ _ E)).
  destruct Hq as (H0 & Hlen & Hmax). split; [lia|].
  unfold quotaReached in Hstop. apply orb_true_iff in Hstop.
  destruct (0 <? maxNumNeigh) eqn:Epos.
  - apply Z.ltb_lt in Epos. specialize (Hmax Epos).
    destruct Hstop as [Hempty|Hquota].
    + destruct (selectedEvents st1); [|discriminate]. simpl in Hcount. lia.
    + apply andb_true_iff in Hquota. destruct Hquota as [_ Hge].
      rewrite Z.geb_leb in Hge. apply Z.leb_le in Hge. lia.
  - apply Z.ltb_ge in Epos. destruct Hstop as [Hempty|Hquota].
    + destruct (selectedEvents st1); [|discriminate]. simpl in Hcount. lia.
    + apply andb_true_iff in Hquota. destruct Hquota as [Hgt _].
      apply Z.gtb_lt in Hgt. lia.
Qed.

End SweepMore.

Example sweep_chooses_candidates_witness :
  exists st cat,
    sweep toy_delazi toy_deg2km toy_cos toy_sin (Catalog.getEvents eight_around) 3
          (makeEllipsoids 5 20 reference_event) 9 eight_around 1 eight_selected
      = Value (st, cat) /\
    Permutation (chosen st ++ candidates (Catalog.getEvents eight_around)
                                         (selectedEvents st))
                (candidates (Catalog.getEvents eight_around) eight_selected).
Proof.
  destruct (sweep toy_delazi toy_deg2km toy_cos toy_sin (Catalog.getEvents eight_around) 3
              (makeEllipsoids 5 20 reference_event) 9 eight_around 1 eight_selected)
    as [[st cat]| |] eqn:H.
  - exists st, cat. split; [reflexivity|].
    exact (proj1 (sweep_chooses_candidates _ _ _ _ _ _ _ _ _ _ _ _ _ H)).
  - vm_compute in H. discriminate H.
  - vm_compute in H. discriminate H.
Defined.

Example sweep_exact_count_witness :
  exists st cat,
    sweep toy_delazi toy_deg2km toy_cos toy_sin (Catalog.getEvents eight_around) 0
          (makeEllipsoids 5 20 reference_event) 9 eight_around 1 eight_selected
      = Value (st, cat) /\
    numNeighbors st = 8.
Proof.
  destruct (sweep toy_delazi toy_deg2km toy_cos toy_sin (Catalog.getEvents eight_around) 0
              (makeEllipsoids 5 20 reference_event) 9 eight_around 1 eight_selected)
    as [[st cat]| |] eqn:H.
  - exists st, cat. split; [reflexivity|].
    exact (proj2 (proj2 (sweep_exact_count _ _ _ _ _ _ _ _ _ _ _ _ _ H))).
  - vm_compute in H. discriminate H.
  - vm_compute in H. discriminate H.
Defined.

End SweepChoiceFacts.

(* ===================================================================== *)
(** * More facts about the waveform loader *)
(* ===================================================================== *)

Module WaveformCacheMoreFacts.
Import Dbl DblFacts Catalog WaveformCache.

Section CacheMore.
Variable snr : SnrCfg.
Variable iso : Q -> string.

(** X17. A call of [getWaveform] changes nothing but the entry of its own
    fingerprint: every other fingerprint is cached or excluded after the
    call exactly as it was before. Nothing is ever taken out of the memory
    cache or of the exclusion set, and if no fingerprint was both cached
    and excluded before the call, none is after it. *)
Theorem getWaveform_touches_own_fingerprint (k : call) (c : caches) :
  let c' := snd (perform snr iso k c) in
  (forall wfId t, memCache c !! wfId = Some t -> memCache c' !! wfId = Some t) /\
  (forall wfId, wfId ∈ _excludedWfs c -> wfId ∈ _excludedWfs c') /\
  (forall wfId, wfId <> fingerprint iso k ->
     memCache c' !! wfId = memCache c !! wfId /\
     (wfId ∈ _excludedWfs c' <-> wfId ∈ _excludedWfs c)) /\
  (coherent c -> coherent c').
Proof.
  cbv zeta. split; [|split; [|split]].
  - intros wfId t. apply WaveformCacheFacts.perform_keeps_cached.
  - intros wfId. apply WaveformCacheFacts.perform_keeps_excluded.
  - intros wfId Hne.
    destruct (WaveformCacheFacts.perform_cases snr iso k c)
      as [(t' & _ & ->)|[(_ & _ & ->)|(Hnone & Hex & H)]]; try (split; reflexivity).
    destruct H as [[-> _]|[->|[t' ->]]]; try (split; reflexivity).
    + simpl. split; [reflexivity|].
      rewrite elem_of_union, elem_of_singleton. split; [intros [?|?]; [contradiction|assumption]|auto].
    + simpl. rewrite lookup_insert_ne by congruence. split; reflexivity.
  - apply WaveformCacheFacts.perform_coherent.
Qed.

End CacheMore.

(** X18. With [checkSnr] false, the signal-to-noise settings play no part
    in [getWaveform]: the window that is loaded is the window asked for,
    no ratio is computed and nothing is trimmed, so the call ends in the
    same way and leaves the same caches under any two settings. *)
Theorem getWaveform_unchecked_ignores_snr (snr snr' : SnrCfg) (iso : Q -> string)
    (w : World) (tw : TimeWindow.t) (ev : Event) (ph : Phase) (c : caches)
    (useDiskCache : bool) :
  getWaveform snr iso w tw ev ph c useDiskCache false
  = getWaveform snr' iso w tw ev ph c useDiskCache false.
Proof.
  assert (Hd : differ tw tw = false).
  { unfold differ.
    assert (E : forall q, Qeqb q q = true) by (intros q; apply Qeqb_eq; reflexivity).
    now rewrite !E. }
  assert (Hp : forall wfId trace,
            processLoaded snr w tw tw ph false wfId c trace
            = processLoaded snr' w tw tw ph false wfId c trace).
  { intros wfId trace. unfold processLoaded. simpl. rewrite Hd. reflexivity. }
  unfold getWaveform. unfold waveformId.
  destruct (memCache c !! _); [reflexivity|].
  destruct (decide _); [reflexivity|].
  destruct (match findSensorLocation w ph _ with Some o => _ | None => _ end)
    as [projectionRequired allComps].
  destruct (negb projectionRequired).
  - destruct (loadWaveform w tw ph useDiskCache); [apply Hp|reflexivity].
  - destruct (negb allComps); [reflexivity|].
    destruct (loadProjectWaveform w tw ev ph useDiskCache); [apply Hp|reflexivity].
Qed.

End WaveformCacheMoreFacts.

(* ===================================================================== *)
(** * More facts about the cross-correlation of two phases *)
(* ===================================================================== *)

Module XCorrPairMoreFacts.
Import Dbl DblFacts Catalog XCorrPair.

(** The end of [xcorr]: the pairing that it keeps is the second one when
    the coefficient of the first is not finite, or when the coefficient of
    the second is finite and greater, and the first one otherwise. *)
Lemma conclude_weight minCoef tt1 tt2 dt1 c1 dt2 c2 b dtcc weight :
  conclude minCoef tt1 tt2 dt1 c1 dt2 c2 = Some (b, (dtcc, weight)) ->
  let second := negb (isfinite c1) || (isfinite c2 && gtb c2 c1) in
  (b = false -> dtcc = of_Z 0 /\ weight = of_Z 0) /\
  (b = true ->
     exists coeff,
       (if second then c2 else c1) = Fin coeff /\
       weight = Fin (coeff * coeff) /\
       ltb (Fin coeff) minCoef = false /\
       dtcc = sub (sub tt1 tt2) (if second then dt2 else dt1)).
Proof.
  intros H second. unfold conclude in H.
  destruct (negb (isfinite c1) && negb (isfinite c2)) eqn:Ebad.
  - injection H as <- <- <-. split; [auto|discriminate].
  - fold second in H.
    assert (Hc : exists coeff, (if second then c2 else c1) = Fin coeff).
    { unfold second.
      destruct c1 as [| s1 | q1], c2 as [| s2 | q2]; simpl in Ebad;
        try discriminate Ebad; simpl;
        first [ exists q2; reflexivity
              | exists q1; reflexivity
              | destruct (Qltb q1 q2); [exists q2|exists q1]; reflexivity ]. }
    destruct Hc as (coeff & Hcoeff).
    rewrite Hcoeff in H.
    destruct (ltb (Fin coeff) minCoef) eqn:Elow.
    + injection H as <- <- <-. split; [auto|discriminate].
    + injection H as <- <- <-. split; [discriminate|]. intros _.
      exists coeff. auto.
Qed.



End XCorrPairMoreFacts.

(* ===================================================================== *)
(** * What [filterOutPhases] keeps *)
(* ===================================================================== *)

Module PhaseChoiceFacts.
Import Catalog Phases PhaseChoice.

Lemma emplace_Permutation {V} (k : Z) (v : V) (m : list (Z * V)) :
  StdMap.emplace Z.ltb k v m ≡ₚ (k, v) :: m.
Proof.
  induction m as [|[k' v'] rest IH]; simpl; [reflexivity|].
  destruct (k <? k'); [reflexivity|].
  rewrite IH. apply perm_swap.
Qed.

Lemma phaseStep_Permutation P S eid fP fS p :
  map snd (fst (phaseStep P S eid (fP, fS) p))
    ≡ₚ map snd fP ++ List.filter (asP P) [p] /\
  map snd (snd (phaseStep P S eid (fP, fS) p))
    ≡ₚ map snd fS ++ List.filter (asS P S) [p].
Proof.
  unfold phaseStep, asP, asS. simpl.
  destruct (found P (type p)) eqn:EP; simpl.
  - rewrite PhasesFacts.select_emplaces, emplace_Permutation. simpl.
    rewrite app_nil_r. split; [|reflexivity].
    apply Permutation_cons_append.
  - destruct (found S (type p)) eqn:ES; simpl.
    + rewrite PhasesFacts.select_emplaces, emplace_Permutation. simpl.
      rewrite app_nil_r. split; [reflexivity|].
      apply Permutation_cons_append.
    + rewrite !app_nil_r. split; reflexivity.
Qed.

Lemma filter_cons_app {A} (f : A -> bool) (x : A) (l : list A) :
  List.filter f (x :: l) = List.filter f [x] ++ List.filter f l.
Proof. simpl. destruct (f x); reflexivity. Qed.

Lemma phases_fold P S eid (its : list (Z * Phase)) : forall filtered,
  let out := fold_left (fun filtered it => phaseStep P S eid filtered (snd it))
                       its filtered in
  map snd (fst out) ≡ₚ map snd (fst filtered) ++ List.filter (asP P) (map snd its) /\
  map snd (snd out) ≡ₚ map snd (snd filtered) ++ List.filter (asS P S) (map snd its).
Proof.
  induction its as [|it rest IH]; intros [fP fS].
  - simpl. rewrite !app_nil_r. split; reflexivity.
  - cbn [fold_left map fst snd].
    destruct (IH (phaseStep P S eid (fP, fS) (snd it))) as [H1 H2].
    destruct (phaseStep_Permutation P S eid fP fS (snd it)) as [G1 G2].
    rewrite (filter_cons_app (asP P)), (filter_cons_app (asS P S)).
    split.
    + rewrite H1, G1, <- app_assoc. reflexivity.
    + rewrite H2, G2, <- app_assoc. reflexivity.
Qed.

Lemma events_fold P S phases (evs : list (Z * Event)) : forall filtered,
  let out :=
    fold_left
      (fun filtered kv =>
         let event := snd kv in
         fold_left (fun filtered it => phaseStep P S (id event) filtered (snd it))
                   (StdMap.equal_range (id event) phases) filtered)
      evs filtered in
  let seen := flat_map (fun kv => map snd (StdMap.equal_range (id (snd kv)) phases)) evs in
  map snd (fst out) ≡ₚ map snd (fst filtered) ++ List.filter (asP P) seen /\
  map snd (snd out) ≡ₚ map snd (snd filtered) ++ List.filter (asS P S) seen.
Proof.
  induction evs as [|kv rest IH]; intros filtered.
  - simpl. rewrite !app_nil_r. split; reflexivity.
  - cbn [fold_left flat_map].
    set (mid := fold_left _ (StdMap.equal_range (id (snd kv)) phases) filtered).
    destruct (IH mid) as [H1 H2].
    destruct (phases_fold P S (id (snd kv)) (StdMap.equal_range (id (snd kv)) phases) filtered)
      as [G1 G2].
    fold mid in G1, G2. rewrite !List.filter_app.
    split.
    + rewrite H1, G1, <- app_assoc. reflexivity.
    + rewrite H2, G2, <- app_assoc. reflexivity.
Qed.

Lemma rename_Permutation t (filtered : list (Z * Phase)) : forall acc,
  map snd (rename t filtered acc) ≡ₚ map snd acc ++ map (setType t) (map snd filtered).
Proof.
  unfold rename. induction filtered as [|kv rest IH]; intros acc; simpl.
  - rewrite app_nil_r. reflexivity.
  - rewrite IH. rewrite emplace_Permutation. simpl.
    apply Permutation_middle.
Qed.

Lemma emplace_keyed (k : Z) (p : Phase) (m : list (Z * Phase)) :
  k = eventId p ->
  Forall (fun kv => fst kv = eventId (snd kv)) m ->
  Forall (fun kv => fst kv = eventId (snd kv)) (StdMap.emplace Z.ltb k p m).
Proof.
  intros Hk Hm. rewrite emplace_Permutation. constructor; [exact Hk|exact Hm].
Qed.

Lemma rename_keyed t (filtered : list (Z * Phase)) : forall acc,
  Forall (fun kv => fst kv = eventId (snd kv)) acc ->
  Forall (fun kv => fst kv = eventId (snd kv)) (rename t filtered acc).
Proof.
  unfold rename. induction filtered as [|kv rest IH]; intros acc Hacc; simpl; [exact Hacc|].
  apply IH. apply emplace_keyed; [reflexivity|exact Hacc].
Qed.

(** X23. [filterOutPhases] leaves the stations and the events of the
    catalog as they are, and its phases are, up to their order, all the
    phases of the events of the catalog whose type is among
    [PphaseToKeep], under the type P, and all those whose type is among
    [SphaseToKeep] and not among [PphaseToKeep], under the type S, each
    filed under its own event id. No phase of an accepted type is left
    out, whatever the other phases of its event and station. *)
Theorem filterOutPhases_keeps_every_accepted (catalog : Catalog.t)
    (PphaseToKeep SphaseToKeep : list string) :
  let out := filterOutPhases catalog PphaseToKeep SphaseToKeep in
  getStations out = getStations catalog /\
  getEvents out = getEvents catalog /\
  map snd (getPhases out) ≡ₚ accepted catalog PphaseToKeep SphaseToKeep /\
  Forall (fun kv => fst kv = eventId (snd kv)) (getPhases out).
Proof.
  unfold filterOutPhases.
  pose proof (events_fold PphaseToKeep SphaseToKeep (getPhases catalog)
                (getEvents catalog) ([], [])) as H.
  cbv zeta in H.
  destruct (fold_left _ (getEvents catalog) ([], [])) as [filteredP filteredS].
  simpl in H. destruct H as [HP HS]. simpl.
  split; [reflexivity|]. split; [reflexivity|]. split.
  - rewrite rename_Permutation, rename_Permutation. simpl.
    unfold accepted, visited. rewrite HP, HS. reflexivity.
  - apply rename_keyed, rename_keyed. constructor.
Qed.

End PhaseChoiceFacts.

(* ===================================================================== *)
(** * The blocks of dt.ct *)
(* ===================================================================== *)

Module AbsTTimeFacts.
Import Dbl DblFacts Catalog AbsTTime.

Lemma refLoop_line catalog refEv event phase : forall eqlrng2 line,
  (forall kv, In kv eqlrng2 ->
     In (snd kv) (map snd (StdMap.equal_range (id refEv) (getPhases catalog)))) ->
  In phase (map snd (StdMap.equal_range (id event) (getPhases catalog))) ->
  refLoop refEv event phase eqlrng2 = Some line ->
  pairs_phases catalog refEv event line.
Proof.
  induction eqlrng2 as [|[k refPhase] rest IH]; intros line Hin Hph H; cbn [refLoop] in H;
    [discriminate|]. cbv zeta in H.
  destruct (String.eqb (stationId phase) (stationId refPhase) &&
            String.eqb (type phase) (type refPhase)) eqn:E.
  - apply andb_prop in E. destruct E as [E1 E2].
    apply String.eqb_eq in E1. apply String.eqb_eq in E2.
    destruct (ltb (round64 (phase_time refPhase - time refEv)) (of_Z 0)) eqn:L1;
      [discriminate|].
    destruct (ltb (round64 (phase_time phase - time event)) (of_Z 0)) eqn:L2;
      [discriminate|].
    injection H as <-.
    exists phase, refPhase. cbn [sta tt1 tt2 wght pha].
    repeat split; try assumption; try reflexivity.
    apply (Hin (k, refPhase)). now left.
  - apply IH; [|exact Hph|exact H]. intros kv Hkv. apply Hin. now right.
Qed.

Section Loops.

Variable event_eq : Event -> Event -> bool.
Variable catalog : Catalog.t.
Variable refEv : Event.

Local Abbreviation phases := (getPhases catalog).
Local Abbreviation eqlrng2 := (StdMap.equal_range (id refEv) phases).

Lemma phaseLoop_from (event : Event) : forall (eqlrng : list (Z * Phase)) dtCount evStream,
  (forall it, In it eqlrng ->
     In (snd it) (map snd (StdMap.equal_range (id event) phases))) ->
  dtCount = Z.of_nat (List.length evStream) ->
  Z.of_nat (List.length evStream) + Z.of_nat (List.length eqlrng) <= INT_MAX ->
  Forall (pairs_phases catalog refEv event) evStream ->
  exists evStream',
    fold_left (phaseTurn refEv event eqlrng2) eqlrng (Some (dtCount, evStream))
    = Some (Z.of_nat (List.length evStream'), evStream') /\
    (List.length evStream' <= List.length evStream + List.length eqlrng)%nat /\
    Forall (pairs_phases catalog refEv event) evStream'.
Proof.
  induction eqlrng as [|it rest IH]; intros dtCount evStream Hin Hc Hmax Hall.
  - exists evStream. subst dtCount. simpl. split; [reflexivity|]. split; [lia|exact Hall].
  - cbn [fold_left]. unfold phaseTurn at 2. cbn [mbind option_bind].
    cbn [List.length] in Hmax.
    destruct (refLoop refEv event (snd it) eqlrng2) as [line|] eqn:E.
    + destruct (dtCount <? INT_MAX) eqn:El; [|apply Z.ltb_ge in El; lia].
      destruct (IH (dtCount + 1) (evStream ++ [line])) as (ev' & Hrun & Hlen & Hall').
      * intros it' Hit. apply Hin. now right.
      * rewrite length_app. simpl. lia.
      * rewrite length_app. simpl. lia.
      * apply Forall_app. split; [exact Hall|]. constructor; [|constructor].
        apply refLoop_line with (phase := snd it) (eqlrng2 := eqlrng2).
        -- intros kv Hkv. apply in_map. exact Hkv.
        -- apply Hin. now left.
        -- exact E.
      * exists ev'. split; [exact Hrun|]. split; [|exact Hall'].
        rewrite length_app in Hlen. simpl in Hlen. simpl. lia.
    + destruct (IH dtCount evStream) as (ev' & Hrun & Hlen & Hall').
      * intros it' Hit. apply Hin. now right.
      * exact Hc.
      * lia.
      * exact Hall.
      * exists ev'. split; [exact Hrun|]. split; [simpl; lia|exact Hall'].
Qed.

Lemma equal_range_length {V} (k : Z) (m : list (Z * V)) :
  (List.length (StdMap.equal_range k m) <= List.length m)%nat.
Proof. unfold StdMap.equal_range. apply List.filter_length_le. Qed.

Hypothesis phases_int : Z.of_nat (List.length phases) <= INT_MAX.

Lemma phaseLoop_sound (event : Event) :
  exists evStream,
    phaseLoop refEv event (StdMap.equal_range (id event) phases) eqlrng2
      = Some (Z.of_nat (List.length evStream), evStream) /\
    (List.length evStream
     <= List.length (StdMap.equal_range (id event) phases))%nat /\
    Forall (pairs_phases catalog refEv event) evStream.
Proof.
  unfold phaseLoop.
  destruct (phaseLoop_from event (StdMap.equal_range (id event) phases) 0 [])
    as (ev' & Hrun & Hlen & Hall).
  - intros it Hit. apply in_map. exact Hit.
  - reflexivity.
  - pose proof (equal_range_length (id event) phases). simpl. lia.
  - constructor.
  - exists ev'. split; [exact Hrun|]. split; [simpl in Hlen; lia|exact Hall].
Qed.

Lemma eventLoop_sound : forall (evs : list (Z * Event)) (outStream : list Block),
  (forall kv, In kv evs -> In (snd kv) (map snd (getEvents catalog))) ->
  exists blocks,
    fold_left (eventTurn event_eq catalog refEv) evs (Some outStream)
    = Some (outStream ++ blocks) /\
    (List.length blocks <= List.length evs)%nat /\
    Forall (sound_block event_eq catalog refEv) blocks.
Proof.
  induction evs as [|kv rest IH]; intros outStream Hin.
  - exists []. simpl. rewrite app_nil_r. split; [reflexivity|]. split; [lia|constructor].
  - cbn [fold_left]. unfold eventTurn at 2. cbn [mbind option_bind]. cbv zeta.
    destruct (event_eq (snd kv) refEv) eqn:Eeq.
    + destruct (IH outStream) as (blocks & Hrun & Hlen & Hall).
      { intros kv' Hkv. apply Hin. now right. }
      exists blocks. split; [exact Hrun|]. split; [simpl; lia|exact Hall].
    + destruct (phaseLoop_sound (snd kv)) as (evStream & Hrun & Hlen & Hall).
      rewrite Hrun. cbn [mbind option_bind].
      destruct (Z.of_nat (List.length evStream) >? 0) eqn:Ec; cbv beta iota.
      * destruct (IH (outStream ++ [mkBlock (id refEv) (id (snd kv)) evStream]))
          as (blocks & Hrun' & Hlen' & Hall').
        { intros kv' Hkv. apply Hin. now right. }
        exists (mkBlock (id refEv) (id (snd kv)) evStream :: blocks).
        split; [rewrite Hrun', <- app_assoc; reflexivity|].
        split; [simpl; lia|].
        constructor; [|exact Hall'].
        split; [reflexivity|]. split.
        { simpl. intros ->. discriminate Ec. }
        exists (snd kv). simpl.
        split; [apply Hin; now left|]. split; [exact Eeq|]. split; [reflexivity|].
        split; [exact Hlen|exact Hall].
      * destruct (IH outStream) as (blocks & Hrun' & Hlen' & Hall').
        { intros kv' Hkv. apply Hin. now right. }
        exists blocks. split; [exact Hrun'|]. split; [simpl; lia|exact Hall'].
Qed.

End Loops.

(** X24. With no more phases than an [int] counts, [buildAbsTTimePairs]
    throws when the event to relocate is not in the catalog, and
    otherwise appends to the stream at most one block for each event of
    the catalog. Each block pairs the reference event with an event that
    [operator==] tells from it, and has at least one line and at most one
    line for each phase of that event. Each line pairs a phase of that
    event with a phase of the reference event at the same station and of
    the same type, and gives the two travel times, neither of which
    compares below 0, and the mean of the two weights. *)
Theorem buildAbsTTimePairs_blocks (event_eq : Event -> Event -> bool)
    (catalog : Catalog.t) (evToRelocateId : Z) (outStream : list Block) :
  Z.of_nat (List.length (getPhases catalog)) <= INT_MAX ->
  match StdMap.find evToRelocateId (getEvents catalog) with
  | None =>
      buildAbsTTimePairs event_eq catalog evToRelocateId outStream = Runtime_error
  | Some refEv =>
      exists blocks,
        buildAbsTTimePairs event_eq catalog evToRelocateId outStream
          = Written (outStream ++ blocks) /\
        (List.length blocks <= List.length (getEvents catalog))%nat /\
        Forall (sound_block event_eq catalog refEv) blocks
  end.
Proof.
  intros Hmax. unfold buildAbsTTimePairs.
  destruct (StdMap.find evToRelocateId (getEvents catalog)) as [refEv|]; [|reflexivity].
  destruct (eventLoop_sound event_eq catalog refEv Hmax (getEvents catalog) outStream)
    as (blocks & Hrun & Hlen & Hall).
  { intros kv Hkv. apply in_map. exact Hkv. }
  exists blocks. rewrite Hrun. split; [reflexivity|]. split; [exact Hlen|exact Hall].
Qed.

Example buildAbsTTimePairs_blocks_witness :
  exists blocks,
    buildAbsTTimePairs same_id two_events 1 [] = Written ([] ++ blocks) /\
    (List.length blocks <= List.length (getEvents two_events))%nat /\
    Forall (sound_block same_id two_events (mkEvent 1 0 (of_Z 46) (of_Z 7) (of_Z 5)))
           blocks.
Proof.
  apply (buildAbsTTimePairs_blocks same_id two_events 1 []).
  vm_compute. discriminate.
Defined.

End AbsTTimeFacts.

(* ===================================================================== *)
(** * The ratio of the two maxima *)
(* ===================================================================== *)

Module SNRWindowFacts.
Import Dbl DblFacts SNR SNRWindow.

Lemma at_finite data k x :
  Forall (fun x => isfinite x = true) data -> at_ data k = Some x ->
  exists q, x = Fin q.
Proof.
  intros Hfin H. unfold at_ in H. destruct (k <? 0); [discriminate|].
  apply list_elem_of_lookup_2 in H. apply list_elem_of_In in H.
  rewrite List.Forall_forall in Hfin. specialize (Hfin x H).
  destruct x as [| |q]; try discriminate. eauto.
Qed.

Lemma maxAbs_greatest data :
  Forall (fun x => isfinite x = true) data ->
  forall n i m r,
    maxAbs data i n (Fin m) = Some r ->
    exists q, r = Fin q /\ (m <= q)%Q /\
      (forall k, i <= k < i + Z.of_nat n ->
         exists x, at_ data k = Some (Fin x) /\ (Qabs x <= q)%Q) /\
      (q = m \/
       exists k x, i <= k < i + Z.of_nat n /\ at_ data k = Some (Fin x) /\ q = Qabs x).
Proof.
  intros Hfin. induction n as [|n IH]; intros i m r H.
  - simpl in H. injection H as <-. exists m. split; [reflexivity|].
    split; [lra|]. split; [intros k Hk; lia|now left].
  - cbn [maxAbs] in H. destruct (at_ data i) as [x0|] eqn:E0; [|discriminate].
    destruct (at_finite data i x0 Hfin E0) as [x ->].
    assert (Em : exists m', max (abs (Fin x)) (Fin m) = Fin m' /\
                   (m <= m')%Q /\ (Qabs x <= m')%Q /\ (m' = m \/ m' = Qabs x)).
    { unfold max. cbn [abs ltb]. destruct (Qltb (Qabs x) m) eqn:El.
      - apply Qltb_lt in El. exists m. repeat split; try lra. now left.
      - apply Qltb_nlt in El. exists (Qabs x). repeat split; try lra. now right. }
    destruct Em as (m' & Em & Hm1 & Hm2 & Hm3). rewrite Em in H.
    destruct (IH (i + 1) m' r H) as (q & -> & Hq & Hall & Hex).
    exists q. split; [reflexivity|]. split; [lra|]. split.
    + intros k Hk. destruct (Z.eq_dec k i) as [->|Hne].
      * exists x. split; [exact E0|lra].
      * apply Hall. lia.
    + destruct Hex as [->|(k & y & Hk & Hy & ->)].
      * destruct Hm3 as [->| ->]; [now left|].
        right. exists i, x. split; [lia|]. split; [exact E0|reflexivity].
      * right. exists k, y. split; [lia|]. split; [exact Hy|reflexivity].
Qed.

(** The loop of [S2Nratio] over a window, from -1. *)
Lemma maxAbs_window data lo hi r :
  Forall (fun x => isfinite x = true) data ->
  maxAbs data lo (Z.to_nat (hi - lo)) (of_Z (-1)) = Some r ->
  exists m, r = Fin m /\ greatest_abs data lo hi m.
Proof.
  intros Hfin H.
  destruct (maxAbs_greatest data Hfin _ _ _ _ H) as (q & -> & Hq & Hall & Hex).
  exists q. split; [reflexivity|]. split.
  - intros k Hk. apply Hall. lia.
  - destruct (lo <? hi) eqn:E.
    + apply Z.ltb_lt in E.
      destruct Hex as [->|(k & x & Hk & Hx & ->)].
      * destruct (Hall lo ltac:(lia)) as (x & _ & Hx).
        pose proof (Qabs_nonneg x). change (inject_Z (-1)) with (-1)%Q in Hx. lra.
      * exists k, x. split; [lia|]. split; [exact Hx|reflexivity].
    + apply Z.ltb_ge in E.
      destruct Hex as [->|(k & x & Hk & _)]; [reflexivity|lia].
Qed.

(** X25. On finite samples, a ratio that [S2Nratio] returns is the
    quotient, rounded, of two maxima: the greatest absolute value of the
    samples of the signal window over that of the samples of the noise
    window, each window running from its first sample position to the one
    before its last, and -1 standing for the maximum of a window without
    a sample. When both windows have a sample, the ratio can compare
    below a threshold only if some sample of the noise window is not
    zero, and it is then a number that is not negative: noise that is
    zero throughout gives an infinity or NaN, which no threshold
    exceeds. *)
Theorem S2Nratio_of_maxima (tr : GenericRecord.t) (pickTime : Q)
    (noiseOffsetStart noiseOffsetEnd signalOffsetStart signalOffsetEnd : double)
    (snr : double) :
  Forall (fun x => isfinite x = true) (GenericRecord.data tr) ->
  S2Nratio tr pickTime noiseOffsetStart noiseOffsetEnd
           signalOffsetStart signalOffsetEnd = Some (Ratio snr) ->
  let sample ofs :=
    cvttsd2si (secToSample (GenericRecord.samplingFrequency tr) (GenericRecord.size tr)
                 (add64 ofs (round64 (pickTime - GenericRecord.startTime tr)))) in
  let noiseStart := sample noiseOffsetStart in
  let noiseEnd := sample noiseOffsetEnd in
  let signalStart := sample signalOffsetStart in
  let signalEnd := sample signalOffsetEnd in
  exists noiseMax signalMax,
    greatest_abs (GenericRecord.data tr) noiseStart noiseEnd noiseMax /\
    greatest_abs (GenericRecord.data tr) signalStart signalEnd signalMax /\
    snr = div64 (Fin signalMax) (Fin noiseMax) /\
    (noiseStart < noiseEnd -> signalStart < signalEnd ->
     forall minSnr, ltb snr minSnr = true ->
       (0 < noiseMax)%Q /\ exists q, snr = Fin q /\ (0 <= q)%Q).
Proof.
  intros Hfin H sample a b c d. unfold S2Nratio in H.
  fold (sample noiseOffsetStart) (sample noiseOffsetEnd)
       (sample signalOffsetStart) (sample signalOffsetEnd) in H.
  fold a b c d in H.
  destruct ((min4 a b c d <? 0) || (max4 a b c d >=? GenericRecord.size tr));
    [discriminate|].
  destruct (maxAbs (GenericRecord.data tr) a (Z.to_nat (b - a)) (of_Z (-1)))
    as [nm|] eqn:En; [|discriminate].
  destruct (maxAbs (GenericRecord.data tr) c (Z.to_nat (d - c)) (of_Z (-1)))
    as [sm|] eqn:Es; [|discriminate].
  cbn [mbind option_bind] in H. injection H as <-.
  destruct (maxAbs_window _ _ _ _ Hfin En) as (noiseMax & -> & Hn).
  destruct (maxAbs_window _ _ _ _ Hfin Es) as (signalMax & -> & Hs).
  exists noiseMax, signalMax.
  repeat (split; [first [reflexivity|assumption]|]).
  intros Hab Hcd minSnr Hlt.
  assert (Hn0 : (0 <= noiseMax)%Q).
  { destruct Hn as [_ Hn]. destruct (a <? b) eqn:E; [|apply Z.ltb_ge in E; lia].
    destruct Hn as (k & x & _ & _ & ->). apply Qabs_nonneg. }
  assert (Hs0 : (0 <= signalMax)%Q).
  { destruct Hs as [_ Hs]. destruct (c <? d) eqn:E; [|apply Z.ltb_ge in E; lia].
    destruct Hs as (k & x & _ & _ & ->). apply Qabs_nonneg. }
  unfold div64, div, rounded in Hlt |- *.
  destruct (Qeqb noiseMax 0) eqn:E0.
  - exfalso. destruct (Qeqb signalMax 0) eqn:E1.
    + simpl in Hlt. discriminate.
    + assert (El : Qltb signalMax 0 = false) by (apply Qltb_nlt; exact Hs0).
      rewrite El in Hlt. destruct minSnr as [|[|]|]; simpl in Hlt; discriminate.
  - assert (Hpos : (0 < noiseMax)%Q).
    { destruct (Qlt_le_dec 0 noiseMax) as [Hp|Hp]; [exact Hp|].
      assert (Hz : (noiseMax == 0)%Q) by lra.
      apply Qeqb_eq in Hz. congruence. }
    split; [exact Hpos|].
    assert (Hquot : (0 <= signalMax / noiseMax)%Q).
    { apply Qle_shift_div_l; [exact Hpos|]. lra. }
    destruct (RoundFacts.round64_nonneg _ Hquot) as [E|(q & E & Hq)].
    + rewrite E in Hlt. destruct minSnr as [|[|]|]; simpl in Hlt; discriminate.
    + exists q. split; [exact E|exact Hq].
Qed.

Example S2Nratio_of_maxima_witness :
  exists noiseMax signalMax,
    greatest_abs (GenericRecord.data four_samples) 0 2 noiseMax /\
    greatest_abs (GenericRecord.data four_samples) 2 3 signalMax /\
    round64 (2 # 5) = div64 (Fin signalMax) (Fin noiseMax) /\
    (0 < 2 -> 2 < 3 ->
     forall minSnr, ltb (round64 (2 # 5)) minSnr = true ->
       (0 < noiseMax)%Q /\ exists q, round64 (2 # 5) = Fin q /\ (0 <= q)%Q).
Proof.
  apply (S2Nratio_of_maxima four_samples 1%Q (of_Z (-1)) (of_Z 1) (of_Z 1) (of_Z 100)
           (round64 (2 # 5))).
  - repeat constructor.
  - vm_compute. reflexivity.
Defined.

End SNRWindowFacts.
